(** * Hybrid packet traversal of a 4-wide BVH: embedding and properties

    Shallow embedding of
      - kernels/xeon/bvh4/bvh4_intersector4_hybrid.cpp
        (intersectBox, BVH4Intersector4Hybrid::intersect / occluded),
      - kernels/bvh/bvh_intersector_stream.cpp (AOStoSOA, intersect1 prologue),
      - the GPU stream intersector entry point (BVHNGPUIntersectorStream).

    Lane scalars are extended numbers: the finite values are exact (no
    rounding), together with the two infinities the driver uses as lane
    guards.  There is no NaN: rcp_safe keeps the slab arithmetic finite. *)

From Stdlib Require Import ZArith List Bool Lia.
Import ListNotations.
Open Scope Z_scope.

(** ** Lane scalars *)

Inductive flt : Type :=
| neg_inf : flt
| fin : Z -> flt
| pos_inf : flt.

(** [a < b] *)
Definition flt_ltb (a b : flt) : bool :=
  match a, b with
  | neg_inf, neg_inf => false
  | neg_inf, _ => true
  | fin _, neg_inf => false
  | fin x, fin y => x <? y
  | fin _, pos_inf => true
  | pos_inf, _ => false
  end.

(** [a <= b] *)
Definition flt_leb (a b : flt) : bool :=
  match a, b with
  | neg_inf, _ => true
  | fin _, neg_inf => false
  | fin x, fin y => x <=? y
  | fin _, pos_inf => true
  | pos_inf, pos_inf => true
  | pos_inf, _ => false
  end.

(** MINPS / MAXPS: [a < b ? a : b] and [a > b ? a : b]. *)
Definition fmin (a b : flt) : flt := if flt_ltb a b then a else b.
Definition fmax (a b : flt) : flt := if flt_ltb b a then a else b.

(** ** Four-lane SIMD values (ssef, ssei, sseb) *)

Inductive lane : Type := L0 | L1 | L2 | L3.

Record vec4 (A : Type) : Type := mk4 { v0 : A; v1 : A; v2 : A; v3 : A }.
Arguments mk4 {A} _ _ _ _.
Arguments v0 {A} _.
Arguments v1 {A} _.
Arguments v2 {A} _.
Arguments v3 {A} _.

Definition ssef := vec4 flt.
Definition ssei := vec4 Z.
Definition sseb := vec4 bool.

Definition get {A} (v : vec4 A) (l : lane) : A :=
  match l with L0 => v0 v | L1 => v1 v | L2 => v2 v | L3 => v3 v end.

Definition set {A} (v : vec4 A) (l : lane) (a : A) : vec4 A :=
  match l with
  | L0 => mk4 a (v1 v) (v2 v) (v3 v)
  | L1 => mk4 (v0 v) a (v2 v) (v3 v)
  | L2 => mk4 (v0 v) (v1 v) a (v3 v)
  | L3 => mk4 (v0 v) (v1 v) (v2 v) a
  end.

Definition splat {A} (a : A) : vec4 A := mk4 a a a a.

Definition vmap {A B} (f : A -> B) (v : vec4 A) : vec4 B :=
  mk4 (f (v0 v)) (f (v1 v)) (f (v2 v)) (f (v3 v)).

Definition vmap2 {A B C} (f : A -> B -> C) (a : vec4 A) (b : vec4 B) : vec4 C :=
  mk4 (f (v0 a) (v0 b)) (f (v1 a) (v1 b)) (f (v2 a) (v2 b)) (f (v3 a) (v3 b)).

(** [select(m,t,f)] *)
Definition select {A} (m : sseb) (t f : vec4 A) : vec4 A :=
  mk4 (if v0 m then v0 t else v0 f) (if v1 m then v1 t else v1 f)
      (if v2 m then v2 t else v2 f) (if v3 m then v3 t else v3 f).

Definition vlt (a b : ssef) : sseb := vmap2 flt_ltb a b.
Definition vle (a b : ssef) : sseb := vmap2 flt_leb a b.
Definition vgt (a b : ssef) : sseb := vmap2 (fun x y => flt_ltb y x) a b.
Definition vmin (a b : ssef) : ssef := vmap2 fmin a b.
Definition vmax (a b : ssef) : ssef := vmap2 fmax a b.
Definition vnot (a : sseb) : sseb := vmap negb a.
Definition vand (a b : sseb) : sseb := vmap2 andb a b.
Definition vor (a b : sseb) : sseb := vmap2 orb a b.

Definition any (m : sseb) : bool := v0 m || v1 m || v2 m || v3 m.
Definition none (m : sseb) : bool := negb (any m).
Definition all (m : sseb) : bool := v0 m && v1 m && v2 m && v3 m.

(** [movemask]: bit [i] of the result is lane [i]. *)
Definition movemask (m : sseb) : Z :=
  Z.b2z (v0 m) + 2 * Z.b2z (v1 m) + 4 * Z.b2z (v2 m) + 8 * Z.b2z (v3 m).

Definition popcnt (m : sseb) : Z :=
  Z.b2z (v0 m) + Z.b2z (v1 m) + Z.b2z (v2 m) + Z.b2z (v3 m).

Definition lane_index (l : lane) : Z :=
  match l with L0 => 0 | L1 => 1 | L2 => 2 | L3 => 3 end.

Definition lane_of_index (i : Z) : lane :=
  if i =? 0 then L0 else if i =? 1 then L1 else if i =? 2 then L2 else L3.

Definition inf : ssef := splat pos_inf.

(** [__bsf] and [__btc] on the 4-bit lane mask. *)
Definition bsf (bits : Z) : Z := Z.log2 (Z.land bits (- bits)).
Definition btc (bits i : Z) : Z := Z.lxor bits (Z.shiftl 1 i).

(** [for (i=__bsf(bits); bits!=0; bits=__btc(bits,i), i=__bsf(bits)) body(i)].
    A lane mask has at most four bits, which bounds the iteration count. *)
Fixpoint for_each_bit {S : Type} (n : nat) (bits : Z) (body : lane -> S -> S) (s : S) : S :=
  match n with
  | O => s
  | Datatypes.S n' =>
      if bits =? 0 then s
      else let i := bsf bits in
           for_each_bit n' (btc bits i) body (body (lane_of_index i) s)
  end.

(** ** Ray packet (Ray4) *)

Record sse3f : Type := mk3 { vx : vec4 Z; vy : vec4 Z; vz : vec4 Z }.

Record Ray4 : Type := mkRay4 {
  org : sse3f;  dir : sse3f;
  tnear : ssef; tfar : ssef;
  time : vec4 Z; mask : ssei;
  Ng : sse3f; u : vec4 Z; v : vec4 Z;
  geomID : ssei; primID : ssei; instID : ssei
}.

Definition set_tfar (r : Ray4) (t : ssef) : Ray4 :=
  mkRay4 (org r) (dir r) (tnear r) t (time r) (mask r)
         (Ng r) (u r) (v r) (geomID r) (primID r) (instID r).

Definition set_geomID (r : Ray4) (g : ssei) : Ray4 :=
  mkRay4 (org r) (dir r) (tnear r) (tfar r) (time r) (mask r)
         (Ng r) (u r) (v r) g (primID r) (instID r).

(** All the fields of one lane of the packet. *)
Record Ray1 : Type := mkRay1 {
  r_org : Z * Z * Z; r_dir : Z * Z * Z;
  r_tnear : flt; r_tfar : flt; r_time : Z; r_mask : Z;
  r_Ng : Z * Z * Z; r_u : Z; r_v : Z;
  r_geomID : Z; r_primID : Z; r_instID : Z
}.

Definition get3 (a : sse3f) (l : lane) : Z * Z * Z :=
  (get (vx a) l, get (vy a) l, get (vz a) l).

Definition ray_lane (r : Ray4) (l : lane) : Ray1 :=
  mkRay1 (get3 (org r) l) (get3 (dir r) l) (get (tnear r) l) (get (tfar r) l)
         (get (time r) l) (get (mask r) l) (get3 (Ng r) l) (get (u r) l) (get (v r) l)
         (get (geomID r) l) (get (primID r) l) (get (instID r) l).

(** The hit fields of one lane: what a primitive intersector may write. *)
Definition hit_lane (r : Ray4) (l : lane) : flt * (Z * Z * Z) * Z * Z * Z * Z * Z :=
  (get (tfar r) l, get3 (Ng r) l, get (u r) l, get (v r) l,
   get (geomID r) l, get (primID r) l, get (instID r) l).

(** [store4i(mask,ptr,value)]: masked store of [value] through [ptr]. *)
Definition store4i (m : sseb) (old : ssei) (value : ssei) : ssei := select m value old.

(** ** BVH4 nodes *)

(** Six packed coordinate rows; entry [i] of each row is child [i]'s bound. *)
Record Boxes : Type := mkBoxes {
  lower_x : vec4 Z; lower_y : vec4 Z; lower_z : vec4 Z;
  upper_x : vec4 Z; upper_y : vec4 Z; upper_z : vec4 Z
}.

Section BVH.
Variable Primitive : Type.

Inductive NodeRef : Type :=
  | emptyNode : NodeRef
  | invalidNode : NodeRef
  | Node (c0 c1 c2 c3 : NodeRef) (b : Boxes) : NodeRef
  | NodeMB (c0 c1 c2 c3 : NodeRef) (b : Boxes) (db : Boxes) : NodeRef
  | Leaf (prims : list Primitive) : NodeRef.

Definition is_emptyNode (n : NodeRef) : bool :=
    match n with emptyNode => true | _ => false end.
Definition is_invalidNode (n : NodeRef) : bool :=
    match n with invalidNode => true | _ => false end.
Definition isNode (n : NodeRef) : bool :=
    match n with Node _ _ _ _ _ => true | _ => false end.
Definition isNodeMB (n : NodeRef) : bool :=
    match n with NodeMB _ _ _ _ _ _ => true | _ => false end.

  (** [curNode.leaf(items)]: the primitives of a leaf; the empty node is the
      leaf with no items. *)
Definition leaf (n : NodeRef) : list Primitive :=
    match n with Leaf prims => prims | _ => [] end.

Definition children (n : NodeRef) : vec4 NodeRef :=
    match n with
    | Node c0 c1 c2 c3 _ => mk4 c0 c1 c2 c3
    | NodeMB c0 c1 c2 c3 _ _ => mk4 c0 c1 c2 c3
    | _ => splat emptyNode
    end.

Definition boxes (n : NodeRef) : Boxes :=
    match n with
    | Node _ _ _ _ b => b
    | NodeMB _ _ _ _ b _ => b
    | _ => mkBoxes (splat 0) (splat 0) (splat 0) (splat 0) (splat 0) (splat 0)
    end.

Definition dboxes (n : NodeRef) : Boxes :=
    match n with
    | NodeMB _ _ _ _ _ db => db
    | _ => mkBoxes (splat 0) (splat 0) (splat 0) (splat 0) (splat 0) (splat 0)
    end.

  (** Number of internal levels below a reference. *)
Fixpoint depth (n : NodeRef) : nat :=
    match n with
    | Node c0 c1 c2 c3 _ | NodeMB c0 c1 c2 c3 _ _ =>
        Datatypes.S (Nat.max (Nat.max (depth c0) (depth c1)) (Nat.max (depth c2) (depth c3)))
    | _ => O
    end.

  (** Number of references in a subtree. *)
Fixpoint weight (n : NodeRef) : nat :=
    match n with
    | Node c0 c1 c2 c3 _ | NodeMB c0 c1 c2 c3 _ _ =>
        Datatypes.S (weight c0 + weight c1 + weight c2 + weight c3)
    | _ => 1%nat
    end.
End BVH.

Arguments emptyNode {Primitive}.
Arguments invalidNode {Primitive}.
Arguments Node {Primitive} _ _ _ _ _.
Arguments NodeMB {Primitive} _ _ _ _ _ _.
Arguments Leaf {Primitive} _.
Arguments is_emptyNode {Primitive} _.
Arguments is_invalidNode {Primitive} _.
Arguments isNode {Primitive} _.
Arguments isNodeMB {Primitive} _.
Arguments leaf {Primitive} _.
Arguments children {Primitive} _.
Arguments boxes {Primitive} _.
Arguments dboxes {Primitive} _.
Arguments depth {Primitive} _.
Arguments weight {Primitive} _.

(** ** Collaborators of the hybrid driver

    The primitive intersector (template parameter [PrimitiveIntersector4])
    and the single-ray walker ([BVH4Intersector4Single]) are supplied from
    outside the translation unit; the driver only calls them. *)

Record TravRay : Type := mkTravRay {
  ray_org : sse3f; ray_dir : sse3f; rdir : sse3f; org_rdir : sse3f;
  ray_tnear : ssef; nearXYZ : sse3f
}.

Record Kernels (Primitive : Type) : Type := mkKernels {
  Precalculations : Type;
  precalc : sseb -> Ray4 -> Precalculations;
  (** [PrimitiveIntersector4::intersect(valid,pre,ray,prim,items,geometry)] *)
  prim_intersect : sseb -> Precalculations -> Ray4 -> list Primitive -> Ray4;
  (** [PrimitiveIntersector4::occluded(valid,pre,ray,prim,items,geometry)] *)
  prim_occluded : sseb -> Precalculations -> Ray4 -> list Primitive -> sseb;
  (** [BVH4Intersector4Single::intersect1(bvh,root,k,pre,ray,...,ray_tfar,nearXYZ)] *)
  intersect1 : NodeRef Primitive -> lane -> Precalculations -> Ray4 -> TravRay -> ssef -> Ray4;
  (** [BVH4Intersector4Single::occluded1(bvh,root,k,pre,ray,...,ray_tfar,nearXYZ)] *)
  occluded1 : NodeRef Primitive -> lane -> Precalculations -> Ray4 -> TravRay -> ssef -> bool
}.

Arguments Precalculations {Primitive} _.
Arguments precalc {Primitive} _ _ _.
Arguments prim_intersect {Primitive} _ _ _ _ _.
Arguments prim_occluded {Primitive} _ _ _ _ _.
Arguments intersect1 {Primitive} _ _ _ _ _ _ _.
Arguments occluded1 {Primitive} _ _ _ _ _ _ _.

(** ** Slab tests *)

Definition SWITCH_THRESHOLD : Z := 3.

Definition vfin (a : vec4 Z) : ssef := vmap fin a.

(** [(bound - org) * rdir], the bound broadcast to all lanes. *)
Definition clip (bound : Z) (o r : vec4 Z) : ssef :=
  vfin (vmap2 (fun oo rr => (bound - oo) * rr) o r).

(** Static node, child [i]: the pair [(lhit, lnearP)] of lines 160-168, the
    branch compiled without [__AVX2__].  The [__AVX2__] branch (lines
    150-158) goes through [msub], [maxi] and [mini] of the SIMD header and
    is not embedded. *)
Definition box_node (tr : TravRay) (ray_tfar : ssef) (b : Boxes) (i : lane) : sseb * ssef :=
  let lclipMinX := clip (get (lower_x b) i) (vx (ray_org tr)) (vx (rdir tr)) in
  let lclipMinY := clip (get (lower_y b) i) (vy (ray_org tr)) (vy (rdir tr)) in
  let lclipMinZ := clip (get (lower_z b) i) (vz (ray_org tr)) (vz (rdir tr)) in
  let lclipMaxX := clip (get (upper_x b) i) (vx (ray_org tr)) (vx (rdir tr)) in
  let lclipMaxY := clip (get (upper_y b) i) (vy (ray_org tr)) (vy (rdir tr)) in
  let lclipMaxZ := clip (get (upper_z b) i) (vz (ray_org tr)) (vz (rdir tr)) in
  let lnearP := vmax (vmax (vmin lclipMinX lclipMaxX) (vmin lclipMinY lclipMaxY))
                     (vmin lclipMinZ lclipMaxZ) in
  let lfarP := vmin (vmin (vmax lclipMinX lclipMaxX) (vmax lclipMinY lclipMaxY))
                    (vmax lclipMinZ lclipMaxZ) in
  let lhit := vle (vmax lnearP (ray_tnear tr)) (vmin lfarP ray_tfar) in
  (lhit, lnearP).

(** [max(a,b,c,d)] and [min(a,b,c,d)] on four-lane values. *)
Definition vmax4 (a b c d : ssef) : ssef := vmax (vmax a b) (vmax c d).
Definition vmin4 (a b c d : ssef) : ssef := vmin (vmin a b) (vmin c d).

(** [base + ray.time * delta], per lane. *)
Definition lerp_bound (base delta : Z) (tm : vec4 Z) : vec4 Z :=
  vmap (fun t => base + t * delta) tm.

Definition clipv (bound o r : vec4 Z) : ssef :=
  vfin (mk4 ((v0 bound - v0 o) * v0 r) ((v1 bound - v1 o) * v1 r)
            ((v2 bound - v2 o) * v2 r) ((v3 bound - v3 o) * v3 r)).

(** [intersectBox(ray,ray_tfar,rdir,node,i,dist)] for motion-blur nodes:
    returns [(near <= far, dist)]. *)
Definition intersectBox (ray : Ray4) (ray_tfar : ssef) (rd : sse3f)
           (b db : Boxes) (i : lane) : sseb * ssef :=
  let lower_x := lerp_bound (get (lower_x b) i) (get (lower_x db) i) (time ray) in
  let lower_y := lerp_bound (get (lower_y b) i) (get (lower_y db) i) (time ray) in
  let lower_z := lerp_bound (get (lower_z b) i) (get (lower_z db) i) (time ray) in
  let upper_x := lerp_bound (get (upper_x b) i) (get (upper_x db) i) (time ray) in
  let upper_y := lerp_bound (get (upper_y b) i) (get (upper_y db) i) (time ray) in
  let upper_z := lerp_bound (get (upper_z b) i) (get (upper_z db) i) (time ray) in
  let dminx := clipv lower_x (vx (org ray)) (vx rd) in
  let dminy := clipv lower_y (vy (org ray)) (vy rd) in
  let dminz := clipv lower_z (vz (org ray)) (vz rd) in
  let dmaxx := clipv upper_x (vx (org ray)) (vx rd) in
  let dmaxy := clipv upper_y (vy (org ray)) (vy rd) in
  let dmaxz := clipv upper_z (vz (org ray)) (vz rd) in
  let dlowerx := vmin dminx dmaxx in
  let dlowery := vmin dminy dmaxy in
  let dlowerz := vmin dminz dmaxz in
  let dupperx := vmax dminx dmaxx in
  let duppery := vmax dminy dmaxy in
  let dupperz := vmax dminz dmaxz in
  let near := vmax4 dlowerx dlowery dlowerz (tnear ray) in
  let far := vmin4 dupperx duppery dupperz ray_tfar in
  (vle near far, near).

(** ** The hybrid driver *)

(** Compile-time configuration: the [types] template mask, the stack
    capacity [stackSizeChunk] (declared in the intersector's header),
    [SWITCH_THRESHOLD], [SWITCH_DURING_DOWN_TRAVERSAL] and the SIMD helper
    [rcp_safe]. *)
Record Config : Type := mkConfig {
  types : Z;
  stackSizeChunk : nat;
  threshold : Z;
  switch_during_down : bool;
  rcp_safe : sse3f -> sse3f
}.

(** Failed assertions and out-of-bounds stack accesses. *)
Inductive fault : Type :=
| StackUnderflow      (* assert(sptr_node > stack_node) *)
| StackOverflow       (* assert(sptr_node < stackEnd) *)
| SentinelNotBottom   (* assert(sptr_node == stack_node) *)
| MalformedRef.       (* leaf() of an internal node of a disabled variant *)

Section Driver.
Context {Primitive : Type}.
Variable cfg : Config.
Variable K : Kernels Primitive.

Definition StackItem : Type := NodeRef Primitive * ssef.

  (** Live part of [stack_node]/[stack_near], top first, with the register
      pair [(curNode, curDist)]. *)
Record Cursor : Type := mkCursor {
    c_stack : list StackItem; c_node : NodeRef Primitive; c_dist : ssef
  }.

  (** The loop over the children of one node (lines 144-196 and 223-256);
      [test i] is the slab test of child [i]. *)
Fixpoint child_loop (test : lane -> sseb * ssef) (ch : vec4 (NodeRef Primitive))
           (todo : list lane) (c : Cursor) : fault + Cursor :=
    match todo with
    | [] => inr c
    | i :: rest =>
        let child := get ch i in
        if is_emptyNode child then inr c
        else
          let '(lhit, lnearP) := test i in
          if any lhit then
            if (length (c_stack c) <? stackSizeChunk cfg)%nat then
              let childDist := select lhit lnearP inf in
              if any (vlt childDist (c_dist c))
              then child_loop test ch rest
                     (mkCursor ((c_node c, c_dist c) :: c_stack c) child childDist)
              else child_loop test ch rest
                     (mkCursor ((child, childDist) :: c_stack c) (c_node c) (c_dist c))
            else inl StackOverflow
          else child_loop test ch rest c
    end.

Definition lanes : list lane := [L0; L1; L2; L3].

Record State : Type := mkState {
    ray : Ray4;               (* the caller's packet, mutated in place *)
    ray_tfar : ssef;          (* working cull bound *)
    terminated : sseb;        (* any-hit only *)
    stack : list StackItem
  }.

Inductive Ctl : Type :=
  | AtPop : Ctl
  | AtDown (curNode : NodeRef Primitive) (curDist : ssef) : Ctl.

Inductive Outcome : Type :=
  | Running (s : State) (c : Ctl)
  | Finished (s : State)
  | Faulted (f : fault).

  (** What one pass of the inner [while(1)] does at an internal node. *)
Definition descend (s : State) (test : lane -> sseb * ssef)
             (curNode : NodeRef Primitive) : Outcome :=
    match stack s with
    | [] => Faulted StackUnderflow
    | (n', d') :: rest =>
        match child_loop test (children curNode) lanes (mkCursor rest n' d') with
        | inl f => Faulted f
        | inr c =>
            if switch_during_down cfg
               && (popcnt (vgt (ray_tfar s) (c_dist c)) <=? threshold cfg)
            then
              if (length (c_stack c) <? stackSizeChunk cfg)%nat
              then Running (mkState (ray s) (ray_tfar s) (terminated s)
                                    ((c_node c, c_dist c) :: c_stack c)) AtPop
              else Faulted StackOverflow
            else Running (mkState (ray s) (ray_tfar s) (terminated s) (c_stack c))
                         (AtDown (c_node c) (c_dist c))
        end
    end.

  (** Which branch of the inner loop applies to [curNode]. *)
Inductive NodeKind : Type := KNode | KNodeMB | KSentinel | KLeaf | KMalformed.

Definition classify (curNode : NodeRef Primitive) : NodeKind :=
    if Z.testbit (types cfg) 0 && isNode curNode then KNode
    else if Z.testbit (types cfg) 4 && isNodeMB curNode then KNodeMB
    else if is_invalidNode curNode then KSentinel
    else if isNode curNode || isNodeMB curNode then KMalformed
    else KLeaf.

Definition finish_at_sentinel (s : State) : Outcome :=
    match stack s with
    | [] => Finished s
    | _ => Faulted SentinelNotBottom
    end.

  (** *** Closest hit *)

Definition intersect_step (tr : TravRay) (pre : Precalculations K)
             (s : State) (c : Ctl) : Outcome :=
    match c with
    | AtPop =>
        match stack s with
        | [] => Faulted StackUnderflow
        | (curNode, curDist) :: rest =>
            let s' := mkState (ray s) (ray_tfar s) (terminated s) rest in
            if is_invalidNode curNode then finish_at_sentinel s'
            else
              let active := vlt curDist (ray_tfar s) in
              if none active then Running s' AtPop
              else if popcnt active <=? threshold cfg then
                let ray' := for_each_bit 4 (movemask active)
                              (fun i r => intersect1 K curNode i pre r tr (ray_tfar s))
                              (ray s) in
                Running (mkState ray' (vmin (ray_tfar s) (tfar ray')) (terminated s) rest)
                        AtPop
              else Running s' (AtDown curNode curDist)
        end
    | AtDown curNode curDist =>
        match classify curNode with
        | KNode => descend s (box_node tr (ray_tfar s) (boxes curNode)) curNode
        | KNodeMB =>
            descend s (intersectBox (ray s) (ray_tfar s) (rdir tr)
                                       (boxes curNode) (dboxes curNode)) curNode
        | KSentinel => finish_at_sentinel s
        | KMalformed => Faulted MalformedRef
        | KLeaf =>
            let valid_leaf := vgt (ray_tfar s) curDist in
            let ray' := prim_intersect K valid_leaf pre (ray s) (leaf curNode) in
            Running (mkState ray' (select valid_leaf (tfar ray') (ray_tfar s))
                             (terminated s) (stack s)) AtPop
        end
    end.

  (** *** Any hit *)

Definition occluded_step (tr : TravRay) (pre : Precalculations K)
             (s : State) (c : Ctl) : Outcome :=
    match c with
    | AtPop =>
        match stack s with
        | [] => Faulted StackUnderflow
        | (curNode, curDist) :: rest =>
            let s' := mkState (ray s) (ray_tfar s) (terminated s) rest in
            if is_invalidNode curNode then finish_at_sentinel s'
            else
              let active := vlt curDist (ray_tfar s) in
              if none active then Running s' AtPop
              else if popcnt active <=? threshold cfg then
                let term' := for_each_bit 4 (movemask active)
                               (fun i t =>
                                  if occluded1 K curNode i pre (ray s) tr (ray_tfar s)
                                  then set t i true else t)
                               (terminated s) in
                if all term' then Finished (mkState (ray s) (ray_tfar s) term' rest)
                else Running (mkState (ray s) (select term' (splat neg_inf) (ray_tfar s))
                                      term' rest) AtPop
              else Running s' (AtDown curNode curDist)
        end
    | AtDown curNode curDist =>
        match classify curNode with
        | KNode => descend s (box_node tr (ray_tfar s) (boxes curNode)) curNode
        | KNodeMB =>
            descend s (intersectBox (ray s) (ray_tfar s) (rdir tr)
                                       (boxes curNode) (dboxes curNode)) curNode
        | KSentinel => finish_at_sentinel s
        | KMalformed => Faulted MalformedRef
        | KLeaf =>
            let term' := vor (terminated s)
                             (prim_occluded K (vnot (terminated s)) pre (ray s) (leaf curNode)) in
            if all term' then Finished (mkState (ray s) (ray_tfar s) term' (stack s))
            else Running (mkState (ray s) (select term' (splat neg_inf) (ray_tfar s))
                                  term' (stack s)) AtPop
        end
    end.

  (** Iterating a step function; [fuel] bounds the number of steps. *)
Fixpoint run (step : State -> Ctl -> Outcome) (fuel : nat) (o : Outcome) : Outcome :=
    match fuel with
    | O => o
    | S fuel' =>
        match o with
        | Running s c => run step fuel' (step s c)
        | _ => o
        end
    end.

Definition mul3 (a b : sse3f) : sse3f :=
    mk3 (vmap2 Z.mul (vx a) (vx b)) (vmap2 Z.mul (vy a) (vy b)) (vmap2 Z.mul (vz a) (vz b)).

Definition near_offsets (rd : sse3f) : sse3f :=
    mk3 (vmap (fun r => if 0 <=? r then 0 * 16 else 1 * 16) (vx rd))
        (vmap (fun r => if 0 <=? r then 2 * 16 else 3 * 16) (vy rd))
        (vmap (fun r => if 0 <=? r then 4 * 16 else 5 * 16) (vz rd)).

  (** "load ray" (lines 69-84 and 293-308). *)
Definition load_ray (valid : sseb) (r : Ray4) : TravRay :=
    let rd := rcp_safe cfg (dir r) in
    mkTravRay (org r) (dir r) rd (mul3 (org r) rd)
              (select valid (tnear r) (splat pos_inf))
              (near_offsets rd).

  (** "allocate stack and push root node". *)
Definition init_state (valid : sseb) (term0 : sseb) (root : NodeRef Primitive)
             (r : Ray4) : State :=
    mkState r (select valid (tfar r) (splat neg_inf)) term0
            [(root, ray_tnear (load_ray valid r)); (invalidNode, inf)].

Definition intersect_run (fuel : nat) (valid : sseb) (root : NodeRef Primitive)
             (r : Ray4) : Outcome :=
    run (intersect_step (load_ray valid r) (precalc K valid r)) fuel
        (Running (init_state valid (splat false) root r) AtPop).

Definition occluded_run (fuel : nat) (valid : sseb) (root : NodeRef Primitive)
             (r : Ray4) : Outcome :=
    run (occluded_step (load_ray valid r) (precalc K valid r)) fuel
        (Running (init_state valid (vnot valid) root r) AtPop).

  (** [store4i(valid & terminated,&ray.geomID,0)] on the way out. *)
Definition commit_occluded (valid : sseb) (s : State) : Ray4 :=
    set_geomID (ray s) (store4i (vand valid (terminated s)) (geomID (ray s)) (splat 0)).

  (** [intersect(valid_i,bvh,ray)]: [None] when [fuel] steps do not suffice. *)
Definition intersect (fuel : nat) (valid : sseb) (root : NodeRef Primitive)
             (r : Ray4) : option (fault + Ray4) :=
    match intersect_run fuel valid root r with
    | Running _ _ => None
    | Finished s => Some (inr (ray s))
    | Faulted f => Some (inl f)
    end.

  (** [occluded(valid_i,bvh,ray)]. *)
Definition occluded (fuel : nat) (valid : sseb) (root : NodeRef Primitive)
             (r : Ray4) : option (fault + Ray4) :=
    match occluded_run fuel valid root r with
    | Running _ _ => None
    | Finished s => Some (inr (commit_occluded valid s))
    | Faulted f => Some (inl f)
    end.
End Driver.

Arguments StackItem : clear implicits.
Arguments Cursor : clear implicits.
Arguments State : clear implicits.
Arguments Ctl : clear implicits.
Arguments Outcome : clear implicits.
Arguments AtPop {Primitive}.
Arguments Faulted {Primitive} _.

(** ** Single-ray walker *)

Definition only (i : lane) : sseb := set (splat false) i true.

(** Insertion of a hit child into a list ranked by near distance. *)
Fixpoint rank_insert (k : lane) (d : flt) (l : list (lane * flt)) : list (lane * flt) :=
  match l with
  | [] => [(k, d)]
  | (k', d') :: rest =>
      if flt_ltb d d' then (k, d) :: l else (k', d') :: rank_insert k d rest
  end.

Section Single.
Context {Primitive : Type}.
Variable Pre : Type.
Variable p_intersect : sseb -> Pre -> Ray4 -> list Primitive -> Ray4.
Variable p_occluded : sseb -> Pre -> Ray4 -> list Primitive -> sseb.

  (** The hit children of one node for lane [i], nearest first; iteration
      stops at the first empty child. *)
Fixpoint ranked_children (test : lane -> sseb * ssef) (ch : vec4 (NodeRef Primitive))
           (i : lane) (todo : list lane) : list (lane * flt) :=
    match todo with
    | [] => []
    | k :: rest =>
        if is_emptyNode (get ch k) then []
        else
          let '(hit, near) := test k in
          let others := ranked_children test ch i rest in
          if get hit i then rank_insert k (get near i) others else others
    end.

  (** Modelled from the spec: the single-ray closest-hit walker of section
      4.3 ([BVH4Intersector4Single::intersect1], whose definition is in a
      header outside this translation unit).  Hit children are visited
      nearest first; a leaf calls the primitive intersector for lane [i]
      only. *)
Fixpoint walk_intersect1 (n : NodeRef Primitive) (i : lane) (pre : Pre)
           (tr : TravRay) (r : Ray4) : Ray4 :=
    match n with
    | Node c0 c1 c2 c3 b =>
        fold_left
          (fun acc kd =>
             match fst kd with
             | L0 => walk_intersect1 c0 i pre tr acc
             | L1 => walk_intersect1 c1 i pre tr acc
             | L2 => walk_intersect1 c2 i pre tr acc
             | L3 => walk_intersect1 c3 i pre tr acc
             end)
          (ranked_children (box_node tr (tfar r) b) (mk4 c0 c1 c2 c3) i [L0; L1; L2; L3])
          r
    | NodeMB c0 c1 c2 c3 b db =>
        fold_left
          (fun acc kd =>
             match fst kd with
             | L0 => walk_intersect1 c0 i pre tr acc
             | L1 => walk_intersect1 c1 i pre tr acc
             | L2 => walk_intersect1 c2 i pre tr acc
             | L3 => walk_intersect1 c3 i pre tr acc
             end)
          (ranked_children (intersectBox r (tfar r) (rdir tr) b db) (mk4 c0 c1 c2 c3) i
                           [L0; L1; L2; L3])
          r
    | Leaf prims => p_intersect (only i) pre r prims
    | emptyNode => p_intersect (only i) pre r []
    | invalidNode => r
    end.

  (** Modelled from the spec: the single-ray any-hit walker of section 4.3
      ([BVH4Intersector4Single::occluded1]); it reports whether lane [i] is
      occluded below [n]. *)
Fixpoint walk_occluded1 (n : NodeRef Primitive) (i : lane) (pre : Pre)
           (tr : TravRay) (r : Ray4) (ray_tfar : ssef) : bool :=
    match n with
    | Node c0 c1 c2 c3 b =>
        existsb
          (fun kd =>
             match fst kd with
             | L0 => walk_occluded1 c0 i pre tr r ray_tfar
             | L1 => walk_occluded1 c1 i pre tr r ray_tfar
             | L2 => walk_occluded1 c2 i pre tr r ray_tfar
             | L3 => walk_occluded1 c3 i pre tr r ray_tfar
             end)
          (ranked_children (box_node tr ray_tfar b) (mk4 c0 c1 c2 c3) i [L0; L1; L2; L3])
    | NodeMB c0 c1 c2 c3 b db =>
        existsb
          (fun kd =>
             match fst kd with
             | L0 => walk_occluded1 c0 i pre tr r ray_tfar
             | L1 => walk_occluded1 c1 i pre tr r ray_tfar
             | L2 => walk_occluded1 c2 i pre tr r ray_tfar
             | L3 => walk_occluded1 c3 i pre tr r ray_tfar
             end)
          (ranked_children (intersectBox r ray_tfar (rdir tr) b db) (mk4 c0 c1 c2 c3) i
                           [L0; L1; L2; L3])
    | Leaf prims => get (p_occluded (only i) pre r prims) i
    | emptyNode => get (p_occluded (only i) pre r []) i
    | invalidNode => false
    end.
End Single.

(** ** A concrete primitive intersector for the examples

    A primitive is given by the distance at which each lane's ray meets it
    ([pos_inf] for a miss) and an identifier. *)

Record Facet : Type := mkFacet { facet_t : ssef; facet_id : Z }.

(** Modelled from the spec: a primitive intersector as the ordering
    guarantees ask of it (the intersectors themselves are template
    arguments defined outside this translation unit).  One primitive against
    the packet: lanes of [valid] with [tnear < t < tfar] take the hit, so the
    minimum [tfar] is kept. *)
Definition facet_intersect (valid : sseb) (r : Ray4) (p : Facet) : Ray4 :=
  let m := vand valid (vand (vlt (tnear r) (facet_t p)) (vlt (facet_t p) (tfar r))) in
  mkRay4 (org r) (dir r) (tnear r) (select m (facet_t p) (tfar r)) (time r) (mask r)
         (Ng r) (u r) (v r)
         (select m (splat 0) (geomID r)) (select m (splat (facet_id p)) (primID r))
         (instID r).

Definition facets_intersect (valid : sseb) (pre : unit) (r : Ray4) (ps : list Facet) : Ray4 :=
  fold_left (facet_intersect valid) ps r.

Definition facet_occluded (valid : sseb) (r : Ray4) (p : Facet) : sseb :=
  vand valid (vand (vlt (tnear r) (facet_t p)) (vlt (facet_t p) (tfar r))).

Definition facets_occluded (valid : sseb) (pre : unit) (r : Ray4) (ps : list Facet) : sseb :=
  fold_left (fun acc p => vor acc (facet_occluded valid r p)) ps (splat false).

Definition facet_kernels : Kernels Facet :=
  mkKernels Facet unit (fun _ _ => tt)
    facets_intersect facets_occluded
    (fun n i pre r tr _ => walk_intersect1 unit facets_intersect n i pre tr r)
    (fun n i pre r tr tf => walk_occluded1 unit facets_occluded n i pre tr r tf).

(** Reciprocal for the axis-aligned example rays: directions are -1, 0 or
    1, and a zero component maps to a large value of positive sign. *)
Definition rcp_axis (d : sse3f) : sse3f :=
  let f := fun x => if x =? 0 then 1000000 else x in
  mk3 (vmap f (vx d)) (vmap f (vy d)) (vmap f (vz d)).

(** A configuration whose stack holds [4*maxDepth+1] entries: all node
    variants enabled, the source's threshold and mid-traversal switch. *)
Definition sample_config (maxDepth : nat) : Config :=
  mkConfig 17 (4 * maxDepth + 1) SWITCH_THRESHOLD true rcp_axis.

(** ** Stream intersector: AOS to SOA repacking *)

Module Stream.

  (** One input ray (AOS form). *)
Record Ray : Type := mkRay {
    org : Z * Z * Z; dir : Z * Z * Z;
    tnear : flt; tfar : flt;
    time : Z; mask : Z;
    geomID : Z; primID : Z; instID : Z
  }.

  (** [RayK<K>]: every field is an array of [K] slots. *)
Record RayK : Type := mkRayK {
    k_org_x : list Z; k_org_y : list Z; k_org_z : list Z;
    k_dir_x : list Z; k_dir_y : list Z; k_dir_z : list Z;
    k_tnear : list flt; k_tfar : list flt;
    k_time : list Z; k_mask : list Z;
    k_geomID : list Z; k_primID : list Z; k_instID : list Z
  }.

  (** [l[i] = a]; the index is in range wherever the code writes. *)
Fixpoint upd {A : Type} (l : list A) (i : nat) (a : A) : list A :=
    match l, i with
    | [], _ => []
    | _ :: t, O => a :: t
    | h :: t, S i' => h :: upd t i' a
    end.

  (** Scalar [max(a,b) = a<b ? b : a]. *)
Definition smax (a b : flt) : flt := if flt_ltb a b then b else a.
Definition zmin (a b : Z) : Z := if a <? b then a else b.
Definition zmax (a b : Z) : Z := if a <? b then b else a.

  (** [new (&rayK[i]) RayK<K>(zero,zero,zero,neg_inf)], built in place over
      the slot [old]: origin, direction, tnear and tfar are the arguments;
      the constructor's defaults fill the rest, [time = 0] and
      [mask = geomID = primID = instID = -1]. *)
Definition construct (K : nat) (old : RayK) : RayK :=
    mkRayK (repeat 0 K) (repeat 0 K) (repeat 0 K)
           (repeat 0 K) (repeat 0 K) (repeat 0 K)
           (repeat (fin 0) K) (repeat neg_inf K)
           (repeat 0 K) (repeat (-1) K)
           (repeat (-1) K) (repeat (-1) K) (repeat (-1) K).

Fixpoint construct_packets (K : nat) (numPackets : nat) (rayK : list RayK) : list RayK :=
    match numPackets, rayK with
    | S n, p :: rest => construct K p :: construct_packets K n rest
    | _, _ => rayK
    end.

  (** The body of the copy loop for ray [i] (lines 68-85). *)
Definition store_slot (slotID : nat) (r : Ray) (p : RayK) : RayK :=
    let '(ox, oy, oz) := org r in
    let '(dx, dy, dz) := dir r in
    let tn := smax (fin 0) (tnear r) in
    let tf := tfar r in
    mkRayK (upd (k_org_x p) slotID ox) (upd (k_org_y p) slotID oy) (upd (k_org_z p) slotID oz)
           (upd (k_dir_x p) slotID dx) (upd (k_dir_y p) slotID dy) (upd (k_dir_z p) slotID dz)
           (upd (k_tnear p) slotID tn) (upd (k_tfar p) slotID tf)
           (k_time p) (upd (k_mask p) slotID (mask r))
           (k_geomID p) (k_primID p) (upd (k_instID p) slotID (instID r)).

Definition copy_ray (K : nat) (i : nat) (r : Ray) (rayK : list RayK) : list RayK :=
    let packetID := (i / K)%nat in
    let slotID := (i mod K)%nat in
    match nth_error rayK packetID with
    | Some p => upd rayK packetID (store_slot slotID r p)
    | None => rayK
    end.

  (** Loop state: the packets and the running [min_dir]/[max_dir]. *)
Definition dir_min (m : flt * flt * flt) (d : Z * Z * Z) : flt * flt * flt :=
    let '(mx, my, mz) := m in
    let '(dx, dy, dz) := d in
    (fmin mx (fin dx), fmin my (fin dy), fmin mz (fin dz)).
Definition dir_max (m : flt * flt * flt) (d : Z * Z * Z) : flt * flt * flt :=
    let '(mx, my, mz) := m in
    let '(dx, dy, dz) := d in
    (fmax mx (fin dx), fmax my (fin dy), fmax mz (fin dz)).

Fixpoint copy_loop (K : nat) (i : nat) (rays : list Ray)
           (st : list RayK * (flt * flt * flt) * (flt * flt * flt))
    : list RayK * (flt * flt * flt) * (flt * flt * flt) :=
    match rays with
    | [] => st
    | r :: rest =>
        let '(rayK, mn, mx) := st in
        copy_loop K (S i) rest (copy_ray K i r rayK, dir_min mn (dir r), dir_max mx (dir r))
    end.

Definition sign_mask (m : flt * flt * flt) : Z :=
    let '(a, b, c) := m in
    Z.b2z (flt_ltb a (fin 0)) + 2 * Z.b2z (flt_ltb b (fin 0)) + 4 * Z.b2z (flt_ltb c (fin 0)).

  (** [AOStoSOA<K>(rayK,inputRays,numTotalRays)]: the repacked packets and
      the returned octant-mix mask. *)
Definition AOStoSOA (K : nat) (rayK : list RayK) (inputRays : list Ray)
             (numTotalRays : nat) : list RayK * Z :=
    let numPackets := ((numTotalRays + K - 1) / K)%nat in
    let rayK0 := construct_packets K numPackets rayK in
    let '(rayK', mn, mx) :=
      copy_loop K 0 (firstn numTotalRays inputRays)
                (rayK0, (pos_inf, pos_inf, pos_inf), (neg_inf, neg_inf, neg_inf)) in
    (rayK', Z.land (Z.lxor (sign_mask mn) (sign_mask mx)) 7).

  (** [ray_near = max(ray.tnear,0.0f)] in [intersect1] (line 592). *)
Definition intersect1_ray_near (r : Ray) : flt := smax (tnear r) (fin 0).

  (** A ray whose negative tnear has been replaced by 0. *)
Definition clamp_tnear (r : Ray) : Ray :=
    mkRay (org r) (dir r) (smax (fin 0) (tnear r)) (tfar r)
          (time r) (mask r) (geomID r) (primID r) (instID r).

  (** [rayK[i / K].field[i % K]] *)
Definition slot {A : Type} (K : nat) (f : RayK -> list A) (rayK : list RayK) (i : nat)
  : option A :=
  match nth_error rayK (i / K) with
  | Some p => nth_error (f p) (i mod K)
  | None => None
  end.

(** Packets below [np] have [K] slots in field [f]. *)
Definition sized {A : Type} (K : nat) (f : RayK -> list A) (np : nat)
           (rayK : list RayK) : Prop :=
  forall q p, (q < np)%nat -> nth_error rayK q = Some p -> length (f p) = K.

(** Example input: two rays, the first with a negative tnear. *)
Definition ray_behind : Ray :=
  mkRay (1, 2, 3) (0, 0, 1) (fin (-5)) (fin 100) 0 (-1) (-1) (-1) (-1).
Definition ray_ahead : Ray :=
  mkRay (4, 5, 6) (0, 1, 0) (fin 2) (fin 50) 0 (-1) (-1) (-1) (-1).
Definition blank : RayK :=
  mkRayK [] [] [] [] [] [] [] [] [] [] [] [] [].

End Stream.

(** ** GPU stream intersector entry point *)

Module GPUStream.

  (** How a call leaves the function. *)
Inductive Exit (A : Type) : Type :=
  | Returned (a : A)      (* control returns to the caller *)
  | ProcessExit (code : Z). (* [exit(code)]: the process ends *)
Arguments Returned {A} _.
Arguments ProcessExit {A} _.

  (** [BVHNGPUIntersectorStream::intersect] in a build without
      [EMBREE_DPCPP_SUPPORT]: the empty-root branch prints and calls
      [exit(0)]; otherwise the body is empty. *)
Definition intersect {Primitive RayHitN : Type} (root : NodeRef Primitive)
             (inputRays : list RayHitN) (numRays : nat) : Exit (list RayHitN) :=
    if is_emptyNode root then ProcessExit 0
    else Returned inputRays.

  (** [BVHNGPUIntersectorStream::occluded]: the body is compiled out. *)
Definition occluded {Primitive RayN : Type} (root : NodeRef Primitive)
             (inputRays : list RayN) (numRays : nat) : Exit (list RayN) :=
    Returned inputRays.

End GPUStream.


(** ** The slab test as the specification words it (section 4.1) *)

(** The six per-axis distances of one lane against one child box. *)
Record LaneSlab : Type := mkLaneSlab {
  t_min_x : flt; t_max_x : flt;
  t_min_y : flt; t_max_y : flt;
  t_min_z : flt; t_max_z : flt
}.

(** [t_near = max(tnear, min(t_min_x,t_max_x), min(t_min_y,t_max_y), min(t_min_z,t_max_z))] *)
Definition spec_t_near (tn : flt) (s : LaneSlab) : flt :=
  fmax (fmax (fmax tn (fmin (t_min_x s) (t_max_x s))) (fmin (t_min_y s) (t_max_y s)))
       (fmin (t_min_z s) (t_max_z s)).

(** [t_far = min(tfar, max(t_min_x,t_max_x), max(t_min_y,t_max_y), max(t_min_z,t_max_z))] *)
Definition spec_t_far (tf : flt) (s : LaneSlab) : flt :=
  fmin (fmin (fmin tf (fmax (t_min_x s) (t_max_x s))) (fmax (t_min_y s) (t_max_y s)))
       (fmax (t_min_z s) (t_max_z s)).

(** [hit_lane = (t_near <= t_far)] *)
Definition spec_hit (tn tf : flt) (s : LaneSlab) : bool :=
  flt_leb (spec_t_near tn s) (spec_t_far tf s).

(** [max(min x, min y, min z)]: the near distance before [tnear] is folded in. *)
Definition spec_box_near (s : LaneSlab) : flt :=
  fmax (fmax (fmin (t_min_x s) (t_max_x s)) (fmin (t_min_y s) (t_max_y s)))
       (fmin (t_min_z s) (t_max_z s)).

(** [t_axis = (box_axis - org_axis) * rdir_axis] *)
Definition axis_t (bound o r : Z) : flt := fin ((bound - o) * r).

(** Lane [l] against child [i] of a static node. *)
Definition static_slab (o rd : sse3f) (b : Boxes) (i l : lane) : LaneSlab :=
  mkLaneSlab
    (axis_t (get (lower_x b) i) (get (vx o) l) (get (vx rd) l))
    (axis_t (get (upper_x b) i) (get (vx o) l) (get (vx rd) l))
    (axis_t (get (lower_y b) i) (get (vy o) l) (get (vy rd) l))
    (axis_t (get (upper_y b) i) (get (vy o) l) (get (vy rd) l))
    (axis_t (get (lower_z b) i) (get (vz o) l) (get (vz rd) l))
    (axis_t (get (upper_z b) i) (get (vz o) l) (get (vz rd) l)).

(** Lane [l] against child [i] of a motion-blur node at the lane's time. *)
Definition mb_slab (o rd : sse3f) (tm : vec4 Z) (b db : Boxes) (i l : lane) : LaneSlab :=
  let at_time := fun base delta => base + get tm l * delta in
  mkLaneSlab
    (axis_t (at_time (get (lower_x b) i) (get (lower_x db) i)) (get (vx o) l) (get (vx rd) l))
    (axis_t (at_time (get (upper_x b) i) (get (upper_x db) i)) (get (vx o) l) (get (vx rd) l))
    (axis_t (at_time (get (lower_y b) i) (get (lower_y db) i)) (get (vy o) l) (get (vy rd) l))
    (axis_t (at_time (get (upper_y b) i) (get (upper_y db) i)) (get (vy o) l) (get (vy rd) l))
    (axis_t (at_time (get (lower_z b) i) (get (lower_z db) i)) (get (vz o) l) (get (vz rd) l))
    (axis_t (at_time (get (upper_z b) i) (get (upper_z db) i)) (get (vz o) l) (get (vz rd) l)).

(** ** Example data *)

Definition zero3 : sse3f := mk3 (splat 0) (splat 0) (splat 0).

(** Four rays from the origin along +z, [tnear = 0], [tfar = 100]. *)
Definition sample_ray : Ray4 :=
  mkRay4 zero3 (mk3 (splat 0) (splat 0) (splat 1))
         (splat (fin 0)) (splat (fin 100)) (splat 0) (splat (-1))
         zero3 (splat 0) (splat 0) (splat (-1)) (splat (-1)) (splat (-1)).

(** Every child box is [-1,1] x [-1,1] x [-1,3]: the origin lies inside. *)
Definition around_origin : Boxes :=
  mkBoxes (splat (-1)) (splat (-1)) (splat (-1)) (splat 1) (splat 1) (splat 3).

(** Every child box is [-1,1] x [-1,1] x [2,3]: in front of the origin. *)
Definition in_front : Boxes :=
  mkBoxes (splat (-1)) (splat (-1)) (splat 2) (splat 1) (splat 1) (splat 3).

Definition still : Boxes :=
  mkBoxes (splat 0) (splat 0) (splat 0) (splat 0) (splat 0) (splat 0).

(** A leaf with one primitive met by every lane at distance 5. *)
Definition wall : NodeRef Facet := Leaf [mkFacet (splat (fin 5)) 7].

Definition lane0_only : sseb := mk4 true false false false.

(** The driver state right after "push root node" for lane 0 alone. *)
Definition lane0_state : State Facet :=
  init_state (sample_config 2) lane0_only (vnot lane0_only) wall sample_ray.

(** ** Reasoning vocabulary for runs of the driver *)

Section Runs.
Context {Primitive : Type}.

(** The packet and working state an outcome carries, if any. *)
Definition outcome_state (o : Outcome Primitive) : option (State Primitive) :=
  match o with
  | Running s _ => Some s
  | Finished s => Some s
  | Faulted _ => None
  end.

Definition is_running (o : Outcome Primitive) : bool :=
  match o with Running _ _ => true | _ => false end.

(** [P] holds of the state of [o] while it runs, [Q] once it has finished. *)
Definition outcome_sat (P : State Primitive -> Ctl Primitive -> Prop)
           (Q : State Primitive -> Prop) (o : Outcome Primitive) : Prop :=
  match o with
  | Running s c => P s c
  | Finished s => Q s
  | Faulted _ => True
  end.

Definition stack_weight (stk : list (StackItem Primitive)) : nat :=
  fold_right (fun it acc => (weight (fst it) + acc)%nat) O stk.

Definition children_weight (ch : vec4 (NodeRef Primitive)) (todo : list lane) : nat :=
  fold_right (fun i acc => (weight (get ch i) + acc)%nat) O todo.

(** Termination measure: twice the number of references still to visit,
    plus one while a pop is pending. *)
Definition measure (o : Outcome Primitive) : nat :=
  match o with
  | Running s AtPop => S (2 * stack_weight (stack s))
  | Running s (AtDown n _) => (2 * (weight n + stack_weight (stack s)))%nat
  | _ => O
  end.

(** The contract of the collaborators: a primitive intersector writes only
    lanes of its valid mask and only lowers tfar; the single-ray walker
    writes only its own lane and only lowers tfar. *)
Record KernelContract (K : Kernels Primitive) : Prop := mkKernelContract {
  prim_frame : forall valid pre r prims l,
      get valid l = false ->
      ray_lane (prim_intersect K valid pre r prims) l = ray_lane r l;
  prim_lowers : forall valid pre r prims l,
      flt_leb (get (tfar (prim_intersect K valid pre r prims)) l) (get (tfar r) l) = true;
  single_frame : forall n i pre r tr tf l,
      l <> i ->
      ray_lane (intersect1 K n i pre r tr tf) l = ray_lane r l;
  single_lowers : forall n i pre r tr tf l,
      flt_leb (get (tfar (intersect1 K n i pre r tr tf)) l) (get (tfar r) l) = true
}.
(** Closest hit: what the driver maintains for every lane.  The packet's
    tfar never exceeds its value at entry; on a valid lane the working bound
    is the packet's tfar; an invalid lane keeps the guard value and its
    fields. *)
Definition lane_inv (valid : sseb) (r0 : Ray4) (s : State Primitive) : Prop :=
  forall l,
    flt_leb (get (tfar (ray s)) l) (get (tfar r0) l) = true
    /\ (get valid l = true -> get (ray_tfar s) l = get (tfar (ray s)) l)
    /\ (get valid l = false ->
        get (ray_tfar s) l = neg_inf /\ ray_lane (ray s) l = ray_lane r0 l).

(** [s'] is no further than [s] in every lane. *)
Definition tfar_le (s s' : State Primitive) : Prop :=
  forall l,
    flt_leb (get (ray_tfar s') l) (get (ray_tfar s) l) = true
    /\ flt_leb (get (tfar (ray s')) l) (get (tfar (ray s)) l) = true.

(** Any hit: the packet is not written during the walk, terminated lanes
    carry the guard value, and invalid lanes are terminated from the start. *)
Definition term_inv (valid : sseb) (r0 : Ray4) (s : State Primitive) : Prop :=
  ray s = r0
  /\ forall l,
      (get (terminated s) l = true -> get (ray_tfar s) l = neg_inf)
      /\ (get valid l = false -> get (terminated s) l = true).
(** The terminated mask only gains lanes. *)
Definition term_le (s s' : State Primitive) : Prop :=
  forall l, get (terminated s) l = true -> get (terminated s') l = true.

(** What any-hit has established when it leaves the loop. *)
Definition term_exit (valid : sseb) (r0 : Ray4) (s : State Primitive) : Prop :=
  ray s = r0 /\ forall l, get valid l = false -> get (terminated s) l = true.
End Runs.

(** An all-ones / all-zeros mask lane read as an integer. *)
Definition mask_int (b : bool) : Z := if b then -1 else 0.

(** A packet whose hit indicator already reads 0 in every lane. *)
Definition stale_ray : Ray4 := set_geomID sample_ray (splat 0).


(** ** Stack occupancy *)

(** [tri h = h*(h+1)/2]. *)
Fixpoint tri (h : nat) : nat :=
  match h with
  | O => O
  | S k => (S k + tri k)%nat
  end.

(** Entries that two adjacent stack entries of depths [a] and [b] can grow
    into before one of them is used up. *)
Definition pair_bound (a b : nat) : nat :=
  (3 * tri (Nat.max a b) + 3 * Nat.min a b + 2)%nat.

(** Entries a traversal of a tree of depth [d] can put on the stack. *)
Definition stack_bound (d : nat) : nat := (3 * tri d + 2)%nat.

Section Occupancy.
Context {Primitive : Type}.

Definition stack_depths (stk : list (StackItem Primitive)) : list nat :=
  map (fun it => depth (fst it)) stk.

(** Depths of the register node (when there is one) and of the stack
    entries, top first. *)
Definition ext_depths (s : State Primitive) (c : Ctl Primitive) : list nat :=
  match c with
  | AtPop => stack_depths (stack s)
  | AtDown n _ => depth n :: stack_depths (stack s)
  end.

(** Every entry, together with whatever is left of the entries above it
    (of depth at most [pm]), still fits in [B]. *)
Fixpoint ext_ok (B : nat) (pm : nat) (hs : list nat) : Prop :=
  match hs with
  | [] => True
  | h :: rest => (length rest + pair_bound pm h <= B)%nat /\ ext_ok B (Nat.max pm h) rest
  end.

Definition depths_ok (B : nat) (hs : list nat) : Prop :=
  match hs with
  | [] => True
  | h :: rest => (S (length rest) <= B)%nat /\ ext_ok B h rest
  end.

Definition cursor_depths (c : Cursor Primitive) : list nat :=
  depth (c_node c) :: stack_depths (c_stack c).

(** Shape of the register and stack while the children of a node of depth
    [S a'] are processed: the entry of depth [b] popped ahead of the loop sits
    among at most [k] children (of depth at most [a']), above the untouched
    entries [R]. *)
Definition arranged (a' b : nat) (R : list nat) (k : nat) (hs : list nat) : Prop :=
  exists P1 P2,
    hs = P1 ++ b :: P2 ++ R
    /\ Forall (fun h => (h <= a')%nat) P1
    /\ Forall (fun h => (h <= a')%nat) P2
    /\ (length P1 + length P2 <= k)%nat.

(** Like [outcome_sat], with a condition on faults. *)
Definition outcome_sat_faults (P : State Primitive -> Ctl Primitive -> Prop)
           (F : fault -> Prop) (o : Outcome Primitive) : Prop :=
  match o with
  | Running s c => P s c
  | Finished _ => True
  | Faulted f => F f
  end.
End Occupancy.


(** Capacity [4*(4+1)+1] for trees of depth 4. *)
Definition config_depth4 : Config := mkConfig 17 21 SWITCH_THRESHOLD true rcp_axis.


(** ** Vocabulary for comparing traversal modes *)

(** Children visited by a child loop: those before the first empty one. *)
Fixpoint live_of {Primitive : Type} (ch : vec4 (NodeRef Primitive)) (todo : list lane)
  : list lane :=
  match todo with
  | [] => []
  | k :: rest => if is_emptyNode (get ch k) then [] else k :: live_of ch rest
  end.

(** The primitives a traversal can reach below a reference. *)
Fixpoint facets_under (n : NodeRef Facet) : list Facet :=
  match n with
  | Leaf ps => ps
  | Node c0 c1 c2 c3 _ | NodeMB c0 c1 c2 c3 _ _ =>
      flat_map (fun k => match k with
                         | L0 => facets_under c0
                         | L1 => facets_under c1
                         | L2 => facets_under c2
                         | L3 => facets_under c3
                         end)
               (live_of (mk4 c0 c1 c2 c3) [L0; L1; L2; L3])
  | _ => []
  end.

(** [min(max x, max y, max z)]: the far end of the box interval. *)
Definition spec_box_far (s : LaneSlab) : flt :=
  fmin (fmin (fmax (t_min_x s) (t_max_x s)) (fmax (t_min_y s) (t_max_y s)))
       (fmax (t_min_z s) (t_max_z s)).

(** The slab of lane [l] against child [k] of an internal node. *)
Definition child_slab (tr : TravRay) (r : Ray4) (n : NodeRef Facet) (k l : lane) : LaneSlab :=
  match n with
  | NodeMB _ _ _ _ b db => mb_slab (org r) (rdir tr) (time r) b db k l
  | _ => static_slab (ray_org tr) (rdir tr) (boxes n) k l
  end.

(** Lane [l] meets every primitive below child [k] inside the child's box
    interval. *)
Definition child_bounds (tr : TravRay) (r : Ray4) (l : lane) (n : NodeRef Facet) (k : lane)
  : Prop :=
  forall f, In f (facets_under (get (children n) k)) ->
            flt_ltb (get (tnear r) l) (get (facet_t f) l) = true ->
            flt_leb (spec_box_near (child_slab tr r n k l)) (get (facet_t f) l) = true
            /\ flt_leb (get (facet_t f) l) (spec_box_far (child_slab tr r n k l)) = true.

(** The tree bounds its primitives for lane [l]. *)
Fixpoint bounded (tr : TravRay) (r : Ray4) (l : lane) (n : NodeRef Facet) : Prop :=
  match n with
  | Node c0 c1 c2 c3 _ | NodeMB c0 c1 c2 c3 _ _ =>
      Forall (fun k => child_bounds tr r l n k
                       /\ match k with
                          | L0 => bounded tr r l c0
                          | L1 => bounded tr r l c1
                          | L2 => bounded tr r l c2
                          | L3 => bounded tr r l c3
                          end)
             (live_of (mk4 c0 c1 c2 c3) [L0; L1; L2; L3])
  | _ => True
  end.

(** One lane after taking a hit at distance [t] on primitive [id]. *)
Definition take_hit (x : Ray1) (t : flt) (id : Z) : Ray1 :=
  mkRay1 (r_org x) (r_dir x) (r_tnear x) t (r_time x) (r_mask x)
         (r_Ng x) (r_u x) (r_v x) 0 id (r_instID x).

(** Lane [l] of the packet after taking the hit of primitive [f]. *)
Definition facet_hit (r0 : Ray4) (l : lane) (f : Facet) : Ray1 :=
  take_hit (ray_lane r0 l) (get (facet_t f) l) (facet_id f).

(** [f] is a primitive of [F] that lane [l] meets within its interval. *)
Definition relevant (r0 : Ray4) (l : lane) (F : list Facet) (f : Facet) : Prop :=
  In f F
  /\ flt_ltb (get (tnear r0) l) (get (facet_t f) l) = true
  /\ flt_ltb (get (facet_t f) l) (get (tfar r0) l) = true.

(** The lane is as at entry or holds the hit of a relevant primitive. *)
Definition sound_lane (r0 : Ray4) (l : lane) (F : list Facet) (x : Ray1) : Prop :=
  x = ray_lane r0 l \/ exists f, relevant r0 l F f /\ x = facet_hit r0 l f.

(** No primitive of [F] is met nearer than [t]. *)
Definition complete_lane (r0 : Ray4) (l : lane) (F : list Facet) (t : flt) : Prop :=
  forall f, In f F ->
            flt_ltb (get (tnear r0) l) (get (facet_t f) l) = true ->
            flt_leb t (get (facet_t f) l) = true.

(** Primitives met at the same distance carry the same identifier. *)
Definition no_tie (r0 : Ray4) (l : lane) (F : list Facet) : Prop :=
  forall f g, relevant r0 l F f -> relevant r0 l F g ->
              get (facet_t f) l = get (facet_t g) l -> facet_id f = facet_id g.

(** The fields no primitive intersector writes. *)
Definition same_rays (r r0 : Ray4) : Prop :=
  org r = org r0 /\ dir r = dir r0 /\ tnear r = tnear r0 /\ time r = time r0.

Definition ext_entries (s : State Facet) (c : Ctl Facet) : list (StackItem Facet) :=
  match c with
  | AtPop => stack s
  | AtDown n d => (n, d) :: stack s
  end.

(** Every primitive that could still lower lane [l] sits below an entry
    whose near distance does not exceed the primitive's. *)
Definition pending (r0 : Ray4) (l : lane) (F : list Facet) (t : flt)
           (es : list (StackItem Facet)) : Prop :=
  forall f, In f F ->
            flt_ltb (get (tnear r0) l) (get (facet_t f) l) = true ->
            flt_ltb (get (facet_t f) l) t = true ->
            exists e, In e es /\ In f (facets_under (fst e))
                      /\ flt_leb (get (snd e) l) (get (facet_t f) l) = true.

(** Entries are parts of the tree, and bounded for lane [l]. *)
Definition entries_ok (tr : TravRay) (r0 : Ray4) (l : lane) (F : list Facet)
           (es : list (StackItem Facet)) : Prop :=
  forall e, In e es -> incl (facets_under (fst e)) F /\ bounded tr r0 l (fst e).

Definition cursor_entries (c : Cursor Facet) : list (StackItem Facet) :=
  (c_node c, c_dist c) :: c_stack c.

(** The entry a hit child enters the stack (or the register) with. *)
Definition child_entry (test : lane -> sseb * ssef) (ch : vec4 (NodeRef Facet)) (k : lane)
  : StackItem Facet :=
  (get ch k, select (fst (test k)) (snd (test k)) inf).

(** What pure packet traversal maintains for a valid lane [l]. *)
Definition packet_inv (tr : TravRay) (valid : sseb) (r0 : Ray4) (l : lane) (F : list Facet)
           (s : State Facet) (c : Ctl Facet) : Prop :=
  lane_inv valid r0 s
  /\ same_rays (ray s) r0
  /\ sound_lane r0 l F (ray_lane (ray s) l)
  /\ entries_ok tr r0 l F (ext_entries s c)
  /\ pending r0 l F (get (ray_tfar s) l) (ext_entries s c).

Definition packet_done (r0 : Ray4) (l : lane) (F : list Facet) (s : State Facet) : Prop :=
  sound_lane r0 l F (ray_lane (ray s) l)
  /\ complete_lane r0 l F (get (tfar (ray s)) l).

(** What the single-ray walker maintains for its lane [i]. *)
Definition walker_ok (r0 : Ray4) (i : lane) (F : list Facet) (r : Ray4) : Prop :=
  same_rays r r0 /\ sound_lane r0 i F (ray_lane r i).

(** The two configurations the claim compares. *)
Definition with_threshold (cfg : Config) (t : Z) : Config :=
  mkConfig (types cfg) (stackSizeChunk cfg) t (switch_during_down cfg) (rcp_safe cfg).

(** ** Example data for the mode comparison *)

(** Lane 0 looks along +z from the origin, lane 1 along -z from z = 10;
    lanes 2 and 3 repeat lane 0.  [tnear = 0], [tfar = 100]. *)
Definition facing_rays : Ray4 :=
  mkRay4 (mk3 (splat 0) (splat 0) (mk4 0 10 0 0))
         (mk3 (splat 0) (splat 0) (mk4 1 (-1) 1 1))
         (splat (fin 0)) (splat (fin 100)) (splat 0) (splat (-1))
         zero3 (splat 0) (splat 0) (splat (-1)) (splat (-1)) (splat (-1)).

Definition lanes01 : sseb := mk4 true true false false.

(** Child 0 spans z in [1,6], child 1 spans z in [4,9]; both span
    [-1,1] in x and y.  Children 2 and 3 are unused. *)
Definition overlapping : Boxes :=
  mkBoxes (splat (-1)) (splat (-1)) (mk4 1 4 0 0) (splat 1) (splat 1) (mk4 6 9 0 0).

(** Two primitives in the plane z = 5, one under each child: both lanes
    meet both at distance 5. *)
Definition tied_tree : NodeRef Facet :=
  Node (Leaf [mkFacet (splat (fin 5)) 1]) (Leaf [mkFacet (splat (fin 5)) 2])
       emptyNode emptyNode overlapping.

(** The same boxes with the primitives in the planes z = 5 and z = 6. *)
Definition untied_tree : NodeRef Facet :=
  Node (Leaf [mkFacet (mk4 (fin 5) (fin 5) (fin 5) (fin 5)) 1])
       (Leaf [mkFacet (mk4 (fin 6) (fin 4) (fin 6) (fin 6)) 2])
       emptyNode emptyNode overlapping.

(** ** Trees the driver can walk without a failed assertion *)

(** The reference is not the sentinel, the variant of every internal node
    is enabled in the [types] mask of the instantiation, and the same holds
    of the children the child loop visits (those before the first empty
    one). *)
Fixpoint well_formed {Primitive : Type} (cfg : Config) (n : NodeRef Primitive) : Prop :=
  match n with
  | invalidNode => False
  | Node c0 c1 c2 c3 _ =>
      Z.testbit (types cfg) 0 = true
      /\ Forall (fun k => match k with
                          | L0 => well_formed cfg c0
                          | L1 => well_formed cfg c1
                          | L2 => well_formed cfg c2
                          | L3 => well_formed cfg c3
                          end)
                (live_of (mk4 c0 c1 c2 c3) [L0; L1; L2; L3])
  | NodeMB c0 c1 c2 c3 _ _ =>
      Z.testbit (types cfg) 4 = true
      /\ Forall (fun k => match k with
                          | L0 => well_formed cfg c0
                          | L1 => well_formed cfg c1
                          | L2 => well_formed cfg c2
                          | L3 => well_formed cfg c3
                          end)
                (live_of (mk4 c0 c1 c2 c3) [L0; L1; L2; L3])
  | _ => True
  end.

Section Guard.
Context {Primitive : Type}.
Variable cfg : Config.

(** [stack_node[0]] holds the sentinel with distance [inf], and every entry
    above it is well formed. *)
Definition guarded (stk : list (StackItem Primitive)) : Prop :=
  exists S, stk = S ++ [(invalidNode, inf)]
            /\ Forall (fun e => well_formed cfg (fst e)) S.

(** The register pair holds the popped sentinel over an empty stack, or a
    well-formed reference over a guarded stack. *)
Definition cursor_guarded (n : NodeRef Primitive) (d : ssef)
           (stk : list (StackItem Primitive)) : Prop :=
  (n = invalidNode /\ d = inf /\ stk = []) \/ (well_formed cfg n /\ guarded stk).

Definition guard_inv (B : nat) (s : State Primitive) (c : Ctl Primitive) : Prop :=
  match c with
  | AtPop => guarded (stack s)
  | AtDown n d => cursor_guarded n d (stack s)
  end
  /\ depths_ok B (ext_depths s c).
End Guard.

(** The instantiations at the end of the file enable static nodes only
    ([types = 0x1]); here with a stack of five entries. *)
Definition config_static : Config := mkConfig 1 5 SWITCH_THRESHOLD true rcp_axis.

(** ** Vocabulary for the any-hit traversal *)

(** Lane [l] meets a primitive of [F] strictly inside its interval. *)
Definition blocked (r0 : Ray4) (l : lane) (F : list Facet) : Prop :=
  exists f, relevant r0 l F f.

(** What the any-hit driver maintains for a valid lane [l]: the packet is
    not written, a lane not yet terminated keeps its cull bound, a
    terminated lane is blocked, and every primitive still to be found lies
    under an entry that the lane's distance does not cull. *)
Definition occluded_inv (tr : TravRay) (r0 : Ray4) (l : lane) (F : list Facet)
           (s : State Facet) (c : Ctl Facet) : Prop :=
  ray s = r0
  /\ (get (terminated s) l = false -> get (ray_tfar s) l = get (tfar r0) l)
  /\ (get (terminated s) l = true -> blocked r0 l F)
  /\ entries_ok tr r0 l F (ext_entries s c)
  /\ (get (terminated s) l = false ->
      pending r0 l F (get (tfar r0) l) (ext_entries s c)).

Definition occluded_done (r0 : Ray4) (l : lane) (F : list Facet) (s : State Facet) : Prop :=
  ray s = r0 /\ (get (terminated s) l = true <-> blocked r0 l F).


(** The three components of a direction. *)
Definition dir_x (r : Stream.Ray) : Z := fst (fst (Stream.dir r)).
Definition dir_y (r : Stream.Ray) : Z := snd (fst (Stream.dir r)).
Definition dir_z (r : Stream.Ray) : Z := snd (Stream.dir r).

(** Some ray of [rs] points backwards along the axis and some does not. *)
Definition mixed_signs (axis : Stream.Ray -> Z) (rs : list Stream.Ray) : Prop :=
  (exists r, In r rs /\ axis r < 0) /\ (exists r, In r rs /\ 0 <= axis r).

(** ** The coherent stream path: validity test and write-back *)

Module Coherent.
Import Stream.

(** [vbool<K> m_valid = (inputPackets[i]->tnear <= inputPackets[i]->tfar)]
    (lines 217 and 325), slot by slot. *)
Definition m_valid (p : RayK) : list bool :=
  map (fun tt => flt_leb (fst tt) (snd tt)) (combine (k_tnear p) (k_tfar p)).

(** The input ray with the hit fields [SOAtoAOS] writes besides those of
    [Stream.Ray], and the packet likewise. *)
Record RayHit : Type := mkRayHit {
  base : Ray; h_Ng : Z * Z * Z; h_u : Z; h_v : Z
}.

Record RayHitK : Type := mkRayHitK {
  kbase : RayK;
  k_Ng_x : list Z; k_Ng_y : list Z; k_Ng_z : list Z;
  k_u : list Z; k_v : list Z
}.

(** [RTC_INVALID_GEOMETRY_ID] is [(unsigned)-1]; the slot's [int] is cast
    to [unsigned] before the comparison. *)
Definition RTC_INVALID_GEOMETRY_ID : Z := 4294967295.
Definition as_unsigned (x : Z) : Z := x mod 4294967296.

Definition set_geomID (r : RayHit) (g : Z) : RayHit :=
  mkRayHit (mkRay (org (base r)) (dir (base r)) (tnear (base r)) (tfar (base r))
                  (time (base r)) (mask (base r)) g (primID (base r)) (instID (base r)))
           (h_Ng r) (h_u r) (h_v r).

Definition set_hit (r : RayHit) (tf : flt) (ng : Z * Z * Z) (uu vv g p i : Z) : RayHit :=
  mkRayHit (mkRay (org (base r)) (dir (base r)) (tnear (base r)) tf
                  (time (base r)) (mask (base r)) g p i)
           ng uu vv.

(** The hit fields of slot [s] of a packet; [None] if a field has no such
    slot. *)
Definition read_hit (p : RayHitK) (s : nat) (r : RayHit) : option RayHit :=
  match nth_error (k_tfar (kbase p)) s,
        nth_error (k_Ng_x p) s, nth_error (k_Ng_y p) s, nth_error (k_Ng_z p) s,
        nth_error (k_u p) s, nth_error (k_v p) s,
        nth_error (k_geomID (kbase p)) s, nth_error (k_primID (kbase p)) s,
        nth_error (k_instID (kbase p)) s with
  | Some tf, Some nx, Some ny, Some nz, Some uu, Some vv, Some g, Some pr, Some ins =>
      Some (set_hit r tf (nx, ny, nz) uu vv g pr ins)
  | _, _, _, _, _, _, _, _, _ => None
  end.

(** The loop body of [SOAtoAOS<K,occlusion>] for ray [i] (lines 97-116);
    [None] stands for a read outside [rayK] or outside a field. *)
Definition write_back (occlusion : bool) (K : nat) (rayK : list RayHitK) (i : nat)
           (r : RayHit) : option RayHit :=
  let packetID := (i / K)%nat in
  let slotID := (i mod K)%nat in
  match nth_error rayK packetID with
  | None => None
  | Some ray =>
      match nth_error (k_geomID (kbase ray)) slotID with
      | None => None
      | Some g =>
          if negb (as_unsigned g =? RTC_INVALID_GEOMETRY_ID) then
            if occlusion then Some (set_geomID r g)
            else read_hit ray slotID r
          else Some r
      end
  end.

(** [inputRays] is an array of pointers: the rays live in a store indexed
    by address, and two entries of the array may name the same ray. *)
Definition Store : Type := nat -> RayHit.

Definition store_at (st : Store) (p : nat) (r : RayHit) : Store :=
  fun a => if Nat.eqb a p then r else st a.

Fixpoint SOAtoAOS_loop (occlusion : bool) (K : nat) (rayK : list RayHitK)
         (ptrs : list nat) (i : nat) (st : Store) : option Store :=
  match ptrs with
  | [] => Some st
  | p :: rest =>
      match write_back occlusion K rayK i (st p) with
      | None => None
      | Some r' => SOAtoAOS_loop occlusion K rayK rest (S i) (store_at st p r')
      end
  end.

(** [SOAtoAOS<K,occlusion>(inputRays,rayK,numTotalRays)]. *)
Definition SOAtoAOS (occlusion : bool) (K : nat) (inputRays : list nat)
           (rayK : list RayHitK) (numTotalRays : nat) (st : Store) : option Store :=
  if (numTotalRays <=? length inputRays)%nat
  then SOAtoAOS_loop occlusion K rayK (firstn numTotalRays inputRays) 0 st
  else None.

(** The fields of a ray that only the caller sets. *)
Definition inputs (r : RayHit) : (Z * Z * Z) * (Z * Z * Z) * flt * Z * Z :=
  (org (base r), dir (base r), tnear (base r), time (base r), mask (base r)).

(** Every packet below [np] has [K] slots in each field read back. *)
Definition packets_sized (K np : nat) (rayK : list RayHitK) : Prop :=
  (np <= length rayK)%nat
  /\ forall q p, (q < np)%nat -> nth_error rayK q = Some p ->
       length (k_tfar (kbase p)) = K /\ length (k_Ng_x p) = K /\ length (k_Ng_y p) = K
       /\ length (k_Ng_z p) = K /\ length (k_u p) = K /\ length (k_v p) = K
       /\ length (k_geomID (kbase p)) = K /\ length (k_primID (kbase p)) = K
       /\ length (k_instID (kbase p)) = K.

(** Example: one packet of two slots, slot 0 hit (geometry 3), slot 1 not. *)
Definition two_slots : RayHitK :=
  mkRayHitK (mkRayK [0; 0] [0; 0] [0; 0] [0; 0] [0; 0] [1; 1]
                    [fin 0; fin 0] [fin 7; fin 50] [0; 0] [-1; -1]
                    [3; -1] [11; -1] [-1; -1])
            [0; 0] [0; 0] [-1; 0] [1; 0] [2; 0].
Definition caller_ray : RayHit :=
  mkRayHit (mkRay (0, 0, 0) (0, 0, 1) (fin (-5)) (fin 50) 0 (-1) (-1) (-1) (-1))
           (0, 0, 0) 0 0.

End Coherent.

(** ** The incoherent stream path: octant chunks *)

Module Octant.

(** [size_t] arithmetic is modulo [2^64]. *)
Definition wrap (x : Z) : Z := x mod 2 ^ 64.

(** [numOctantRays = (r + MAX_RAYS_PER_OCTANT >= numTotalRays)
                     ? numTotalRays-r : MAX_RAYS_PER_OCTANT] (lines 406, 671). *)
Definition numOctantRays (MAXR r numTotalRays : Z) : Z :=
  if wrap (r + MAXR) >=? numTotalRays then wrap (numTotalRays - r) else MAXR.

(** [m_active = numOctantRays == 8*sizeof(size_t)
                ? (size_t)-1 : (((size_t)1 << numOctantRays))-1]
    (lines 409, 672). *)
Definition m_active (n : Z) : Z :=
  if n =? 64 then wrap (-1) else wrap (wrap (Z.shiftl 1 n) - 1).

(** The chunks [(r, numOctantRays, m_active)] for which the body of
    [for (r = 0; r < numTotalRays; r += MAX_RAYS_PER_OCTANT)] runs the
    traversal.  On [m_active == 0] the closest-hit entry point returns
    ([on_zero_return = true], line 411) and the any-hit one continues with
    the next chunk (line 673). *)
Fixpoint octants (on_zero_return : bool) (MAXR : Z) (fuel : nat) (r numTotalRays : Z)
  : list (Z * Z * Z) :=
  match fuel with
  | O => []
  | S fuel' =>
      if r <? numTotalRays then
        let n := numOctantRays MAXR r numTotalRays in
        let m := m_active n in
        if m =? 0 then
          if on_zero_return then []
          else octants on_zero_return MAXR fuel' (wrap (r + MAXR)) numTotalRays
        else (r, n, m) :: octants on_zero_return MAXR fuel' (wrap (r + MAXR)) numTotalRays
      else []
  end.

(** Consecutive chunks from [r] up to exactly [n]: each starts where the
    one before ends, holds between 1 and [MAXR] rays - [MAXR] unless it is
    the last - and its mask has exactly the low [k] bits set. *)
Fixpoint tiles (MAXR r : Z) (cs : list (Z * Z * Z)) (n : Z) : Prop :=
  match cs with
  | [] => r = n
  | (r0, k, m) :: rest =>
      r0 = r /\ 1 <= k <= MAXR /\ m = Z.ones k /\ (rest <> [] -> k = MAXR)
      /\ tiles MAXR (r + k) rest n
  end.

End Octant.

(** ** Ray masks of the stream paths *)

Module Masks.

(** [__bscf(bits)]: the index of the lowest set bit, which is cleared in
    [bits]. *)
Definition bscf (bits : Z) : Z * Z := (bsf bits, btc bits (bsf bits)).

(** Where the culling loop of the incoherent [intersect] leaves: at [trav]
    with the rays still to traverse, or at [continue]. *)
Inductive Culled : Type :=
| Trav (m_trav_active : Z)
| PopNext.

(** Lines 458-466:
    [do { i = __bscf(active_bits);
          if (dist <= ray_ctx[i].tfar()) goto trav;
          m_trav_active = active_bits; } while (active_bits); continue;]
    [None] when [fuel] passes do not suffice. *)
Fixpoint cull (fuel : nat) (dist : flt) (tfar : Z -> flt) (active_bits m_trav_active : Z)
  : option Culled :=
  match fuel with
  | O => None
  | S fuel' =>
      let '(i, active_bits') := bscf active_bits in
      if flt_leb dist (tfar i) then Some (Trav m_trav_active)
      else if active_bits' =? 0 then Some PopNext
           else cull fuel' dist tfar active_bits' active_bits'
  end.

(** The loop entered with [active_bits = m_trav_active = stackPtr->mask];
    a mask has 64 bits. *)
Definition culling (dist : flt) (tfar : Z -> flt) (mask : Z) : option Culled :=
  cull 64 dist tfar mask mask.

(** [m_isec = ((((size_t)1 << K)-1) << (i*K))]: the rays of packet [i]. *)
Definition m_isec (K i : Z) : Z :=
  Octant.wrap (Z.shiftl (Octant.wrap (Octant.wrap (Z.shiftl 1 K) - 1)) (i * K)).

(** [bits &= ~m_isec] on 64-bit values. *)
Definition clear (bits m : Z) : Z := Z.land bits (Octant.wrap (Z.lnot m)).

(** The leaf loop of [intersectCoherentSOA] (lines 210-221): the packets
    handed to [intersectK], in call order.
    [do { i = __bsf(bits) / K; m_isec = ...; assert(m_isec & bits);
          bits &= ~m_isec; intersectK(packet i); } while(bits);]
    [None] stands for a failed assertion, or for [fuel] running out. *)
Fixpoint leaf_packets (fuel : nat) (K bits : Z) : option (list Z) :=
  match fuel with
  | O => None
  | S fuel' =>
      let i := bsf bits / K in
      let m := m_isec K i in
      if Z.land m bits =? 0 then None
      else
        let bits' := clear bits m in
        if bits' =? 0 then Some [i]
        else option_map (cons i) (leaf_packets fuel' K bits')
  end.

(** The leaf loop of [occludedCoherentSOA] (lines 318-329): the value of
    [m_active] after it; [hit i] is [movemask(m_hit)] of packet [i].
    [while(bits) { i = __bsf(bits) / K; m_isec = ...; assert(m_isec & bits);
                   bits &= ~m_isec; m_hit = occludedK(packet i);
                   m_active &= ~((size_t)movemask(m_hit) << (i*K)); }] *)
Fixpoint occluded_leaf (fuel : nat) (K : Z) (hit : Z -> Z) (bits m_active : Z)
  : option Z :=
  match fuel with
  | O => None
  | S fuel' =>
      if bits =? 0 then Some m_active
      else
        let i := bsf bits / K in
        let m := m_isec K i in
        if Z.land m bits =? 0 then None
        else occluded_leaf fuel' K hit (clear bits m)
                           (clear m_active (Octant.wrap (Z.shiftl (hit i) (i * K))))
  end.

(** Strictly increasing, starting at [lo] or above. *)
Fixpoint ascending_from (lo : Z) (ps : list Z) : Prop :=
  match ps with
  | [] => True
  | x :: rest => lo <= x /\ ascending_from (x + 1) rest
  end.

(** Packet [q] holds a ray of the mask. *)
Definition packet_active (K bits q : Z) : Prop :=
  exists j, 0 <= j /\ Z.testbit bits j = true /\ j / K = q.

End Masks.

(** Example for the culling loop: ray 1 has [tfar = 5], every other ray 20. *)
Definition near_hit_on_ray1 (i : Z) : flt := if i =? 1 then fin 5 else fin 20.

(** [#define MAX_RAYS 64]: [intersectCoherent] and [occludedCoherent]
    repack into a local array [RayK<K> rayK[MAX_RAYS / K]]. *)
Definition MAX_RAYS : nat := 64.

(** ** The child ordering rule as the specification words it (section 4.2) *)

Section OrderingRule.
Context {Primitive : Type}.

(** The hit children of one node in index order, each with its per-lane
    distance [childDist = select(hit, d, +inf)], where [(hit, d)] is what
    the slab test of the child hands back; the row of children ends at the
    first empty slot. *)
Fixpoint spec_hit_children (test : lane -> sseb * ssef) (ch : vec4 (NodeRef Primitive))
         (todo : list lane) : list (StackItem Primitive) :=
  match todo with
  | [] => []
  | i :: rest =>
      if is_emptyNode (get ch i) then []
      else if any (fst (test i))
           then (get ch i, select (fst (test i)) (snd (test i)) inf)
                  :: spec_hit_children test ch rest
           else spec_hit_children test ch rest
  end.

(** "Any lane finds the new child nearer than the incumbent." *)
Definition spec_nearer (childDist curDist : ssef) : bool :=
  existsb (fun l => flt_ltb (get childDist l) (get curDist l)) lanes.

(** One application of the rule: a child that is nearer in some lane takes
    the register and the incumbent is pushed; otherwise the child is
    pushed. *)
Definition spec_place (c : Cursor Primitive) (e : StackItem Primitive) : Cursor Primitive :=
  if spec_nearer (snd e) (c_dist c)
  then mkCursor ((c_node c, c_dist c) :: c_stack c) (fst e) (snd e)
  else mkCursor (e :: c_stack c) (c_node c) (c_dist c).

Definition spec_order (hits : list (StackItem Primitive)) (c : Cursor Primitive)
  : Cursor Primitive :=
  fold_left spec_place hits c.
End OrderingRule.

Definition tabulate {A : Type} (f : lane -> A) : vec4 A := mk4 (f L0) (f L1) (f L2) (f L3).

(** The pair the rule is worded with for a static node: the hit mask and
    [t_near] of child [i] in every lane. *)
Definition spec_static_test (tr : TravRay) (ray_tfar : ssef) (b : Boxes) (i : lane)
  : sseb * ssef :=
  (tabulate (fun l => spec_hit (get (ray_tnear tr) l) (get ray_tfar l)
                               (static_slab (ray_org tr) (rdir tr) b i l)),
   tabulate (fun l => spec_t_near (get (ray_tnear tr) l)
                                  (static_slab (ray_org tr) (rdir tr) b i l))).

(** Two leaves under one static node.  Both boxes are [-1,1] x [-1,1] in x
    and y and hold the origin; child 0 spans [-1,3] in z, child 1 spans
    [-5,3]. *)
Definition wall8 : NodeRef Facet := Leaf [mkFacet (splat (fin 5)) 8].

Definition straddle_boxes : Boxes :=
  mkBoxes (splat (-1)) (splat (-1)) (mk4 (-1) (-5) 0 0) (splat 1) (splat 1) (splat 3).

Definition straddling : NodeRef Facet := Node wall wall8 emptyNode emptyNode straddle_boxes.

(** Two leaves whose boxes coincide, in front of the origin. *)
Definition twins : NodeRef Facet := Node wall wall8 emptyNode emptyNode in_front.

(** The packet state right after the root has been popped: only the
    sentinel is left on the stack. *)
Definition root_popped : State Facet :=
  mkState sample_ray (tfar sample_ray) (splat false) [(invalidNode, inf)].

(** [sample_ray] as the driver loads it, every lane valid. *)
Definition sample_trav : TravRay := load_ray config_static (splat true) sample_ray.

(** The primitives lane [l] meets at its nearest hit distance carry the
    same identifier. *)
Definition no_nearest_tie (r0 : Ray4) (l : lane) (F : list Facet) : Prop :=
  forall f g,
    relevant r0 l F f -> relevant r0 l F g ->
    (forall h, relevant r0 l F h ->
               flt_leb (get (facet_t f) l) (get (facet_t h) l) = true) ->
    get (facet_t f) l = get (facet_t g) l ->
    facet_id f = facet_id g.

(** Lane 0 meets primitive 1 at distance 5, and beyond it the primitives 2
    and 3 at the same distance 6; lane 1, looking the other way, meets
    primitive 1 at 5 and the other two at 4. *)
Definition far_tie_tree : NodeRef Facet :=
  Node (Leaf [mkFacet (mk4 (fin 5) (fin 5) (fin 5) (fin 5)) 1])
       (Leaf [mkFacet (mk4 (fin 6) (fin 4) (fin 6) (fin 6)) 2;
              mkFacet (mk4 (fin 6) (fin 4) (fin 6) (fin 6)) 3])
       emptyNode emptyNode overlapping.

(** * Properties *)

(** ** Order facts on lane scalars *)

Ltac flt_cases :=
  repeat match goal with
         | x : flt |- _ => destruct x
         end;
  unfold fmin, fmax, flt_ltb, flt_leb in *; simpl in *;
  repeat match goal with
         | |- context [?a <? ?b] => destruct (Z.ltb_spec a b)
         | |- context [?a <=? ?b] => destruct (Z.leb_spec a b)
         | H : context [?a <? ?b] |- _ => destruct (Z.ltb_spec a b)
         | H : context [?a <=? ?b] |- _ => destruct (Z.leb_spec a b)
         end;
  simpl in *; try reflexivity; try congruence; try lia;
  try (f_equal; lia).

Lemma flt_ltb_irrefl (a : flt) : flt_ltb a a = false.
Proof. flt_cases. Qed.

Lemma flt_leb_refl (a : flt) : flt_leb a a = true.
Proof. flt_cases. Qed.

Lemma flt_ltb_negb_leb (a b : flt) : flt_ltb a b = negb (flt_leb b a).
Proof. flt_cases. Qed.

Lemma flt_leb_trans (a b c : flt) :
  flt_leb a b = true -> flt_leb b c = true -> flt_leb a c = true.
Proof. intros H1 H2. flt_cases. Qed.

Lemma flt_leb_antisym (a b : flt) :
  flt_leb a b = true -> flt_leb b a = true -> a = b.
Proof. intros H1 H2. flt_cases. Qed.

Lemma fmax_comm (a b : flt) : fmax a b = fmax b a.
Proof. flt_cases. Qed.

Lemma fmin_comm (a b : flt) : fmin a b = fmin b a.
Proof. flt_cases. Qed.

Lemma fmax_assoc (a b c : flt) : fmax a (fmax b c) = fmax (fmax a b) c.
Proof. flt_cases. Qed.

Lemma fmin_assoc (a b c : flt) : fmin a (fmin b c) = fmin (fmin a b) c.
Proof. flt_cases. Qed.

Lemma flt_leb_fmax_l (a b c : flt) :
  flt_leb (fmax a b) c = flt_leb a c && flt_leb b c.
Proof. flt_cases. Qed.

Lemma flt_leb_fmin_r (a b c : flt) :
  flt_leb c (fmin a b) = flt_leb c a && flt_leb c b.
Proof. flt_cases. Qed.

Lemma fmin4_order (a b c t : flt) :
  fmin (fmin a b) (fmin c t) = fmin (fmin (fmin t a) b) c.
Proof.
  rewrite (fmin_comm c t), fmin_assoc, (fmin_comm (fmin a b) t), fmin_assoc.
  reflexivity.
Qed.

Lemma fmin_le_l (a b : flt) : flt_leb (fmin a b) a = true.
Proof. flt_cases. Qed.

Lemma fmin_le_r (a b : flt) : flt_leb (fmin a b) b = true.
Proof. flt_cases. Qed.

Lemma fmin_neg_inf_r (a : flt) : fmin a neg_inf = neg_inf.
Proof. flt_cases. Qed.

Lemma fmin_neg_inf_l (a : flt) : fmin neg_inf a = neg_inf.
Proof. flt_cases. Qed.

Lemma flt_ltb_neg_inf (a : flt) : flt_ltb a neg_inf = false.
Proof. flt_cases. Qed.

Lemma vec4_ext {A : Type} (a b : vec4 A) :
  (forall l, get a l = get b l) -> a = b.
Proof.
  intros H. destruct a, b.
  pose proof (H L0) as H0. pose proof (H L1) as H1.
  pose proof (H L2) as H2. pose proof (H L3) as H3.
  simpl in *. congruence.
Qed.

Lemma get_vmap {A B} (f : A -> B) (a : vec4 A) (l : lane) :
  get (vmap f a) l = f (get a l).
Proof. destruct l; reflexivity. Qed.

Lemma get_vmap2 {A B C} (f : A -> B -> C) (a : vec4 A) (b : vec4 B) (l : lane) :
  get (vmap2 f a b) l = f (get a l) (get b l).
Proof. destruct l; reflexivity. Qed.

Lemma get_select {A} (m : sseb) (a b : vec4 A) (l : lane) :
  get (select m a b) l = if get m l then get a l else get b l.
Proof. destruct l; reflexivity. Qed.

Lemma get_splat {A} (a : A) (l : lane) : get (splat a) l = a.
Proof. destruct l; reflexivity. Qed.

Lemma any_true_iff (m : sseb) : any m = true <-> exists l, get m l = true.
Proof.
  unfold any. split.
  - intros H. destruct m as [a b c d]. simpl in H.
    destruct a; [exists L0; reflexivity|].
    destruct b; [exists L1; reflexivity|].
    destruct c; [exists L2; reflexivity|].
    destruct d; [exists L3; reflexivity|discriminate].
  - intros [l H]. destruct m as [a b c d]. destruct l; simpl in *; subst;
      repeat rewrite orb_true_r; reflexivity.
Qed.

Lemma any_false_iff (m : sseb) : any m = false <-> forall l, get m l = false.
Proof.
  split.
  - intros H l. destruct (get m l) eqn:E; [|reflexivity].
    assert (any m = true) by (apply any_true_iff; eauto). congruence.
  - intros H. destruct (any m) eqn:E; [|reflexivity].
    apply any_true_iff in E. destruct E as [l E]. rewrite H in E. discriminate.
Qed.

Lemma all_true_iff (m : sseb) : all m = true <-> forall l, get m l = true.
Proof.
  unfold all. destruct m as [a b c d]. simpl. split.
  - intros H l. destruct a, b, c, d; try discriminate. destruct l; reflexivity.
  - intros H. pose proof (H L0) as H0. pose proof (H L1) as H1.
    pose proof (H L2) as H2. pose proof (H L3) as H3.
    simpl in *. subst. reflexivity.
Qed.

(** ** Slab tests against the specification's formula *)

Lemma get_clip (bound : Z) (o r : vec4 Z) (l : lane) :
  get (clip bound o r) l = axis_t bound (get o l) (get r l).
Proof. destruct l; reflexivity. Qed.

Lemma get_clipv (bound o r : vec4 Z) (l : lane) :
  get (clipv bound o r) l = axis_t (get bound l) (get o l) (get r l).
Proof. destruct l; reflexivity. Qed.

Lemma get_vmax (a b : ssef) (l : lane) : get (vmax a b) l = fmax (get a l) (get b l).
Proof. apply get_vmap2. Qed.

Lemma get_vmin (a b : ssef) (l : lane) : get (vmin a b) l = fmin (get a l) (get b l).
Proof. apply get_vmap2. Qed.

Lemma get_vle (a b : ssef) (l : lane) : get (vle a b) l = flt_leb (get a l) (get b l).
Proof. apply get_vmap2. Qed.

Lemma get_vlt (a b : ssef) (l : lane) : get (vlt a b) l = flt_ltb (get a l) (get b l).
Proof. apply get_vmap2. Qed.

Lemma get_vgt (a b : ssef) (l : lane) : get (vgt a b) l = flt_ltb (get b l) (get a l).
Proof. destruct l; reflexivity. Qed.

Create Rewrite HintDb lanes.
#[local] Hint Rewrite @get_vmap @get_vmap2 @get_select @get_splat
  get_clip get_clipv get_vmax get_vmin get_vle get_vlt get_vgt : lanes.

Lemma spec_t_near_box (tn : flt) (s : LaneSlab) :
  spec_t_near tn s = fmax (spec_box_near s) tn.
Proof.
  unfold spec_t_near, spec_box_near.
  rewrite (fmax_comm _ tn), !fmax_assoc. reflexivity.
Qed.

Lemma spec_hit_unfold (tn tf : flt) (s : LaneSlab) (far3 : flt) :
  far3 = fmin (fmin (fmax (t_min_x s) (t_max_x s)) (fmax (t_min_y s) (t_max_y s)))
              (fmax (t_min_z s) (t_max_z s)) ->
  spec_hit tn tf s = flt_leb (fmax (spec_box_near s) tn) (fmin far3 tf).
Proof.
  intros ->. unfold spec_hit. rewrite spec_t_near_box. f_equal.
  unfold spec_t_far. rewrite (fmin_comm _ tf), !fmin_assoc. reflexivity.
Qed.

Lemma box_node_lane (tr : TravRay) (ray_tfar : ssef) (b : Boxes) (i l : lane) :
  let s := static_slab (ray_org tr) (rdir tr) b i l in
  get (fst (box_node tr ray_tfar b i)) l
    = spec_hit (get (ray_tnear tr) l) (get ray_tfar l) s
  /\ get (snd (box_node tr ray_tfar b i)) l = spec_box_near s.
Proof.
  intros s. unfold box_node. cbn [fst snd]. split.
  - rewrite (spec_hit_unfold _ _ s _ eq_refl).
    autorewrite with lanes. reflexivity.
  - autorewrite with lanes. reflexivity.
Qed.

Lemma get_lerp_bound (base delta : Z) (tm : vec4 Z) (l : lane) :
  get (lerp_bound base delta tm) l = base + get tm l * delta.
Proof. destruct l; reflexivity. Qed.

Lemma intersectBox_lane (r : Ray4) (ray_tfar : ssef) (rd : sse3f) (b db : Boxes)
      (i l : lane) :
  let s := mb_slab (org r) rd (time r) b db i l in
  get (fst (intersectBox r ray_tfar rd b db i)) l
    = spec_hit (get (tnear r) l) (get ray_tfar l) s
  /\ get (snd (intersectBox r ray_tfar rd b db i)) l = spec_t_near (get (tnear r) l) s.
Proof.
  intros s. unfold intersectBox. cbn [fst snd].
  assert (Hn : get (vmax4 (vmin (clipv (lerp_bound (get (lower_x b) i) (get (lower_x db) i) (time r)) (vx (org r)) (vx rd))
                                (clipv (lerp_bound (get (upper_x b) i) (get (upper_x db) i) (time r)) (vx (org r)) (vx rd)))
                          (vmin (clipv (lerp_bound (get (lower_y b) i) (get (lower_y db) i) (time r)) (vy (org r)) (vy rd))
                                (clipv (lerp_bound (get (upper_y b) i) (get (upper_y db) i) (time r)) (vy (org r)) (vy rd)))
                          (vmin (clipv (lerp_bound (get (lower_z b) i) (get (lower_z db) i) (time r)) (vz (org r)) (vz rd))
                                (clipv (lerp_bound (get (upper_z b) i) (get (upper_z db) i) (time r)) (vz (org r)) (vz rd)))
                          (tnear r)) l
               = spec_t_near (get (tnear r) l) s).
  { unfold vmax4. autorewrite with lanes. rewrite !get_lerp_bound.
    rewrite spec_t_near_box. unfold spec_box_near, s, mb_slab. cbn [t_min_x t_max_x t_min_y t_max_y t_min_z t_max_z].
    rewrite !fmax_assoc. reflexivity. }
  split; [|exact Hn].
  rewrite get_vle, Hn. unfold spec_hit. f_equal.
  unfold vmin4. autorewrite with lanes. rewrite !get_lerp_bound.
  unfold spec_t_far, s, mb_slab. cbn [t_min_x t_max_x t_min_y t_max_y t_min_z t_max_z].
  apply fmin4_order.
Qed.

(** C3 (as amended): for every lane and every child box tested in packet
    traversal the hit bit equals [t_near <= t_far] with the specification's
    [t_near] and [t_far]; the near distance handed back for a motion-blur
    node is that [t_near], while for a static node it is
    [max(min x, min y, min z)] without [tnear], so that
    [t_near = max(returned distance, tnear)]. *)
Theorem slab_test_hit_and_near :
  (forall (tr : TravRay) (ray_tfar : ssef) (b : Boxes) (i l : lane),
      let s := static_slab (ray_org tr) (rdir tr) b i l in
      let tn := get (ray_tnear tr) l in
      get (fst (box_node tr ray_tfar b i)) l = spec_hit tn (get ray_tfar l) s
      /\ get (snd (box_node tr ray_tfar b i)) l = spec_box_near s
      /\ spec_t_near tn s = fmax (get (snd (box_node tr ray_tfar b i)) l) tn)
  /\
  (forall (r : Ray4) (ray_tfar : ssef) (rd : sse3f) (b db : Boxes) (i l : lane),
      let s := mb_slab (org r) rd (time r) b db i l in
      let tn := get (tnear r) l in
      get (fst (intersectBox r ray_tfar rd b db i)) l = spec_hit tn (get ray_tfar l) s
      /\ get (snd (intersectBox r ray_tfar rd b db i)) l = spec_t_near tn s).
Proof.
  split.
  - intros tr ray_tfar b i l s tn.
    destruct (box_node_lane tr ray_tfar b i l) as [H1 H2].
    split; [exact H1|]. split; [exact H2|].
    rewrite H2. apply spec_t_near_box.
  - intros r ray_tfar rd b db i l s tn. apply intersectBox_lane.
Qed.

(** C3 (as stated) fails on static nodes: with the ray origin inside the
    child box the lane hits, the test hands back -1 and [t_near] is 0. *)
Lemma slab_test_static_near_counterexample :
  ~ (forall (tr : TravRay) (ray_tfar : ssef) (b : Boxes) (i l : lane),
        get (snd (box_node tr ray_tfar b i)) l
        = spec_t_near (get (ray_tnear tr) l) (static_slab (ray_org tr) (rdir tr) b i l)).
Proof.
  intros H.
  specialize (H (load_ray (sample_config 2) (splat true) sample_ray)
                (tfar sample_ray) around_origin L0 L0).
  vm_compute in H. discriminate H.
Qed.

(** ** Child ordering in the downward loop *)

Lemma any_vlt_spec_nearer (a b : ssef) : any (vlt a b) = spec_nearer a b.
Proof.
  unfold any, vlt, vmap2, spec_nearer, lanes. cbn [existsb get v0 v1 v2 v3].
  destruct (flt_ltb (v0 a) (v0 b)), (flt_ltb (v1 a) (v1 b)),
           (flt_ltb (v2 a) (v2 b)), (flt_ltb (v3 a) (v3 b)); reflexivity.
Qed.

Lemma spec_nearer_false (a b : ssef) :
  (forall l, flt_ltb (get a l) (get b l) = false) -> spec_nearer a b = false.
Proof.
  intros H. unfold spec_nearer, lanes. cbn [existsb].
  rewrite (H L0), (H L1), (H L2), (H L3). reflexivity.
Qed.

Lemma spec_hit_children_length {Primitive : Type} (test : lane -> sseb * ssef)
      (ch : vec4 (NodeRef Primitive)) (todo : list lane) :
  (length (spec_hit_children test ch todo) <= length todo)%nat.
Proof.
  induction todo as [|i rest IH]; cbn [spec_hit_children length]; [lia|].
  destruct (is_emptyNode (get ch i)); [cbn; lia|].
  destruct (any (fst (test i))); cbn [length]; lia.
Qed.

Lemma spec_order_stack_length {Primitive : Type} (hits : list (StackItem Primitive))
      (c : Cursor Primitive) :
  length (c_stack (spec_order hits c)) = (length hits + length (c_stack c))%nat.
Proof.
  unfold spec_order. revert c.
  induction hits as [|e hits IH]; intros c; cbn [fold_left length]; [reflexivity|].
  rewrite IH. unfold spec_place.
  destruct (spec_nearer (snd e) (c_dist c)); cbn [c_stack length]; lia.
Qed.

(** With room on the stack the child loop is the rule applied to the hit
    children in index order. *)
Lemma child_loop_spec_order {Primitive : Type} (cfg : Config) (test : lane -> sseb * ssef)
      (ch : vec4 (NodeRef Primitive)) (todo : list lane) (c : Cursor Primitive) :
  (length (c_stack c) + length todo <= stackSizeChunk cfg)%nat ->
  child_loop cfg test ch todo c = inr (spec_order (spec_hit_children test ch todo) c).
Proof.
  revert c. induction todo as [|i rest IH]; intros c Hcap.
  - reflexivity.
  - cbn [child_loop spec_hit_children]. cbn [length] in Hcap.
    destruct (is_emptyNode (get ch i)); [reflexivity|].
    destruct (test i) as [lhit lnearP]. cbn [fst snd].
    destruct (any lhit).
    + assert (Hlt : (length (c_stack c) <? stackSizeChunk cfg)%nat = true)
        by (apply Nat.ltb_lt; lia).
      rewrite Hlt, any_vlt_spec_nearer.
      unfold spec_order. cbn [fold_left]. unfold spec_place at 2. cbn [fst snd].
      destruct (spec_nearer (select lhit lnearP inf) (c_dist c));
        apply IH; cbn [c_stack length]; lia.
    + apply IH. lia.
Qed.

(** Children that are nearer than the incumbent in no lane all go to the
    stack, the last one on top. *)
Lemma spec_order_incumbent_stays {Primitive : Type} (hits : list (StackItem Primitive))
      (rest : list (StackItem Primitive)) (n' : NodeRef Primitive) (d' : ssef) :
  (forall e, In e hits -> forall l, flt_ltb (get (snd e) l) (get d' l) = false) ->
  spec_order hits (mkCursor rest n' d') = mkCursor (rev hits ++ rest) n' d'.
Proof.
  unfold spec_order. revert rest.
  induction hits as [|e hits IH]; intros rest H; [reflexivity|].
  cbn [fold_left rev]. unfold spec_place at 2. cbn [c_dist c_node c_stack].
  rewrite (spec_nearer_false (snd e) d') by (apply H; left; reflexivity).
  rewrite IH by (intros e' He'; apply H; right; exact He').
  rewrite <- app_assoc. reflexivity.
Qed.

Lemma descend_spec_order {Primitive : Type} (cfg : Config) (s : State Primitive)
      (test : lane -> sseb * ssef) (curNode n' : NodeRef Primitive) (d' : ssef)
      (rest : list (StackItem Primitive)) :
  stack s = (n', d') :: rest ->
  (length rest + 4 < stackSizeChunk cfg)%nat ->
  let c := spec_order (spec_hit_children test (children curNode) lanes)
                      (mkCursor rest n' d') in
  descend cfg s test curNode
  = if switch_during_down cfg && (popcnt (vgt (ray_tfar s) (c_dist c)) <=? threshold cfg)
    then Running (mkState (ray s) (ray_tfar s) (terminated s)
                          ((c_node c, c_dist c) :: c_stack c)) AtPop
    else Running (mkState (ray s) (ray_tfar s) (terminated s) (c_stack c))
                 (AtDown (c_node c) (c_dist c)).
Proof.
  intros Hst Hcap c. unfold descend. rewrite Hst.
  rewrite child_loop_spec_order by (cbn [c_stack length lanes]; lia).
  fold c.
  assert (Hlen : (length (c_stack c) <? stackSizeChunk cfg)%nat = true).
  { apply Nat.ltb_lt. unfold c. rewrite spec_order_stack_length.
    pose proof (spec_hit_children_length test (children curNode) lanes) as Hl.
    cbn [c_stack lanes length] in *. lia. }
  rewrite Hlen. reflexivity.
Qed.

(** C4 (as amended): during packet downward traversal, in [intersect] and
    [occluded] alike, the hit children of a node are taken in index order,
    each with [childDist = select(hit, d, +inf)] where [d] is the distance
    the slab test hands back: on a motion-blur node [t_near], on a static
    node the box distance [max(min x, min y, min z)] that is not clamped at
    the ray's [tnear].  A child whose [childDist] is below [curDist] in at
    least one lane takes the register and the incumbent pair is pushed;
    otherwise the child is pushed.  When no hit child is below the popped
    incumbent in any lane (a tie in every lane included) the incumbent
    stays in the register and the children lie on the stack, the last one
    on top.  The stack is assumed to have room for the node's entries. *)
Theorem child_ordering_rule {Primitive : Type} (cfg : Config) (K : Kernels Primitive)
        (tr : TravRay) (pre : Precalculations K) (s : State Primitive)
        (curNode n' : NodeRef Primitive) (curDist d' : ssef)
        (rest : list (StackItem Primitive)) :
  classify cfg curNode = KNode \/ classify cfg curNode = KNodeMB ->
  stack s = (n', d') :: rest ->
  (length rest + 4 < stackSizeChunk cfg)%nat ->
  let test :=
    match classify cfg curNode with
    | KNodeMB => intersectBox (ray s) (ray_tfar s) (rdir tr) (boxes curNode) (dboxes curNode)
    | _ => box_node tr (ray_tfar s) (boxes curNode)
    end in
  let hits := spec_hit_children test (children curNode) lanes in
  let c := spec_order hits (mkCursor rest n' d') in
  (forall i l,
      get (select (fst (test i)) (snd (test i)) inf) l
      = if get (fst (test i)) l
        then match classify cfg curNode with
             | KNodeMB =>
                 spec_t_near (get (tnear (ray s)) l)
                             (mb_slab (org (ray s)) (rdir tr) (time (ray s))
                                      (boxes curNode) (dboxes curNode) i l)
             | _ => spec_box_near (static_slab (ray_org tr) (rdir tr) (boxes curNode) i l)
             end
        else pos_inf)
  /\ intersect_step cfg K tr pre s (AtDown curNode curDist)
     = occluded_step cfg K tr pre s (AtDown curNode curDist)
  /\ intersect_step cfg K tr pre s (AtDown curNode curDist)
     = (if switch_during_down cfg
           && (popcnt (vgt (ray_tfar s) (c_dist c)) <=? threshold cfg)
        then Running (mkState (ray s) (ray_tfar s) (terminated s)
                              ((c_node c, c_dist c) :: c_stack c)) AtPop
        else Running (mkState (ray s) (ray_tfar s) (terminated s) (c_stack c))
                     (AtDown (c_node c) (c_dist c)))
  /\ ((forall e, In e hits -> forall l, flt_ltb (get (snd e) l) (get d' l) = false) ->
      c = mkCursor (rev hits ++ rest) n' d').
Proof.
  intros Hkind Hst Hcap test hits c.
  split; [|split; [|split]].
  - intros i l. unfold inf. rewrite get_select, get_splat.
    destruct (get (fst (test i)) l); [|reflexivity].
    subst test. destruct Hkind as [Hk|Hk]; rewrite Hk.
    + apply box_node_lane.
    + apply intersectBox_lane.
  - cbn [intersect_step occluded_step].
    destruct Hkind as [Hk|Hk]; rewrite Hk; reflexivity.
  - cbn [intersect_step]. subst c hits test.
    destruct Hkind as [Hk|Hk]; rewrite Hk;
      apply (descend_spec_order cfg s _ curNode n' d' rest Hst Hcap).
  - intros Htie. apply spec_order_incumbent_stays. exact Htie.
Qed.

Lemma child_ordering_rule_witness :
  intersect_step config_static facet_kernels
                 sample_trav tt
                 root_popped (AtDown twins (splat (fin 0)))
  = Running (mkState sample_ray (tfar sample_ray) (splat false)
                     [(wall8, splat (fin 2)); (invalidNode, inf)])
            (AtDown wall (splat (fin 2))).
Proof.
  refine (eq_trans
            (proj1 (proj2 (proj2
               (child_ordering_rule config_static facet_kernels
                  sample_trav tt
                  root_popped twins invalidNode (splat (fin 0)) inf [] _ _ _)))) _).
  - left. reflexivity.
  - reflexivity.
  - vm_compute. lia.
  - reflexivity.
Defined.

(** C4 (as stated) fails on static nodes.  Children 0 and 1 of [straddling]
    are hit in every lane and tie in [t_near] (0 in every lane, the origin
    being inside both boxes), so the rule worded with [t_near] keeps
    child 0, the incumbent, in the register.  The driver ranks them by the
    box distances -1 and -5: child 1 displaces child 0, which is pushed. *)
Lemma child_ordering_tnear_counterexample :
  (forall l,
      get (fst (box_node sample_trav (tfar sample_ray) straddle_boxes L0)) l = true
      /\ get (fst (box_node sample_trav (tfar sample_ray) straddle_boxes L1)) l = true
      /\ spec_t_near (get (ray_tnear sample_trav) l)
                     (static_slab (ray_org sample_trav) (rdir sample_trav) straddle_boxes L0 l) = fin 0
      /\ spec_t_near (get (ray_tnear sample_trav) l)
                     (static_slab (ray_org sample_trav) (rdir sample_trav) straddle_boxes L1 l) = fin 0)
  /\ spec_order (spec_hit_children (spec_static_test sample_trav (tfar sample_ray) straddle_boxes)
                                   (children straddling) lanes)
                (mkCursor [] invalidNode inf)
     = mkCursor [(wall8, splat (fin 0)); (invalidNode, inf)] wall (splat (fin 0))
  /\ intersect_step config_static facet_kernels sample_trav tt root_popped
                    (AtDown straddling (splat (fin 0)))
     = Running (mkState sample_ray (tfar sample_ray) (splat false)
                        [(wall, splat (fin (-1))); (invalidNode, inf)])
               (AtDown wall8 (splat (fin (-5))))
  /\ occluded_step config_static facet_kernels sample_trav tt root_popped
                   (AtDown straddling (splat (fin 0)))
     = Running (mkState sample_ray (tfar sample_ray) (splat false)
                        [(wall, splat (fin (-1))); (invalidNode, inf)])
               (AtDown wall8 (splat (fin (-5)))).
Proof.
  split; [|split; [|split]].
  - intros l. destruct l; vm_compute; repeat split; reflexivity.
  - reflexivity.
  - reflexivity.
  - reflexivity.
Qed.

(** ** The post-pop switch *)

Lemma for_each_bit_lanes {S : Type} (m : sseb) (body : lane -> S -> S) (s : S) :
  for_each_bit 4 (movemask m) body s
  = fold_left (fun acc i => body i acc) (filter (get m) [L0; L1; L2; L3]) s.
Proof.
  destruct m as [[] [] [] []]; reflexivity.
Qed.

Lemma none_popcnt (m : sseb) : none m = true <-> popcnt m = 0.
Proof.
  destruct m as [[] [] [] []]; unfold none, any, popcnt; simpl; split;
    intros H; try reflexivity; try discriminate; try lia.
Qed.

Lemma none_false_popcnt (m : sseb) : none m = false <-> 0 < popcnt m.
Proof.
  destruct m as [[] [] [] []]; unfold none, any, popcnt; simpl; split;
    intros H; try reflexivity; try discriminate; try lia.
Qed.

(** C5 (as amended): after a pop of a node other than the sentinel the
    active lanes are those with [curDist < tfar]; with no active lane the
    entry is dropped and the next one is popped; with at most
    [SWITCH_THRESHOLD = 3] active lanes the single-ray walker runs once per
    active lane (in lane order) on [curNode]; closest-hit then clamps the
    cull bound to [min(ray_tfar, ray.tfar)] and goes to the next pop;
    any-hit sets the termination bit of every lane the walker reports
    occluded and then leaves the loop when all lanes are terminated, or else
    sets the cull bound of terminated lanes to minus infinity and goes to
    the next pop. *)
Theorem post_pop_switch {Primitive : Type} (cfg : Config) (K : Kernels Primitive)
        (tr : TravRay) (pre : Precalculations K) (s : State Primitive)
        (curNode : NodeRef Primitive) (curDist : ssef) (rest : list (StackItem Primitive)) :
  threshold cfg = SWITCH_THRESHOLD ->
  stack s = (curNode, curDist) :: rest ->
  is_invalidNode curNode = false ->
  let active := vlt curDist (ray_tfar s) in
  let popped := mkState (ray s) (ray_tfar s) (terminated s) rest in
  let ray' := fold_left (fun r i => intersect1 K curNode i pre r tr (ray_tfar s))
                        (filter (get active) [L0; L1; L2; L3]) (ray s) in
  let term' := fold_left (fun t i => if occluded1 K curNode i pre (ray s) tr (ray_tfar s)
                                     then set t i true else t)
                         (filter (get active) [L0; L1; L2; L3]) (terminated s) in
  (forall l, get active l = flt_ltb (get curDist l) (get (ray_tfar s) l))
  /\ (popcnt active = 0 ->
      intersect_step cfg K tr pre s AtPop = Running popped AtPop
      /\ occluded_step cfg K tr pre s AtPop = Running popped AtPop)
  /\ (0 < popcnt active <= 3 ->
      intersect_step cfg K tr pre s AtPop
      = Running (mkState ray' (vmin (ray_tfar s) (tfar ray')) (terminated s) rest) AtPop
      /\ occluded_step cfg K tr pre s AtPop
         = if all term'
           then Finished (mkState (ray s) (ray_tfar s) term' rest)
           else Running (mkState (ray s) (select term' (splat neg_inf) (ray_tfar s))
                                 term' rest) AtPop)
  /\ (3 < popcnt active ->
      intersect_step cfg K tr pre s AtPop = Running popped (AtDown curNode curDist)
      /\ occluded_step cfg K tr pre s AtPop = Running popped (AtDown curNode curDist)).
Proof.
  intros HT Hst Hinv active popped ray' term'.
  split; [intros l; apply get_vlt|].
  unfold intersect_step, occluded_step. rewrite Hst, Hinv, HT.
  fold active. unfold SWITCH_THRESHOLD.
  split; [|split].
  - intros H0. apply none_popcnt in H0. rewrite H0. split; reflexivity.
  - intros [Hlo Hhi]. apply none_false_popcnt in Hlo. rewrite Hlo.
    apply Z.leb_le in Hhi. rewrite Hhi.
    rewrite !for_each_bit_lanes. split; reflexivity.
  - intros Hgt.
    assert (Hn : none active = false) by (apply none_false_popcnt; lia).
    assert (Hle : (popcnt active <=? 3) = false) by (apply Z.leb_gt; exact Hgt).
    rewrite Hn, Hle. split; reflexivity.
Qed.

Lemma post_pop_switch_witness :
  occluded_step (sample_config 2) facet_kernels
                (load_ray (sample_config 2) lane0_only sample_ray) tt lane0_state AtPop
  = Finished (mkState sample_ray (ray_tfar lane0_state) (splat true) [(invalidNode, inf)]).
Proof.
  refine (eq_trans
            (proj2 (proj1 (proj2 (proj2
               (post_pop_switch (sample_config 2) facet_kernels
                  (load_ray (sample_config 2) lane0_only sample_ray) tt lane0_state
                  wall (mk4 (fin 0) pos_inf pos_inf pos_inf) [(invalidNode, inf)] _ _ _))) _)) _).
  - reflexivity.
  - reflexivity.
  - reflexivity.
  - vm_compute. split; [reflexivity | discriminate].
  - reflexivity.
Defined.

(** C5 (as stated) fails for any-hit: when the walker terminates the last
    live lane the loop is left at once instead of popping the next entry. *)
Lemma post_pop_switch_anyhit_counterexample :
  ~ (forall (cfg : Config) (K : Kernels Facet) (tr : TravRay) (pre : Precalculations K)
            (s : State Facet) (curNode : NodeRef Facet) (curDist : ssef)
            (rest : list (StackItem Facet)),
        threshold cfg = SWITCH_THRESHOLD ->
        stack s = (curNode, curDist) :: rest ->
        is_invalidNode curNode = false ->
        0 < popcnt (vlt curDist (ray_tfar s)) <= 3 ->
        exists s', occluded_step cfg K tr pre s AtPop = Running s' AtPop).
Proof.
  intros H.
  destruct (H (sample_config 2) facet_kernels
              (load_ray (sample_config 2) lane0_only sample_ray) tt lane0_state
              wall (mk4 (fin 0) pos_inf pos_inf pos_inf) [(invalidNode, inf)]
              eq_refl eq_refl eq_refl) as [s' Hs'].
  - vm_compute. split; [reflexivity | discriminate].
  - vm_compute in Hs'. discriminate Hs'.
Qed.

(** ** Runs: invariants and termination *)

Section RunFacts.
Context {Primitive : Type}.
Variable step : State Primitive -> Ctl Primitive -> Outcome Primitive.

Lemma run_add (n k : nat) (o : Outcome Primitive) :
  run step (n + k) o = run step k (run step n o).
Proof.
  revert o. induction n as [|n IH]; intros o; [reflexivity|].
  cbn [Nat.add run]. destruct o as [s c| |].
  - apply IH.
  - destruct k; reflexivity.
  - destruct k; reflexivity.
Qed.

Lemma run_not_running (n : nat) (o : Outcome Primitive) :
  is_running o = false -> run step n o = o.
Proof. destruct n, o; cbn; intros; try reflexivity; discriminate. Qed.

Lemma run_invariant (P : State Primitive -> Ctl Primitive -> Prop)
      (Q : State Primitive -> Prop) :
  (forall s c, P s c -> outcome_sat P Q (step s c)) ->
  forall n o, outcome_sat P Q o -> outcome_sat P Q (run step n o).
Proof.
  intros Hstep n. induction n as [|n IH]; intros o Ho; [exact Ho|].
  destruct o as [s c| |]; cbn [run]; [|exact Ho|exact Ho].
  apply IH, Hstep, Ho.
Qed.

(** A relation between a state and every later one. *)
Lemma run_relates (P : State Primitive -> Ctl Primitive -> Prop)
      (R : State Primitive -> State Primitive -> Prop) :
  (forall s, R s s) ->
  (forall a b c, R a b -> R b c -> R a c) ->
  (forall s c, P s c -> outcome_sat P (fun _ => True) (step s c)) ->
  (forall s c s', P s c -> outcome_state (step s c) = Some s' -> R s s') ->
  forall n s c s', P s c ->
                   outcome_state (run step n (Running s c)) = Some s' -> R s s'.
Proof.
  intros Hrefl Htrans Hinv Hrel n.
  induction n as [|n IH]; intros s c s' HP Hs'.
  - cbn in Hs'. injection Hs' as <-. apply Hrefl.
  - cbn [run] in Hs'. pose proof (Hinv s c HP) as Hi.
    pose proof (Hrel s c) as Hr.
    destruct (step s c) as [s1 c1|s1|f].
    + apply Htrans with s1; [apply Hr; [exact HP|reflexivity]|].
      apply IH with c1; assumption.
    + rewrite run_not_running in Hs' by reflexivity.
      apply Hr; [exact HP|exact Hs'].
    + rewrite run_not_running in Hs' by reflexivity. discriminate.
Qed.

Lemma run_terminates :
  (forall s c, (measure (step s c) < measure (Running s c))%nat) ->
  forall n o, (measure o < n)%nat -> is_running (run step n o) = false.
Proof.
  intros Hdec n. induction n as [|n IH]; intros o Hm; [lia|].
  destruct o as [s c| |]; cbn [run]; try reflexivity.
  apply IH. pose proof (Hdec s c). lia.
Qed.
End RunFacts.

Section StepFacts.
Context {Primitive : Type}.
Variable cfg : Config.
Variable K : Kernels Primitive.

Lemma weight_pos (n : NodeRef Primitive) : (1 <= weight n)%nat.
Proof. destruct n; cbn; lia. Qed.

Lemma child_loop_weight (test : lane -> sseb * ssef) (ch : vec4 (NodeRef Primitive))
      (todo : list lane) (c c' : Cursor Primitive) :
  child_loop cfg test ch todo c = inr c' ->
  (weight (c_node c') + stack_weight (c_stack c')
   <= weight (c_node c) + stack_weight (c_stack c) + children_weight ch todo)%nat.
Proof.
  revert c. induction todo as [|i rest IH]; intros c H.
  - cbn in H. injection H as <-. cbn. lia.
  - cbn [child_loop] in H. cbn [children_weight fold_right]. fold (children_weight ch rest).
    destruct (is_emptyNode (get ch i)).
    { injection H as <-. lia. }
    destruct (test i) as [lhit lnearP].
    destruct (any lhit).
    + destruct (length (c_stack c) <? stackSizeChunk cfg)%nat; [|discriminate].
      destruct (any (vlt (select lhit lnearP inf) (c_dist c)));
        apply IH in H; cbn [c_node c_stack stack_weight fold_right fst] in H;
        fold (stack_weight (c_stack c)) in H; lia.
    + apply IH in H. lia.
Qed.

Lemma children_weight_node (n : NodeRef Primitive) :
  isNode n || isNodeMB n = true ->
  S (children_weight (children n) [L0; L1; L2; L3]) = weight n.
Proof.
  destruct n; cbn; intros H; try discriminate; lia.
Qed.

Ltac msolve :=
  cbn [measure stack]; unfold stack_weight in *; cbn [fold_right fst] in *; lia.

Lemma descend_measure (s : State Primitive) (test : lane -> sseb * ssef)
      (n : NodeRef Primitive) :
  isNode n || isNodeMB n = true ->
  (measure (descend cfg s test n) < 2 * (weight n + stack_weight (stack s)))%nat.
Proof.
  intros Hn. pose proof (weight_pos n) as Hw.
  unfold descend. destruct (stack s) as [|[n' d'] rest] eqn:Hs; [msolve|].
  destruct (child_loop cfg test (children n) lanes (mkCursor rest n' d')) as [f|c] eqn:Hc;
    [msolve|].
  apply child_loop_weight in Hc. cbn [c_node c_stack] in Hc.
  pose proof (children_weight_node n Hn) as Hk. unfold lanes in Hc.
  cbn [stack_weight fold_right fst]. fold (stack_weight rest).
  destruct (switch_during_down cfg && (popcnt (vgt (ray_tfar s) (c_dist c)) <=? threshold cfg)).
  - destruct (length (c_stack c) <? stackSizeChunk cfg)%nat; [|msolve].
    msolve.
  - msolve.
Qed.

Lemma classify_node (n : NodeRef Primitive) :
  classify cfg n = KNode -> isNode n = true.
Proof.
  unfold classify.
  destruct (Z.testbit (types cfg) 0 && isNode n) eqn:E.
  - intros _. apply andb_true_iff in E. apply E.
  - destruct (Z.testbit (types cfg) 4 && isNodeMB n); [discriminate|].
    destruct (is_invalidNode n); [discriminate|].
    destruct (isNode n || isNodeMB n); discriminate.
Qed.

Lemma classify_nodeMB (n : NodeRef Primitive) :
  classify cfg n = KNodeMB -> isNodeMB n = true.
Proof.
  unfold classify.
  destruct (Z.testbit (types cfg) 0 && isNode n); [discriminate|].
  destruct (Z.testbit (types cfg) 4 && isNodeMB n) eqn:E.
  - intros _. apply andb_true_iff in E. apply E.
  - destruct (is_invalidNode n); [discriminate|].
    destruct (isNode n || isNodeMB n); discriminate.
Qed.

Lemma finish_measure (s : State Primitive) : measure (finish_at_sentinel s) = O.
Proof. unfold finish_at_sentinel. destruct (stack s); reflexivity. Qed.

Lemma intersect_step_decreases (tr : TravRay) (pre : Precalculations K)
      (s : State Primitive) (c : Ctl Primitive) :
  (measure (intersect_step cfg K tr pre s c) < measure (Running s c))%nat.
Proof.
  destruct c as [|n d]; cbn [intersect_step measure].
  - destruct (stack s) as [|[n d] rest]; [msolve|].
    cbn [stack_weight fold_right fst]. fold (stack_weight rest).
    pose proof (weight_pos n).
    destruct (is_invalidNode n); [unfold finish_at_sentinel; cbn; destruct rest; msolve|].
    destruct (none (vlt d (ray_tfar s))); [msolve|].
    destruct (popcnt (vlt d (ray_tfar s)) <=? threshold cfg); msolve.
  - pose proof (weight_pos n).
    destruct (classify cfg n) eqn:Hc.
    + apply descend_measure. rewrite (classify_node n Hc). reflexivity.
    + apply descend_measure. rewrite (classify_nodeMB n Hc). apply orb_true_r.
    + rewrite finish_measure. lia.
    + msolve.
    + msolve.
Qed.

Lemma occluded_step_decreases (tr : TravRay) (pre : Precalculations K)
      (s : State Primitive) (c : Ctl Primitive) :
  (measure (occluded_step cfg K tr pre s c) < measure (Running s c))%nat.
Proof.
  destruct c as [|n d]; cbn [occluded_step measure].
  - destruct (stack s) as [|[n d] rest]; [msolve|].
    cbn [stack_weight fold_right fst]. fold (stack_weight rest).
    pose proof (weight_pos n).
    destruct (is_invalidNode n); [unfold finish_at_sentinel; cbn; destruct rest; msolve|].
    destruct (none (vlt d (ray_tfar s))); [msolve|].
    destruct (popcnt (vlt d (ray_tfar s)) <=? threshold cfg); [|msolve].
    match goal with |- context [all ?t] => destruct (all t) end; msolve.
  - pose proof (weight_pos n).
    destruct (classify cfg n) eqn:Hc.
    + apply descend_measure. rewrite (classify_node n Hc). reflexivity.
    + apply descend_measure. rewrite (classify_nodeMB n Hc). apply orb_true_r.
    + rewrite finish_measure. lia.
    + match goal with |- context [all ?t] => destruct (all t) end; msolve.
    + msolve.
Qed.

(** Both entry points come to an end: a number of steps bounded by the size
    of the tree leaves no pending work. *)
Lemma intersect_run_ends (valid : sseb) (root : NodeRef Primitive) (r : Ray4) :
  is_running (intersect_run cfg K (2 * weight root + 4) valid root r) = false.
Proof.
  unfold intersect_run. apply run_terminates.
  - intros s c. apply intersect_step_decreases.
  - cbn. lia.
Qed.

Lemma occluded_run_ends (valid : sseb) (root : NodeRef Primitive) (r : Ray4) :
  is_running (occluded_run cfg K (2 * weight root + 4) valid root r) = false.
Proof.
  unfold occluded_run. apply run_terminates.
  - intros s c. apply occluded_step_decreases.
  - cbn. lia.
Qed.

Lemma intersect_returns (valid : sseb) (root : NodeRef Primitive) (r : Ray4) :
  exists res, intersect cfg K (2 * weight root + 4) valid root r = Some res.
Proof.
  pose proof (intersect_run_ends valid root r) as H. unfold intersect.
  destruct (intersect_run cfg K (2 * weight root + 4) valid root r); try discriminate; eauto.
Qed.

Lemma occluded_returns (valid : sseb) (root : NodeRef Primitive) (r : Ray4) :
  exists res, occluded cfg K (2 * weight root + 4) valid root r = Some res.
Proof.
  pose proof (occluded_run_ends valid root r) as H. unfold occluded.
  destruct (occluded_run cfg K (2 * weight root + 4) valid root r); try discriminate; eauto.
Qed.
End StepFacts.

(** ** Closest hit: the cull bound only shrinks *)

Section ClosestHit.
Context {Primitive : Type}.
Variable cfg : Config.
Variable K : Kernels Primitive.
Hypothesis HK : KernelContract K.

Lemma descend_frame (s : State Primitive) (test : lane -> sseb * ssef)
      (n : NodeRef Primitive) :
  outcome_sat (fun s' _ => ray s' = ray s /\ ray_tfar s' = ray_tfar s
                           /\ terminated s' = terminated s)
              (fun _ => False) (descend cfg s test n).
Proof.
  unfold descend. destruct (stack s) as [|[n' d'] rest]; [exact I|].
  destruct (child_loop cfg test (children n) lanes (mkCursor rest n' d')); [exact I|].
  destruct (switch_during_down cfg && _).
  - destruct (length (c_stack c) <? stackSizeChunk cfg)%nat; cbn; auto.
  - cbn. auto.
Qed.

Lemma fold_single_frame (n : NodeRef Primitive) (pre : Precalculations K) (tr : TravRay)
      (tf : ssef) (ls : list lane) (r : Ray4) (l : lane) :
  ~ In l ls ->
  ray_lane (fold_left (fun r i => intersect1 K n i pre r tr tf) ls r) l = ray_lane r l.
Proof.
  revert r. induction ls as [|i ls IH]; intros r Hin; [reflexivity|].
  cbn [fold_left]. rewrite IH.
  - apply (single_frame K HK). intros ->. apply Hin. left. reflexivity.
  - intros H. apply Hin. right. exact H.
Qed.

Lemma fold_single_lowers (n : NodeRef Primitive) (pre : Precalculations K) (tr : TravRay)
      (tf : ssef) (ls : list lane) (r : Ray4) (l : lane) :
  flt_leb (get (tfar (fold_left (fun r i => intersect1 K n i pre r tr tf) ls r)) l)
          (get (tfar r) l) = true.
Proof.
  revert r. induction ls as [|i ls IH]; intros r; [apply flt_leb_refl|].
  cbn [fold_left]. eapply flt_leb_trans; [apply IH|].
  apply (single_lowers K HK).
Qed.

Lemma ray_lane_tfar (r r' : Ray4) (l : lane) :
  ray_lane r' l = ray_lane r l -> get (tfar r') l = get (tfar r) l.
Proof. unfold ray_lane. intros H. injection H. intros. assumption. Qed.

Lemma fmin_of_le (a b : flt) : flt_leb b a = true -> fmin a b = b.
Proof. intros H. flt_cases. Qed.

Lemma intersect_step_inv (valid : sseb) (r0 : Ray4) (tr : TravRay)
      (pre : Precalculations K) (s : State Primitive) (c : Ctl Primitive) :
  lane_inv valid r0 s ->
  outcome_sat (fun s' _ => lane_inv valid r0 s' /\ tfar_le s s')
              (fun s' => lane_inv valid r0 s' /\ tfar_le s s')
              (intersect_step cfg K tr pre s c).
Proof.
  intros Hinv.
  assert (Hsame : forall s', ray s' = ray s -> ray_tfar s' = ray_tfar s ->
                             lane_inv valid r0 s' /\ tfar_le s s').
  { intros s' Hr Ht. split.
    - intros l. rewrite Hr, Ht. apply Hinv.
    - intros l. rewrite Hr, Ht. split; apply flt_leb_refl. }
  destruct c as [|n d]; cbn [intersect_step].
  - destruct (stack s) as [|[n d] rest]; [exact I|].
    destruct (is_invalidNode n).
    { unfold finish_at_sentinel. cbn [stack]. destruct rest; cbn; [|exact I].
      apply Hsame; reflexivity. }
    destruct (none (vlt d (ray_tfar s))); [cbn; apply Hsame; reflexivity|].
    destruct (popcnt (vlt d (ray_tfar s)) <=? threshold cfg);
      [|cbn; apply Hsame; reflexivity].
    rewrite for_each_bit_lanes. cbn [outcome_sat].
    set (ls := filter (get (vlt d (ray_tfar s))) [L0; L1; L2; L3]).
    set (ray' := fold_left _ ls (ray s)).
    assert (Hlow : forall l, flt_leb (get (tfar ray') l) (get (tfar (ray s)) l) = true).
    { intros l. apply fold_single_lowers. }
    assert (Hfr : forall l, get valid l = false -> ray_lane ray' l = ray_lane (ray s) l).
    { intros l Hv. apply fold_single_frame. unfold ls. rewrite filter_In.
      intros [_ Hact]. rewrite get_vlt in Hact.
      destruct (Hinv l) as (_ & _ & Hg). destruct (Hg Hv) as [Hneg _].
      rewrite Hneg, flt_ltb_neg_inf in Hact. discriminate. }
    split.
    + intros l. cbn [ray ray_tfar]. destruct (Hinv l) as (H1 & H2 & H3).
      split; [eapply flt_leb_trans; [apply Hlow|exact H1]|]. split.
      * intros Hv. rewrite get_vmin, (H2 Hv). apply fmin_of_le, Hlow.
      * intros Hv. destruct (H3 Hv) as [Hneg Hl]. split.
        -- rewrite get_vmin, Hneg. apply fmin_neg_inf_l.
        -- rewrite (Hfr l Hv). exact Hl.
    + intros l. cbn [ray ray_tfar]. split; [|apply Hlow].
      rewrite get_vmin. apply fmin_le_l.
  - destruct (classify cfg n).
    + pose proof (descend_frame s (box_node tr (ray_tfar s) (boxes n)) n) as Hd.
      destruct (descend cfg s _ n) as [s' c'|s'|f]; cbn in Hd |- *;
        [apply Hsame; apply Hd|contradiction|exact I].
    + pose proof (descend_frame s (intersectBox (ray s) (ray_tfar s) (rdir tr)
                                                (boxes n) (dboxes n)) n) as Hd.
      destruct (descend cfg s _ n) as [s' c'|s'|f]; cbn in Hd |- *;
        [apply Hsame; apply Hd|contradiction|exact I].
    + unfold finish_at_sentinel. destruct (stack s); cbn; [|exact I].
      apply Hsame; reflexivity.
    + cbn [outcome_sat].
      set (valid_leaf := vgt (ray_tfar s) d).
      set (ray' := prim_intersect K valid_leaf pre (ray s) (leaf n)).
      assert (Hlow : forall l, flt_leb (get (tfar ray') l) (get (tfar (ray s)) l) = true).
      { intros l. apply (prim_lowers K HK). }
      assert (Hfr : forall l, get valid_leaf l = false -> ray_lane ray' l = ray_lane (ray s) l).
      { intros l Hv. apply (prim_frame K HK). exact Hv. }
      assert (Hnv : forall l, get valid l = false -> get valid_leaf l = false).
      { intros l Hv. unfold valid_leaf. rewrite get_vgt.
        destruct (Hinv l) as (_ & _ & Hg). destruct (Hg Hv) as [Hneg _].
        rewrite Hneg. destruct (get d l); reflexivity. }
      split.
      * intros l. cbn [ray ray_tfar]. destruct (Hinv l) as (H1 & H2 & H3).
        split; [eapply flt_leb_trans; [apply Hlow|exact H1]|]. split.
        -- intros Hv. rewrite get_select. destruct (get valid_leaf l) eqn:E; [reflexivity|].
           rewrite (H2 Hv). symmetry. apply ray_lane_tfar, Hfr, E.
        -- intros Hv. rewrite get_select, (Hnv l Hv). destruct (H3 Hv) as [Hneg Hl].
           split; [exact Hneg|]. rewrite (Hfr l (Hnv l Hv)). exact Hl.
      * intros l. cbn [ray ray_tfar]. split; [|apply Hlow].
        rewrite get_select. destruct (get valid_leaf l) eqn:E; [|apply flt_leb_refl].
        destruct (get valid l) eqn:Hv.
        -- destruct (Hinv l) as (_ & H2 & _). rewrite (H2 Hv). apply Hlow.
        -- rewrite (Hnv l Hv) in E. discriminate.
    + exact I.
Qed.

Lemma init_lane_inv (valid term0 : sseb) (root : NodeRef Primitive) (r : Ray4) :
  lane_inv valid r (init_state cfg valid term0 root r).
Proof.
  intros l. cbn [init_state ray ray_tfar]. split; [apply flt_leb_refl|].
  rewrite get_select. split; intros Hv; rewrite Hv; [reflexivity|].
  rewrite get_splat. split; reflexivity.
Qed.

Lemma intersect_reach (valid : sseb) (root : NodeRef Primitive) (r : Ray4) (n : nat) :
  outcome_sat (fun s _ => lane_inv valid r s) (lane_inv valid r)
              (intersect_run cfg K n valid root r).
Proof.
  unfold intersect_run. apply run_invariant; [|apply init_lane_inv].
  intros s c Hs.
  pose proof (intersect_step_inv valid r (load_ray cfg valid r) (precalc K valid r) s c Hs) as H.
  destruct (intersect_step cfg K _ _ s c); cbn in H |- *; tauto.
Qed.

Lemma tfar_le_refl (s : State Primitive) : tfar_le s s.
Proof. intros l. split; apply flt_leb_refl. Qed.

Lemma tfar_le_trans (a b c : State Primitive) : tfar_le a b -> tfar_le b c -> tfar_le a c.
Proof.
  intros H1 H2 l. destruct (H1 l), (H2 l).
  split; eapply flt_leb_trans; eassumption.
Qed.

Lemma intersect_later (valid : sseb) (root : NodeRef Primitive) (r : Ray4)
      (n k : nat) (s s' : State Primitive) :
  outcome_state (intersect_run cfg K n valid root r) = Some s ->
  outcome_state (intersect_run cfg K (n + k) valid root r) = Some s' ->
  tfar_le s s'.
Proof.
  intros Hs Hs'. pose proof (intersect_reach valid root r n) as Hr.
  unfold intersect_run in *. rewrite run_add in Hs'.
  destruct (run _ n _) as [s0 c0|s0|f]; cbn in Hs, Hr.
  - injection Hs as <-.
    refine (run_relates _ (fun s _ => lane_inv valid r s) tfar_le
                        tfar_le_refl tfar_le_trans _ _ k s0 c0 s' Hr Hs').
    + intros s1 c1 H1.
      pose proof (intersect_step_inv valid r (load_ray cfg valid r) (precalc K valid r)
                                     s1 c1 H1) as H.
      destruct (intersect_step cfg K _ _ s1 c1); cbn in H |- *; tauto.
    + intros s1 c1 s2 H1 H2.
      pose proof (intersect_step_inv valid r (load_ray cfg valid r) (precalc K valid r)
                                     s1 c1 H1) as H.
      destruct (intersect_step cfg K _ _ s1 c1); cbn in H, H2; try discriminate;
        injection H2 as <-; tauto.
  - injection Hs as <-. rewrite run_not_running in Hs' by reflexivity.
    injection Hs' as <-. apply tfar_le_refl.
  - discriminate.
Qed.
End ClosestHit.

(** C7: under the collaborators' contract the working cull bound of every
    lane never grows from one point of a closest-hit traversal to a later
    one; the call comes to an end; and the tfar it leaves in every lane is at
    most the tfar at entry. *)
Theorem ray_tfar_never_increases {Primitive : Type} (cfg : Config) (K : Kernels Primitive)
        (HK : KernelContract K) (valid : sseb) (root : NodeRef Primitive) (r : Ray4) :
  (forall n m s s',
      (n <= m)%nat ->
      outcome_state (intersect_run cfg K n valid root r) = Some s ->
      outcome_state (intersect_run cfg K m valid root r) = Some s' ->
      forall l, flt_leb (get (ray_tfar s') l) (get (ray_tfar s) l) = true)
  /\ (exists res, intersect cfg K (2 * weight root + 4) valid root r = Some res)
  /\ (forall fuel r',
         intersect cfg K fuel valid root r = Some (inr r') ->
         forall l, flt_leb (get (tfar r') l) (get (tfar r) l) = true).
Proof.
  split; [|split].
  - intros n m s s' Hnm Hs Hs' l.
    replace m with (n + (m - n))%nat in Hs' by lia.
    apply (intersect_later cfg K HK valid root r n (m - n) s s' Hs Hs').
  - apply intersect_returns.
  - intros fuel r' Hres l. unfold intersect in Hres.
    pose proof (intersect_reach cfg K HK valid root r fuel) as Hr.
    destruct (intersect_run cfg K fuel valid root r) as [s c|s|f]; try discriminate.
    injection Hres as <-. apply Hr.
Qed.

(** ** The single-ray walker and the example kernels meet the contract *)

Lemma flt_ltb_leb (a b : flt) : flt_ltb a b = true -> flt_leb a b = true.
Proof. intros H. flt_cases. Qed.

Lemma only_other (i l : lane) : l <> i -> get (only i) l = false.
Proof. destruct i, l; intros H; try reflexivity; contradiction H; reflexivity. Qed.

Lemma only_self (i : lane) : get (only i) i = true.
Proof. destruct i; reflexivity. Qed.

Section WalkerContract.
Context {Primitive : Type}.
Variable Pre : Type.
Variable p_intersect : sseb -> Pre -> Ray4 -> list Primitive -> Ray4.
Hypothesis p_frame : forall valid pre r prims l,
    get valid l = false -> ray_lane (p_intersect valid pre r prims) l = ray_lane r l.
Hypothesis p_lowers : forall valid pre r prims l,
    flt_leb (get (tfar (p_intersect valid pre r prims)) l) (get (tfar r) l) = true.

Lemma fold_left_keeps {A : Type} (R : Ray4 -> Ray4 -> Prop) (f : Ray4 -> A -> Ray4)
      (ls : list A) :
  (forall r, R r r) ->
  (forall a b c, R a b -> R b c -> R a c) ->
  (forall acc a, R acc (f acc a)) ->
  forall r, R r (fold_left f ls r).
Proof.
  intros Hrefl Htrans Hf. induction ls as [|a ls IH]; intros r; [apply Hrefl|].
  cbn [fold_left]. eapply Htrans; [apply Hf|apply IH].
Qed.

Lemma walk_intersect1_keeps (R : Ray4 -> Ray4 -> Prop) (i : lane) :
  (forall r, R r r) ->
  (forall a b c, R a b -> R b c -> R a c) ->
  (forall pre r prims, R r (p_intersect (only i) pre r prims)) ->
  forall n pre tr r, R r (walk_intersect1 Pre p_intersect n i pre tr r).
Proof.
  intros Hrefl Htrans Hp n pre tr.
  induction n as [| |c0 IH0 c1 IH1 c2 IH2 c3 IH3 b
                    |c0 IH0 c1 IH1 c2 IH2 c3 IH3 b db|prims]; intros r;
    cbn [walk_intersect1].
  - apply Hp.
  - apply Hrefl.
  - apply fold_left_keeps; try assumption.
    intros acc [k dk]. cbn [fst]. destruct k; auto.
  - apply fold_left_keeps; try assumption.
    intros acc [k dk]. cbn [fst]. destruct k; auto.
  - apply Hp.
Qed.

Lemma walk_intersect1_frame (n : NodeRef Primitive) (i l : lane) (pre : Pre)
      (tr : TravRay) (r : Ray4) :
  l <> i ->
  ray_lane (walk_intersect1 Pre p_intersect n i pre tr r) l = ray_lane r l.
Proof.
  intros Hl. symmetry.
  apply (walk_intersect1_keeps (fun a b => ray_lane a l = ray_lane b l)).
  - reflexivity.
  - intros a b c H1 H2. congruence.
  - intros pre' r' prims. symmetry. apply p_frame, only_other, Hl.
Qed.

Lemma walk_intersect1_lowers (n : NodeRef Primitive) (i l : lane) (pre : Pre)
      (tr : TravRay) (r : Ray4) :
  flt_leb (get (tfar (walk_intersect1 Pre p_intersect n i pre tr r)) l) (get (tfar r) l) = true.
Proof.
  apply (walk_intersect1_keeps
           (fun a b => flt_leb (get (tfar b) l) (get (tfar a) l) = true)).
  - intros. apply flt_leb_refl.
  - intros a b c H1 H2. eapply flt_leb_trans; eassumption.
  - intros. apply p_lowers.
Qed.
End WalkerContract.

Lemma facet_intersect_frame (valid : sseb) (r : Ray4) (p : Facet) (l : lane) :
  get valid l = false -> ray_lane (facet_intersect valid r p) l = ray_lane r l.
Proof.
  intros Hv. unfold ray_lane, facet_intersect, get3. cbn [org dir tnear tfar time mask Ng u v geomID primID instID].
  rewrite !get_select.
  assert (E : get (vand valid (vand (vlt (tnear r) (facet_t p)) (vlt (facet_t p) (tfar r)))) l
              = false).
  { unfold vand. rewrite get_vmap2, Hv. reflexivity. }
  rewrite E. reflexivity.
Qed.

Lemma facet_intersect_lowers (valid : sseb) (r : Ray4) (p : Facet) (l : lane) :
  flt_leb (get (tfar (facet_intersect valid r p)) l) (get (tfar r) l) = true.
Proof.
  unfold facet_intersect. cbn [tfar]. rewrite get_select.
  destruct (get (vand valid _) l) eqn:E; [|apply flt_leb_refl].
  unfold vand in E. rewrite !get_vmap2 in E.
  apply andb_true_iff in E. destruct E as [_ E].
  apply andb_true_iff in E. destruct E as [_ E].
  rewrite get_vlt in E. apply flt_ltb_leb, E.
Qed.

Lemma facets_intersect_frame (valid : sseb) (pre : unit) (r : Ray4) (ps : list Facet)
      (l : lane) :
  get valid l = false -> ray_lane (facets_intersect valid pre r ps) l = ray_lane r l.
Proof.
  intros Hv. unfold facets_intersect. revert r.
  induction ps as [|p ps IH]; intros r; [reflexivity|].
  cbn [fold_left]. rewrite IH. apply facet_intersect_frame, Hv.
Qed.

Lemma facets_intersect_lowers (valid : sseb) (pre : unit) (r : Ray4) (ps : list Facet)
      (l : lane) :
  flt_leb (get (tfar (facets_intersect valid pre r ps)) l) (get (tfar r) l) = true.
Proof.
  unfold facets_intersect. revert r.
  induction ps as [|p ps IH]; intros r; [apply flt_leb_refl|].
  cbn [fold_left]. eapply flt_leb_trans; [apply IH|apply facet_intersect_lowers].
Qed.

Lemma facet_kernels_contract : KernelContract facet_kernels.
Proof.
  constructor; cbn.
  - intros. apply facets_intersect_frame. assumption.
  - intros. apply facets_intersect_lowers.
  - intros. apply walk_intersect1_frame; [apply facets_intersect_frame|assumption].
  - intros. apply walk_intersect1_lowers. apply facets_intersect_lowers.
Qed.

(** ** A lane whose cull bound is minus infinity fails every box test *)

Lemma spec_hit_neg_inf (tn : flt) (s : LaneSlab) :
  (exists a b, t_min_z s = fin a /\ t_max_z s = fin b) ->
  spec_hit tn neg_inf s = false.
Proof.
  intros (a & b & Ha & Hb). unfold spec_hit, spec_t_near, spec_t_far.
  rewrite Ha, Hb, fmin_neg_inf_l, !fmin_neg_inf_l.
  generalize (fmax (fmax tn (fmin (t_min_x s) (t_max_x s))) (fmin (t_min_y s) (t_max_y s))).
  intros x. flt_cases.
Qed.

Lemma box_node_neg_inf (tr : TravRay) (ray_tfar : ssef) (b : Boxes) (i l : lane) :
  get ray_tfar l = neg_inf -> get (fst (box_node tr ray_tfar b i)) l = false.
Proof.
  intros H. rewrite (proj1 (box_node_lane tr ray_tfar b i l)), H.
  apply spec_hit_neg_inf. unfold static_slab, axis_t. cbn. eauto.
Qed.

Lemma intersectBox_neg_inf (r : Ray4) (ray_tfar : ssef) (rd : sse3f) (b db : Boxes)
      (i l : lane) :
  get ray_tfar l = neg_inf -> get (fst (intersectBox r ray_tfar rd b db i)) l = false.
Proof.
  intros H. rewrite (proj1 (intersectBox_lane r ray_tfar rd b db i l)), H.
  apply spec_hit_neg_inf. unfold mb_slab, axis_t. cbn. eauto.
Qed.

Lemma vgt_neg_inf (t d : ssef) (l : lane) :
  get t l = neg_inf -> get (vgt t d) l = false.
Proof. intros H. rewrite get_vgt, H. destruct (get d l); reflexivity. Qed.

(** ** Any hit: termination mask and guard values *)

Section AnyHit.
Context {Primitive : Type}.
Variable cfg : Config.
Variable K : Kernels Primitive.

Lemma get_set_same {A : Type} (t : vec4 A) (i : lane) (a : A) : get (set t i a) i = a.
Proof. destruct i; reflexivity. Qed.

Lemma get_set_other {A : Type} (t : vec4 A) (i l : lane) (a : A) :
  l <> i -> get (set t i a) l = get t l.
Proof. destruct i, l; intros H; try reflexivity; contradiction H; reflexivity. Qed.

Lemma fold_set_mono (f : lane -> bool) (ls : list lane) (t : sseb) (l : lane) :
  get t l = true ->
  get (fold_left (fun t i => if f i then set t i true else t) ls t) l = true.
Proof.
  revert t. induction ls as [|i ls IH]; intros t H; [exact H|].
  cbn [fold_left]. apply IH. destruct (f i); [|exact H].
  destruct i, l; cbn in *; auto.
Qed.

Lemma occluded_step_inv (valid : sseb) (r0 : Ray4) (tr : TravRay)
      (pre : Precalculations K) (s : State Primitive) (c : Ctl Primitive) :
  term_inv valid r0 s ->
  outcome_sat (fun s' _ => term_inv valid r0 s' /\ term_le s s')
              (fun s' => term_exit valid r0 s' /\ term_le s s')
              (occluded_step cfg K tr pre s c).
Proof.
  intros [Hray Hinv].
  assert (Hsame : forall s', ray s' = ray s -> ray_tfar s' = ray_tfar s ->
                             terminated s' = terminated s ->
                             term_inv valid r0 s' /\ term_le s s').
  { intros s' Hr Ht Hm. split; [split|].
    - congruence.
    - intros l. rewrite Ht, Hm. apply Hinv.
    - intros l. rewrite Hm. auto. }
  assert (Hexit : forall s', ray s' = ray s -> terminated s' = terminated s ->
                             term_exit valid r0 s' /\ term_le s s').
  { intros s' Hr Hm. split; [split|].
    - congruence.
    - intros l. rewrite Hm. apply Hinv.
    - intros l. rewrite Hm. auto. }
  assert (Hgrow : forall term' rest,
             (forall l, get (terminated s) l = true -> get term' l = true) ->
             outcome_sat (fun s' _ => term_inv valid r0 s' /\ term_le s s')
                         (fun s' => term_exit valid r0 s' /\ term_le s s')
                         (if all term'
                          then Finished (mkState (ray s) (ray_tfar s) term' rest)
                          else Running (mkState (ray s)
                                                (select term' (splat neg_inf) (ray_tfar s))
                                                term' rest) AtPop)).
  { intros term' rest Hmono.
    destruct (all term'); cbn [outcome_sat]; unfold term_inv, term_exit, term_le;
      cbn [ray ray_tfar terminated].
    - split; [split|]; [exact Hray| |exact Hmono].
      intros l Hv. apply Hmono, Hinv, Hv.
    - split; [split|]; [exact Hray| |exact Hmono].
      intros l. split.
      + intros Ht. rewrite get_select, Ht. apply get_splat.
      + intros Hv. apply Hmono, Hinv, Hv. }
  destruct c as [|n d]; cbn [occluded_step].
  - destruct (stack s) as [|[n d] rest]; [exact I|].
    destruct (is_invalidNode n).
    { unfold finish_at_sentinel. cbn [stack]. destruct rest; cbn; [|exact I].
      apply Hexit; reflexivity. }
    destruct (none (vlt d (ray_tfar s))); [cbn; apply Hsame; reflexivity|].
    destruct (popcnt (vlt d (ray_tfar s)) <=? threshold cfg);
      [|cbn; apply Hsame; reflexivity].
    rewrite for_each_bit_lanes. apply Hgrow.
    intros l Hl. apply fold_set_mono with (f := fun i => occluded1 K n i pre (ray s) tr (ray_tfar s)).
    exact Hl.
  - destruct (classify cfg n).
    + pose proof (descend_frame cfg s (box_node tr (ray_tfar s) (boxes n)) n) as Hd.
      destruct (descend cfg s _ n) as [s' c'|s'|f]; cbn in Hd |- *;
        [apply Hsame; apply Hd|contradiction|exact I].
    + pose proof (descend_frame cfg s (intersectBox (ray s) (ray_tfar s) (rdir tr)
                                                    (boxes n) (dboxes n)) n) as Hd.
      destruct (descend cfg s _ n) as [s' c'|s'|f]; cbn in Hd |- *;
        [apply Hsame; apply Hd|contradiction|exact I].
    + unfold finish_at_sentinel. destruct (stack s); cbn; [|exact I].
      apply Hexit; reflexivity.
    + apply Hgrow. intros l Hl. unfold vor. rewrite get_vmap2, Hl. reflexivity.
    + exact I.
Qed.

Lemma init_term_inv (valid : sseb) (root : NodeRef Primitive) (r : Ray4) :
  term_inv valid r (init_state cfg valid (vnot valid) root r).
Proof.
  split; [reflexivity|]. intros l. cbn [init_state terminated ray_tfar].
  unfold vnot. rewrite get_vmap, get_select. split.
  - intros H. destruct (get valid l); [discriminate|]. apply get_splat.
  - intros ->. reflexivity.
Qed.

Lemma occluded_reach (valid : sseb) (root : NodeRef Primitive) (r : Ray4) (n : nat) :
  outcome_sat (fun s _ => term_inv valid r s) (term_exit valid r)
              (occluded_run cfg K n valid root r).
Proof.
  unfold occluded_run. apply run_invariant; [|apply init_term_inv].
  intros s c Hs.
  pose proof (occluded_step_inv valid r (load_ray cfg valid r) (precalc K valid r) s c Hs) as H.
  destruct (occluded_step cfg K _ _ s c); cbn in H |- *; tauto.
Qed.
End AnyHit.

Section AnyHitRuns.
Context {Primitive : Type}.
Variable cfg : Config.
Variable K : Kernels Primitive.

Lemma term_le_refl (s : State Primitive) : term_le s s.
Proof. intros l H. exact H. Qed.

Lemma term_le_trans (a b c : State Primitive) : term_le a b -> term_le b c -> term_le a c.
Proof. intros H1 H2 l H. apply H2, H1, H. Qed.

Lemma occluded_later (valid : sseb) (root : NodeRef Primitive) (r : Ray4)
      (n k : nat) (s s' : State Primitive) :
  outcome_state (occluded_run cfg K n valid root r) = Some s ->
  outcome_state (occluded_run cfg K (n + k) valid root r) = Some s' ->
  term_le s s'.
Proof.
  intros Hs Hs'. pose proof (occluded_reach cfg K valid root r n) as Hr.
  unfold occluded_run in *. rewrite run_add in Hs'.
  destruct (run _ n _) as [s0 c0|s0|f]; cbn in Hs, Hr.
  - injection Hs as <-.
    refine (run_relates _ (fun s _ => term_inv valid r s) term_le
                        term_le_refl term_le_trans _ _ k s0 c0 s' Hr Hs').
    + intros s1 c1 H1.
      pose proof (occluded_step_inv cfg K valid r (load_ray cfg valid r) (precalc K valid r)
                                    s1 c1 H1) as H.
      destruct (occluded_step cfg K _ _ s1 c1); cbn in H |- *; tauto.
    + intros s1 c1 s2 H1 H2.
      pose proof (occluded_step_inv cfg K valid r (load_ray cfg valid r) (precalc K valid r)
                                    s1 c1 H1) as H.
      destruct (occluded_step cfg K _ _ s1 c1); cbn in H, H2; try discriminate;
        injection H2 as <-; tauto.
  - injection Hs as <-. rewrite run_not_running in Hs' by reflexivity.
    injection Hs' as <-. apply term_le_refl.
  - discriminate.
Qed.
End AnyHitRuns.

(** C6 (as amended): in [occluded] a leaf ORs the hit mask the primitive
    intersector returns into [terminated] and the loop is left at once when
    all lanes are terminated; the mask only gains lanes; while the walk goes
    on every terminated lane has cull bound minus infinity and fails every
    box test; the call comes to an end, and on exit 0 is stored into the
    [geomID] of exactly the lanes of [valid & terminated], every other lane's
    field and all other fields being left as they were. *)
Theorem occluded_terminated_mask {Primitive : Type} (cfg : Config) (K : Kernels Primitive)
        (valid : sseb) (root : NodeRef Primitive) (r : Ray4) :
  (forall tr pre s n d,
      classify cfg n = KLeaf ->
      let hit := prim_occluded K (vnot (terminated s)) pre (ray s) (leaf n) in
      let term' := vor (terminated s) hit in
      occluded_step cfg K tr pre s (AtDown n d)
      = if all term'
        then Finished (mkState (ray s) (ray_tfar s) term' (stack s))
        else Running (mkState (ray s) (select term' (splat neg_inf) (ray_tfar s))
                              term' (stack s)) AtPop)
  /\ (forall n m s s',
         (n <= m)%nat ->
         outcome_state (occluded_run cfg K n valid root r) = Some s ->
         outcome_state (occluded_run cfg K m valid root r) = Some s' ->
         forall l, get (terminated s) l = true -> get (terminated s') l = true)
  /\ (forall n s c,
         occluded_run cfg K n valid root r = Running s c ->
         forall l, get (terminated s) l = true ->
                   get (ray_tfar s) l = neg_inf
                   /\ (forall b i,
                          get (fst (box_node (load_ray cfg valid r) (ray_tfar s) b i)) l = false)
                   /\ (forall b db i,
                          get (fst (intersectBox (ray s) (ray_tfar s)
                                                 (rdir (load_ray cfg valid r)) b db i)) l
                          = false))
  /\ (exists res, occluded cfg K (2 * weight root + 4) valid root r = Some res)
  /\ (forall fuel r',
         occluded cfg K fuel valid root r = Some (inr r') ->
         exists s,
           occluded_run cfg K fuel valid root r = Finished s
           /\ r' = set_geomID r (select (vand valid (terminated s)) (splat 0) (geomID r))).
Proof.
  split; [|split; [|split; [|split]]].
  - intros tr pre s n d Hc hit term'. cbn [occluded_step]. rewrite Hc. reflexivity.
  - intros n m s s' Hnm Hs Hs'.
    replace m with (n + (m - n))%nat in Hs' by lia.
    apply (occluded_later cfg K valid root r n (m - n) s s' Hs Hs').
  - intros n s c Hrun l Hl.
    pose proof (occluded_reach cfg K valid root r n) as Hr. rewrite Hrun in Hr.
    destruct Hr as [_ Hr]. destruct (Hr l) as [Hneg _]. specialize (Hneg Hl).
    split; [exact Hneg|]. split.
    + intros b i. apply box_node_neg_inf, Hneg.
    + intros b db i. apply intersectBox_neg_inf, Hneg.
  - apply occluded_returns.
  - intros fuel r' Hres. unfold occluded in Hres.
    pose proof (occluded_reach cfg K valid root r fuel) as Hr.
    destruct (occluded_run cfg K fuel valid root r) as [s c|s|f]; try discriminate.
    exists s. split; [reflexivity|].
    injection Hres as <-. destruct Hr as [Hray _].
    unfold commit_occluded, store4i. rewrite Hray. reflexivity.
Qed.

Lemma occluded_terminated_mask_witness :
  exists s,
    occluded_run (sample_config 2) facet_kernels 6 (splat true) wall sample_ray = Finished s
    /\ set_geomID sample_ray (splat 0)
       = set_geomID sample_ray
                    (select (vand (splat true) (terminated s)) (splat 0) (geomID sample_ray)).
Proof.
  apply (proj2 (proj2 (proj2 (proj2
           (occluded_terminated_mask (sample_config 2) facet_kernels
                                     (splat true) wall sample_ray))))).
  reflexivity.
Defined.

(** C6 (as stated) fails at the final store under either reading of
    "written into the hit-indicator field": the mask itself is not what
    [geomID] holds on exit (a hit lane holds 0, not the all-ones lane of the
    mask), and a lane that is not in [valid & terminated] is not written at
    all, so a stale 0 stays in place. *)
Lemma occluded_final_store_counterexample :
  ~ (forall (cfg : Config) (K : Kernels Facet) (valid : sseb) (root : NodeRef Facet)
            (r : Ray4) (fuel : nat) (r' : Ray4),
        occluded cfg K fuel valid root r = Some (inr r') ->
        exists s, occluded_run cfg K fuel valid root r = Finished s
                  /\ geomID r' = vmap mask_int (vand valid (terminated s)))
  /\ ~ (forall (cfg : Config) (K : Kernels Facet) (valid : sseb) (root : NodeRef Facet)
               (r : Ray4) (fuel : nat) (r' : Ray4),
           occluded cfg K fuel valid root r = Some (inr r') ->
           exists s, occluded_run cfg K fuel valid root r = Finished s
                     /\ forall l, (get (geomID r') l =? 0)
                                  = get valid l && get (terminated s) l).
Proof.
  split; intros H.
  - destruct (H (sample_config 2) facet_kernels (splat true) wall sample_ray 6%nat
                (set_geomID sample_ray (splat 0)) eq_refl) as (s & Hs & Hg).
    vm_compute in Hs. injection Hs as <-. vm_compute in Hg. discriminate Hg.
  - destruct (H (sample_config 2) facet_kernels (splat true) emptyNode stale_ray 6%nat
                stale_ray eq_refl) as (s & Hs & Hg).
    vm_compute in Hs. injection Hs as <-. specialize (Hg L0).
    vm_compute in Hg. discriminate Hg.
Qed.

Lemma ray_tfar_never_increases_witness :
  exists res,
    intersect (sample_config 2) facet_kernels (2 * weight wall + 4) (splat true) wall sample_ray
    = Some res.
Proof.
  exact (proj1 (proj2 (ray_tfar_never_increases (sample_config 2) facet_kernels
                         facet_kernels_contract (splat true) wall sample_ray))).
Defined.

(** ** Inactive lanes *)

(** C8: for a lane whose valid bit is false at entry the driver forces the
    working tnear to plus infinity and the working tfar to minus infinity;
    throughout [intersect] and [occluded] the lane's bound stays there, so
    the lane fails every box test and is in no leaf mask (the [valid_leaf]
    mask of [intersect], the [!terminated] mask of [occluded]); both calls
    come to an end and leave every field of the lane as it was.  Stated
    under the collaborators' contract. *)
Theorem inactive_lane_untouched {Primitive : Type} (cfg : Config) (K : Kernels Primitive)
        (HK : KernelContract K) (valid : sseb) (root : NodeRef Primitive) (r : Ray4)
        (l : lane) :
  get valid l = false ->
  let tr := load_ray cfg valid r in
  (get (ray_tnear tr) l = pos_inf
   /\ get (ray_tfar (init_state cfg valid (splat false) root r)) l = neg_inf
   /\ get (ray_tfar (init_state cfg valid (vnot valid) root r)) l = neg_inf)
  /\ (forall n s c,
         intersect_run cfg K n valid root r = Running s c ->
         get (ray_tfar s) l = neg_inf
         /\ (forall b i, get (fst (box_node tr (ray_tfar s) b i)) l = false)
         /\ (forall b db i,
                get (fst (intersectBox (ray s) (ray_tfar s) (rdir tr) b db i)) l = false)
         /\ (forall curDist, get (vgt (ray_tfar s) curDist) l = false))
  /\ (forall n s c,
         occluded_run cfg K n valid root r = Running s c ->
         get (ray_tfar s) l = neg_inf
         /\ (forall b i, get (fst (box_node tr (ray_tfar s) b i)) l = false)
         /\ (forall b db i,
                get (fst (intersectBox (ray s) (ray_tfar s) (rdir tr) b db i)) l = false)
         /\ get (vnot (terminated s)) l = false)
  /\ (exists res, intersect cfg K (2 * weight root + 4) valid root r = Some res)
  /\ (exists res, occluded cfg K (2 * weight root + 4) valid root r = Some res)
  /\ (forall fuel r', intersect cfg K fuel valid root r = Some (inr r') ->
                      ray_lane r' l = ray_lane r l)
  /\ (forall fuel r', occluded cfg K fuel valid root r = Some (inr r') ->
                      ray_lane r' l = ray_lane r l).
Proof.
  intros Hv tr.
  split; [|split; [|split; [|split; [|split; [|split]]]]].
  - cbn [tr load_ray ray_tnear init_state ray_tfar]. rewrite !get_select, Hv, !get_splat.
    repeat split.
  - intros n s c Hrun.
    pose proof (intersect_reach cfg K HK valid root r n) as Hr. rewrite Hrun in Hr.
    destruct (Hr l) as (_ & _ & Hg). destruct (Hg Hv) as [Hneg _].
    split; [exact Hneg|]. split; [|split].
    + intros b i. apply box_node_neg_inf, Hneg.
    + intros b db i. apply intersectBox_neg_inf, Hneg.
    + intros d. apply vgt_neg_inf, Hneg.
  - intros n s c Hrun.
    pose proof (occluded_reach cfg K valid root r n) as Hr. rewrite Hrun in Hr.
    destruct Hr as [_ Hr]. destruct (Hr l) as [Hneg Hterm].
    specialize (Hterm Hv). specialize (Hneg Hterm).
    split; [exact Hneg|]. split; [|split].
    + intros b i. apply box_node_neg_inf, Hneg.
    + intros b db i. apply intersectBox_neg_inf, Hneg.
    + unfold vnot. rewrite get_vmap, Hterm. reflexivity.
  - apply intersect_returns.
  - apply occluded_returns.
  - intros fuel r' Hres. unfold intersect in Hres.
    pose proof (intersect_reach cfg K HK valid root r fuel) as Hr.
    destruct (intersect_run cfg K fuel valid root r) as [s c|s|f]; try discriminate.
    injection Hres as <-. destruct (Hr l) as (_ & _ & Hg). apply (Hg Hv).
  - intros fuel r' Hres. unfold occluded in Hres.
    pose proof (occluded_reach cfg K valid root r fuel) as Hr.
    destruct (occluded_run cfg K fuel valid root r) as [s c|s|f]; try discriminate.
    injection Hres as <-. destruct Hr as [Hray _].
    unfold commit_occluded, store4i. rewrite Hray.
    unfold ray_lane, set_geomID.
    cbn [org dir tnear tfar time mask Ng u v geomID primID instID].
    rewrite get_select. unfold vand. rewrite get_vmap2, Hv. reflexivity.
Qed.

Lemma inactive_lane_untouched_witness :
  get lane0_only L2 = false
  /\ match intersect (sample_config 2) facet_kernels 6 lane0_only wall sample_ray with
     | Some (inr r') => ray_lane r' L2 = ray_lane sample_ray L2
     | _ => False
     end.
Proof.
  split; [reflexivity|].
  destruct (intersect (sample_config 2) facet_kernels 6 lane0_only wall sample_ray)
    as [[f|r']|] eqn:E.
  - vm_compute in E. discriminate E.
  - exact (proj1 (proj2 (proj2 (proj2 (proj2 (proj2
            (inactive_lane_untouched (sample_config 2) facet_kernels facet_kernels_contract
                                     lane0_only wall sample_ray L2 eq_refl))))))
                 6%nat r' E).
  - vm_compute in E. discriminate E.
Defined.

(** ** Stack occupancy *)

Lemma tri_mono (a b : nat) : (a <= b)%nat -> (tri a <= tri b)%nat.
Proof.
  intros H. induction H as [|b H IH]; [lia|]. cbn [tri]. lia.
Qed.

Lemma pair_bound_mono_l (pm pm' h : nat) :
  (pm' <= pm)%nat -> (pair_bound pm' h <= pair_bound pm h)%nat.
Proof.
  intros H. unfold pair_bound.
  assert (tri (Nat.max pm' h) <= tri (Nat.max pm h))%nat by (apply tri_mono; lia).
  lia.
Qed.

Lemma pair_bound_ge5 (a' b : nat) : (5 <= pair_bound (S a') b)%nat.
Proof.
  unfold pair_bound.
  assert (tri 1 <= tri (Nat.max (S a') b))%nat by (apply tri_mono; lia).
  cbn [tri] in H. lia.
Qed.

Lemma pair_bound_children (x y a' b : nat) :
  (Nat.min x y <= a')%nat -> (Nat.max x y <= Nat.max a' b)%nat ->
  (3 + pair_bound x y <= pair_bound (S a') b)%nat.
Proof.
  intros Hmin Hmax. unfold pair_bound.
  assert (Ht : (tri (Nat.max x y) <= tri (Nat.max a' b))%nat) by (apply tri_mono; exact Hmax).
  destruct (le_lt_dec b a') as [Hb|Hb].
  - rewrite (Nat.max_l a' b) in Ht by lia.
    rewrite (Nat.max_l (S a') b), (Nat.min_r (S a') b) by lia.
    cbn [tri]. lia.
  - rewrite (Nat.max_r a' b) in Ht by lia.
    rewrite (Nat.max_r (S a') b), (Nat.min_l (S a') b) by lia.
    lia.
Qed.

Lemma ext_ok_mono (B pm pm' : nat) (hs : list nat) :
  (pm' <= pm)%nat -> ext_ok B pm hs -> ext_ok B pm' hs.
Proof.
  revert pm pm'. induction hs as [|h hs IH]; intros pm pm' Hle H; [exact I|].
  cbn [ext_ok] in *. destruct H as [H1 H2]. split.
  - pose proof (pair_bound_mono_l pm pm' h Hle). lia.
  - apply IH with (Nat.max pm h); [lia|exact H2].
Qed.

Lemma depths_ok_tail (B h : nat) (hs : list nat) :
  depths_ok B (h :: hs) -> depths_ok B hs.
Proof.
  destruct hs as [|h2 R]; [intros; exact I|].
  cbn [depths_ok ext_ok]. intros (H1 & H2 & H3). split.
  - cbn [length] in H1. lia.
  - apply ext_ok_mono with (Nat.max h h2); [lia|exact H3].
Qed.

Section ArrangedFacts.
Variables (B a' b : nat) (R : list nat).
Hypothesis Hlen : (length R + pair_bound (S a') b <= B)%nat.
Hypothesis HR : ext_ok B (Nat.max (S a') b) R.

Lemma ext_ok_below (P2 : list nat) (pm : nat) :
  Forall (fun h => (h <= a')%nat) P2 ->
  (pm <= Nat.max a' b)%nat ->
  (length P2 <= 4)%nat ->
  ext_ok B pm (P2 ++ R).
Proof.
  revert pm. induction P2 as [|h P2 IH]; intros pm HF Hpm Hl.
  - cbn [app]. apply ext_ok_mono with (Nat.max (S a') b); [lia|exact HR].
  - inversion HF as [|? ? Hh HF']; subst. cbn [app ext_ok length] in *. split.
    + pose proof (pair_bound_children pm h a' b). rewrite length_app. lia.
    + apply IH; [exact HF'|lia|lia].
Qed.

Lemma ext_ok_above (P1 P2 : list nat) (pm : nat) :
  Forall (fun h => (h <= a')%nat) P1 ->
  Forall (fun h => (h <= a')%nat) P2 ->
  (pm <= a')%nat ->
  (length P1 + length P2 <= 3)%nat ->
  ext_ok B pm (P1 ++ b :: P2 ++ R).
Proof.
  revert pm. induction P1 as [|h P1 IH]; intros pm HF1 HF2 Hpm Hl.
  - cbn [app ext_ok]. split.
    + pose proof (pair_bound_children pm b a' b). rewrite length_app.
      cbn [length] in Hl. lia.
    + apply ext_ok_below; [exact HF2|lia|cbn [length] in Hl; lia].
  - inversion HF1 as [|? ? Hh HF1']; subst. cbn [app ext_ok length] in *. split.
    + pose proof (pair_bound_children pm h a' b).
      rewrite length_app. cbn [length]. rewrite length_app. lia.
    + apply IH; [exact HF1'|exact HF2|lia|lia].
Qed.

Lemma arranged_ok (hs : list nat) : arranged a' b R 4 hs -> depths_ok B hs.
Proof.
  intros (P1 & P2 & -> & HF1 & HF2 & Hl).
  pose proof (pair_bound_ge5 a' b) as H5.
  destruct P1 as [|h P1]; cbn [app depths_ok].
  - split.
    + rewrite length_app. cbn [length] in Hl. lia.
    + apply ext_ok_below; [exact HF2|lia|cbn [length] in Hl; lia].
  - inversion HF1 as [|? ? Hh HF1']; subst. split.
    + rewrite length_app. cbn [length] in *. rewrite length_app. lia.
    + apply ext_ok_above; [exact HF1'|exact HF2|exact Hh|cbn [length] in Hl; lia].
Qed.
End ArrangedFacts.

Section OccupancySteps.
Context {Primitive : Type}.
Variable cfg : Config.
Variable K : Kernels Primitive.

Lemma stack_depths_length (stk : list (StackItem Primitive)) :
  length (stack_depths stk) = length stk.
Proof. apply length_map. Qed.

Lemma arranged_weaken (a' b : nat) (R : list nat) (k k' : nat) (hs : list nat) :
  (k <= k')%nat -> arranged a' b R k hs -> arranged a' b R k' hs.
Proof.
  intros Hk (P1 & P2 & E & H1 & H2 & Hl). exists P1, P2. repeat split; try assumption. lia.
Qed.

Lemma arranged_length (a' b : nat) (R : list nat) (k : nat) (c : Cursor Primitive) :
  arranged a' b R k (cursor_depths c) -> (length (c_stack c) <= k + length R)%nat.
Proof.
  intros (P1 & P2 & E & _ & _ & Hl).
  apply (f_equal (@length nat)) in E. unfold cursor_depths in E.
  cbn [length] in E. rewrite stack_depths_length, length_app in E.
  cbn [length] in E. rewrite length_app in E. lia.
Qed.

Lemma arranged_swap (a' b : nat) (R : list nat) (k h : nat) (hs : list nat) :
  (h <= a')%nat -> arranged a' b R k hs -> arranged a' b R (S k) (h :: hs).
Proof.
  intros Hh (P1 & P2 & -> & H1 & H2 & Hl). exists (h :: P1), P2.
  repeat split; try assumption; [constructor; assumption|cbn [length]; lia].
Qed.

Lemma arranged_push (a' b : nat) (R : list nat) (k h top : nat) (hs : list nat) :
  (h <= a')%nat -> arranged a' b R k (top :: hs) -> arranged a' b R (S k) (top :: h :: hs).
Proof.
  intros Hh (P1 & P2 & E & H1 & H2 & Hl). destruct P1 as [|p P1].
  - cbn [app] in E. injection E as -> ->. exists [], (h :: P2).
    repeat split; try assumption; [constructor; assumption|cbn [length] in *; lia].
  - cbn [app] in E. injection E as -> ->. inversion H1; subst.
    exists (p :: h :: P1), P2.
    repeat split; try assumption; [repeat constructor; assumption|cbn [length] in *; lia].
Qed.

Lemma child_loop_arranged (test : lane -> sseb * ssef) (ch : vec4 (NodeRef Primitive))
      (a' b : nat) (R : list nat) (todo : list lane) (c : Cursor Primitive) (k : nat) :
  (forall i, depth (get ch i) <= a')%nat ->
  arranged a' b R k (cursor_depths c) ->
  (length R + k + length todo <= stackSizeChunk cfg)%nat ->
  exists c', child_loop cfg test ch todo c = inr c'
             /\ arranged a' b R (k + length todo) (cursor_depths c').
Proof.
  intros Hch. revert c k. induction todo as [|i todo IH]; intros c k Harr Hcap.
  - exists c. split; [reflexivity|]. cbn [length]. rewrite Nat.add_0_r. exact Harr.
  - cbn [child_loop length] in *.
    destruct (is_emptyNode (get ch i)).
    { exists c. split; [reflexivity|]. apply arranged_weaken with k; [lia|exact Harr]. }
    destruct (test i) as [lhit lnearP].
    destruct (any lhit).
    + pose proof (arranged_length a' b R k c Harr) as Hlen.
      assert (Hlt : (length (c_stack c) <? stackSizeChunk cfg)%nat = true)
        by (apply Nat.ltb_lt; lia).
      rewrite Hlt.
      destruct (any (vlt (select lhit lnearP inf) (c_dist c))).
      * destruct (IH (mkCursor ((c_node c, c_dist c) :: c_stack c) (get ch i)
                               (select lhit lnearP inf)) (S k)) as (c' & Hc' & Ha').
        -- apply (arranged_swap a' b R k (depth (get ch i)) (cursor_depths c));
             [apply Hch|exact Harr].
        -- lia.
        -- exists c'. split; [exact Hc'|].
           replace (k + S (length todo))%nat with (S k + length todo)%nat by lia. exact Ha'.
      * destruct (IH (mkCursor ((get ch i, select lhit lnearP inf) :: c_stack c)
                               (c_node c) (c_dist c)) (S k)) as (c' & Hc' & Ha').
        -- apply (arranged_push a' b R k (depth (get ch i)) (depth (c_node c))
                                (stack_depths (c_stack c)));
             [apply Hch|exact Harr].
        -- lia.
        -- exists c'. split; [exact Hc'|].
           replace (k + S (length todo))%nat with (S k + length todo)%nat by lia. exact Ha'.
    + destruct (IH c k Harr) as (c' & Hc' & Ha'); [lia|].
      exists c'. split; [exact Hc'|].
      apply arranged_weaken with (k + length todo)%nat; [lia|exact Ha'].
Qed.

Lemma depth_children (n : NodeRef Primitive) :
  isNode n || isNodeMB n = true ->
  exists a', depth n = S a' /\ forall i, (depth (get (children n) i) <= a')%nat.
Proof.
  destruct n; cbn [isNode isNodeMB orb]; intros H; try discriminate;
    eexists; (split; [cbn [depth]; reflexivity|]);
    intros i; destruct i; cbn [children get v0 v1 v2 v3]; lia.
Qed.

Lemma descend_occupancy (B : nat) (s : State Primitive) (test : lane -> sseb * ssef)
      (n : NodeRef Primitive) (d : ssef) :
  (B <= stackSizeChunk cfg)%nat ->
  isNode n || isNodeMB n = true ->
  depths_ok B (ext_depths s (AtDown n d)) ->
  outcome_sat_faults (fun s' c' => depths_ok B (ext_depths s' c'))
                     (fun f => f <> StackOverflow) (descend cfg s test n).
Proof.
  intros HB Hn Hok. unfold descend. cbn [ext_depths] in Hok.
  destruct (stack s) as [|[n' d'] rest] eqn:Hs; [cbn; discriminate|].
  destruct (depth_children n Hn) as (a' & Ha & Hch).
  rewrite Ha in Hok. cbn [stack_depths map fst depths_ok ext_ok] in Hok.
  fold (stack_depths rest) in Hok. destruct Hok as (H1 & H2 & H3).
  pose proof (pair_bound_ge5 a' (depth n')) as H5.
  destruct (child_loop_arranged test (children n) a' (depth n') (stack_depths rest)
                                lanes (mkCursor rest n' d') 0 Hch) as (c & Hc & Harr).
  - exists [], []. repeat split; solve [constructor | cbn [length]; lia].
  - cbn [lanes length]. lia.
  - rewrite Hc. cbn [Nat.add lanes length] in Harr.
    pose proof (arranged_length _ _ _ _ _ Harr) as Hlen.
    pose proof (arranged_ok B a' (depth n') (stack_depths rest) H2 H3 _ Harr) as Hfin.
    destruct (switch_during_down cfg && _).
    + assert (Hlt : (length (c_stack c) <? stackSizeChunk cfg)%nat = true)
        by (apply Nat.ltb_lt; lia).
      rewrite Hlt. cbn [outcome_sat_faults ext_depths stack stack_depths map fst].
      exact Hfin.
    + cbn [outcome_sat_faults ext_depths stack]. exact Hfin.
Qed.

Lemma intersect_step_occupancy (B : nat) (tr : TravRay) (pre : Precalculations K)
      (s : State Primitive) (c : Ctl Primitive) :
  (B <= stackSizeChunk cfg)%nat ->
  depths_ok B (ext_depths s c) ->
  outcome_sat_faults (fun s' c' => depths_ok B (ext_depths s' c'))
                     (fun f => f <> StackOverflow) (intersect_step cfg K tr pre s c).
Proof.
  intros HB Hok. destruct c as [|n d]; cbn [intersect_step].
  - cbn [ext_depths] in Hok.
    destruct (stack s) as [|[n d] rest]; [cbn; discriminate|].
    cbn [stack_depths map fst] in Hok. fold (stack_depths rest) in Hok.
    destruct (is_invalidNode n).
    { unfold finish_at_sentinel. cbn [stack]. destruct rest; cbn; [exact I|discriminate]. }
    destruct (none (vlt d (ray_tfar s))).
    { cbn. apply depths_ok_tail in Hok. exact Hok. }
    destruct (popcnt (vlt d (ray_tfar s)) <=? threshold cfg).
    + cbn. apply depths_ok_tail in Hok. exact Hok.
    + cbn [outcome_sat_faults ext_depths stack]. exact Hok.
  - destruct (classify cfg n) eqn:Hc.
    + apply descend_occupancy with d; [exact HB| |exact Hok].
      rewrite (classify_node cfg n Hc). reflexivity.
    + apply descend_occupancy with d; [exact HB| |exact Hok].
      rewrite (classify_nodeMB cfg n Hc). apply orb_true_r.
    + unfold finish_at_sentinel. destruct (stack s); cbn; [exact I|discriminate].
    + cbn [outcome_sat_faults ext_depths stack]. cbn [ext_depths] in Hok.
      apply depths_ok_tail in Hok. exact Hok.
    + cbn. discriminate.
Qed.

Lemma occluded_step_occupancy (B : nat) (tr : TravRay) (pre : Precalculations K)
      (s : State Primitive) (c : Ctl Primitive) :
  (B <= stackSizeChunk cfg)%nat ->
  depths_ok B (ext_depths s c) ->
  outcome_sat_faults (fun s' c' => depths_ok B (ext_depths s' c'))
                     (fun f => f <> StackOverflow) (occluded_step cfg K tr pre s c).
Proof.
  intros HB Hok. destruct c as [|n d]; cbn [occluded_step].
  - cbn [ext_depths] in Hok.
    destruct (stack s) as [|[n d] rest]; [cbn; discriminate|].
    cbn [stack_depths map fst] in Hok. fold (stack_depths rest) in Hok.
    destruct (is_invalidNode n).
    { unfold finish_at_sentinel. cbn [stack]. destruct rest; cbn; [exact I|discriminate]. }
    destruct (none (vlt d (ray_tfar s))).
    { cbn. apply depths_ok_tail in Hok. exact Hok. }
    destruct (popcnt (vlt d (ray_tfar s)) <=? threshold cfg).
    + match goal with |- context [all ?t] => destruct (all t) end; cbn; [exact I|].
      apply depths_ok_tail in Hok. exact Hok.
    + cbn [outcome_sat_faults ext_depths stack]. exact Hok.
  - destruct (classify cfg n) eqn:Hc.
    + apply descend_occupancy with d; [exact HB| |exact Hok].
      rewrite (classify_node cfg n Hc). reflexivity.
    + apply descend_occupancy with d; [exact HB| |exact Hok].
      rewrite (classify_nodeMB cfg n Hc). apply orb_true_r.
    + unfold finish_at_sentinel. destruct (stack s); cbn; [exact I|discriminate].
    + match goal with |- context [all ?t] => destruct (all t) end;
        cbn [outcome_sat_faults ext_depths stack]; [exact I|].
      cbn [ext_depths] in Hok. apply depths_ok_tail in Hok. exact Hok.
    + cbn. discriminate.
Qed.
End OccupancySteps.

Lemma run_invariant_faults {Primitive : Type}
      (step : State Primitive -> Ctl Primitive -> Outcome Primitive)
      (P : State Primitive -> Ctl Primitive -> Prop) (F : fault -> Prop) :
  (forall s c, P s c -> outcome_sat_faults P F (step s c)) ->
  forall n o, outcome_sat_faults P F o -> outcome_sat_faults P F (run step n o).
Proof.
  intros Hstep n. induction n as [|n IH]; intros o Ho; [exact Ho|].
  destruct o as [s c| |]; cbn [run]; [|exact Ho|exact Ho].
  apply IH, Hstep, Ho.
Qed.

Lemma init_depths_ok {Primitive : Type} (cfg : Config) (valid term0 : sseb)
      (root : NodeRef Primitive) (r : Ray4) :
  depths_ok (stack_bound (depth root))
            (ext_depths (init_state cfg valid term0 root r) AtPop).
Proof.
  cbn [ext_depths init_state stack stack_depths map fst depth depths_ok ext_ok length].
  unfold stack_bound, pair_bound. rewrite Nat.max_0_r, Nat.min_0_r. lia.
Qed.





(** ** AOS to SOA repacking *)

Section Repack.
Import Stream.

Lemma length_upd {A : Type} (l : list A) (i : nat) (a : A) : length (upd l i a) = length l.
Proof.
  revert i. induction l as [|h t IH]; intros i; [reflexivity|].
  destruct i; cbn [upd length]; [reflexivity|]. rewrite IH. reflexivity.
Qed.

Lemma nth_error_upd_same {A : Type} (l : list A) (i : nat) (a : A) :
  (i < length l)%nat -> nth_error (upd l i a) i = Some a.
Proof.
  revert i. induction l as [|h t IH]; intros i Hi; [cbn in Hi; lia|].
  destruct i; cbn [upd nth_error]; [reflexivity|]. apply IH. cbn in Hi. lia.
Qed.

Lemma nth_error_upd_other {A : Type} (l : list A) (i j : nat) (a : A) :
  i <> j -> nth_error (upd l i a) j = nth_error l j.
Proof.
  revert i j. induction l as [|h t IH]; intros i j Hij; [reflexivity|].
  destruct i, j; cbn [upd nth_error]; try reflexivity; [contradiction|].
  apply IH. lia.
Qed.

Lemma div_mod_inj (K i j : nat) :
  (i / K = j / K)%nat -> (i mod K = j mod K)%nat -> i = j.
Proof.
  intros Hd Hm. rewrite (Nat.div_mod_eq i K), (Nat.div_mod_eq j K), Hd, Hm. reflexivity.
Qed.

Variable K : nat.
Hypothesis HK : (0 < K)%nat.
Variable A : Type.
Variable f : RayK -> list A.
Variable g : Ray -> A.
Hypothesis Hstore : forall s r p, f (store_slot s r p) = upd (f p) s (g r).
Hypothesis Hctor : forall old, length (f (construct K old)) = K.

#[local] Abbreviation sized := (Stream.sized K f).

Lemma construct_packets_length (np : nat) (rayK : list RayK) :
  length (construct_packets K np rayK) = length rayK.
Proof.
  revert rayK. induction np as [|np IH]; intros rayK; [reflexivity|].
  destruct rayK as [|p rest]; [reflexivity|]. cbn [construct_packets length].
  rewrite IH. reflexivity.
Qed.

Lemma construct_packets_sized (np : nat) (rayK : list RayK) :
  sized np (construct_packets K np rayK).
Proof.
  revert rayK. induction np as [|np IH]; intros rayK q p Hq Hp; [lia|].
  destruct rayK as [|p0 rest]; [destruct q; discriminate|].
  cbn [construct_packets] in Hp. destruct q as [|q]; cbn [nth_error] in Hp.
  - injection Hp as <-. apply Hctor.
  - apply (IH rest q p); [lia|exact Hp].
Qed.

Lemma copy_ray_length (i : nat) (r : Ray) (rayK : list RayK) :
  length (copy_ray K i r rayK) = length rayK.
Proof.
  unfold copy_ray. destruct (nth_error rayK (i / K)); [apply length_upd|reflexivity].
Qed.

Lemma copy_ray_sized (np i : nat) (r : Ray) (rayK : list RayK) :
  sized np rayK -> sized np (copy_ray K i r rayK).
Proof.
  intros Hs q p Hq Hp. unfold copy_ray in Hp.
  destruct (nth_error rayK (i / K)) as [p0|] eqn:E; [|apply (Hs q p Hq Hp)].
  destruct (Nat.eq_dec (i / K) q) as [Heq|Hne].
  - subst q. rewrite nth_error_upd_same in Hp
      by (apply nth_error_Some; rewrite E; discriminate).
    injection Hp as <-. rewrite Hstore, length_upd. apply (Hs _ p0 Hq E).
  - rewrite nth_error_upd_other in Hp by exact Hne. apply (Hs q p Hq Hp).
Qed.

Lemma copy_ray_slot_same (np i : nat) (r : Ray) (rayK : list RayK) :
  sized np rayK -> (i / K < np)%nat -> (i / K < length rayK)%nat ->
  slot K f (copy_ray K i r rayK) i = Some (g r).
Proof.
  intros Hs Hnp Hlen. unfold slot, copy_ray.
  destruct (nth_error rayK (i / K)) as [p0|] eqn:E.
  - rewrite nth_error_upd_same by exact Hlen. rewrite Hstore.
    apply nth_error_upd_same. rewrite (Hs _ p0 Hnp E).
    apply Nat.mod_upper_bound. lia.
  - apply nth_error_None in E. lia.
Qed.

Lemma copy_ray_slot_other (i j : nat) (r : Ray) (rayK : list RayK) :
  i <> j -> slot K f (copy_ray K i r rayK) j = slot K f rayK j.
Proof.
  intros Hij. unfold slot, copy_ray.
  destruct (nth_error rayK (i / K)) as [p0|] eqn:E; [|reflexivity].
  destruct (Nat.eq_dec (i / K) (j / K)) as [Hd|Hd].
  - rewrite <- Hd. rewrite nth_error_upd_same
      by (apply nth_error_Some; rewrite E; discriminate).
    rewrite E, Hstore. apply nth_error_upd_other.
    intros Hm. apply Hij. apply (div_mod_inj K); assumption.
  - rewrite nth_error_upd_other by exact Hd. reflexivity.
Qed.

Lemma copy_loop_slot_before (rays : list Ray) (i0 j : nat) (rayK : list RayK)
      (mn mx : flt * flt * flt) :
  (j < i0)%nat ->
  slot K f (fst (fst (copy_loop K i0 rays (rayK, mn, mx)))) j = slot K f rayK j.
Proof.
  revert i0 rayK mn mx. induction rays as [|r rays IH]; intros i0 rayK mn mx Hj;
    [reflexivity|].
  cbn [copy_loop]. rewrite IH by lia. apply copy_ray_slot_other. lia.
Qed.

Lemma copy_loop_slot (np : nat) (rays : list Ray) (i0 j : nat) (r : Ray)
      (rayK : list RayK) (mn mx : flt * flt * flt) :
  sized np rayK ->
  nth_error rays j = Some r ->
  ((i0 + j) / K < np)%nat -> ((i0 + j) / K < length rayK)%nat ->
  slot K f (fst (fst (copy_loop K i0 rays (rayK, mn, mx)))) (i0 + j) = Some (g r).
Proof.
  revert i0 j rayK mn mx. induction rays as [|r0 rays IH];
    intros i0 j rayK mn mx Hs Hj Hnp Hlen; [destruct j; discriminate|].
  cbn [copy_loop]. destruct j as [|j]; cbn [nth_error] in Hj.
  - injection Hj as ->. rewrite Nat.add_0_r in *.
    rewrite copy_loop_slot_before by lia.
    apply (copy_ray_slot_same np); assumption.
  - replace (i0 + S j)%nat with (S i0 + j)%nat in * by lia.
    apply IH; [apply copy_ray_sized; exact Hs|exact Hj|exact Hnp|].
    rewrite copy_ray_length. exact Hlen.
Qed.

Lemma AOStoSOA_slot (rayK : list RayK) (rays : list Ray) (n i : nat) (r : Ray) :
  (i < n)%nat -> nth_error rays i = Some r ->
  ((n + K - 1) / K <= length rayK)%nat ->
  slot K f (fst (AOStoSOA K rayK rays n)) i = Some (g r).
Proof.
  intros Hi Hr Hlen. unfold AOStoSOA.
  set (np := ((n + K - 1) / K)%nat) in *.
  destruct (copy_loop K 0 (firstn n rays)
                      (construct_packets K np rayK, (pos_inf, pos_inf, pos_inf),
                       (neg_inf, neg_inf, neg_inf))) as [[rayK' mn] mx] eqn:E.
  cbn [fst].
  assert (Hq : (i / K < np)%nat).
  { unfold np. apply Nat.Div0.div_lt_upper_bound.
    pose proof (Nat.div_mod_eq (n + K - 1) K) as Hdm.
    pose proof (Nat.mod_upper_bound (n + K - 1) K). nia. }
  pose proof (copy_loop_slot np (firstn n rays) 0 i r (construct_packets K np rayK)
                             (pos_inf, pos_inf, pos_inf) (neg_inf, neg_inf, neg_inf)
                             (construct_packets_sized np rayK)) as H.
  rewrite E in H. cbn [fst Nat.add] in H. apply H.
  - rewrite nth_error_firstn. apply Nat.ltb_lt in Hi. rewrite Hi. exact Hr.
  - exact Hq.
  - rewrite construct_packets_length. lia.
Qed.
End Repack.

Lemma store_slot_fields (s : nat) (r : Stream.Ray) (p : Stream.RayK) :
  Stream.store_slot s r p
  = Stream.mkRayK
      (Stream.upd (Stream.k_org_x p) s (fst (fst (Stream.org r))))
      (Stream.upd (Stream.k_org_y p) s (snd (fst (Stream.org r))))
      (Stream.upd (Stream.k_org_z p) s (snd (Stream.org r)))
      (Stream.upd (Stream.k_dir_x p) s (fst (fst (Stream.dir r))))
      (Stream.upd (Stream.k_dir_y p) s (snd (fst (Stream.dir r))))
      (Stream.upd (Stream.k_dir_z p) s (snd (Stream.dir r)))
      (Stream.upd (Stream.k_tnear p) s (Stream.smax (fin 0) (Stream.tnear r)))
      (Stream.upd (Stream.k_tfar p) s (Stream.tfar r))
      (Stream.k_time p) (Stream.upd (Stream.k_mask p) s (Stream.mask r))
      (Stream.k_geomID p) (Stream.k_primID p)
      (Stream.upd (Stream.k_instID p) s (Stream.instID r)).
Proof.
  unfold Stream.store_slot.
  destruct (Stream.org r) as [[ox oy] oz]. destruct (Stream.dir r) as [[dx dy] dz].
  reflexivity.
Qed.

Lemma smax_zero_idem (t : flt) :
  Stream.smax (fin 0) (Stream.smax (fin 0) t) = Stream.smax (fin 0) t.
Proof. unfold Stream.smax. flt_cases. Qed.

Lemma store_slot_clamp (s : nat) (r : Stream.Ray) (p : Stream.RayK) :
  Stream.store_slot s (Stream.clamp_tnear r) p = Stream.store_slot s r p.
Proof.
  rewrite !store_slot_fields. unfold Stream.clamp_tnear.
  cbn [Stream.org Stream.dir Stream.tnear Stream.tfar Stream.mask Stream.instID].
  rewrite smax_zero_idem. reflexivity.
Qed.

Lemma copy_loop_clamp (K : nat) (rays : list Stream.Ray) (i : nat)
      (st : list Stream.RayK * (flt * flt * flt) * (flt * flt * flt)) :
  Stream.copy_loop K i (map Stream.clamp_tnear rays) st = Stream.copy_loop K i rays st.
Proof.
  revert i st. induction rays as [|r rays IH]; intros i [[rayK mn] mx]; [reflexivity|].
  cbn [map Stream.copy_loop]. rewrite IH.
  assert (E : Stream.copy_ray K i (Stream.clamp_tnear r) rayK = Stream.copy_ray K i r rayK).
  { unfold Stream.copy_ray. destruct (nth_error rayK (i / K)); [|reflexivity].
    rewrite store_slot_clamp. reflexivity. }
  rewrite E. reflexivity.
Qed.

Lemma smax_negative (t : flt) :
  flt_ltb t (fin 0) = true -> Stream.smax (fin 0) t = fin 0.
Proof. intros H. unfold Stream.smax. flt_cases. Qed.

Lemma smax_clamp_near (t : flt) :
  Stream.smax (Stream.smax (fin 0) t) (fin 0) = Stream.smax t (fin 0).
Proof. unfold Stream.smax. flt_cases. Qed.

(** C10: [AOStoSOA] stores [max(0, tnear)] in the slot of every input ray
    and copies tfar, origin and direction unchanged; so a ray with negative
    tnear is repacked - and then traversed by the stream path - exactly as
    the same ray with tnear 0 ([intersect1] applies the same clamp to its
    near bound). *)
Theorem AOStoSOA_clamps_tnear (K : nat) (rayK : list Stream.RayK)
        (rays : list Stream.Ray) (n i : nat) (r : Stream.Ray) :
  (0 < K)%nat ->
  (i < n)%nat ->
  nth_error rays i = Some r ->
  ((n + K - 1) / K <= length rayK)%nat ->
  let out := fst (Stream.AOStoSOA K rayK rays n) in
  Stream.slot K Stream.k_tnear out i = Some (Stream.smax (fin 0) (Stream.tnear r))
  /\ Stream.slot K Stream.k_tfar out i = Some (Stream.tfar r)
  /\ Stream.slot K Stream.k_org_x out i = Some (fst (fst (Stream.org r)))
  /\ Stream.slot K Stream.k_org_y out i = Some (snd (fst (Stream.org r)))
  /\ Stream.slot K Stream.k_org_z out i = Some (snd (Stream.org r))
  /\ Stream.slot K Stream.k_dir_x out i = Some (fst (fst (Stream.dir r)))
  /\ Stream.slot K Stream.k_dir_y out i = Some (snd (fst (Stream.dir r)))
  /\ Stream.slot K Stream.k_dir_z out i = Some (snd (Stream.dir r))
  /\ (flt_ltb (Stream.tnear r) (fin 0) = true ->
      Stream.slot K Stream.k_tnear out i = Some (fin 0)
      /\ Stream.intersect1_ray_near r = fin 0)
  /\ Stream.AOStoSOA K rayK (map Stream.clamp_tnear rays) n = Stream.AOStoSOA K rayK rays n
  /\ Stream.intersect1_ray_near (Stream.clamp_tnear r) = Stream.intersect1_ray_near r.
Proof.
  intros HK Hi Hr Hlen out.
  assert (Hfield : forall (A : Type) (f : Stream.RayK -> list A) (g : Stream.Ray -> A),
             (forall s r p, f (Stream.store_slot s r p) = Stream.upd (f p) s (g r)) ->
             (forall old, length (f (Stream.construct K old)) = K) ->
             Stream.slot K f out i = Some (g r)).
  { intros A f g Hs Hc. apply (AOStoSOA_slot K HK A f g Hs Hc rayK rays n i r Hi Hr Hlen). }
  assert (Htn : Stream.slot K Stream.k_tnear out i
                = Some (Stream.smax (fin 0) (Stream.tnear r))).
  { apply (Hfield _ Stream.k_tnear (fun r => Stream.smax (fin 0) (Stream.tnear r)));
      [intros; rewrite store_slot_fields; reflexivity|intros; apply repeat_length]. }
  split; [exact Htn|].
  split; [apply (Hfield _ Stream.k_tfar Stream.tfar);
          [intros; rewrite store_slot_fields; reflexivity|intros; apply repeat_length]|].
  split; [apply (Hfield _ Stream.k_org_x (fun r => fst (fst (Stream.org r))));
          [intros; rewrite store_slot_fields; reflexivity|intros; apply repeat_length]|].
  split; [apply (Hfield _ Stream.k_org_y (fun r => snd (fst (Stream.org r))));
          [intros; rewrite store_slot_fields; reflexivity|intros; apply repeat_length]|].
  split; [apply (Hfield _ Stream.k_org_z (fun r => snd (Stream.org r)));
          [intros; rewrite store_slot_fields; reflexivity|intros; apply repeat_length]|].
  split; [apply (Hfield _ Stream.k_dir_x (fun r => fst (fst (Stream.dir r))));
          [intros; rewrite store_slot_fields; reflexivity|intros; apply repeat_length]|].
  split; [apply (Hfield _ Stream.k_dir_y (fun r => snd (fst (Stream.dir r))));
          [intros; rewrite store_slot_fields; reflexivity|intros; apply repeat_length]|].
  split; [apply (Hfield _ Stream.k_dir_z (fun r => snd (Stream.dir r)));
          [intros; rewrite store_slot_fields; reflexivity|intros; apply repeat_length]|].
  split; [|split].
  - intros Hneg. split.
    + rewrite Htn, (smax_negative _ Hneg). reflexivity.
    + unfold Stream.intersect1_ray_near, Stream.smax. rewrite Hneg. reflexivity.
  - unfold Stream.AOStoSOA. rewrite firstn_map, copy_loop_clamp. reflexivity.
  - unfold Stream.intersect1_ray_near, Stream.clamp_tnear. cbn [Stream.tnear].
    apply smax_clamp_near.
Qed.

Lemma AOStoSOA_clamps_tnear_witness :
  Stream.slot 4 Stream.k_tnear
              (fst (Stream.AOStoSOA 4 [Stream.blank]
                                    [Stream.ray_behind; Stream.ray_ahead] 2)) 0
  = Some (fin 0).
Proof.
  refine (proj1 (proj1 (proj2 (proj2 (proj2 (proj2 (proj2 (proj2 (proj2 (proj2
            (AOStoSOA_clamps_tnear 4 [Stream.blank] [Stream.ray_behind; Stream.ray_ahead]
                                   2 0 Stream.ray_behind _ _ _ _))))))))) _)).
  - repeat constructor.
  - repeat constructor.
  - reflexivity.
  - vm_compute. apply le_n.
  - reflexivity.
Defined.

(** ** Empty tree *)

(** C2: the GPU stream entry point does not return on an empty tree: the
    empty-root branch ends the process with [exit(0)], the [return] after it
    is never reached. *)
Theorem gpu_stream_empty_root_exits (Primitive RayHitN : Type)
        (inputRays : list RayHitN) (numRays : nat) :
  GPUStream.intersect (@emptyNode Primitive) inputRays numRays = GPUStream.ProcessExit 0.
Proof. reflexivity. Qed.

Section EmptyTree.
Context {Primitive : Type}.
Variable cfg : Config.
Variable K : Kernels Primitive.
Hypothesis no_items : forall valid pre r, prim_intersect K valid pre r [] = r.
Hypothesis no_items_occluded : forall valid pre r, prim_occluded K valid pre r [] = splat false.
Hypothesis walk_empty : forall i pre r tr tf, intersect1 K emptyNode i pre r tr tf = r.
Hypothesis walk_empty_occluded : forall i pre r tr tf, occluded1 K emptyNode i pre r tr tf = false.

Lemma classify_empty : classify cfg (@emptyNode Primitive) = KLeaf.
Proof. unfold classify. cbn. rewrite !andb_false_r. reflexivity. Qed.

Lemma fold_left_same {A B : Type} (f : A -> B -> A) (ls : list B) (a : A) :
  (forall x b, f x b = x) -> fold_left f ls a = a.
Proof.
  intros H. induction ls as [|b ls IH]; [reflexivity|]. cbn [fold_left].
  rewrite H. exact IH.
Qed.

Lemma set_geomID_none (valid : sseb) (r : Ray4) :
  set_geomID r (store4i (vand valid (vnot valid)) (geomID r) (splat 0)) = r.
Proof.
  assert (E : store4i (vand valid (vnot valid)) (geomID r) (splat 0) = geomID r).
  { apply vec4_ext. intros l. unfold store4i, vand, vnot.
    rewrite get_select, get_vmap2, get_vmap. destruct (get valid l); reflexivity. }
  rewrite E. destruct r. reflexivity.
Qed.

Lemma vor_false (t : sseb) : vor t (splat false) = t.
Proof.
  apply vec4_ext. intros l. unfold vor. rewrite get_vmap2, get_splat. apply orb_false_r.
Qed.

(** The hybrid driver on an empty tree: both entry points return within
    three steps and hand the packet back as they got it, given that the
    collaborators do nothing on a leaf without items. *)
Lemma hybrid_empty_root_returns (valid : sseb) (r : Ray4) :
  intersect cfg K 3 valid emptyNode r = Some (inr r)
  /\ occluded cfg K 3 valid emptyNode r = Some (inr r).
Proof.
  split.
  - unfold intersect, intersect_run, init_state.
    cbn [run intersect_step stack is_invalidNode].
    destruct (none _).
    { cbn [run intersect_step stack is_invalidNode finish_at_sentinel ray]. reflexivity. }
    destruct (_ <=? threshold cfg).
    + rewrite for_each_bit_lanes, fold_left_same by (intros; apply walk_empty).
      cbn [run intersect_step stack is_invalidNode finish_at_sentinel ray]. reflexivity.
    + cbn [run intersect_step]. rewrite classify_empty.
      cbn [leaf ray]. rewrite no_items.
      cbn [run intersect_step stack is_invalidNode finish_at_sentinel ray]. reflexivity.
  - unfold occluded, occluded_run, init_state.
    cbn [run occluded_step stack is_invalidNode].
    destruct (none _).
    { cbn [run occluded_step stack is_invalidNode finish_at_sentinel ray].
      unfold commit_occluded. cbn [ray terminated]. rewrite set_geomID_none. reflexivity. }
    destruct (_ <=? threshold cfg).
    + rewrite for_each_bit_lanes.
      rewrite fold_left_same by (intros; rewrite walk_empty_occluded; reflexivity).
      cbn [terminated]. destruct (all (vnot valid)).
      * cbn [run]. unfold commit_occluded. cbn [ray terminated].
        rewrite set_geomID_none. reflexivity.
      * cbn [run occluded_step stack is_invalidNode finish_at_sentinel ray].
        unfold commit_occluded. cbn [ray terminated]. rewrite set_geomID_none. reflexivity.
    + cbn [run occluded_step]. rewrite classify_empty.
      cbn [leaf ray terminated]. rewrite no_items_occluded, vor_false.
      destruct (all (vnot valid)).
      * cbn [run]. unfold commit_occluded. cbn [ray terminated].
        rewrite set_geomID_none. reflexivity.
      * cbn [run occluded_step stack is_invalidNode finish_at_sentinel ray].
        unfold commit_occluded. cbn [ray terminated]. rewrite set_geomID_none. reflexivity.
Qed.
End EmptyTree.

(** ** Mode independence *)

Lemma facet_intersect_lane (valid : sseb) (r : Ray4) (p : Facet) (l : lane) :
  ray_lane (facet_intersect valid r p) l
  = if get valid l && (flt_ltb (get (tnear r) l) (get (facet_t p) l)
                       && flt_ltb (get (facet_t p) l) (get (tfar r) l))
    then take_hit (ray_lane r l) (get (facet_t p) l) (facet_id p)
    else ray_lane r l.
Proof.
  unfold ray_lane, facet_intersect, take_hit.
  cbn [org dir tnear tfar time mask Ng u v geomID primID instID
       r_org r_dir r_tnear r_time r_mask r_Ng r_u r_v r_instID].
  rewrite !get_select, !get_splat. unfold vand. rewrite !get_vmap2, !get_vlt.
  destruct (get valid l && _); reflexivity.
Qed.

Lemma facets_intersect_same (valid : sseb) (pre : unit) (r : Ray4) (ps : list Facet) :
  same_rays (facets_intersect valid pre r ps) r.
Proof.
  unfold facets_intersect. revert r.
  induction ps as [|p ps IH]; intros r; [repeat split|].
  cbn [fold_left]. destruct (IH (facet_intersect valid r p)) as (H1 & H2 & H3 & H4).
  repeat split; [rewrite H1|rewrite H2|rewrite H3|rewrite H4]; reflexivity.
Qed.

Lemma sound_lane_tnear (r0 : Ray4) (l : lane) (F : list Facet) (x : Ray1) :
  sound_lane r0 l F x -> r_tnear x = get (tnear r0) l.
Proof. intros [->|(f & _ & ->)]; reflexivity. Qed.

Lemma sound_lane_tfar (r0 : Ray4) (l : lane) (F : list Facet) (x : Ray1) :
  sound_lane r0 l F x -> flt_leb (r_tfar x) (get (tfar r0) l) = true.
Proof.
  intros [->|(f & (_ & _ & Hf) & ->)]; cbn; [apply flt_leb_refl|apply flt_ltb_leb, Hf].
Qed.

Lemma sound_lane_take (r0 : Ray4) (l : lane) (F : list Facet) (x : Ray1) (f : Facet) :
  sound_lane r0 l F x -> take_hit x (get (facet_t f) l) (facet_id f) = facet_hit r0 l f.
Proof. intros [->|(g & _ & ->)]; reflexivity. Qed.

Lemma flt_ltb_leb_trans (a b c : flt) :
  flt_ltb a b = true -> flt_leb b c = true -> flt_ltb a c = true.
Proof. intros H1 H2. flt_cases. Qed.

Lemma flt_leb_total (a b : flt) : flt_ltb a b = false -> flt_leb b a = true.
Proof. intros H. flt_cases. Qed.

Lemma facet_intersect_sound (valid : sseb) (r0 r : Ray4) (p : Facet) (l : lane)
      (F : list Facet) :
  In p F ->
  sound_lane r0 l F (ray_lane r l) ->
  sound_lane r0 l F (ray_lane (facet_intersect valid r p) l).
Proof.
  intros Hp Hs. rewrite facet_intersect_lane.
  destruct (get valid l && _) eqn:E; [|exact Hs].
  apply andb_true_iff in E. destruct E as [_ E].
  apply andb_true_iff in E. destruct E as [E1 E2].
  right. exists p. split.
  - pose proof (sound_lane_tnear r0 l F _ Hs) as Htn.
    pose proof (sound_lane_tfar r0 l F _ Hs) as Htf.
    unfold ray_lane in Htn, Htf. cbn [r_tnear r_tfar] in Htn, Htf.
    repeat split; [exact Hp|rewrite <- Htn; exact E1|].
    eapply flt_ltb_leb_trans; eassumption.
  - apply sound_lane_take with F. exact Hs.
Qed.

Lemma facets_intersect_sound (valid : sseb) (pre : unit) (r0 r : Ray4) (ps : list Facet)
      (l : lane) (F : list Facet) :
  incl ps F ->
  sound_lane r0 l F (ray_lane r l) ->
  sound_lane r0 l F (ray_lane (facets_intersect valid pre r ps) l).
Proof.
  unfold facets_intersect. revert r.
  induction ps as [|p ps IH]; intros r Hin Hs; [exact Hs|].
  cbn [fold_left]. apply IH.
  - intros x Hx. apply Hin. right. exact Hx.
  - apply facet_intersect_sound; [apply Hin; left; reflexivity|exact Hs].
Qed.

Lemma facets_intersect_complete (valid : sseb) (pre : unit) (r : Ray4) (ps : list Facet)
      (l : lane) (f : Facet) :
  get valid l = true ->
  In f ps ->
  flt_ltb (get (tnear r) l) (get (facet_t f) l) = true ->
  flt_leb (get (tfar (facets_intersect valid pre r ps)) l) (get (facet_t f) l) = true.
Proof.
  intros Hv. unfold facets_intersect. revert r.
  induction ps as [|p ps IH]; intros r Hin Htn; [contradiction|].
  cbn [fold_left]. destruct Hin as [->|Hin].
  - eapply flt_leb_trans; [apply (facets_intersect_lowers valid pre _ ps l)|].
    pose proof (facet_intersect_lane valid r f l) as E.
    apply (f_equal r_tfar) in E. unfold ray_lane at 1 in E. cbn [r_tfar] in E.
    rewrite E, Hv, Htn. cbn [andb].
    destruct (flt_ltb (get (facet_t f) l) (get (tfar r) l)) eqn:E2.
    + cbn. apply flt_leb_refl.
    + cbn. apply flt_leb_total, E2.
  - apply IH; [exact Hin|]. exact Htn.
Qed.

Lemma lane_result_unique (r0 : Ray4) (l : lane) (F : list Facet) (x y : Ray1) :
  sound_lane r0 l F x -> complete_lane r0 l F (r_tfar x) ->
  sound_lane r0 l F y -> complete_lane r0 l F (r_tfar y) ->
  r_tfar x = r_tfar y /\ (no_tie r0 l F -> x = y).
Proof.
  intros [->|(f & Hf & ->)] Hcx [->|(g & Hg & ->)] Hcy.
  - split; [reflexivity|intros; reflexivity].
  - exfalso. destruct Hg as (Hg1 & Hg2 & Hg3).
    specialize (Hcx g Hg1 Hg2). cbn in Hcx.
    rewrite flt_ltb_negb_leb, Hcx in Hg3. discriminate.
  - exfalso. destruct Hf as (Hf1 & Hf2 & Hf3).
    specialize (Hcy f Hf1 Hf2). cbn in Hcy.
    rewrite flt_ltb_negb_leb, Hcy in Hf3. discriminate.
  - pose proof Hf as (Hf1 & Hf2 & Hf3). pose proof Hg as (Hg1 & Hg2 & Hg3).
    pose proof (Hcx g Hg1 Hg2) as H1. pose proof (Hcy f Hf1 Hf2) as H2.
    cbn in H1, H2. pose proof (flt_leb_antisym _ _ H1 H2) as Heq.
    split; [exact Heq|]. intros Hnt.
    unfold facet_hit, take_hit. rewrite Heq, (Hnt f g Hf Hg Heq). reflexivity.
Qed.

Lemma spec_t_far_box (tf : flt) (s : LaneSlab) :
  spec_t_far tf s = fmin (spec_box_far s) tf.
Proof.
  unfold spec_t_far, spec_box_far. rewrite (fmin_comm _ tf), !fmin_assoc. reflexivity.
Qed.

Lemma hit_from_bounds (tn tf t : flt) (s : LaneSlab) :
  flt_leb (spec_box_near s) t = true ->
  flt_leb t (spec_box_far s) = true ->
  flt_ltb tn t = true ->
  flt_ltb t tf = true ->
  spec_hit tn tf s = true /\ flt_leb (spec_t_near tn s) t = true.
Proof.
  intros Hn Hf Htn Htf. unfold spec_hit.
  rewrite spec_t_near_box, spec_t_far_box.
  assert (H1 : flt_leb (fmax (spec_box_near s) tn) t = true).
  { rewrite flt_leb_fmax_l, Hn, (flt_ltb_leb _ _ Htn). reflexivity. }
  split; [|exact H1].
  apply flt_leb_trans with t; [exact H1|].
  rewrite flt_leb_fmin_r, Hf, (flt_ltb_leb _ _ Htf). reflexivity.
Qed.

Section ChildLoopEntries.
Variable cfg : Config.
Variable test : lane -> sseb * ssef.
Variable ch : vec4 (NodeRef Facet).

Lemma child_loop_keeps (todo : list lane) (c c' : Cursor Facet) :
  child_loop cfg test ch todo c = inr c' ->
  forall e, In e (cursor_entries c) -> In e (cursor_entries c').
Proof.
  revert c. induction todo as [|k todo IH]; intros c H e He.
  - cbn in H. injection H as <-. exact He.
  - cbn [child_loop] in H. destruct (is_emptyNode (get ch k)).
    { injection H as <-. exact He. }
    destruct (test k) as [lhit lnearP]. destruct (any lhit); [|apply (IH c H e He)].
    destruct (length (c_stack c) <? stackSizeChunk cfg)%nat; [|discriminate].
    destruct (any (vlt (select lhit lnearP inf) (c_dist c)));
      apply (IH _ H); unfold cursor_entries in *; cbn [c_node c_dist c_stack] in *;
        cbn [In] in *; tauto.
Qed.

Lemma child_loop_adds (todo : list lane) (c c' : Cursor Facet) :
  child_loop cfg test ch todo c = inr c' ->
  forall k, In k (live_of ch todo) -> any (fst (test k)) = true ->
            In (child_entry test ch k) (cursor_entries c').
Proof.
  revert c. induction todo as [|k0 todo IH]; intros c H k Hk Hany; [contradiction|].
  cbn [child_loop] in H. cbn [live_of] in Hk.
  destruct (is_emptyNode (get ch k0)); [contradiction|].
  destruct Hk as [->|Hk].
  - unfold child_entry in *. destruct (test k) as [lhit lnearP]. cbn [fst snd] in *.
    rewrite Hany in H.
    destruct (length (c_stack c) <? stackSizeChunk cfg)%nat; [|discriminate].
    destruct (any (vlt (select lhit lnearP inf) (c_dist c)));
      apply (child_loop_keeps _ _ _ H); unfold cursor_entries;
        cbn [c_node c_dist c_stack In]; tauto.
  - destruct (test k0) as [lhit lnearP]. destruct (any lhit); [|apply (IH c H k Hk Hany)].
    destruct (length (c_stack c) <? stackSizeChunk cfg)%nat; [|discriminate].
    destruct (any (vlt (select lhit lnearP inf) (c_dist c))); apply (IH _ H k Hk Hany).
Qed.

Lemma child_loop_only (todo : list lane) (c c' : Cursor Facet) :
  child_loop cfg test ch todo c = inr c' ->
  forall e, In e (cursor_entries c') ->
            In e (cursor_entries c) \/ exists k, In k (live_of ch todo) /\ fst e = get ch k.
Proof.
  revert c. induction todo as [|k0 todo IH]; intros c H e He.
  - cbn in H. injection H as <-. left. exact He.
  - cbn [child_loop] in H. cbn [live_of].
    destruct (is_emptyNode (get ch k0)).
    { injection H as <-. left. exact He. }
    assert (Hmore : In e (cursor_entries c)
                    \/ (exists k, In k (live_of ch todo) /\ fst e = get ch k)
                    \/ fst e = get ch k0 ->
                    In e (cursor_entries c)
                    \/ exists k, In k (k0 :: live_of ch todo) /\ fst e = get ch k).
    { intros [H1|[(k & Hk & Hek)|H3]]; [left; exact H1| |].
      - right. exists k. split; [right; exact Hk|exact Hek].
      - right. exists k0. split; [left; reflexivity|exact H3]. }
    apply Hmore.
    destruct (test k0) as [lhit lnearP]. destruct (any lhit).
    + destruct (length (c_stack c) <? stackSizeChunk cfg)%nat; [|discriminate].
      destruct (any (vlt (select lhit lnearP inf) (c_dist c)));
        destruct (IH _ H e He) as [H1|H1]; try tauto;
          unfold cursor_entries in H1; cbn [c_node c_dist c_stack In] in H1;
            unfold cursor_entries; cbn [In];
              destruct H1 as [<-|[<-|H1]]; cbn [fst]; tauto.
    + destruct (IH _ H e He) as [H1|H1]; tauto.
Qed.
End ChildLoopEntries.

Lemma facets_under_child (n : NodeRef Facet) (f : Facet) :
  isNode n || isNodeMB n = true ->
  In f (facets_under n) ->
  exists k, In k (live_of (children n) [L0; L1; L2; L3])
            /\ In f (facets_under (get (children n) k)).
Proof.
  destruct n; cbn [isNode isNodeMB orb]; intros H Hf; try discriminate;
    cbn [facets_under children] in *; apply in_flat_map in Hf;
      destruct Hf as (k & Hk & Hf); exists k; (split; [exact Hk|]);
        destruct k; exact Hf.
Qed.

Lemma facets_child_under (n : NodeRef Facet) (k : lane) :
  isNode n || isNodeMB n = true ->
  In k (live_of (children n) [L0; L1; L2; L3]) ->
  incl (facets_under (get (children n) k)) (facets_under n).
Proof.
  destruct n; cbn [isNode isNodeMB orb]; intros H Hk f Hf; try discriminate;
    cbn [facets_under children] in *; apply in_flat_map; exists k;
      (split; [exact Hk|]); destruct k; exact Hf.
Qed.

Lemma bounded_child (tr : TravRay) (r : Ray4) (l : lane) (n : NodeRef Facet) (k : lane) :
  isNode n || isNodeMB n = true ->
  bounded tr r l n ->
  In k (live_of (children n) [L0; L1; L2; L3]) ->
  child_bounds tr r l n k /\ bounded tr r l (get (children n) k).
Proof.
  destruct n; cbn [isNode isNodeMB orb]; intros H Hb Hk; try discriminate;
    cbn [bounded children] in *; rewrite Forall_forall in Hb;
      destruct (Hb k Hk) as [H1 H2]; (split; [exact H1|]); destruct k; exact H2.
Qed.

Lemma static_test_hits (tr : TravRay) (r0 : Ray4) (tf : ssef) (n : NodeRef Facet)
      (k l : lane) (f : Facet) :
  isNode n = true ->
  get (ray_tnear tr) l = get (tnear r0) l ->
  child_bounds tr r0 l n k ->
  In f (facets_under (get (children n) k)) ->
  flt_ltb (get (tnear r0) l) (get (facet_t f) l) = true ->
  flt_ltb (get (facet_t f) l) (get tf l) = true ->
  let test := box_node tr tf (boxes n) in
  get (fst (test k)) l = true
  /\ flt_leb (get (select (fst (test k)) (snd (test k)) inf) l) (get (facet_t f) l) = true.
Proof.
  intros Hn Htn Hb Hf H1 H2 test. destruct (Hb f Hf H1) as [Hlo Hhi].
  assert (Hs : child_slab tr r0 n k l = static_slab (ray_org tr) (rdir tr) (boxes n) k l).
  { destruct n; try discriminate. reflexivity. }
  rewrite Hs in Hlo, Hhi.
  destruct (box_node_lane tr tf (boxes n) k l) as [Ehit Enear].
  destruct (hit_from_bounds (get (ray_tnear tr) l) (get tf l) (get (facet_t f) l) _ Hlo Hhi)
    as [Hhit _]; [rewrite Htn; exact H1|exact H2|].
  unfold test. rewrite get_select, Ehit, Hhit, Enear. split; [reflexivity|exact Hlo].
Qed.

Lemma mb_test_hits (tr : TravRay) (r0 r : Ray4) (tf : ssef) (n : NodeRef Facet)
      (k l : lane) (f : Facet) :
  isNodeMB n = true ->
  same_rays r r0 ->
  child_bounds tr r0 l n k ->
  In f (facets_under (get (children n) k)) ->
  flt_ltb (get (tnear r0) l) (get (facet_t f) l) = true ->
  flt_ltb (get (facet_t f) l) (get tf l) = true ->
  let test := intersectBox r tf (rdir tr) (boxes n) (dboxes n) in
  get (fst (test k)) l = true
  /\ flt_leb (get (select (fst (test k)) (snd (test k)) inf) l) (get (facet_t f) l) = true.
Proof.
  intros Hn (Ho & _ & Htn & Htm) Hb Hf H1 H2 test. destruct (Hb f Hf H1) as [Hlo Hhi].
  assert (Hs : child_slab tr r0 n k l
               = mb_slab (org r) (rdir tr) (time r) (boxes n) (dboxes n) k l).
  { destruct n; try discriminate. cbn [child_slab boxes dboxes]. rewrite Ho, Htm. reflexivity. }
  rewrite Hs in Hlo, Hhi.
  destruct (intersectBox_lane r tf (rdir tr) (boxes n) (dboxes n) k l) as [Ehit Enear].
  destruct (hit_from_bounds (get (tnear r) l) (get tf l) (get (facet_t f) l) _ Hlo Hhi)
    as [Hhit Hnear]; [rewrite Htn; exact H1|exact H2|].
  unfold test. rewrite get_select, Ehit, Hhit, Enear. split; [reflexivity|exact Hnear].
Qed.

Section PacketMode.
Variable cfg : Config.
Hypothesis Hthr : threshold cfg = 0.
Variable valid : sseb.
Variable r0 : Ray4.
Variable l : lane.
Hypothesis Hvalid : get valid l = true.
Variable F : list Facet.

Let tr := load_ray cfg valid r0.

Lemma load_ray_tnear : get (ray_tnear tr) l = get (tnear r0) l.
Proof. unfold tr, load_ray. cbn [ray_tnear]. rewrite get_select, Hvalid. reflexivity. Qed.

Lemma descend_packet (s : State Facet) (test : lane -> sseb * ssef) (n : NodeRef Facet)
      (d : ssef) :
  isNode n || isNodeMB n = true ->
  (forall k f, In f (facets_under (get (children n) k)) ->
               child_bounds tr r0 l n k ->
               flt_ltb (get (tnear r0) l) (get (facet_t f) l) = true ->
               flt_ltb (get (facet_t f) l) (get (ray_tfar s) l) = true ->
               get (fst (test k)) l = true
               /\ flt_leb (get (snd (child_entry test (children n) k)) l)
                          (get (facet_t f) l) = true) ->
  packet_inv tr valid r0 l F s (AtDown n d) ->
  outcome_sat (packet_inv tr valid r0 l F) (packet_done r0 l F) (descend cfg s test n).
Proof.
  intros Hn Htest (Hlane & Hsame & Hsound & Hent & Hpend).
  unfold descend. cbn [ext_entries] in Hent, Hpend.
  destruct (stack s) as [|[n' d'] rest] eqn:Hs; [exact I|].
  destruct (child_loop cfg test (children n) lanes (mkCursor rest n' d')) as [flt|c] eqn:Hc;
    [exact I|].
  assert (Hent' : entries_ok tr r0 l F (cursor_entries c)).
  { intros e He. destruct (child_loop_only cfg test _ _ _ _ Hc e He) as [H1|(k & Hk & Hek)].
    - apply Hent. right. exact H1.
    - destruct (Hent (n, d)) as [Hi Hb]; [left; reflexivity|]. cbn [fst] in Hi, Hb.
      rewrite Hek. split.
      + intros f Hf. apply Hi. apply (facets_child_under n k Hn Hk). exact Hf.
      + apply (bounded_child tr r0 l n k Hn Hb Hk). }
  assert (Hpend' : pending r0 l F (get (ray_tfar s) l) (cursor_entries c)).
  { intros f Hf H1 H2. destruct (Hpend f Hf H1 H2) as (e & [<-|He] & Hfe & Hde).
    - cbn [fst snd] in Hfe, Hde.
      destruct (facets_under_child n f Hn Hfe) as (k & Hk & Hfk).
      destruct (Hent (n, d)) as [_ Hb]; [left; reflexivity|]. cbn [fst] in Hb.
      destruct (bounded_child tr r0 l n k Hn Hb Hk) as [Hcb _].
      destruct (Htest k f Hfk Hcb H1 H2) as [Hhit Hdist].
      exists (child_entry test (children n) k). split; [|split].
      + apply (child_loop_adds cfg test _ _ _ _ Hc k Hk).
        apply any_true_iff. exists l. exact Hhit.
      + exact Hfk.
      + exact Hdist.
    - exists e. split; [|split; assumption].
      apply (child_loop_keeps cfg test _ _ _ _ Hc). exact He. }
  destruct (switch_during_down cfg && _).
  - destruct (length (c_stack c) <? stackSizeChunk cfg)%nat; [|exact I].
    exact (conj Hlane (conj Hsame (conj Hsound (conj Hent' Hpend')))).
  - exact (conj Hlane (conj Hsame (conj Hsound (conj Hent' Hpend')))).
Qed.

Lemma flt_leb_ltb_trans (a b c : flt) :
  flt_leb a b = true -> flt_ltb b c = true -> flt_ltb a c = true.
Proof. intros H1 H2. flt_cases. Qed.

Lemma flt_ltb_leb_contra (a b : flt) :
  flt_ltb a b = true -> flt_leb b a = true -> False.
Proof. intros H1 H2. rewrite flt_ltb_negb_leb, H2 in H1. discriminate. Qed.

Lemma finish_packet (s : State Facet) (e0 : StackItem Facet) :
  lane_inv valid r0 s ->
  sound_lane r0 l F (ray_lane (ray s) l) ->
  pending r0 l F (get (ray_tfar s) l) (e0 :: stack s) ->
  facets_under (fst e0) = [] ->
  outcome_sat (packet_inv tr valid r0 l F) (packet_done r0 l F) (finish_at_sentinel s).
Proof.
  intros Hlane Hsound Hpend He0. unfold finish_at_sentinel.
  destruct (stack s); [|exact I]. cbn [outcome_sat]. split; [exact Hsound|].
  intros f Hf H1. destruct (Hlane l) as (_ & Hv & _). rewrite <- (Hv Hvalid).
  destruct (flt_ltb (get (facet_t f) l) (get (ray_tfar s) l)) eqn:E;
    [|apply flt_leb_total, E].
  destruct (Hpend f Hf H1 E) as (e & [<-|[]] & Hfe & _).
  rewrite He0 in Hfe. contradiction.
Qed.

Lemma classify_leaf_facets (n : NodeRef Facet) :
  classify cfg n = KLeaf -> leaf n = facets_under n.
Proof.
  unfold classify.
  destruct (Z.testbit (types cfg) 0 && isNode n); [discriminate|].
  destruct (Z.testbit (types cfg) 4 && isNodeMB n); [discriminate|].
  destruct (is_invalidNode n); [discriminate|].
  destruct n; cbn; intros H; try discriminate; reflexivity.
Qed.

Lemma classify_sentinel (n : NodeRef Facet) :
  classify cfg n = KSentinel -> facets_under n = [].
Proof.
  unfold classify.
  destruct (Z.testbit (types cfg) 0 && isNode n); [discriminate|].
  destruct (Z.testbit (types cfg) 4 && isNodeMB n); [discriminate|].
  destruct n; cbn; intros H; try discriminate; reflexivity.
Qed.
Lemma same_rays_trans (a b c : Ray4) : same_rays a b -> same_rays b c -> same_rays a c.
Proof.
  intros (A1 & A2 & A3 & A4) (B1 & B2 & B3 & B4).
  repeat split; congruence.
Qed.

End PacketMode.

Lemma rank_insert_In (k : lane) (d : flt) (ls : list (lane * flt)) (x : lane * flt) :
  In x (rank_insert k d ls) <-> x = (k, d) \/ In x ls.
Proof.
  induction ls as [|[k' d'] ls IH]; cbn [rank_insert In].
  - split; intros [H|H]; auto.
  - destruct (flt_ltb d d'); cbn [In]; [|rewrite IH]; split; intros H; intuition auto.
Qed.

Lemma ranked_children_live {Primitive : Type} (test : lane -> sseb * ssef)
      (ch : vec4 (NodeRef Primitive)) (i : lane) (todo : list lane) (kd : lane * flt) :
  In kd (ranked_children test ch i todo) ->
  In (fst kd) (live_of ch todo).
Proof.
  induction todo as [|k todo IH]; cbn [ranked_children live_of]; [intros []|].
  destruct (is_emptyNode (get ch k)); [intros []|].
  destruct (test k) as [hit near]. destruct (get hit i).
  - rewrite rank_insert_In. intros [->|H]; [left; reflexivity|right; apply IH, H].
  - intros H. right. apply IH, H.
Qed.

Lemma ranked_children_hit {Primitive : Type} (test : lane -> sseb * ssef)
      (ch : vec4 (NodeRef Primitive)) (i : lane) (todo : list lane) (k : lane) :
  In k (live_of ch todo) ->
  get (fst (test k)) i = true ->
  exists d, In (k, d) (ranked_children test ch i todo).
Proof.
  induction todo as [|k0 todo IH]; cbn [ranked_children live_of]; [intros []|].
  destruct (is_emptyNode (get ch k0)); [intros []|].
  intros [->|Hk] Hhit.
  - destruct (test k) as [hit near]. cbn [fst] in Hhit. rewrite Hhit.
    exists (get near i). apply rank_insert_In. left. reflexivity.
  - destruct (IH Hk Hhit) as (d & Hd). exists d.
    destruct (test k0) as [hit near]. destruct (get hit i); [|exact Hd].
    apply rank_insert_In. right. exact Hd.
Qed.

Section WalkerMode.
Variable tr : TravRay.
Variable r0 : Ray4.
Variable i : lane.
Variable F : list Facet.
Hypothesis Htn : get (ray_tnear tr) i = get (tnear r0) i.

#[local] Abbreviation walk_ok := (walker_ok r0 i F).

(** Visiting the hit children of one node, given what each visit does. *)
Lemma fold_visit (vis : lane -> Ray4 -> Ray4) (sub : lane -> list Facet)
      (live : list lane) :
  (forall k acc, In k live -> walk_ok acc ->
                 walk_ok (vis k acc)
                 /\ forall f, In f (sub k) ->
                              flt_ltb (get (tnear r0) i) (get (facet_t f) i) = true ->
                              flt_leb (get (tfar (vis k acc)) i) (get (facet_t f) i) = true) ->
  (forall k acc, flt_leb (get (tfar (vis k acc)) i) (get (tfar acc) i) = true) ->
  forall (ks : list (lane * flt)) (acc : Ray4),
    (forall kd, In kd ks -> In (fst kd) live) ->
    walk_ok acc ->
    let res := fold_left (fun a kd => vis (fst kd) a) ks acc in
    walk_ok res
    /\ flt_leb (get (tfar res) i) (get (tfar acc) i) = true
    /\ forall kd f, In kd ks -> In f (sub (fst kd)) ->
                    flt_ltb (get (tnear r0) i) (get (facet_t f) i) = true ->
                    flt_leb (get (tfar res) i) (get (facet_t f) i) = true.
Proof.
  intros Hvis Hlow ks. induction ks as [|kd ks IH]; intros acc Hlive Hok; cbn [fold_left].
  - split; [exact Hok|]. split; [apply flt_leb_refl|]. intros kd f [].
  - destruct (Hvis (fst kd) acc) as [Hok1 Hc1]; [apply Hlive; left; reflexivity|exact Hok|].
    destruct (IH (vis (fst kd) acc)) as (Hok2 & Hle2 & Hc2);
      [intros x Hx; apply Hlive; right; exact Hx|exact Hok1|].
    split; [exact Hok2|]. split.
    + eapply flt_leb_trans; [exact Hle2|apply Hlow].
    + intros kd' f [<-|Hin] Hf Hf1.
      * eapply flt_leb_trans; [exact Hle2|]. apply Hc1; assumption.
      * apply (Hc2 kd' f Hin Hf Hf1).
Qed.

Lemma walker_lane (n : NodeRef Facet) :
  forall r,
    bounded tr r0 i n ->
    incl (facets_under n) F ->
    walk_ok r ->
    walk_ok (walk_intersect1 unit facets_intersect n i tt tr r)
    /\ forall f, In f (facets_under n) ->
                 flt_ltb (get (tnear r0) i) (get (facet_t f) i) = true ->
                 flt_leb (get (tfar (walk_intersect1 unit facets_intersect n i tt tr r)) i)
                         (get (facet_t f) i) = true.
Proof.
  assert (Hleaf : forall ps r, incl ps F -> walk_ok r ->
             walk_ok (facets_intersect (only i) tt r ps)
             /\ forall f, In f ps ->
                          flt_ltb (get (tnear r0) i) (get (facet_t f) i) = true ->
                          flt_leb (get (tfar (facets_intersect (only i) tt r ps)) i)
                                  (get (facet_t f) i) = true).
  { intros ps r Hincl [Hsame Hsound]. split; [split|].
    - apply same_rays_trans with r; [apply facets_intersect_same|exact Hsame].
    - apply facets_intersect_sound; assumption.
    - intros f Hf H1. apply facets_intersect_complete; [apply only_self|exact Hf|].
      destruct Hsame as (_ & _ & E & _). rewrite E. exact H1. }
  assert (Hlow : forall m r, flt_leb (get (tfar (walk_intersect1 unit facets_intersect m i tt tr r)) i)
                                     (get (tfar r) i) = true).
  { intros m r. apply walk_intersect1_lowers. apply facets_intersect_lowers. }
  induction n as [| |c0 IH0 c1 IH1 c2 IH2 c3 IH3 b
                    |c0 IH0 c1 IH1 c2 IH2 c3 IH3 b db|prims]; intros r Hb Hincl Hok.
  - cbn [walk_intersect1 facets_under]. apply Hleaf; [intros x []|exact Hok].
  - cbn [walk_intersect1 facets_under]. split; [exact Hok|intros f []].
  - set (n := Node c0 c1 c2 c3 b) in *.
    set (vis := fun k a => walk_intersect1 unit facets_intersect (get (children n) k) i tt tr a).
    set (test := box_node tr (tfar r) b).
    set (ks := ranked_children test (mk4 c0 c1 c2 c3) i [L0; L1; L2; L3]).
    assert (E : walk_intersect1 unit facets_intersect n i tt tr r
                = fold_left (fun a kd => vis (fst kd) a) ks r).
    { cbn [walk_intersect1 n]. fold test. fold ks. generalize ks r. intros ks0.
      induction ks0 as [|kd ks0 IHk]; intros r1; [reflexivity|]. cbn [fold_left].
      rewrite IHk. f_equal. unfold vis. destruct (fst kd); reflexivity. }
    rewrite E.
    destruct (fold_visit vis (fun k => facets_under (get (children n) k))
                         (live_of (children n) [L0; L1; L2; L3])) with (ks := ks) (acc := r)
      as (Hok' & Hle & Hcomp).
    + intros k acc Hk Hacc.
      destruct (bounded_child tr r0 i n k eq_refl Hb Hk) as [_ Hbk].
      assert (Hik : incl (facets_under (get (children n) k)) F).
      { intros f Hf. apply Hincl. apply (facets_child_under n k eq_refl Hk). exact Hf. }
      unfold vis. destruct k; cbn [children n get v0 v1 v2 v3] in *;
        [apply IH0|apply IH1|apply IH2|apply IH3]; assumption.
    + intros k acc. apply Hlow.
    + intros kd Hkd. apply (ranked_children_live test _ i _ kd). exact Hkd.
    + exact Hok.
    + split; [exact Hok'|]. intros f Hf H1.
      destruct (facets_under_child n f eq_refl Hf) as (k & Hk & Hfk).
      destruct (get (fst (test k)) i) eqn:Hhit.
      * destruct (ranked_children_hit test (mk4 c0 c1 c2 c3) i [L0; L1; L2; L3] k Hk Hhit)
          as (d & Hd).
        apply (Hcomp (k, d) f Hd Hfk H1).
      * eapply flt_leb_trans; [exact Hle|].
        destruct (flt_ltb (get (facet_t f) i) (get (tfar r) i)) eqn:E2;
          [|apply flt_leb_total, E2].
        destruct (bounded_child tr r0 i n k eq_refl Hb Hk) as [Hcb _].
        destruct (static_test_hits tr r0 (tfar r) n k i f eq_refl Htn Hcb Hfk H1 E2)
          as [Hh _].
        cbn [boxes n] in Hh. fold test in Hh. rewrite Hh in Hhit. discriminate.
  - set (n := NodeMB c0 c1 c2 c3 b db) in *.
    set (vis := fun k a => walk_intersect1 unit facets_intersect (get (children n) k) i tt tr a).
    set (test := intersectBox r (tfar r) (rdir tr) b db).
    set (ks := ranked_children test (mk4 c0 c1 c2 c3) i [L0; L1; L2; L3]).
    assert (E : walk_intersect1 unit facets_intersect n i tt tr r
                = fold_left (fun a kd => vis (fst kd) a) ks r).
    { cbn [walk_intersect1 n]. fold test. fold ks. generalize ks r. intros ks0.
      induction ks0 as [|kd ks0 IHk]; intros r1; [reflexivity|]. cbn [fold_left].
      rewrite IHk. f_equal. unfold vis. destruct (fst kd); reflexivity. }
    rewrite E.
    destruct (fold_visit vis (fun k => facets_under (get (children n) k))
                         (live_of (children n) [L0; L1; L2; L3])) with (ks := ks) (acc := r)
      as (Hok' & Hle & Hcomp).
    + intros k acc Hk Hacc.
      destruct (bounded_child tr r0 i n k eq_refl Hb Hk) as [_ Hbk].
      assert (Hik : incl (facets_under (get (children n) k)) F).
      { intros f Hf. apply Hincl. apply (facets_child_under n k eq_refl Hk). exact Hf. }
      unfold vis. destruct k; cbn [children n get v0 v1 v2 v3] in *;
        [apply IH0|apply IH1|apply IH2|apply IH3]; assumption.
    + intros k acc. apply Hlow.
    + intros kd Hkd. apply (ranked_children_live test _ i _ kd). exact Hkd.
    + exact Hok.
    + split; [exact Hok'|]. intros f Hf H1.
      destruct (facets_under_child n f eq_refl Hf) as (k & Hk & Hfk).
      destruct (get (fst (test k)) i) eqn:Hhit.
      * destruct (ranked_children_hit test (mk4 c0 c1 c2 c3) i [L0; L1; L2; L3] k Hk Hhit)
          as (d & Hd).
        apply (Hcomp (k, d) f Hd Hfk H1).
      * eapply flt_leb_trans; [exact Hle|].
        destruct (flt_ltb (get (facet_t f) i) (get (tfar r) i)) eqn:E2;
          [|apply flt_leb_total, E2].
        destruct (bounded_child tr r0 i n k eq_refl Hb Hk) as [Hcb _].
        destruct Hok as [Hsame _].
        destruct (mb_test_hits tr r0 r (tfar r) n k i f eq_refl Hsame Hcb Hfk H1 E2)
          as [Hh _].
        cbn [boxes dboxes n] in Hh. fold test in Hh. rewrite Hh in Hhit. discriminate.
  - cbn [walk_intersect1 facets_under]. apply Hleaf; assumption.
Qed.
End WalkerMode.

Lemma lane_eq_dec (a b : lane) : {a = b} + {a <> b}.
Proof. decide equality. Defined.

Lemma flt_leb_fin_lt_inf (a : flt) (z : Z) :
  flt_leb a (fin z) = true -> flt_ltb a pos_inf = true.
Proof. intros H. flt_cases. Qed.

Lemma spec_t_far_finite (tf : flt) (s : LaneSlab) (a b : Z) :
  t_min_z s = fin a -> t_max_z s = fin b ->
  exists z, flt_leb (spec_t_far tf s) (fin z) = true.
Proof.
  intros Ha Hb. unfold spec_t_far. rewrite Ha, Hb.
  exists (Z.max a b). eapply flt_leb_trans; [apply fmin_le_r|].
  unfold fmax, flt_ltb, flt_leb. destruct (Z.ltb_spec b a); apply Z.leb_le; lia.
Qed.

Lemma fmax_ge_l (a b : flt) : flt_leb a (fmax a b) = true.
Proof. flt_cases. Qed.

Lemma box_node_dist_finite (tr : TravRay) (tf : ssef) (b : Boxes) (k l : lane) :
  get (fst (box_node tr tf b k)) l = true ->
  flt_ltb (get (snd (box_node tr tf b k)) l) pos_inf = true.
Proof.
  intros H. destruct (box_node_lane tr tf b k l) as [E1 E2]. rewrite E1 in H. rewrite E2.
  unfold spec_hit in H.
  destruct (spec_t_far_finite (get tf l) (static_slab (ray_org tr) (rdir tr) b k l) _ _
                              eq_refl eq_refl) as (z & Hz).
  apply flt_leb_fin_lt_inf with z. eapply flt_leb_trans; [|exact Hz].
  eapply flt_leb_trans; [|exact H]. rewrite spec_t_near_box.
  apply fmax_ge_l.
Qed.

Lemma intersectBox_dist_finite (r : Ray4) (tf : ssef) (rd : sse3f) (b db : Boxes)
      (k l : lane) :
  get (fst (intersectBox r tf rd b db k)) l = true ->
  flt_ltb (get (snd (intersectBox r tf rd b db k)) l) pos_inf = true.
Proof.
  intros H. destruct (intersectBox_lane r tf rd b db k l) as [E1 E2].
  rewrite E1 in H. rewrite E2. unfold spec_hit in H.
  destruct (spec_t_far_finite (get tf l) (mb_slab (org r) rd (time r) b db k l) _ _
                              eq_refl eq_refl) as (z & Hz).
  apply flt_leb_fin_lt_inf with z. eapply flt_leb_trans; [exact H|exact Hz].
Qed.

Lemma child_loop_fault {Primitive : Type} (cfg : Config) (test : lane -> sseb * ssef)
      (ch : vec4 (NodeRef Primitive)) (todo : list lane) (c : Cursor Primitive) (f : fault) :
  child_loop cfg test ch todo c = inl f -> f = StackOverflow.
Proof.
  revert c. induction todo as [|k todo IH]; intros c H; [discriminate|].
  cbn [child_loop] in H. destruct (is_emptyNode (get ch k)); [discriminate|].
  destruct (test k) as [lhit lnearP]. destruct (any lhit); [|apply (IH c H)].
  destruct (length (c_stack c) <? stackSizeChunk cfg)%nat; [|injection H as <-; reflexivity].
  destruct (any (vlt (select lhit lnearP inf) (c_dist c))); apply (IH _ H).
Qed.

Lemma finished_inactive_lane {Primitive : Type} (cfg : Config) (K : Kernels Primitive)
      (HK : KernelContract K) (valid : sseb) (root : NodeRef Primitive) (r r' : Ray4)
      (fuel : nat) (l : lane) :
  get valid l = false ->
  intersect cfg K fuel valid root r = Some (inr r') ->
  ray_lane r' l = ray_lane r l.
Proof.
  intros Hv. unfold intersect.
  pose proof (intersect_reach cfg K HK valid root r fuel) as H.
  destruct (intersect_run cfg K fuel valid root r) as [s c|s|f]; intros E; try discriminate.
  injection E as <-. cbn [outcome_sat] in H. destruct (H l) as (_ & _ & Hi).
  apply (Hi Hv).
Qed.

Lemma tied_tree_bounded (l : lane) :
  bounded (load_ray (sample_config 1) lanes01 facing_rays) facing_rays l tied_tree.
Proof.
  unfold tied_tree. cbn [bounded]. change (live_of _ _) with [L0; L1].
  apply Forall_cons; [split; [|exact I]|apply Forall_cons; [split; [|exact I]|apply Forall_nil]].
  all: intros f Hf _; cbn in Hf; destruct Hf as [<-|[]].
  all: destruct l; vm_compute; split; reflexivity.
Qed.

(** ** No assertion of the driver fails on a well-formed tree *)

Section GuardFacts.
Context {Primitive : Type}.
Variable cfg : Config.

Lemma well_formed_child (n : NodeRef Primitive) (k : lane) :
  isNode n || isNodeMB n = true ->
  well_formed cfg n ->
  In k (live_of (children n) [L0; L1; L2; L3]) ->
  well_formed cfg (get (children n) k).
Proof.
  destruct n; cbn [isNode isNodeMB orb]; intros H Hp Hk; try discriminate;
    cbn [well_formed children] in *; destruct Hp as [_ Hp]; rewrite Forall_forall in Hp;
      specialize (Hp k Hk); destruct k; exact Hp.
Qed.

Lemma well_formed_not_invalid (n : NodeRef Primitive) :
  well_formed cfg n -> is_invalidNode n = false.
Proof. destruct n; cbn; intros H; try reflexivity; contradiction. Qed.

Lemma well_formed_classify (n : NodeRef Primitive) :
  well_formed cfg n ->
  classify cfg n = KNode /\ isNode n = true
  \/ classify cfg n = KNodeMB /\ isNodeMB n = true
  \/ classify cfg n = KLeaf.
Proof.
  destruct n; cbn [well_formed]; intros H; try contradiction; unfold classify;
    cbn [isNode isNodeMB is_invalidNode andb orb].
  - right. right. rewrite !andb_false_r. reflexivity.
  - left. destruct H as [-> _]. split; reflexivity.
  - right. left. destruct H as [-> _]. rewrite andb_false_r. split; reflexivity.
  - right. right. rewrite !andb_false_r. reflexivity.
Qed.

Lemma guarded_cons (e : StackItem Primitive) (stk : list (StackItem Primitive)) :
  well_formed cfg (fst e) -> guarded cfg stk -> guarded cfg (e :: stk).
Proof.
  intros He (S & -> & HS). exists (e :: S). split; [reflexivity|].
  constructor; assumption.
Qed.

Lemma guarded_base : guarded cfg [(@invalidNode Primitive, inf)].
Proof. exists []. split; [reflexivity|constructor]. Qed.

Lemma guarded_nonempty (stk : list (StackItem Primitive)) : guarded cfg stk -> stk <> [].
Proof. intros (S & -> & _) E. destruct S; discriminate. Qed.

Lemma guarded_pop (e : StackItem Primitive) (rest : list (StackItem Primitive)) :
  guarded cfg (e :: rest) ->
  (e = (invalidNode, inf) /\ rest = []) \/ (well_formed cfg (fst e) /\ guarded cfg rest).
Proof.
  intros (S & E & HS). destruct S as [|e' S]; cbn [app] in E.
  - injection E as -> ->. left. split; reflexivity.
  - injection E as -> ->. inversion HS; subst. right. split; [assumption|].
    exists S. split; [reflexivity|assumption].
Qed.
End GuardFacts.

Section GuardSteps.
Context {Primitive : Type}.
Variable cfg : Config.
Variable K : Kernels Primitive.
Variable B : nat.
Hypothesis HB : (B <= stackSizeChunk cfg)%nat.

Lemma child_loop_guarded (test : lane -> sseb * ssef) (ch : vec4 (NodeRef Primitive))
      (todo : list lane) (c c' : Cursor Primitive) :
  (forall k l, get (fst (test k)) l = true ->
               flt_ltb (get (snd (test k)) l) pos_inf = true) ->
  (forall k, In k (live_of ch todo) -> well_formed cfg (get ch k)) ->
  cursor_guarded cfg (c_node c) (c_dist c) (c_stack c) ->
  child_loop cfg test ch todo c = inr c' ->
  cursor_guarded cfg (c_node c') (c_dist c') (c_stack c').
Proof.
  intros Hfinite. revert c. induction todo as [|k todo IH]; intros c Hlive Hsh H.
  - cbn in H. injection H as <-. exact Hsh.
  - cbn [child_loop] in H. cbn [live_of] in Hlive.
    destruct (is_emptyNode (get ch k)); [injection H as <-; exact Hsh|].
    assert (Hk : well_formed cfg (get ch k)) by (apply Hlive; left; reflexivity).
    assert (Hrest : forall k', In k' (live_of ch todo) -> well_formed cfg (get ch k'))
      by (intros k' Hk'; apply Hlive; right; exact Hk').
    pose proof (Hfinite k) as Hfin.
    destruct (test k) as [lhit lnearP]. cbn [fst snd] in Hfin.
    destruct (any lhit) eqn:Hany; [|apply (IH c Hrest Hsh H)].
    destruct (length (c_stack c) <? stackSizeChunk cfg)%nat; [|discriminate].
    destruct (any (vlt (select lhit lnearP inf) (c_dist c))) eqn:Hswap.
    + apply (IH _ Hrest) in H; [exact H|]. cbn [c_node c_dist c_stack].
      right. split; [exact Hk|].
      destruct Hsh as [(E1 & E2 & E3)|[Hp Hos]].
      * rewrite E1, E2, E3. apply guarded_base.
      * apply guarded_cons; assumption.
    + apply (IH _ Hrest) in H; [exact H|]. cbn [c_node c_dist c_stack].
      destruct Hsh as [(E1 & E2 & E3)|[Hp Hos]].
      * exfalso. apply any_true_iff in Hany. destruct Hany as [l Hl].
        assert (Hs : any (vlt (select lhit lnearP inf) (c_dist c)) = true).
        { apply any_true_iff. exists l. rewrite get_vlt, get_select, Hl, E2.
          unfold inf. rewrite get_splat. apply Hfin, Hl. }
        rewrite Hs in Hswap. discriminate.
      * right. split; [exact Hp|]. apply guarded_cons; assumption.
Qed.

Lemma descend_guarded (s : State Primitive) (test : lane -> sseb * ssef)
      (n : NodeRef Primitive) (d : ssef) :
  isNode n || isNodeMB n = true ->
  (forall k l, get (fst (test k)) l = true ->
               flt_ltb (get (snd (test k)) l) pos_inf = true) ->
  guard_inv cfg B s (AtDown n d) ->
  outcome_sat_faults (guard_inv cfg B) (fun _ => False) (descend cfg s test n).
Proof.
  intros Hn Hfin [Hsh Hok].
  pose proof (descend_occupancy cfg B s test n d HB Hn Hok) as Hocc.
  destruct Hsh as [(E & _ & _)|[Hp Hos]]; [subst n; discriminate|].
  unfold descend in *.
  destruct (stack s) as [|[n' d'] rest] eqn:Hs;
    [exfalso; apply (guarded_nonempty cfg _ Hos); reflexivity|].
  destruct (child_loop cfg test (children n) lanes (mkCursor rest n' d')) as [f|c] eqn:Hc.
  { cbn in Hocc. apply child_loop_fault in Hc. contradiction. }
  assert (Hsh' : cursor_guarded cfg (c_node c) (c_dist c) (c_stack c)).
  { apply (child_loop_guarded test (children n) lanes (mkCursor rest n' d') c Hfin);
      [|cbn [c_node c_dist c_stack]|exact Hc].
    - intros k Hk. apply (well_formed_child cfg n k Hn Hp Hk).
    - destruct (guarded_pop cfg _ _ Hos) as [[E1 E2]|[H1 H2]].
      + left. injection E1 as -> ->. auto.
      + right. split; assumption. }
  destruct (switch_during_down cfg && _).
  - destruct (length (c_stack c) <? stackSizeChunk cfg)%nat;
      [|cbn in Hocc; contradiction].
    cbn [outcome_sat_faults] in *. split; [|exact Hocc].
    cbn [stack]. destruct Hsh' as [(E1 & E2 & E3)|[H1 H2]].
    + rewrite E1, E2, E3. apply guarded_base.
    + apply guarded_cons; assumption.
  - cbn [outcome_sat_faults] in *. split; [exact Hsh'|exact Hocc].
Qed.

Lemma finish_guarded (s : State Primitive) (n : NodeRef Primitive) (d : ssef) :
  cursor_guarded cfg n d (stack s) ->
  is_invalidNode n = true ->
  outcome_sat_faults (guard_inv cfg B) (fun _ => False) (finish_at_sentinel s).
Proof.
  intros [(_ & _ & E)|[Hp _]] Hn.
  - unfold finish_at_sentinel. rewrite E. exact I.
  - rewrite (well_formed_not_invalid cfg n Hp) in Hn. discriminate.
Qed.

Lemma classify_sentinel_invalid (n : NodeRef Primitive) :
  classify cfg n = KSentinel -> is_invalidNode n = true.
Proof.
  unfold classify.
  destruct (Z.testbit (types cfg) 0 && isNode n); [discriminate|].
  destruct (Z.testbit (types cfg) 4 && isNodeMB n); [discriminate|].
  destruct (is_invalidNode n); [reflexivity|].
  destruct (isNode n || isNodeMB n); discriminate.
Qed.

Lemma leaf_not_sentinel (n : NodeRef Primitive) (d : ssef)
      (stk : list (StackItem Primitive)) :
  classify cfg n = KLeaf -> cursor_guarded cfg n d stk -> guarded cfg stk.
Proof.
  intros Hc [(E & _ & _)|[_ H]]; [|exact H].
  exfalso. subst n. unfold classify in Hc. cbn in Hc.
  rewrite !andb_false_r in Hc. discriminate.
Qed.

Lemma malformed_not_guarded (n : NodeRef Primitive) (d : ssef)
      (stk : list (StackItem Primitive)) :
  classify cfg n = KMalformed -> cursor_guarded cfg n d stk -> False.
Proof.
  intros Hc [(E & _ & _)|[Hp _]].
  - subst n. unfold classify in Hc. cbn in Hc. rewrite !andb_false_r in Hc. discriminate.
  - destruct (well_formed_classify cfg n Hp) as [[E _]|[[E _]|E]]; congruence.
Qed.

Lemma intersect_step_guarded (tr : TravRay) (pre : Precalculations K)
      (s : State Primitive) (c : Ctl Primitive) :
  guard_inv cfg B s c ->
  outcome_sat_faults (guard_inv cfg B) (fun _ => False) (intersect_step cfg K tr pre s c).
Proof.
  intros [Hsh Hok].
  pose proof (intersect_step_occupancy cfg K B tr pre s c HB Hok) as Hocc.
  destruct c as [|n d]; cbn [intersect_step] in *.
  - destruct (stack s) as [|[n d] rest] eqn:Hs;
      [exfalso; apply (guarded_nonempty cfg _ Hsh); reflexivity|].
    destruct (guarded_pop cfg _ _ Hsh) as [[E1 E2]|[H1 H2]].
    + injection E1 as -> ->. subst rest. exact I.
    + cbn [fst] in H1. rewrite (well_formed_not_invalid cfg n H1) in *.
      destruct (none (vlt d (ray_tfar s))).
      * cbn [outcome_sat_faults] in *. split; [exact H2|exact Hocc].
      * destruct (popcnt (vlt d (ray_tfar s)) <=? threshold cfg);
          cbn [outcome_sat_faults] in *; (split; [|exact Hocc]); cbn [stack].
        -- exact H2.
        -- right. split; assumption.
  - destruct (classify cfg n) eqn:Hc.
    + apply descend_guarded with d;
        [rewrite (classify_node cfg n Hc); reflexivity| |split; assumption].
      intros k l. apply box_node_dist_finite.
    + apply descend_guarded with d;
        [rewrite (classify_nodeMB cfg n Hc); apply orb_true_r| |split; assumption].
      intros k l. apply intersectBox_dist_finite.
    + apply (finish_guarded s n d Hsh (classify_sentinel_invalid n Hc)).
    + cbn [outcome_sat_faults] in *. split; [|exact Hocc]. cbn [stack].
      apply (leaf_not_sentinel n d _ Hc Hsh).
    + apply (malformed_not_guarded n d _ Hc Hsh).
Qed.

Lemma occluded_step_guarded (tr : TravRay) (pre : Precalculations K)
      (s : State Primitive) (c : Ctl Primitive) :
  guard_inv cfg B s c ->
  outcome_sat_faults (guard_inv cfg B) (fun _ => False) (occluded_step cfg K tr pre s c).
Proof.
  intros [Hsh Hok].
  pose proof (occluded_step_occupancy cfg K B tr pre s c HB Hok) as Hocc.
  destruct c as [|n d]; cbn [occluded_step] in *.
  - destruct (stack s) as [|[n d] rest] eqn:Hs;
      [exfalso; apply (guarded_nonempty cfg _ Hsh); reflexivity|].
    destruct (guarded_pop cfg _ _ Hsh) as [[E1 E2]|[H1 H2]].
    + injection E1 as -> ->. subst rest. exact I.
    + cbn [fst] in H1. rewrite (well_formed_not_invalid cfg n H1) in *.
      destruct (none (vlt d (ray_tfar s))).
      * cbn [outcome_sat_faults] in *. split; [exact H2|exact Hocc].
      * destruct (popcnt (vlt d (ray_tfar s)) <=? threshold cfg).
        -- destruct (all _); [exact I|].
           cbn [outcome_sat_faults] in *. split; [exact H2|exact Hocc].
        -- cbn [outcome_sat_faults] in *. split; [|exact Hocc]. cbn [stack].
           right. split; assumption.
  - destruct (classify cfg n) eqn:Hc.
    + apply descend_guarded with d;
        [rewrite (classify_node cfg n Hc); reflexivity| |split; assumption].
      intros k l. apply box_node_dist_finite.
    + apply descend_guarded with d;
        [rewrite (classify_nodeMB cfg n Hc); apply orb_true_r| |split; assumption].
      intros k l. apply intersectBox_dist_finite.
    + apply (finish_guarded s n d Hsh (classify_sentinel_invalid n Hc)).
    + destruct (all _); [exact I|].
      cbn [outcome_sat_faults] in *. split; [|exact Hocc]. cbn [stack].
      apply (leaf_not_sentinel n d _ Hc Hsh).
    + apply (malformed_not_guarded n d _ Hc Hsh).
Qed.
End GuardSteps.

Section GuardRuns.
Context {Primitive : Type}.
Variable cfg : Config.
Variable K : Kernels Primitive.
Variable valid : sseb.
Variable root : NodeRef Primitive.
Variable r : Ray4.
Hypothesis Hwf : well_formed cfg root.
Hypothesis Hcap : (stack_bound (depth root) <= stackSizeChunk cfg)%nat.

Lemma init_guard_inv (term0 : sseb) :
  guard_inv cfg (stack_bound (depth root)) (init_state cfg valid term0 root r) AtPop.
Proof.
  split; [|apply init_depths_ok]. cbn [init_state stack].
  apply guarded_cons; [exact Hwf|apply guarded_base].
Qed.

Lemma intersect_run_guarded (fuel : nat) :
  outcome_sat_faults (guard_inv cfg (stack_bound (depth root))) (fun _ => False)
                     (intersect_run cfg K fuel valid root r).
Proof.
  unfold intersect_run. apply run_invariant_faults; [|apply init_guard_inv].
  intros s c. apply intersect_step_guarded. exact Hcap.
Qed.

Lemma occluded_run_guarded (fuel : nat) :
  outcome_sat_faults (guard_inv cfg (stack_bound (depth root))) (fun _ => False)
                     (occluded_run cfg K fuel valid root r).
Proof.
  unfold occluded_run. apply run_invariant_faults; [|apply init_guard_inv].
  intros s c. apply occluded_step_guarded. exact Hcap.
Qed.
End GuardRuns.

(** The closest-hit driver trips none of its assertions (stack underflow at
    a pop, stack overflow at a push, a sentinel popped above the stack
    bottom) and never takes an internal node of a disabled variant for a
    leaf: on a tree that holds no sentinel reference, whose node variants
    are enabled in [types], and whose depth [d] satisfies
    [3*d*(d+1)/2 + 2 <= stackSizeChunk], the call returns a packet after at
    most [2 * weight root + 4] passes, whatever the primitive intersector
    and the single-ray walker do. *)
Theorem intersect_no_failed_assertion {Primitive : Type} (cfg : Config)
        (K : Kernels Primitive) (valid : sseb) (root : NodeRef Primitive) (r : Ray4) :
  well_formed cfg root ->
  (stack_bound (depth root) <= stackSizeChunk cfg)%nat ->
  (forall fuel f, intersect cfg K fuel valid root r <> Some (inl f))
  /\ exists r', intersect cfg K (2 * weight root + 4) valid root r = Some (inr r').
Proof.
  intros Hwf Hcap.
  assert (Hno : forall fuel f, intersect cfg K fuel valid root r <> Some (inl f)).
  { intros fuel f. unfold intersect.
    pose proof (intersect_run_guarded cfg K valid root r Hwf Hcap fuel) as H.
    destruct (intersect_run cfg K fuel valid root r) as [s c|s|f']; try discriminate.
    contradiction. }
  split; [exact Hno|].
  destruct (intersect_returns cfg K valid root r) as [[f|r'] Hres].
  - exfalso. apply (Hno _ _ Hres).
  - exists r'. exact Hres.
Qed.

Lemma intersect_no_failed_assertion_witness :
  (intersect config_static facet_kernels 3 lanes01 untied_tree facing_rays
   <> Some (inl StackOverflow))
  /\ exists r', intersect config_static facet_kernels (2 * weight untied_tree + 4)
                          lanes01 untied_tree facing_rays = Some (inr r').
Proof.
  assert (Hwf : well_formed config_static untied_tree).
  { unfold untied_tree. cbn [well_formed]. split; [reflexivity|].
    change (live_of _ _) with [L0; L1]. repeat constructor. }
  assert (Hcap : (stack_bound (depth untied_tree) <= stackSizeChunk config_static)%nat)
    by (vm_compute; lia).
  destruct (intersect_no_failed_assertion config_static facet_kernels lanes01 untied_tree
                                          facing_rays Hwf Hcap) as [Hno Hex].
  split; [apply Hno|exact Hex].
Defined.

(** The any-hit driver likewise: under the same conditions on the tree and
    the stack capacity no assertion fails and the call returns a packet
    after at most [2 * weight root + 4] passes. *)
Theorem occluded_no_failed_assertion {Primitive : Type} (cfg : Config)
        (K : Kernels Primitive) (valid : sseb) (root : NodeRef Primitive) (r : Ray4) :
  well_formed cfg root ->
  (stack_bound (depth root) <= stackSizeChunk cfg)%nat ->
  (forall fuel f, occluded cfg K fuel valid root r <> Some (inl f))
  /\ exists r', occluded cfg K (2 * weight root + 4) valid root r = Some (inr r').
Proof.
  intros Hwf Hcap.
  assert (Hno : forall fuel f, occluded cfg K fuel valid root r <> Some (inl f)).
  { intros fuel f. unfold occluded.
    pose proof (occluded_run_guarded cfg K valid root r Hwf Hcap fuel) as H.
    destruct (occluded_run cfg K fuel valid root r) as [s c|s|f']; try discriminate.
    contradiction. }
  split; [exact Hno|].
  destruct (occluded_returns cfg K valid root r) as [[f|r'] Hres].
  - exfalso. apply (Hno _ _ Hres).
  - exists r'. exact Hres.
Qed.

Lemma occluded_no_failed_assertion_witness :
  (occluded config_static facet_kernels 3 lanes01 untied_tree facing_rays
   <> Some (inl StackOverflow))
  /\ exists r', occluded config_static facet_kernels (2 * weight untied_tree + 4)
                         lanes01 untied_tree facing_rays = Some (inr r').
Proof.
  assert (Hwf : well_formed config_static untied_tree).
  { unfold untied_tree. cbn [well_formed]. split; [reflexivity|].
    change (live_of _ _) with [L0; L1]. repeat constructor. }
  assert (Hcap : (stack_bound (depth untied_tree) <= stackSizeChunk config_static)%nat)
    by (vm_compute; lia).
  destruct (occluded_no_failed_assertion config_static facet_kernels lanes01 untied_tree
                                         facing_rays Hwf Hcap) as [Hno Hex].
  split; [apply Hno|exact Hex].
Defined.

(** ** The hybrid driver finds the closest hit *)

Lemma flt_ltb_fmin (x a b : flt) :
  flt_ltb x (fmin a b) = true -> flt_ltb x a = true /\ flt_ltb x b = true.
Proof. intros H. split; flt_cases. Qed.

Section HybridMode.
Variable cfg : Config.
Variable valid : sseb.
Variable r0 : Ray4.
Variable l : lane.
Hypothesis Hvalid : get valid l = true.
Variable F : list Facet.

Lemma walks_lower (tr : TravRay) (n : NodeRef Facet) (ls : list lane) (r : Ray4) :
  flt_leb (get (tfar (fold_left (fun a i => walk_intersect1 unit facets_intersect n i tt tr a)
                                ls r)) l)
          (get (tfar r) l) = true.
Proof.
  revert r. induction ls as [|j ls IHl]; intros r; cbn [fold_left];
    [apply flt_leb_refl|].
  eapply flt_leb_trans; [apply IHl|].
  apply walk_intersect1_lowers. apply facets_intersect_lowers.
Qed.

Lemma walks_node (n : NodeRef Facet) (ls : list lane) (r : Ray4) :
  bounded (load_ray cfg valid r0) r0 l n ->
  incl (facets_under n) F ->
  walker_ok r0 l F r ->
  walker_ok r0 l F
            (fold_left (fun a i => walk_intersect1 unit facets_intersect n i tt
                                                   (load_ray cfg valid r0) a) ls r)
  /\ (In l ls ->
      forall f, In f (facets_under n) ->
                flt_ltb (get (tnear r0) l) (get (facet_t f) l) = true ->
                flt_leb (get (tfar (fold_left
                                      (fun a i => walk_intersect1 unit facets_intersect n i tt
                                                                  (load_ray cfg valid r0) a)
                                      ls r)) l)
                        (get (facet_t f) l) = true).
Proof.
  intros Hb Hincl. revert r. induction ls as [|i ls IH]; intros r Hok; cbn [fold_left].
  - split; [exact Hok|intros []].
  - set (r1 := walk_intersect1 unit facets_intersect n i tt (load_ray cfg valid r0) r).
    assert (Hok1 : walker_ok r0 l F r1
                   /\ (i = l -> forall f, In f (facets_under n) ->
                         flt_ltb (get (tnear r0) l) (get (facet_t f) l) = true ->
                         flt_leb (get (tfar r1) l) (get (facet_t f) l) = true)).
    { destruct (lane_eq_dec i l) as [->|Hne].
      - destruct (walker_lane (load_ray cfg valid r0) r0 l F
                              (load_ray_tnear cfg valid r0 l Hvalid) n r Hb Hincl Hok)
          as [H1 H2].
        split; [exact H1|]. intros _ f Hf Hf1. apply H2; assumption.
      - split; [|intros E; contradiction]. destruct Hok as [Hsame Hsound]. split.
        + apply same_rays_trans with r; [|exact Hsame].
          apply (walk_intersect1_keeps unit facets_intersect (fun a b => same_rays b a)).
          * intros a. repeat split.
          * intros a b c H1 H2. apply same_rays_trans with b; assumption.
          * intros pre a ps. apply facets_intersect_same.
        + unfold r1. rewrite walk_intersect1_frame;
            [exact Hsound|apply facets_intersect_frame|intros E; apply Hne; symmetry; exact E]. }
    destruct Hok1 as [Hok1 Hc1]. destruct (IH r1 Hok1) as (Hok2 & Hc2).
    split; [exact Hok2|].
    intros [E|Hin]; [|apply Hc2, Hin].
    intros f Hf Hf1. eapply flt_leb_trans; [|apply (Hc1 E f Hf Hf1)].
    apply walks_lower.
Qed.

Lemma hybrid_step (s : State Facet) (c : Ctl Facet) :
  packet_inv (load_ray cfg valid r0) valid r0 l F s c ->
  outcome_sat (packet_inv (load_ray cfg valid r0) valid r0 l F) (packet_done r0 l F)
              (intersect_step cfg facet_kernels (load_ray cfg valid r0) tt s c).
Proof.
  intros (Hlane & Hsame & Hsound & Hent & Hpend).
  pose proof (intersect_step_inv cfg facet_kernels facet_kernels_contract valid r0
                                 (load_ray cfg valid r0) tt s c Hlane) as Hstep.
  destruct c as [|n d]; cbn [intersect_step] in *; cbn [ext_entries] in Hent, Hpend.
  - destruct (stack s) as [|[n d] rest] eqn:Hs; [exact I|].
    destruct (is_invalidNode n) eqn:Hinv.
    { apply (finish_packet cfg valid r0 l Hvalid F _ (n, d)); try assumption.
      destruct n; try discriminate. reflexivity. }
    destruct (none (vlt d (ray_tfar s))) eqn:Hnone.
    { cbn [outcome_sat]. split; [exact Hlane|]. split; [exact Hsame|].
      split; [exact Hsound|]. cbn [ext_entries stack]. split.
      - intros e He. apply Hent. right. exact He.
      - intros f Hf H1 H2. destruct (Hpend f Hf H1 H2) as (e & [<-|He] & Hfe & Hde).
        + exfalso. cbn [snd] in Hde.
          assert (Hact : any (vlt d (ray_tfar s)) = true).
          { apply any_true_iff. exists l. rewrite get_vlt.
            eapply flt_leb_ltb_trans; eassumption. }
          unfold none in Hnone. rewrite Hact in Hnone. discriminate.
        + exists e. repeat split; assumption. }
    destruct (popcnt (vlt d (ray_tfar s)) <=? threshold cfg).
    + rewrite for_each_bit_lanes in *. cbn [intersect1 facet_kernels] in *.
      cbn [outcome_sat] in *. destruct Hstep as [Hlane' _].
      destruct (Hent (n, d)) as [Hincl Hb]; [left; reflexivity|]. cbn [fst] in Hincl, Hb.
      destruct (walks_node n (filter (get (vlt d (ray_tfar s))) [L0; L1; L2; L3]) (ray s)
                           Hb Hincl (conj Hsame Hsound)) as ([Hsame' Hsound'] & Hcomp).
      split; [exact Hlane'|]. split; [exact Hsame'|]. split; [exact Hsound'|].
      cbn [ext_entries stack ray_tfar]. split.
      * intros e He. apply Hent. right. exact He.
      * intros f Hf H1 H2. rewrite get_vmin in H2.
        destruct (flt_ltb_fmin _ _ _ H2) as [H2a H2b].
        destruct (Hpend f Hf H1 H2a) as (e & [<-|He] & Hfe & Hde);
          [|exists e; repeat split; assumption].
        exfalso. cbn [fst snd] in Hfe, Hde.
        apply (flt_ltb_leb_contra _ _ H2b). apply Hcomp; [|exact Hfe|exact H1].
        apply filter_In. split; [destruct l; cbn; tauto|].
        rewrite get_vlt. eapply flt_leb_ltb_trans; eassumption.
    + cbn [outcome_sat]. exact (conj Hlane (conj Hsame (conj Hsound (conj Hent Hpend)))).
  - destruct (classify cfg n) eqn:Hc.
    + apply (descend_packet cfg valid r0 l F) with d;
        [rewrite (classify_node cfg n Hc); reflexivity| |
         exact (conj Hlane (conj Hsame (conj Hsound (conj Hent Hpend))))].
      intros k f Hf Hcb H1 H2.
      apply (static_test_hits (load_ray cfg valid r0) r0 (ray_tfar s) n k l f
                              (classify_node cfg n Hc)
                              (load_ray_tnear cfg valid r0 l Hvalid) Hcb Hf H1 H2).
    + apply (descend_packet cfg valid r0 l F) with d;
        [rewrite (classify_nodeMB cfg n Hc); apply orb_true_r| |
         exact (conj Hlane (conj Hsame (conj Hsound (conj Hent Hpend))))].
      intros k f Hf Hcb H1 H2.
      apply (mb_test_hits (load_ray cfg valid r0) r0 (ray s) (ray_tfar s) n k l f
                          (classify_nodeMB cfg n Hc) Hsame Hcb Hf H1 H2).
    + apply (finish_packet cfg valid r0 l Hvalid F _ (n, d)); try assumption.
      apply (classify_sentinel cfg). exact Hc.
    + cbn [outcome_sat] in *. destruct Hstep as [Hlane' Hle].
      cbn [prim_intersect facet_kernels] in *.
      destruct (Hent (n, d)) as [Hincl _]; [left; reflexivity|]. cbn [fst] in Hincl.
      rewrite (classify_leaf_facets cfg n Hc) in *.
      split; [exact Hlane'|]. split.
      { apply same_rays_trans with (ray s); [apply facets_intersect_same|exact Hsame]. }
      split; [apply facets_intersect_sound; assumption|].
      cbn [ext_entries stack ray_tfar]. split.
      * intros e He. apply Hent. right. exact He.
      * intros f Hf H1 H2.
        assert (H2' : flt_ltb (get (facet_t f) l) (get (ray_tfar s) l) = true).
        { eapply flt_ltb_leb_trans; [exact H2|]. destruct (Hle l) as [Hl _].
          cbn [ray_tfar] in Hl. exact Hl. }
        destruct (Hpend f Hf H1 H2') as (e & [<-|He] & Hfe & Hde);
          [|exists e; repeat split; assumption].
        exfalso. cbn [fst snd] in Hfe, Hde.
        assert (Hvl : get (vgt (ray_tfar s) d) l = true).
        { rewrite get_vgt. eapply flt_leb_ltb_trans; eassumption. }
        rewrite get_select, Hvl in H2.
        apply (flt_ltb_leb_contra _ _ H2).
        apply facets_intersect_complete; [exact Hvl|exact Hfe|].
        destruct Hsame as (_ & _ & Htn & _). rewrite Htn. exact H1.
    + exact I.
Qed.
End HybridMode.

Lemma hybrid_run_lane (cfg : Config) (valid : sseb) (root : NodeRef Facet) (r0 : Ray4)
      (l : lane) (fuel : nat) :
  get valid l = true ->
  bounded (load_ray cfg valid r0) r0 l root ->
  outcome_sat (packet_inv (load_ray cfg valid r0) valid r0 l (facets_under root))
              (packet_done r0 l (facets_under root))
              (intersect_run cfg facet_kernels fuel valid root r0).
Proof.
  intros Hvalid Hb. unfold intersect_run.
  change (precalc facet_kernels valid r0) with tt.
  apply run_invariant.
  - intros s c. apply hybrid_step. exact Hvalid.
  - cbn [outcome_sat]. clear fuel. split; [apply init_lane_inv|].
    split; [repeat split|]. split; [left; reflexivity|].
    cbn [init_state ext_entries stack]. split.
    + intros e [<-|[<-|[]]]; cbn [fst].
      * split; [apply incl_refl|exact Hb].
      * split; [intros f []|exact I].
    + intros f Hf H1 _. eexists. split; [left; reflexivity|]. cbn [fst snd].
      split; [exact Hf|]. rewrite (load_ray_tnear cfg valid r0 l Hvalid).
      apply flt_ltb_leb, H1.
Qed.

Lemma untied_tree_bounded_all (l : lane) :
  bounded (load_ray (sample_config 1) (splat true) facing_rays) facing_rays l untied_tree.
Proof.
  unfold untied_tree. cbn [bounded]. change (live_of _ _) with [L0; L1].
  apply Forall_cons; [split; [|exact I]|apply Forall_cons; [split; [|exact I]|apply Forall_nil]].
  all: intros f Hf _; cbn in Hf; destruct Hf as [<-|[]].
  all: destruct l; vm_compute; split; reflexivity.
Qed.

(** Closest-hit [intersect] with any switch threshold (3 in the source),
    over primitives given by their per-lane hit distance and with the
    single-ray walker of section 4.3: if the boxes of the tree bound its
    primitives for a valid lane, then on return that lane is either as at
    entry or holds the hit of a primitive the lane meets strictly between
    its [tnear] and its [tfar] at entry, and no primitive of the tree beyond
    [tnear] is met nearer than the [tfar] returned.  So culling by
    [curDist < ray_tfar], the any-lane child order and the switches to the
    single-ray walker never lose the closest hit. *)
Theorem intersect_finds_closest_hit (cfg : Config) (valid : sseb) (root : NodeRef Facet)
        (r0 : Ray4) (l : lane) (fuel : nat) (r' : Ray4) :
  get valid l = true ->
  bounded (load_ray cfg valid r0) r0 l root ->
  intersect cfg facet_kernels fuel valid root r0 = Some (inr r') ->
  sound_lane r0 l (facets_under root) (ray_lane r' l)
  /\ complete_lane r0 l (facets_under root) (get (tfar r') l).
Proof.
  intros Hvalid Hb. unfold intersect.
  pose proof (hybrid_run_lane cfg valid root r0 l fuel Hvalid Hb) as H.
  destruct (intersect_run cfg facet_kernels fuel valid root r0) as [s c|s|f];
    intros E; try discriminate.
  injection E as <-. exact H.
Qed.

Lemma intersect_finds_closest_hit_witness :
  match intersect (sample_config 1) facet_kernels 8 (splat true) untied_tree facing_rays with
  | Some (inr r') =>
      sound_lane facing_rays L1 (facets_under untied_tree) (ray_lane r' L1)
      /\ complete_lane facing_rays L1 (facets_under untied_tree) (get (tfar r') L1)
  | _ => False
  end.
Proof.
  destruct (intersect (sample_config 1) facet_kernels 8 (splat true) untied_tree facing_rays)
    as [[f|r']|] eqn:E.
  - vm_compute in E. discriminate E.
  - exact (intersect_finds_closest_hit (sample_config 1) (splat true) untied_tree facing_rays
                                       L1 8%nat r' eq_refl (untied_tree_bounded_all L1) E).
  - vm_compute in E. discriminate E.
Defined.

(** ** The any-hit driver reports exactly the blocked lanes *)

Lemma fold_occluded_lane (valid : sseb) (r : Ray4) (ps : list Facet) (acc : sseb) (l : lane) :
  get (fold_left (fun a p => vor a (facet_occluded valid r p)) ps acc) l
  = get acc l
    || existsb (fun p => get valid l
                         && (flt_ltb (get (tnear r) l) (get (facet_t p) l)
                             && flt_ltb (get (facet_t p) l) (get (tfar r) l))) ps.
Proof.
  revert acc. induction ps as [|p ps IH]; intros acc; cbn [fold_left existsb].
  - rewrite orb_false_r. reflexivity.
  - rewrite IH. unfold vor, facet_occluded, vand. rewrite !get_vmap2, !get_vlt.
    rewrite orb_assoc. reflexivity.
Qed.

Lemma facets_occluded_lane (valid : sseb) (r : Ray4) (ps : list Facet) (l : lane) :
  get (facets_occluded valid tt r ps) l = true
  <-> get valid l = true
      /\ exists f, In f ps
                   /\ flt_ltb (get (tnear r) l) (get (facet_t f) l) = true
                   /\ flt_ltb (get (facet_t f) l) (get (tfar r) l) = true.
Proof.
  unfold facets_occluded. rewrite fold_occluded_lane, get_splat. cbn [orb].
  rewrite existsb_exists. split.
  - intros (f & Hf & H). apply andb_true_iff in H. destruct H as [Hv H].
    apply andb_true_iff in H. destruct H as [H1 H2]. split; [exact Hv|].
    exists f. repeat split; assumption.
  - intros (Hv & f & Hf & H1 & H2). exists f. split; [exact Hf|].
    rewrite Hv, H1, H2. reflexivity.
Qed.

Section AnyHitWalker.
Variable tr : TravRay.
Variable r0 : Ray4.
Variable i : lane.
Variable tfv : ssef.

Lemma walk_occluded1_sound (n : NodeRef Facet) :
  walk_occluded1 unit facets_occluded n i tt tr r0 tfv = true ->
  exists f, In f (facets_under n)
            /\ flt_ltb (get (tnear r0) i) (get (facet_t f) i) = true
            /\ flt_ltb (get (facet_t f) i) (get (tfar r0) i) = true.
Proof.
  induction n as [| |c0 IH0 c1 IH1 c2 IH2 c3 IH3 b
                    |c0 IH0 c1 IH1 c2 IH2 c3 IH3 b db|prims]; cbn [walk_occluded1].
  - intros H. apply facets_occluded_lane in H. destruct H as (_ & f & [] & _).
  - discriminate.
  - intros H. apply existsb_exists in H. destruct H as (kd & Hkd & Hv).
    apply ranked_children_live in Hkd.
    assert (Hsub : exists f, In f (facets_under (get (mk4 c0 c1 c2 c3) (fst kd)))
                             /\ flt_ltb (get (tnear r0) i) (get (facet_t f) i) = true
                             /\ flt_ltb (get (facet_t f) i) (get (tfar r0) i) = true).
    { destruct (fst kd); cbn [get v0 v1 v2 v3];
        [apply IH0|apply IH1|apply IH2|apply IH3]; exact Hv. }
    destruct Hsub as (f & Hf & H12). exists f. split; [|exact H12].
    apply (facets_child_under (Node c0 c1 c2 c3 b) (fst kd) eq_refl Hkd). exact Hf.
  - intros H. apply existsb_exists in H. destruct H as (kd & Hkd & Hv).
    apply ranked_children_live in Hkd.
    assert (Hsub : exists f, In f (facets_under (get (mk4 c0 c1 c2 c3) (fst kd)))
                             /\ flt_ltb (get (tnear r0) i) (get (facet_t f) i) = true
                             /\ flt_ltb (get (facet_t f) i) (get (tfar r0) i) = true).
    { destruct (fst kd); cbn [get v0 v1 v2 v3];
        [apply IH0|apply IH1|apply IH2|apply IH3]; exact Hv. }
    destruct Hsub as (f & Hf & H12). exists f. split; [|exact H12].
    apply (facets_child_under (NodeMB c0 c1 c2 c3 b db) (fst kd) eq_refl Hkd). exact Hf.
  - intros H. apply facets_occluded_lane in H. destruct H as (_ & f & Hf & H12).
    exists f. split; [exact Hf|exact H12].
Qed.

Hypothesis Htn : get (ray_tnear tr) i = get (tnear r0) i.
Hypothesis Htf : get tfv i = get (tfar r0) i.

Lemma walk_occluded1_complete (n : NodeRef Facet) (f : Facet) :
  bounded tr r0 i n ->
  In f (facets_under n) ->
  flt_ltb (get (tnear r0) i) (get (facet_t f) i) = true ->
  flt_ltb (get (facet_t f) i) (get (tfar r0) i) = true ->
  walk_occluded1 unit facets_occluded n i tt tr r0 tfv = true.
Proof.
  intros Hb Hf H1 H2. revert Hb Hf.
  induction n as [| |c0 IH0 c1 IH1 c2 IH2 c3 IH3 b
                    |c0 IH0 c1 IH1 c2 IH2 c3 IH3 b db|prims]; intros Hb Hf;
    cbn [walk_occluded1].
  - destruct Hf.
  - destruct Hf.
  - set (n := Node c0 c1 c2 c3 b) in *.
    destruct (facets_under_child n f eq_refl Hf) as (k & Hk & Hfk).
    destruct (bounded_child tr r0 i n k eq_refl Hb Hk) as [Hcb Hbk].
    assert (H2' : flt_ltb (get (facet_t f) i) (get tfv i) = true) by (rewrite Htf; exact H2).
    destruct (static_test_hits tr r0 tfv n k i f eq_refl Htn Hcb Hfk H1 H2') as [Hh _].
    cbn [boxes n] in Hh.
    destruct (ranked_children_hit (box_node tr tfv b) (mk4 c0 c1 c2 c3) i [L0; L1; L2; L3]
                                  k Hk Hh) as (d & Hd).
    apply existsb_exists. exists (k, d). split; [exact Hd|]. cbn [fst].
    destruct k; cbn [children n get v0 v1 v2 v3] in *;
      [apply IH0|apply IH1|apply IH2|apply IH3]; assumption.
  - set (n := NodeMB c0 c1 c2 c3 b db) in *.
    destruct (facets_under_child n f eq_refl Hf) as (k & Hk & Hfk).
    destruct (bounded_child tr r0 i n k eq_refl Hb Hk) as [Hcb Hbk].
    assert (H2' : flt_ltb (get (facet_t f) i) (get tfv i) = true) by (rewrite Htf; exact H2).
    assert (Hsame : same_rays r0 r0) by (repeat split).
    destruct (mb_test_hits tr r0 r0 tfv n k i f eq_refl Hsame Hcb Hfk H1 H2') as [Hh _].
    cbn [boxes dboxes n] in Hh.
    destruct (ranked_children_hit (intersectBox r0 tfv (rdir tr) b db) (mk4 c0 c1 c2 c3) i
                                  [L0; L1; L2; L3] k Hk Hh) as (d & Hd).
    apply existsb_exists. exists (k, d). split; [exact Hd|]. cbn [fst].
    destruct k; cbn [children n get v0 v1 v2 v3] in *;
      [apply IH0|apply IH1|apply IH2|apply IH3]; assumption.
  - apply facets_occluded_lane. split; [apply only_self|].
    exists f. cbn [facets_under] in Hf. repeat split; assumption.
Qed.
End AnyHitWalker.

Lemma term_fold_lane (occ : lane -> bool) (ls : list lane) (t0 : sseb) (l : lane) :
  get (fold_left (fun t i => if occ i then set t i true else t) ls t0) l = true
  <-> get t0 l = true \/ (In l ls /\ occ l = true).
Proof.
  revert t0. induction ls as [|i ls IH]; intros t0; cbn [fold_left].
  - split; [intros H; left; exact H|intros [H|[[] _]]; exact H].
  - rewrite IH. cbn [In]. destruct (lane_eq_dec i l) as [->|Hne].
    + destruct (occ l) eqn:Ho.
      * rewrite get_set_same.
        split; intros _; [right; split; [left; reflexivity|reflexivity]|left; reflexivity].
      * split; intros [H|[_ H]]; [left; exact H|discriminate|left; exact H|discriminate].
    + assert (E : get (if occ i then set t0 i true else t0) l = get t0 l).
      { destruct (occ i); [apply get_set_other; intros E; apply Hne; symmetry; exact E
                          |reflexivity]. }
      rewrite E. split.
      * intros [H|[H H']]; [left; exact H|right; split; [right; exact H|exact H']].
      * intros [H|[[H|H] H']]; [left; exact H|contradiction|right; split; assumption].
Qed.

Section AnyHitMode.
Variable cfg : Config.
Variable valid : sseb.
Variable r0 : Ray4.
Variable l : lane.
Hypothesis Hvalid : get valid l = true.
Variable F : list Facet.

Lemma descend_entries (s : State Facet) (test : lane -> sseb * ssef) (n : NodeRef Facet)
      (d : ssef) (t : flt) :
  isNode n || isNodeMB n = true ->
  (forall k f, In f (facets_under (get (children n) k)) ->
               child_bounds (load_ray cfg valid r0) r0 l n k ->
               flt_ltb (get (tnear r0) l) (get (facet_t f) l) = true ->
               flt_ltb (get (facet_t f) l) t = true ->
               get (fst (test k)) l = true
               /\ flt_leb (get (snd (child_entry test (children n) k)) l)
                          (get (facet_t f) l) = true) ->
  entries_ok (load_ray cfg valid r0) r0 l F ((n, d) :: stack s) ->
  pending r0 l F t ((n, d) :: stack s) ->
  match descend cfg s test n with
  | Running s' c' =>
      ray s' = ray s /\ ray_tfar s' = ray_tfar s /\ terminated s' = terminated s
      /\ entries_ok (load_ray cfg valid r0) r0 l F (ext_entries s' c')
      /\ pending r0 l F t (ext_entries s' c')
  | Finished _ => False
  | Faulted _ => True
  end.
Proof.
  intros Hn Htest Hent Hpend. unfold descend.
  destruct (stack s) as [|[n' d'] rest] eqn:Hs; [exact I|].
  destruct (child_loop cfg test (children n) lanes (mkCursor rest n' d')) as [flt|c] eqn:Hc;
    [exact I|].
  assert (Hent' : entries_ok (load_ray cfg valid r0) r0 l F (cursor_entries c)).
  { intros e He. destruct (child_loop_only cfg test _ _ _ _ Hc e He) as [H1|(k & Hk & Hek)].
    - apply Hent. right. exact H1.
    - destruct (Hent (n, d)) as [Hi Hb]; [left; reflexivity|]. cbn [fst] in Hi, Hb.
      rewrite Hek. split.
      + intros f Hf. apply Hi. apply (facets_child_under n k Hn Hk). exact Hf.
      + apply (bounded_child _ r0 l n k Hn Hb Hk). }
  assert (Hpend' : pending r0 l F t (cursor_entries c)).
  { intros f Hf H1 H2. destruct (Hpend f Hf H1 H2) as (e & [<-|He] & Hfe & Hde).
    - cbn [fst snd] in Hfe, Hde.
      destruct (facets_under_child n f Hn Hfe) as (k & Hk & Hfk).
      destruct (Hent (n, d)) as [_ Hb]; [left; reflexivity|]. cbn [fst] in Hb.
      destruct (bounded_child _ r0 l n k Hn Hb Hk) as [Hcb _].
      destruct (Htest k f Hfk Hcb H1 H2) as [Hhit Hdist].
      exists (child_entry test (children n) k). split; [|split].
      + apply (child_loop_adds cfg test _ _ _ _ Hc k Hk).
        apply any_true_iff. exists l. exact Hhit.
      + exact Hfk.
      + exact Hdist.
    - exists e. split; [|split; assumption].
      apply (child_loop_keeps cfg test _ _ _ _ Hc). exact He. }
  destruct (switch_during_down cfg && _).
  - destruct (length (c_stack c) <? stackSizeChunk cfg)%nat; [|exact I].
    cbn [ray ray_tfar terminated ext_entries stack]. auto.
  - cbn [ray ray_tfar terminated ext_entries stack]. auto.
Qed.

Lemma pending_neg_inf (es : list (StackItem Facet)) : pending r0 l F neg_inf es.
Proof. intros f _ _ H. exfalso. destruct (get (facet_t f) l); discriminate. Qed.

Lemma finish_occluded (s : State Facet) (e0 : StackItem Facet) :
  ray s = r0 ->
  (get (terminated s) l = true -> blocked r0 l F) ->
  (get (terminated s) l = false ->
   pending r0 l F (get (tfar r0) l) (e0 :: stack s)) ->
  facets_under (fst e0) = [] ->
  outcome_sat (occluded_inv (load_ray cfg valid r0) r0 l F) (occluded_done r0 l F)
              (finish_at_sentinel s).
Proof.
  intros Hray Hblk Hpend He0. unfold finish_at_sentinel.
  destruct (stack s); [|exact I]. cbn [outcome_sat]. split; [exact Hray|].
  split; [exact Hblk|]. intros (f & Hf & H1 & H2).
  destruct (get (terminated s) l) eqn:Et; [reflexivity|]. exfalso.
  destruct (Hpend eq_refl f Hf H1 H2) as (e & [<-|[]] & Hfe & _).
  rewrite He0 in Hfe. contradiction.
Qed.
End AnyHitMode.

Section AnyHitSteps.
Variable cfg : Config.
Variable valid : sseb.
Variable r0 : Ray4.
Variable l : lane.
Hypothesis Hvalid : get valid l = true.
Variable F : list Facet.

Lemma terminate_outcome (s : State Facet) (term' : sseb) (stk : list (StackItem Facet)) :
  ray s = r0 ->
  (get (terminated s) l = false -> get (ray_tfar s) l = get (tfar r0) l) ->
  (get term' l = true -> blocked r0 l F) ->
  (get term' l = false -> get (terminated s) l = false) ->
  entries_ok (load_ray cfg valid r0) r0 l F stk ->
  (get term' l = false -> pending r0 l F (get (tfar r0) l) stk) ->
  outcome_sat (occluded_inv (load_ray cfg valid r0) r0 l F) (occluded_done r0 l F)
              (if all term'
               then Finished (mkState (ray s) (ray_tfar s) term' stk)
               else Running (mkState (ray s) (select term' (splat neg_inf) (ray_tfar s))
                                     term' stk) AtPop).
Proof.
  intros Hray Htf Hblk Hold Hent Hpend. destruct (all term') eqn:Hall; cbn [outcome_sat].
  - split; [exact Hray|]. cbn [terminated]. split; [exact Hblk|].
    intros _. apply (proj1 (all_true_iff term') Hall).
  - split; [exact Hray|]. cbn [terminated ray_tfar ext_entries stack].
    split; [|split; [exact Hblk|split; [exact Hent|exact Hpend]]].
    intros Et. rewrite get_select, Et. apply Htf, Hold, Et.
Qed.

Lemma occluded_hybrid_step (s : State Facet) (c : Ctl Facet) :
  occluded_inv (load_ray cfg valid r0) r0 l F s c ->
  outcome_sat (occluded_inv (load_ray cfg valid r0) r0 l F) (occluded_done r0 l F)
              (occluded_step cfg facet_kernels (load_ray cfg valid r0) tt s c).
Proof.
  intros (Hray & Htf & Hblk & Hent & Hpend).
  pose proof (load_ray_tnear cfg valid r0 l Hvalid) as Htn.
  destruct c as [|n d]; cbn [occluded_step]; cbn [ext_entries] in Hent, Hpend.
  - destruct (stack s) as [|[n d] rest] eqn:Hs; [exact I|].
    destruct (is_invalidNode n) eqn:Hinv.
    { apply (finish_occluded cfg valid r0 l F _ (n, d)); cbn [ray terminated stack];
        try assumption. destruct n; try discriminate. reflexivity. }
    assert (Hrest : entries_ok (load_ray cfg valid r0) r0 l F rest).
    { intros e He. apply Hent. right. exact He. }
    destruct (Hent (n, d)) as [Hincl Hb]; [left; reflexivity|]. cbn [fst] in Hincl, Hb.
    destruct (none (vlt d (ray_tfar s))) eqn:Hnone.
    { cbn [outcome_sat]. split; [exact Hray|]. cbn [terminated ray_tfar ext_entries stack].
      split; [exact Htf|]. split; [exact Hblk|]. split; [exact Hrest|].
      intros Et f Hf H1 H2. destruct (Hpend Et f Hf H1 H2) as (e & [<-|He] & Hfe & Hde).
      - exfalso. cbn [snd] in Hde.
        assert (Hact : any (vlt d (ray_tfar s)) = true).
        { apply any_true_iff. exists l. rewrite get_vlt, (Htf Et).
          eapply flt_leb_ltb_trans; eassumption. }
        unfold none in Hnone. rewrite Hact in Hnone. discriminate.
      - exists e. repeat split; assumption. }
    destruct (popcnt (vlt d (ray_tfar s)) <=? threshold cfg).
    + rewrite for_each_bit_lanes. cbn [occluded1 facet_kernels].
      pose proof (term_fold_lane
                    (fun i => walk_occluded1 unit facets_occluded n i tt
                                             (load_ray cfg valid r0) (ray s) (ray_tfar s))
                    (filter (get (vlt d (ray_tfar s))) [L0; L1; L2; L3])
                    (terminated s) l) as Hfold.
      cbv beta in Hfold.
      apply terminate_outcome; try assumption.
      * intros H. apply Hfold in H. destruct H as [H|[_ Hocc]]; [apply Hblk, H|].
        rewrite Hray in Hocc. apply walk_occluded1_sound in Hocc.
        destruct Hocc as (f & Hf & H12). exists f. split; [apply Hincl, Hf|exact H12].
      * intros H. destruct (get (terminated s) l) eqn:Et; [|reflexivity].
        rewrite (proj2 Hfold (or_introl eq_refl)) in H. discriminate.
      * intros Et f Hf H1 H2.
        assert (Eold : get (terminated s) l = false).
        { destruct (get (terminated s) l) eqn:Eo; [|reflexivity].
          rewrite (proj2 Hfold (or_introl eq_refl)) in Et. discriminate. }
        destruct (Hpend Eold f Hf H1 H2) as (e & [<-|He] & Hfe & Hde);
          [|exists e; repeat split; assumption].
        exfalso. cbn [fst snd] in Hfe, Hde.
        assert (Ht : get (fold_left
                            (fun (t : sseb) (i : lane) =>
                               if walk_occluded1 unit facets_occluded n i tt
                                                 (load_ray cfg valid r0) (ray s) (ray_tfar s)
                               then set t i true else t)
                            (filter (get (vlt d (ray_tfar s))) [L0; L1; L2; L3])
                            (terminated s)) l = true).
        { apply Hfold. right. split.
          - apply filter_In. split; [destruct l; cbn; tauto|].
            rewrite get_vlt, (Htf Eold). eapply flt_leb_ltb_trans; eassumption.
          - rewrite Hray.
            apply (walk_occluded1_complete (load_ray cfg valid r0) r0 l (ray_tfar s)
                                           Htn (Htf Eold) n f Hb Hfe H1 H2). }
        apply not_true_iff_false in Et. apply Et. exact Ht.
    + cbn [outcome_sat]. split; [exact Hray|]. cbn [terminated ray_tfar ext_entries stack].
      split; [exact Htf|]. split; [exact Hblk|]. split; [exact Hent|exact Hpend].
  - destruct (Hent (n, d)) as [Hincl Hb]; [left; reflexivity|]. cbn [fst] in Hincl, Hb.
    assert (Hcarry : forall test t,
               isNode n || isNodeMB n = true ->
               (forall k f, In f (facets_under (get (children n) k)) ->
                            child_bounds (load_ray cfg valid r0) r0 l n k ->
                            flt_ltb (get (tnear r0) l) (get (facet_t f) l) = true ->
                            flt_ltb (get (facet_t f) l) t = true ->
                            get (fst (test k)) l = true
                            /\ flt_leb (get (snd (child_entry test (children n) k)) l)
                                       (get (facet_t f) l) = true) ->
               pending r0 l F t ((n, d) :: stack s) ->
               (get (terminated s) l = false -> t = get (tfar r0) l) ->
               outcome_sat (occluded_inv (load_ray cfg valid r0) r0 l F)
                           (occluded_done r0 l F) (descend cfg s test n)).
    { intros test t Hn Htest Hp Ht.
      pose proof (descend_entries cfg valid r0 l F s test n d t Hn Htest Hent Hp) as H.
      destruct (descend cfg s test n) as [s' c'|s'|f]; [|contradiction|exact I].
      - destruct H as (E1 & E2 & E3 & He & Hp'). cbn [outcome_sat].
        split; [rewrite E1; exact Hray|]. rewrite E2, E3.
        split; [exact Htf|]. split; [exact Hblk|]. split; [exact He|].
        intros Et. rewrite <- (Ht Et). exact Hp'. }
    assert (Hnode : forall test,
               isNode n || isNodeMB n = true ->
               (get (terminated s) l = false ->
                forall k f, In f (facets_under (get (children n) k)) ->
                            child_bounds (load_ray cfg valid r0) r0 l n k ->
                            flt_ltb (get (tnear r0) l) (get (facet_t f) l) = true ->
                            flt_ltb (get (facet_t f) l) (get (tfar r0) l) = true ->
                            get (fst (test k)) l = true
                            /\ flt_leb (get (snd (child_entry test (children n) k)) l)
                                       (get (facet_t f) l) = true) ->
               outcome_sat (occluded_inv (load_ray cfg valid r0) r0 l F)
                           (occluded_done r0 l F) (descend cfg s test n)).
    { intros test Hn Htest. destruct (get (terminated s) l) eqn:Et.
      - apply (Hcarry test neg_inf Hn).
        + intros k f _ _ _ H2. exfalso. destruct (get (facet_t f) l); discriminate.
        + apply pending_neg_inf.
        + discriminate.
      - apply (Hcarry test (get (tfar r0) l) Hn (Htest eq_refl) (Hpend eq_refl)).
        reflexivity. }
    destruct (classify cfg n) eqn:Hc.
    + apply Hnode; [rewrite (classify_node cfg n Hc); reflexivity|].
      intros Et k f Hf Hcb H1 H2.
      apply (static_test_hits (load_ray cfg valid r0) r0 (ray_tfar s) n k l f
                              (classify_node cfg n Hc) Htn Hcb Hf H1).
      rewrite (Htf Et). exact H2.
    + apply Hnode; [rewrite (classify_nodeMB cfg n Hc); apply orb_true_r|].
      intros Et k f Hf Hcb H1 H2.
      assert (Hsame : same_rays (ray s) r0) by (rewrite Hray; repeat split).
      apply (mb_test_hits (load_ray cfg valid r0) r0 (ray s) (ray_tfar s) n k l f
                          (classify_nodeMB cfg n Hc) Hsame Hcb Hf H1).
      rewrite (Htf Et). exact H2.
    + apply (finish_occluded cfg valid r0 l F s (n, d)); try assumption.
      apply (classify_sentinel cfg). exact Hc.
    + cbn [prim_occluded facet_kernels]. rewrite (classify_leaf_facets cfg n Hc).
      assert (Hrest : entries_ok (load_ray cfg valid r0) r0 l F (stack s)).
      { intros e He. apply Hent. right. exact He. }
      assert (Hlane : get (vor (terminated s)
                               (facets_occluded (vnot (terminated s)) tt (ray s)
                                                (facets_under n))) l = true
                      <-> get (terminated s) l = true
                          \/ (get (terminated s) l = false
                              /\ exists f, In f (facets_under n)
                                   /\ flt_ltb (get (tnear r0) l) (get (facet_t f) l) = true
                                   /\ flt_ltb (get (facet_t f) l) (get (tfar r0) l) = true)).
      { unfold vor. rewrite get_vmap2, orb_true_iff, facets_occluded_lane.
        unfold vnot. rewrite get_vmap, negb_true_iff, Hray. reflexivity. }
      apply terminate_outcome; try assumption.
      * intros H. apply Hlane in H. destruct H as [H|(_ & f & Hf & H12)]; [apply Hblk, H|].
        exists f. split; [apply Hincl, Hf|exact H12].
      * intros H. destruct (get (terminated s) l) eqn:Et; [|reflexivity].
        rewrite (proj2 Hlane (or_introl eq_refl)) in H. discriminate.
      * intros Et f Hf H1 H2.
        assert (Eold : get (terminated s) l = false).
        { destruct (get (terminated s) l) eqn:Eo; [|reflexivity].
          rewrite (proj2 Hlane (or_introl eq_refl)) in Et. discriminate. }
        destruct (Hpend Eold f Hf H1 H2) as (e & [<-|He] & Hfe & Hde);
          [|exists e; repeat split; assumption].
        exfalso. cbn [fst snd] in Hfe.
        rewrite (proj2 Hlane) in Et; [discriminate|].
        right. split; [exact Eold|]. exists f. repeat split; assumption.
    + exact I.
Qed.
End AnyHitSteps.

Lemma occluded_run_lane (cfg : Config) (valid : sseb) (root : NodeRef Facet) (r0 : Ray4)
      (l : lane) (fuel : nat) :
  get valid l = true ->
  bounded (load_ray cfg valid r0) r0 l root ->
  outcome_sat (occluded_inv (load_ray cfg valid r0) r0 l (facets_under root))
              (occluded_done r0 l (facets_under root))
              (occluded_run cfg facet_kernels fuel valid root r0).
Proof.
  intros Hvalid Hb. unfold occluded_run.
  change (precalc facet_kernels valid r0) with tt.
  apply run_invariant.
  - intros s c. apply occluded_hybrid_step. exact Hvalid.
  - cbn [outcome_sat]. clear fuel. split; [reflexivity|].
    cbn [init_state terminated ray_tfar ext_entries stack].
    assert (Et : get (vnot valid) l = false).
    { unfold vnot. rewrite get_vmap, Hvalid. reflexivity. }
    split; [intros _; rewrite get_select, Hvalid; reflexivity|].
    split; [intros H; rewrite Et in H; discriminate|]. split.
    + intros e [<-|[<-|[]]]; cbn [fst].
      * split; [apply incl_refl|exact Hb].
      * split; [intros f []|exact I].
    + intros _ f Hf H1 _. eexists. split; [left; reflexivity|]. cbn [fst snd].
      split; [exact Hf|]. rewrite (load_ray_tnear cfg valid r0 l Hvalid).
      apply flt_ltb_leb, H1.
Qed.

(** Any-hit [occluded] with any switch threshold, over primitives given by
    their per-lane hit distance and with the single-ray walker of section
    4.3: the call writes nothing but [geomID]; and if the boxes of the tree
    bound its primitives for a valid lane, the lane's [geomID] is set to 0
    exactly when the lane meets some primitive of the tree strictly between
    its [tnear] and [tfar], and is left as it was otherwise. *)
Theorem occluded_reports_blocked (cfg : Config) (valid : sseb) (root : NodeRef Facet)
        (r0 : Ray4) (l : lane) (fuel : nat) (r' : Ray4) :
  get valid l = true ->
  bounded (load_ray cfg valid r0) r0 l root ->
  occluded cfg facet_kernels fuel valid root r0 = Some (inr r') ->
  r' = set_geomID r0 (geomID r')
  /\ (blocked r0 l (facets_under root) -> get (geomID r') l = 0)
  /\ (~ blocked r0 l (facets_under root) -> get (geomID r') l = get (geomID r0) l).
Proof.
  intros Hvalid Hb. unfold occluded.
  pose proof (occluded_run_lane cfg valid root r0 l fuel Hvalid Hb) as H.
  destruct (occluded_run cfg facet_kernels fuel valid root r0) as [s c|s|f];
    intros E; try discriminate.
  injection E as <-. cbn [outcome_sat] in H. destruct H as [Hray Hiff].
  unfold commit_occluded, store4i. rewrite Hray. cbn [set_geomID geomID].
  split; [reflexivity|].
  rewrite get_select. unfold vand. rewrite get_vmap2, Hvalid. cbn [andb].
  split.
  - intros Hblk. rewrite (proj2 Hiff Hblk). apply get_splat.
  - intros Hn. destruct (get (terminated s) l) eqn:Et; [|reflexivity].
    exfalso. apply Hn, Hiff. reflexivity.
Qed.

Lemma occluded_reports_blocked_witness :
  match occluded (sample_config 1) facet_kernels 8 (splat true) untied_tree facing_rays with
  | Some (inr r') =>
      r' = set_geomID facing_rays (geomID r')
      /\ (blocked facing_rays L0 (facets_under untied_tree) -> get (geomID r') L0 = 0)
      /\ (~ blocked facing_rays L0 (facets_under untied_tree) ->
          get (geomID r') L0 = get (geomID facing_rays) L0)
  | _ => False
  end.
Proof.
  destruct (occluded (sample_config 1) facet_kernels 8 (splat true) untied_tree facing_rays)
    as [[f|r']|] eqn:E.
  - vm_compute in E. discriminate E.
  - exact (occluded_reports_blocked (sample_config 1) (splat true) untied_tree facing_rays
                                    L0 8%nat r' eq_refl (untied_tree_bounded_all L0) E).
  - vm_compute in E. discriminate E.
Defined.

(** ** Repacking: slots beyond the last ray *)

Section Padding.
Import Stream.
Variable K : nat.
Hypothesis HK : (0 < K)%nat.

Lemma copy_ray_other (A : Type) (f : RayK -> list A) (g : Ray -> A) (i j : nat) (r : Ray)
      (rayK : list RayK) :
  (forall s r p, f (store_slot s r p) = upd (f p) s (g r)) ->
  i <> j -> slot K f (copy_ray K i r rayK) j = slot K f rayK j.
Proof.
  intros Hstore Hij. unfold slot, copy_ray.
  destruct (nth_error rayK (i / K)) as [p0|] eqn:E; [|reflexivity].
  destruct (Nat.eq_dec (i / K) (j / K)) as [Hd|Hd].
  - rewrite <- Hd. rewrite nth_error_upd_same
      by (apply nth_error_Some; rewrite E; discriminate).
    rewrite E, Hstore. apply nth_error_upd_other.
    intros Hm. apply Hij. apply (div_mod_inj K); assumption.
  - rewrite nth_error_upd_other by exact Hd. reflexivity.
Qed.

Lemma copy_loop_slot_after (A : Type) (f : RayK -> list A) (g : Ray -> A)
      (rays : list Ray) (i0 j : nat) (rayK : list RayK) (mn mx : flt * flt * flt) :
  (forall s r p, f (store_slot s r p) = upd (f p) s (g r)) ->
  (i0 + length rays <= j)%nat ->
  slot K f (fst (fst (copy_loop K i0 rays (rayK, mn, mx)))) j = slot K f rayK j.
Proof.
  intros Hstore. revert i0 rayK mn mx.
  induction rays as [|r rays IH]; intros i0 rayK mn mx Hj; [reflexivity|].
  cbn [copy_loop]. cbn [length] in Hj. rewrite IH by lia.
  apply (copy_ray_other A f g); [exact Hstore|lia].
Qed.

Lemma construct_packets_nth (np q : nat) (rayK : list RayK) :
  (q < np)%nat -> (q < length rayK)%nat ->
  exists old, nth_error (construct_packets K np rayK) q = Some (construct K old).
Proof.
  revert q rayK. induction np as [|np IH]; intros q rayK Hq Hlen; [lia|].
  destruct rayK as [|p rest]; [cbn in Hlen; lia|]. cbn [construct_packets].
  destruct q as [|q]; cbn [nth_error]; [exists p; reflexivity|].
  apply IH; [lia|cbn in Hlen; lia].
Qed.

Lemma nth_error_repeat_lt (A : Type) (a : A) (n s : nat) :
  (s < n)%nat -> nth_error (repeat a n) s = Some a.
Proof.
  revert s. induction n as [|n IH]; intros s Hs; [lia|].
  destruct s as [|s]; cbn [repeat nth_error]; [reflexivity|]. apply IH. lia.
Qed.

Lemma padding_slot (A : Type) (f : RayK -> list A) (g : Ray -> A) (a : A)
      (rayK : list RayK) (rays : list Ray) (n j : nat) :
  (forall s r p, f (store_slot s r p) = upd (f p) s (g r)) ->
  (forall old, f (construct K old) = repeat a K) ->
  (n <= j)%nat -> (j < (n + K - 1) / K * K)%nat ->
  ((n + K - 1) / K <= length rayK)%nat ->
  slot K f (fst (AOStoSOA K rayK rays n)) j = Some a.
Proof.
  intros Hstore Hctor Hn Hj Hlen. unfold AOStoSOA.
  set (np := ((n + K - 1) / K)%nat) in *.
  destruct (copy_loop K 0 (firstn n rays)
                      (construct_packets K np rayK, (pos_inf, pos_inf, pos_inf),
                       (neg_inf, neg_inf, neg_inf))) as [[rayK' mn] mx] eqn:E.
  cbn [fst].
  pose proof (copy_loop_slot_after A f g (firstn n rays) 0 j (construct_packets K np rayK)
                                   (pos_inf, pos_inf, pos_inf) (neg_inf, neg_inf, neg_inf)
                                   Hstore) as H.
  rewrite E in H. cbn [fst] in H. rewrite H.
  - assert (Hq : (j / K < np)%nat) by (apply Nat.Div0.div_lt_upper_bound; lia).
    destruct (construct_packets_nth np (j / K) rayK Hq) as [old Hold]; [lia|].
    unfold slot. rewrite Hold, Hctor. apply nth_error_repeat_lt.
    apply Nat.mod_upper_bound. lia.
  - cbn [Nat.add]. rewrite length_firstn. lia.
Qed.
End Padding.

Lemma combine_upd {A B : Type} (a : list A) (b : list B) (s : nat) (x : A) (y : B) :
  combine (Stream.upd a s x) (Stream.upd b s y) = Stream.upd (combine a b) s (x, y).
Proof.
  revert b s. induction a as [|h t IH]; intros b s; [reflexivity|].
  destruct b as [|h' t']; [destruct s; reflexivity|].
  destruct s as [|s]; cbn [Stream.upd combine]; [reflexivity|]. rewrite IH. reflexivity.
Qed.

Lemma map_upd {A B : Type} (g : A -> B) (a : list A) (s : nat) (x : A) :
  map g (Stream.upd a s x) = Stream.upd (map g a) s (g x).
Proof.
  revert s. induction a as [|h t IH]; intros s; [reflexivity|].
  destruct s as [|s]; cbn [Stream.upd map]; [reflexivity|]. rewrite IH. reflexivity.
Qed.

Lemma m_valid_store (s : nat) (r : Stream.Ray) (p : Stream.RayK) :
  Coherent.m_valid (Stream.store_slot s r p)
  = Stream.upd (Coherent.m_valid p) s
               (flt_leb (Stream.smax (fin 0) (Stream.tnear r)) (Stream.tfar r)).
Proof.
  rewrite store_slot_fields. unfold Coherent.m_valid.
  cbn [Stream.k_tnear Stream.k_tfar]. rewrite combine_upd, map_upd. reflexivity.
Qed.

Lemma m_valid_construct (K : nat) (old : Stream.RayK) :
  Coherent.m_valid (Stream.construct K old) = repeat false K.
Proof.
  unfold Coherent.m_valid, Stream.construct. cbn [Stream.k_tnear Stream.k_tfar].
  induction K as [|K IH]; [reflexivity|]. cbn [repeat combine map]. rewrite IH. reflexivity.
Qed.

(** Which slots of the repacked packets pass the validity test
    [tnear <= tfar] of the coherent leaf loops: the slot of input ray [i]
    passes it exactly when [max(0, tnear) <= tfar] holds of the ray, and
    every slot beyond the last ray, up to the end of the last packet, keeps
    the constructor's [tnear = 0] and [tfar = -inf] and fails it. *)
Theorem AOStoSOA_valid_slots (K : nat) (rayK : list Stream.RayK) (rays : list Stream.Ray)
        (n : nat) :
  (0 < K)%nat ->
  ((n + K - 1) / K <= length rayK)%nat ->
  let out := fst (Stream.AOStoSOA K rayK rays n) in
  (forall i r, (i < n)%nat -> nth_error rays i = Some r ->
               Stream.slot K Coherent.m_valid out i
               = Some (flt_leb (Stream.smax (fin 0) (Stream.tnear r)) (Stream.tfar r)))
  /\ (forall j, (n <= j)%nat -> (j < (n + K - 1) / K * K)%nat ->
                Stream.slot K Stream.k_tnear out j = Some (fin 0)
                /\ Stream.slot K Stream.k_tfar out j = Some neg_inf
                /\ Stream.slot K Coherent.m_valid out j = Some false).
Proof.
  intros HK Hlen out. split.
  - intros i r Hi Hr.
    apply (AOStoSOA_slot K HK bool Coherent.m_valid
                         (fun r => flt_leb (Stream.smax (fin 0) (Stream.tnear r))
                                           (Stream.tfar r))
                         m_valid_store); try assumption.
    intros old. rewrite m_valid_construct. apply repeat_length.
  - intros j Hn Hj. split; [|split].
    + apply (padding_slot K HK flt Stream.k_tnear
                          (fun r => Stream.smax (fin 0) (Stream.tnear r))); try assumption.
      * intros s r p. rewrite store_slot_fields. reflexivity.
      * reflexivity.
    + apply (padding_slot K HK flt Stream.k_tfar Stream.tfar); try assumption.
      * intros s r p. rewrite store_slot_fields. reflexivity.
      * reflexivity.
    + apply (padding_slot K HK bool Coherent.m_valid
                          (fun r => flt_leb (Stream.smax (fin 0) (Stream.tnear r))
                                            (Stream.tfar r))); try assumption.
      * apply m_valid_store.
      * apply m_valid_construct.
Qed.

Lemma AOStoSOA_valid_slots_witness :
  Stream.slot 4 Coherent.m_valid
              (fst (Stream.AOStoSOA 4 [Stream.blank]
                                    [Stream.ray_behind; Stream.ray_ahead] 2)) 1
  = Some true
  /\ Stream.slot 4 Coherent.m_valid
                 (fst (Stream.AOStoSOA 4 [Stream.blank]
                                       [Stream.ray_behind; Stream.ray_ahead] 2)) 3
     = Some false.
Proof.
  assert (HK : (0 < 4)%nat) by (repeat constructor).
  assert (Hlen : ((2 + 4 - 1) / 4 <= length [Stream.blank])%nat) by (vm_compute; apply le_n).
  destruct (AOStoSOA_valid_slots 4 [Stream.blank] [Stream.ray_behind; Stream.ray_ahead] 2
                                 HK Hlen) as [Hin Hpad].
  split.
  - apply (Hin 1%nat Stream.ray_ahead); [repeat constructor|reflexivity].
  - apply (Hpad 3%nat); [repeat constructor|vm_compute; repeat constructor].
Defined.

(** ** Repacking: the returned octant mask *)

Lemma sign_fmin (a : flt) (d : Z) :
  flt_ltb (fmin a (fin d)) (fin 0) = flt_ltb a (fin 0) || (d <? 0).
Proof. flt_cases. Qed.

Lemma sign_fmax (a : flt) (d : Z) :
  flt_ltb (fmax a (fin d)) (fin 0) = flt_ltb a (fin 0) && (d <? 0).
Proof. flt_cases. Qed.

Lemma copy_loop_signs (K : nat) (rays : list Stream.Ray) (i : nat) (rayK : list Stream.RayK)
      (mn mx : flt * flt * flt) :
  let '(_, mn', mx') := Stream.copy_loop K i rays (rayK, mn, mx) in
  let neg := fun (axis : Stream.Ray -> Z) (r : Stream.Ray) => axis r <? 0 in
  (flt_ltb (fst (fst mn')) (fin 0) = flt_ltb (fst (fst mn)) (fin 0) || existsb (neg dir_x) rays
   /\ flt_ltb (snd (fst mn')) (fin 0) = flt_ltb (snd (fst mn)) (fin 0) || existsb (neg dir_y) rays
   /\ flt_ltb (snd mn') (fin 0) = flt_ltb (snd mn) (fin 0) || existsb (neg dir_z) rays)
  /\ (flt_ltb (fst (fst mx')) (fin 0) = flt_ltb (fst (fst mx)) (fin 0) && forallb (neg dir_x) rays
      /\ flt_ltb (snd (fst mx')) (fin 0)
         = flt_ltb (snd (fst mx)) (fin 0) && forallb (neg dir_y) rays
      /\ flt_ltb (snd mx') (fin 0) = flt_ltb (snd mx) (fin 0) && forallb (neg dir_z) rays).
Proof.
  revert i rayK mn mx. induction rays as [|r rays IH]; intros i rayK mn mx.
  - cbn [Stream.copy_loop existsb forallb]. rewrite !orb_false_r, !andb_true_r. tauto.
  - cbn [Stream.copy_loop existsb forallb].
    specialize (IH (S i) (Stream.copy_ray K i r rayK)
                   (Stream.dir_min mn (Stream.dir r)) (Stream.dir_max mx (Stream.dir r))).
    destruct (Stream.copy_loop K (S i) rays _) as [[rk mn'] mx'].
    destruct IH as [(A1 & A2 & A3) (B1 & B2 & B3)].
    rewrite A1, A2, A3, B1, B2, B3.
    destruct mn as [[a b] c], mx as [[a' b'] c'].
    unfold dir_x, dir_y, dir_z. destruct (Stream.dir r) as [[dx dy] dz].
    cbn [Stream.dir_min Stream.dir_max fst snd].
    rewrite !sign_fmin, !sign_fmax, !orb_assoc, !andb_assoc. tauto.
Qed.

Lemma xorb_mixed {A : Type} (p : A -> bool) (ds : list A) :
  ds <> [] ->
  (xorb (existsb p ds) (forallb p ds) = true
   <-> (exists d, In d ds /\ p d = true) /\ (exists d, In d ds /\ p d = false)).
Proof.
  intros Hne. split.
  - intros H. destruct (existsb p ds) eqn:E1, (forallb p ds) eqn:E2; try discriminate.
    + apply existsb_exists in E1. split; [exact E1|].
      assert (E3 : existsb (fun d => negb (p d)) ds = true).
      { clear -E2. induction ds as [|d ds IH]; [discriminate|]. cbn [forallb existsb] in *.
        destruct (p d); cbn [negb andb orb] in *; [apply IH, E2|reflexivity]. }
      apply existsb_exists in E3. destruct E3 as (d & Hd & Hp). exists d.
      split; [exact Hd|]. apply negb_true_iff. exact Hp.
    + exfalso. destruct ds as [|d ds]; [contradiction|].
      cbn [forallb existsb] in *. destruct (p d); cbn in *; discriminate.
  - intros [(d & Hd & Hp) (d' & Hd' & Hp')].
    assert (E1 : existsb p ds = true) by (apply existsb_exists; exists d; tauto).
    assert (E2 : forallb p ds = false).
    { destruct (forallb p ds) eqn:E; [|reflexivity].
      rewrite forallb_forall in E. rewrite (E d' Hd') in Hp'. discriminate. }
    rewrite E1, E2. reflexivity.
Qed.

Lemma octant_bits (a b c a' b' c' : bool) :
  let m := Z.land (Z.lxor (Z.b2z a + 2 * Z.b2z b + 4 * Z.b2z c)
                          (Z.b2z a' + 2 * Z.b2z b' + 4 * Z.b2z c')) 7 in
  Z.testbit m 0 = xorb a a' /\ Z.testbit m 1 = xorb b b' /\ Z.testbit m 2 = xorb c c'
  /\ 0 <= m <= 7.
Proof.
  destruct a, b, c, a', b', c'; cbn; repeat split; try discriminate; reflexivity.
Qed.

(** The value [AOStoSOA] returns: bit 0, 1, 2 is set exactly when the
    directions of the rays copied mix signs along x, y, z (some component
    negative, some not), so that 0 means all rays lie in one octant; without
    any ray the running minimum stays [+inf] and the maximum [-inf], and the
    value is 7. *)
Theorem AOStoSOA_octant_mask (K : nat) (rayK : list Stream.RayK) (rays : list Stream.Ray)
        (n : nat) :
  let rs := firstn n rays in
  let m := snd (Stream.AOStoSOA K rayK rays n) in
  0 <= m <= 7
  /\ (rs = [] -> m = 7)
  /\ (rs <> [] ->
      (Z.testbit m 0 = true <-> mixed_signs dir_x rs)
      /\ (Z.testbit m 1 = true <-> mixed_signs dir_y rs)
      /\ (Z.testbit m 2 = true <-> mixed_signs dir_z rs)).
Proof.
  intros rs m. unfold m, Stream.AOStoSOA. fold rs.
  pose proof (copy_loop_signs K rs 0 (Stream.construct_packets K ((n + K - 1) / K) rayK)
                              (pos_inf, pos_inf, pos_inf) (neg_inf, neg_inf, neg_inf)) as H.
  destruct (Stream.copy_loop K 0 rs _) as [[rk [[a b] c]] [[a' b'] c']].
  cbn [snd fst Stream.sign_mask] in *. cbv zeta in H.
  destruct H as [(A1 & A2 & A3) (B1 & B2 & B3)].
  change (flt_ltb pos_inf (fin 0)) with false in *.
  change (flt_ltb neg_inf (fin 0)) with true in *.
  cbn [orb andb] in *.
  destruct (octant_bits (flt_ltb a (fin 0)) (flt_ltb b (fin 0)) (flt_ltb c (fin 0))
                        (flt_ltb a' (fin 0)) (flt_ltb b' (fin 0)) (flt_ltb c' (fin 0)))
    as (E0 & E1 & E2 & Hrange).
  split; [exact Hrange|]. split.
  - intros Hrs. rewrite A1, A2, A3, B1, B2, B3, Hrs. reflexivity.
  - intros Hne.
    assert (Hax : forall axis,
               xorb (existsb (fun r => axis r <? 0) rs) (forallb (fun r => axis r <? 0) rs)
               = true <-> mixed_signs axis rs).
    { intros axis. rewrite (xorb_mixed _ rs Hne). unfold mixed_signs.
      split; intros [(r & Hr & Hp) (r' & Hr' & Hp')].
      - split; [exists r|exists r']; (split; [assumption|]).
        + apply Z.ltb_lt, Hp.
        + apply Z.ltb_ge, Hp'.
      - split; [exists r|exists r']; (split; [assumption|]).
        + apply Z.ltb_lt, Hp.
        + apply Z.ltb_ge, Hp'. }
    rewrite E0, E1, E2, A1, A2, A3, B1, B2, B3.
    split; [apply Hax|]. split; apply Hax.
Qed.

Lemma AOStoSOA_octant_mask_witness :
  Z.testbit (snd (Stream.AOStoSOA 4 [Stream.blank] [Stream.ray_behind; Stream.ray_ahead] 2)) 2
  = true
  <-> mixed_signs dir_z [Stream.ray_behind; Stream.ray_ahead].
Proof.
  assert (Hne : firstn 2 [Stream.ray_behind; Stream.ray_ahead] <> []) by discriminate.
  exact (proj2 (proj2 (proj2 (proj2
           (AOStoSOA_octant_mask 4 [Stream.blank] [Stream.ray_behind; Stream.ray_ahead] 2))
                              Hne))).
Defined.

(** ** Writing hits back to the caller's rays *)

Section WriteBack.
Import Stream Coherent.
Variable occlusion : bool.
Variable K : nat.
Variable rayK : list RayHitK.

Lemma set_geomID_same (r : RayHit) : Coherent.set_geomID r (geomID (base r)) = r.
Proof. destruct r as [[] ? ? ?]. reflexivity. Qed.

Lemma write_back_frame (i : nat) (r r' : RayHit) :
  write_back occlusion K rayK i r = Some r' ->
  inputs r' = inputs r
  /\ (occlusion = true -> r' = Coherent.set_geomID r (geomID (base r'))).
Proof.
  unfold write_back. destruct (nth_error rayK (i / K)) as [p|]; [|discriminate].
  destruct (nth_error (k_geomID (kbase p)) (i mod K)) as [g|]; [|discriminate].
  destruct (negb (as_unsigned g =? RTC_INVALID_GEOMETRY_ID)).
  - destruct occlusion.
    + intros H. injection H as <-. split; [reflexivity|]. intros _. reflexivity.
    + unfold read_hit.
      destruct (nth_error (k_tfar (kbase p)) (i mod K)); [|discriminate].
      destruct (nth_error (k_Ng_x p) (i mod K)); [|discriminate].
      destruct (nth_error (k_Ng_y p) (i mod K)); [|discriminate].
      destruct (nth_error (k_Ng_z p) (i mod K)); [|discriminate].
      destruct (nth_error (k_u p) (i mod K)); [|discriminate].
      destruct (nth_error (k_v p) (i mod K)); [|discriminate].
      destruct (nth_error (k_geomID (kbase p)) (i mod K)); [|discriminate].
      destruct (nth_error (k_primID (kbase p)) (i mod K)); [|discriminate].
      destruct (nth_error (k_instID (kbase p)) (i mod K)); [|discriminate].
      intros H. injection H as <-. split; [reflexivity|discriminate].
  - intros H. injection H as <-. split; [reflexivity|].
    intros _. symmetry. apply set_geomID_same.
Qed.

Lemma loop_frame (ptrs : list nat) (i : nat) (st st' : Store) :
  SOAtoAOS_loop occlusion K rayK ptrs i st = Some st' ->
  forall a, inputs (st' a) = inputs (st a)
            /\ (~ In a ptrs -> st' a = st a)
            /\ (occlusion = true ->
                st' a = Coherent.set_geomID (st a) (geomID (base (st' a)))).
Proof.
  revert i st. induction ptrs as [|p rest IH]; intros i st H a.
  - cbn in H. injection H as <-. split; [reflexivity|]. split; [reflexivity|].
    intros _. symmetry. apply set_geomID_same.
  - cbn [SOAtoAOS_loop] in H.
    destruct (write_back occlusion K rayK i (st p)) as [r'|] eqn:Ew; [|discriminate].
    destruct (write_back_frame i (st p) r' Ew) as [Hin Hocc].
    destruct (IH _ _ H a) as (H1 & H2 & H3). unfold store_at in H1, H2, H3.
    destruct (Nat.eqb_spec a p) as [->|Hne].
    + split; [rewrite H1; exact Hin|]. split; [intros Hn; exfalso; apply Hn; left; reflexivity|].
      intros Ho. rewrite (H3 Ho) at 1. rewrite (Hocc Ho). reflexivity.
    + split; [exact H1|]. split; [|exact H3].
      intros Hn. apply H2. intros Hr. apply Hn. right. exact Hr.
Qed.

Lemma loop_each (ptrs : list nat) (i0 : nat) (st st' : Store) :
  NoDup ptrs ->
  SOAtoAOS_loop occlusion K rayK ptrs i0 st = Some st' ->
  forall j p, nth_error ptrs j = Some p ->
              write_back occlusion K rayK (i0 + j) (st p) = Some (st' p).
Proof.
  revert i0 st. induction ptrs as [|p0 rest IH]; intros i0 st Hnd H j p Hj;
    [destruct j; discriminate|].
  cbn [SOAtoAOS_loop] in H. inversion Hnd as [|? ? Hnotin Hnd']; subst.
  destruct (write_back occlusion K rayK i0 (st p0)) as [r'|] eqn:Ew; [|discriminate].
  destruct j as [|j]; cbn [nth_error] in Hj.
  - injection Hj as <-. rewrite Nat.add_0_r, Ew. f_equal.
    destruct (loop_frame rest (S i0) _ st' H p0) as (_ & H2 & _).
    rewrite (H2 Hnotin). unfold store_at. rewrite Nat.eqb_refl. reflexivity.
  - replace (i0 + S j)%nat with (S i0 + j)%nat by lia.
    rewrite <- (IH (S i0) _ Hnd' H j p Hj). unfold store_at.
    destruct (Nat.eqb_spec p p0) as [->|Hne]; [|reflexivity].
    exfalso. apply Hnotin. apply (nth_error_In _ _ Hj).
Qed.

Lemma nth_error_lt {A : Type} (ls : list A) (s : nat) :
  (s < length ls)%nat -> exists x, nth_error ls s = Some x.
Proof.
  intros H. destruct (nth_error ls s) as [x|] eqn:E; [exists x; reflexivity|].
  apply nth_error_None in E. lia.
Qed.

Lemma write_back_total (np i : nat) (r : RayHit) :
  (0 < K)%nat -> packets_sized K np rayK -> (i / K < np)%nat ->
  exists r', write_back occlusion K rayK i r = Some r'.
Proof.
  intros HK [Hlen Hs] Hi. unfold write_back.
  destruct (nth_error_lt rayK (i / K)) as [p Hp]; [lia|]. rewrite Hp.
  destruct (Hs _ p Hi Hp) as (L1 & L2 & L3 & L4 & L5 & L6 & L7 & L8 & L9).
  assert (Hm : (i mod K < K)%nat) by (apply Nat.mod_upper_bound; lia).
  destruct (nth_error_lt (k_geomID (kbase p)) (i mod K)) as [g Hg]; [lia|]. rewrite Hg.
  destruct (negb (as_unsigned g =? RTC_INVALID_GEOMETRY_ID)); [|eauto].
  destruct occlusion; [eauto|]. unfold read_hit. rewrite Hg.
  destruct (nth_error_lt (k_tfar (kbase p)) (i mod K)) as [x1 ->]; [lia|].
  destruct (nth_error_lt (k_Ng_x p) (i mod K)) as [x2 ->]; [lia|].
  destruct (nth_error_lt (k_Ng_y p) (i mod K)) as [x3 ->]; [lia|].
  destruct (nth_error_lt (k_Ng_z p) (i mod K)) as [x4 ->]; [lia|].
  destruct (nth_error_lt (k_u p) (i mod K)) as [x5 ->]; [lia|].
  destruct (nth_error_lt (k_v p) (i mod K)) as [x6 ->]; [lia|].
  destruct (nth_error_lt (k_primID (kbase p)) (i mod K)) as [x8 ->]; [lia|].
  destruct (nth_error_lt (k_instID (kbase p)) (i mod K)) as [x9 ->]; [lia|].
  eauto.
Qed.

Lemma loop_total (np : nat) (ptrs : list nat) (i0 : nat) (st : Store) :
  (0 < K)%nat -> packets_sized K np rayK ->
  (forall i, (i < i0 + length ptrs)%nat -> (i / K < np)%nat) ->
  exists st', SOAtoAOS_loop occlusion K rayK ptrs i0 st = Some st'.
Proof.
  intros HK Hs. revert i0 st. induction ptrs as [|p rest IH]; intros i0 st Hi;
    [exists st; reflexivity|].
  cbn [SOAtoAOS_loop]. cbn [length] in Hi.
  destruct (write_back_total np i0 (st p) HK Hs) as [r' Hr]; [apply Hi; lia|].
  rewrite Hr. apply IH. intros i Hlt. apply Hi. lia.
Qed.
End WriteBack.

(** [SOAtoAOS] never writes the fields a caller sets: whatever the packets
    hold, every ray in the store keeps its origin, direction, [tnear] (so the
    clamp [AOStoSOA] applied to the packet copy does not reach the caller),
    time and mask; a ray that none of the first [numTotalRays] pointers names
    is not written at all; and with [occlusion] set nothing but [geomID]
    changes. *)
Theorem SOAtoAOS_frame (occlusion : bool) (K : nat) (inputRays : list nat)
        (rayK : list Coherent.RayHitK) (n : nat) (st st' : Coherent.Store) :
  Coherent.SOAtoAOS occlusion K inputRays rayK n st = Some st' ->
  forall a,
    Coherent.inputs (st' a) = Coherent.inputs (st a)
    /\ (~ In a (firstn n inputRays) -> st' a = st a)
    /\ (occlusion = true ->
        st' a = Coherent.set_geomID (st a) (Stream.geomID (Coherent.base (st' a)))).
Proof.
  unfold Coherent.SOAtoAOS. destruct (n <=? length inputRays)%nat; [|discriminate].
  apply loop_frame.
Qed.

Lemma SOAtoAOS_frame_witness :
  match Coherent.SOAtoAOS false 2 [0%nat; 1%nat] [Coherent.two_slots] 2
                          (fun _ => Coherent.caller_ray) with
  | Some st' => Stream.tnear (Coherent.base (st' 0%nat)) = fin (-5) /\ st' 5%nat = Coherent.caller_ray
  | None => False
  end.
Proof.
  destruct (Coherent.SOAtoAOS false 2 [0%nat; 1%nat] [Coherent.two_slots] 2
                              (fun _ => Coherent.caller_ray)) as [st'|] eqn:E.
  - pose proof (SOAtoAOS_frame false 2 [0%nat; 1%nat] [Coherent.two_slots] 2
                               (fun _ => Coherent.caller_ray) st' E) as H.
    split.
    + destruct (H 0%nat) as (H1 & _). unfold Coherent.inputs in H1.
      injection H1 as _ _ H3 _ _. exact H3.
    + destruct (H 5%nat) as (_ & H2 & _). apply H2. cbn. intros [X|[X|[]]]; discriminate.
  - vm_compute in E. discriminate E.
Defined.

(** What [SOAtoAOS] writes: if the pointers of the first [numTotalRays]
    entries are pairwise distinct and the packets hold the [ceil(n/K)]
    packets of [K] slots that the indices [i/K], [i%K] address, the call
    makes no out-of-range read, and the ray of entry [i] ends as the loop
    body leaves it when run once on its value at entry: untouched if
    [geomID] of slot [i % K] of packet [i / K] is [RTC_INVALID_GEOMETRY_ID],
    with that slot's hit fields otherwise. *)
Theorem SOAtoAOS_writes_back (occlusion : bool) (K : nat) (inputRays : list nat)
        (rayK : list Coherent.RayHitK) (n : nat) (st : Coherent.Store) :
  (0 < K)%nat ->
  (n <= length inputRays)%nat ->
  Coherent.packets_sized K ((n + K - 1) / K) rayK ->
  NoDup (firstn n inputRays) ->
  exists st',
    Coherent.SOAtoAOS occlusion K inputRays rayK n st = Some st'
    /\ forall i p, (i < n)%nat -> nth_error inputRays i = Some p ->
                   Coherent.write_back occlusion K rayK i (st p) = Some (st' p).
Proof.
  intros HK Hn Hs Hnd. unfold Coherent.SOAtoAOS.
  apply Nat.leb_le in Hn. rewrite Hn. apply Nat.leb_le in Hn.
  destruct (loop_total occlusion K rayK ((n + K - 1) / K) (firstn n inputRays) 0 st HK Hs)
    as [st' Hst'].
  { intros i Hi. cbn [Nat.add] in Hi. rewrite length_firstn in Hi.
    apply Nat.Div0.div_lt_upper_bound.
    pose proof (Nat.div_mod_eq (n + K - 1) K) as Hdm.
    pose proof (Nat.mod_upper_bound (n + K - 1) K). nia. }
  exists st'. split; [exact Hst'|]. intros i p Hi Hp.
  apply (loop_each occlusion K rayK (firstn n inputRays) 0 st st' Hnd Hst' i p).
  rewrite nth_error_firstn. apply Nat.ltb_lt in Hi. rewrite Hi. exact Hp.
Qed.

Lemma SOAtoAOS_writes_back_witness :
  exists st',
    Coherent.SOAtoAOS false 2 [0%nat; 1%nat] [Coherent.two_slots] 2
                      (fun _ => Coherent.caller_ray) = Some st'
    /\ Stream.tfar (Coherent.base (st' 0%nat)) = fin 7
    /\ st' 1%nat = Coherent.caller_ray.
Proof.
  assert (HK : (0 < 2)%nat) by (repeat constructor).
  assert (Hn : (2 <= length [0%nat; 1%nat])%nat) by (repeat constructor).
  assert (Hs : Coherent.packets_sized 2 ((2 + 2 - 1) / 2) [Coherent.two_slots]).
  { split; [vm_compute; repeat constructor|].
    intros q p Hq Hp. destruct q as [|[|q]]; cbn in Hp; try discriminate.
    injection Hp as <-. repeat split. }
  assert (Hnd : NoDup (firstn 2 [0%nat; 1%nat])).
  { cbn. repeat constructor; cbn; intros H; repeat destruct H as [H|H]; try discriminate;
      contradiction. }
  destruct (SOAtoAOS_writes_back false 2 [0%nat; 1%nat] [Coherent.two_slots] 2
                                 (fun _ => Coherent.caller_ray) HK Hn Hs Hnd)
    as (st' & E & H).
  exists st'. split; [exact E|]. split.
  - pose proof (H 0%nat 0%nat (Nat.lt_0_succ 1) eq_refl) as H0.
    vm_compute in H0. injection H0 as <-. reflexivity.
  - pose proof (H 1%nat 1%nat (Nat.lt_succ_diag_r 1) eq_refl) as H1.
    vm_compute in H1. injection H1 as <-. reflexivity.
Defined.

Lemma hybrid_empty_root_returns_witness :
  intersect (sample_config 1) facet_kernels 3 lanes01 emptyNode facing_rays
  = Some (inr facing_rays)
  /\ occluded (sample_config 1) facet_kernels 3 lanes01 emptyNode facing_rays
     = Some (inr facing_rays).
Proof.
  apply (hybrid_empty_root_returns (sample_config 1) facet_kernels).
  - intros valid pre r. reflexivity.
  - intros valid pre r. reflexivity.
  - intros i pre r tr tf. reflexivity.
  - intros i pre r tr tf. destruct i; reflexivity.
Defined.

(** ** Octant chunks of the incoherent stream path *)

Section OctantChunks.
Import Octant.
Variable MAXR : Z.
Hypothesis HMAXR : 0 < MAXR <= 64.

Lemma wrap_small (x : Z) : 0 <= x < 2 ^ 64 -> wrap x = x.
Proof. intros H. unfold wrap. apply Z.mod_small. exact H. Qed.

Lemma m_active_ones (k : Z) : 1 <= k <= 64 -> m_active k = Z.ones k /\ m_active k <> 0.
Proof.
  intros Hk. unfold m_active. destruct (Z.eqb_spec k 64) as [->|Hne].
  - split; [reflexivity|discriminate].
  - assert (Hlt : 2 ^ k < 2 ^ 64) by (apply Z.pow_lt_mono_r; lia).
    assert (Hpos : 2 <= 2 ^ k).
    { change 2 with (2 ^ 1) at 1. apply Z.pow_le_mono_r; lia. }
    rewrite Z.shiftl_1_l, (wrap_small (2 ^ k)) by lia.
    rewrite wrap_small by lia. rewrite Z.ones_equiv. split; lia.
Qed.

Lemma octants_done (b : bool) (fuel : nat) (r n : Z) :
  n <= r -> octants b MAXR fuel r n = [].
Proof.
  intros H. destruct fuel as [|fuel]; [reflexivity|]. cbn [octants].
  destruct (Z.ltb_spec r n); [lia|reflexivity].
Qed.

Lemma octants_tiles (b : bool) (fuel : nat) (r n : Z) :
  0 <= r <= n -> n + MAXR < 2 ^ 64 -> n - r <= MAXR * Z.of_nat fuel ->
  tiles MAXR r (octants b MAXR fuel r n) n.
Proof.
  revert r. induction fuel as [|fuel IH]; intros r Hr Hn Hfuel.
  - cbn. lia.
  - cbn [octants]. destruct (Z.ltb_spec r n) as [Hlt|Hge]; [|cbn; lia].
    unfold numOctantRays. rewrite (wrap_small (r + MAXR)) by lia.
    destruct (Z.geb_spec (r + MAXR) n) as [Hlast|Hmore].
    + rewrite (wrap_small (n - r)) by lia.
      destruct (m_active_ones (n - r)) as [Hm Hm0]; [lia|].
      apply Z.eqb_neq in Hm0. rewrite Hm0.
      rewrite octants_done by lia. cbn [tiles].
      split; [reflexivity|]. split; [lia|]. split; [exact Hm|].
      split; [intros H; contradiction|lia].
    + destruct (m_active_ones MAXR) as [Hm Hm0]; [lia|].
      apply Z.eqb_neq in Hm0. rewrite Hm0. cbn [tiles].
      split; [reflexivity|]. split; [lia|]. split; [exact Hm|].
      split; [reflexivity|]. apply IH; lia.
Qed.
End OctantChunks.

(** The loop [for (r = 0; r < numTotalRays; r += MAX_RAYS_PER_OCTANT)] of
    the incoherent [intersect] and [occluded] cuts the rays into consecutive
    chunks that cover [0, numTotalRays) exactly; every chunk holds between 1
    and [MAX_RAYS_PER_OCTANT] rays (so the per-ray arrays of that size are
    indexed in bounds), only the last may hold fewer, and [m_active] has
    exactly the low [numOctantRays] bits set.  Hence [m_active] is never 0:
    the [return] of [intersect] and the [continue] of [occluded] on
    [m_active == 0] are never taken, and both loops form the same chunks. *)
Theorem octant_chunks_cover (MAXR : Z) (fuel : nat) (numTotalRays : Z) :
  0 < MAXR <= 64 ->
  0 <= numTotalRays ->
  numTotalRays + MAXR < 2 ^ 64 ->
  numTotalRays <= MAXR * Z.of_nat fuel ->
  Octant.tiles MAXR 0 (Octant.octants true MAXR fuel 0 numTotalRays) numTotalRays
  /\ Octant.octants false MAXR fuel 0 numTotalRays
     = Octant.octants true MAXR fuel 0 numTotalRays.
Proof.
  intros HM Hn Hov Hfuel. split; [apply octants_tiles; lia|].
  assert (Hgen : forall f r, 0 <= r ->
                             Octant.octants false MAXR f r numTotalRays
                             = Octant.octants true MAXR f r numTotalRays).
  { induction f as [|f IH]; intros r Hr; [reflexivity|]. cbn [Octant.octants].
    destruct (Z.ltb_spec r numTotalRays) as [Hlt|Hge]; [|reflexivity].
    assert (Hw : Octant.wrap (r + MAXR) = r + MAXR) by (apply wrap_small; lia).
    assert (Hk : 1 <= Octant.numOctantRays MAXR r numTotalRays <= 64).
    { unfold Octant.numOctantRays. rewrite Hw.
      destruct (Z.geb_spec (r + MAXR) numTotalRays); [rewrite wrap_small; lia|lia]. }
    destruct (m_active_ones _ Hk) as [_ Hm0]. apply Z.eqb_neq in Hm0. rewrite Hm0.
    rewrite Hw. f_equal. apply IH. lia. }
  apply Hgen. lia.
Qed.

Lemma octant_chunks_cover_witness :
  Octant.tiles 32 0 (Octant.octants true 32 3 0 70) 70
  /\ Octant.octants false 32 3 0 70 = Octant.octants true 32 3 0 70.
Proof. apply (octant_chunks_cover 32 3 70); lia. Defined.

(** ** Bit scans *)

Lemma odd_part (p : positive) :
  exists k t, 0 <= k /\ 0 <= t /\ Zpos p = Z.shiftl (2 * t + 1) k.
Proof.
  induction p as [q IH|q IH|].
  - exists 0, (Zpos q). repeat split; try lia.
  - destruct IH as (k & t & Hk & Ht & E). exists (k + 1), t. repeat split; try lia.
    rewrite Z.shiftl_mul_pow2 in * by lia. rewrite Z.pow_add_r by lia. lia.
  - exists 0, 0. repeat split; lia.
Qed.

Lemma land_odd_neg (t : Z) : Z.land (2 * t + 1) (- (2 * t + 1)) = 1.
Proof.
  apply Z.bits_inj'. intros n Hn.
  replace (- (2 * t + 1)) with (2 * (Z.lnot t) + 1) by (unfold Z.lnot; lia).
  rewrite Z.land_spec.
  destruct (Z.eq_dec n 0) as [->|Hne].
  - rewrite !Z.testbit_odd_0. reflexivity.
  - replace n with (Z.succ (n - 1)) by lia.
    rewrite !Z.testbit_odd_succ by lia.
    rewrite Z.lnot_spec by lia. rewrite andb_negb_r.
    change 1 with (2 * 0 + 1). rewrite Z.testbit_odd_succ by lia.
    symmetry. apply Z.testbit_0_l.
Qed.

(** [__bsf] of a non-zero mask is the position of its lowest set bit. *)
Lemma bsf_spec (x : Z) :
  0 < x ->
  0 <= bsf x /\ Z.testbit x (bsf x) = true
  /\ forall j, 0 <= j < bsf x -> Z.testbit x j = false.
Proof.
  intros Hx. destruct x as [|p|p]; try lia.
  destruct (odd_part p) as (k & t & Hk & Ht & E).
  assert (Hb : bsf (Zpos p) = k).
  { unfold bsf. rewrite E.
    replace (- Z.shiftl (2 * t + 1) k) with (Z.shiftl (- (2 * t + 1)) k)
      by (rewrite !Z.shiftl_mul_pow2 by lia; lia).
    rewrite <- Z.shiftl_land, land_odd_neg, Z.shiftl_1_l. apply Z.log2_pow2. exact Hk. }
  rewrite Hb, E. split; [exact Hk|]. split.
  - rewrite Z.shiftl_spec by lia. rewrite Z.sub_diag. apply Z.testbit_odd_0.
  - intros j Hj. apply Z.shiftl_spec_low. lia.
Qed.

Lemma btc_spec (x i j : Z) :
  0 <= i -> 0 <= j -> Z.testbit (btc x i) j = xorb (Z.testbit x j) (j =? i).
Proof.
  intros Hi Hj. unfold btc. rewrite Z.lxor_spec. f_equal.
  rewrite Z.shiftl_spec by lia.
  destruct (Z.eqb_spec j i) as [->|Hne].
  - rewrite Z.sub_diag. reflexivity.
  - destruct (Z.ltb_spec j i).
    + apply Z.testbit_neg_r. lia.
    + replace (j - i) with (Z.succ (j - i - 1)) by lia.
      change 1 with (2 * 0 + 1). rewrite Z.testbit_odd_succ by lia. apply Z.testbit_0_l.
Qed.

Lemma mask_high_bits (m : Z) :
  0 <= m < 2 ^ 64 -> forall j, 64 <= j -> Z.testbit m j = false.
Proof.
  intros Hm j Hj. destruct (Z.eq_dec m 0) as [->|Hne]; [apply Z.testbit_0_l|].
  apply Z.bits_above_log2; [lia|]. apply Z.lt_le_trans with 64; [|exact Hj].
  apply Z.log2_lt_pow2; lia.
Qed.

Lemma bsf_below_64 (a : Z) :
  0 < a -> (forall j, 64 <= j -> Z.testbit a j = false) -> 0 <= bsf a < 64.
Proof.
  intros Ha Hhigh. destruct (bsf_spec a Ha) as (H0 & Hset & _).
  split; [exact H0|]. destruct (Z.ltb_spec (bsf a) 64) as [H|H]; [exact H|].
  rewrite (Hhigh _ H) in Hset. discriminate.
Qed.

(** ** The culling loop *)

Section Culling.
Import Masks.
Variable dist : flt.
Variable tfar : Z -> flt.

Lemma cull_steps (fuel : nat) (a p : Z) :
  0 < a ->
  (forall j, 64 <= j -> Z.testbit a j = false) ->
  (forall j, 0 <= j < p -> Z.testbit a j = false) ->
  0 <= p -> 64 <= Z.of_nat fuel + p ->
  match cull fuel dist tfar a a with
  | Some (Trav m') =>
      exists i, 0 <= i < 64 /\ Z.testbit a i = true /\ flt_leb dist (tfar i) = true
                /\ (forall j, 0 <= j < i -> Z.testbit a j = true ->
                              flt_leb dist (tfar j) = false)
                /\ (forall j, 0 <= j -> Z.testbit m' j = Z.testbit a j && (i <=? j))
  | Some PopNext => forall j, 0 <= j -> Z.testbit a j = true -> flt_leb dist (tfar j) = false
  | None => False
  end.
Proof.
  revert a p. induction fuel as [|fuel IH]; intros a p Ha Hhigh Hlow Hp Hfuel.
  - exfalso. destruct (bsf_spec a Ha) as (_ & Hset & _).
    pose proof (bsf_below_64 a Ha Hhigh) as Hb.
    rewrite Hlow in Hset by lia. discriminate.
  - cbn [cull bscf].
    destruct (bsf_spec a Ha) as (Hi0 & Hset & Hbelow).
    pose proof (bsf_below_64 a Ha Hhigh) as Hb.
    set (i := bsf a) in *.
    assert (Hpi : p <= i).
    { destruct (Z.le_gt_cases p i) as [H|H]; [exact H|].
      rewrite Hlow in Hset by lia. discriminate. }
    assert (Hbit : forall j, 0 <= j ->
                             Z.testbit (btc a i) j = Z.testbit a j && negb (j =? i)).
    { intros j Hj. rewrite btc_spec by lia.
      destruct (Z.eqb_spec j i) as [->|Hne]; [rewrite Hset; reflexivity|].
      rewrite xorb_false_r, andb_true_r. reflexivity. }
    destruct (flt_leb dist (tfar i)) eqn:Htest.
    + exists i. split; [exact Hb|]. split; [exact Hset|]. split; [exact Htest|]. split.
      * intros j Hj Hj1. rewrite Hbelow in Hj1 by exact Hj. discriminate.
      * intros j Hj. destruct (Z.leb_spec i j); [rewrite andb_true_r; reflexivity|].
        rewrite andb_false_r. apply Hbelow. lia.
    + destruct (Z.eqb_spec (btc a i) 0) as [Hz|Hnz].
      * intros j Hj Hj1. pose proof (Hbit j Hj) as Hb1.
        rewrite Hz, Z.testbit_0_l, Hj1 in Hb1.
        destruct (Z.eqb_spec j i) as [->|Hne]; [exact Htest|discriminate].
      * assert (Ha' : 0 < btc a i).
        { assert (0 <= btc a i) by (apply Z.lxor_nonneg; split; intros _;
                                    [apply Z.shiftl_nonneg|]; lia).
          lia. }
        assert (Hlow' : forall j, 0 <= j < i + 1 -> Z.testbit (btc a i) j = false).
        { intros j Hj. rewrite Hbit by lia.
          destruct (Z.eqb_spec j i) as [->|Hne]; [apply andb_false_r|].
          rewrite Hbelow by lia. reflexivity. }
        assert (Hhigh' : forall j, 64 <= j -> Z.testbit (btc a i) j = false).
        { intros j Hj. rewrite Hbit by lia. rewrite Hhigh by exact Hj. reflexivity. }
        specialize (IH (btc a i) (i + 1) Ha' Hhigh' Hlow' ltac:(lia) ltac:(lia)).
        destruct (cull fuel dist tfar (btc a i) (btc a i)) as [[m'|]|]; [| |exact IH].
        -- destruct IH as (i' & Hi' & Hset' & Htest' & Hculled & Hm').
           assert (Hgt : i < i').
           { destruct (Z.lt_ge_cases i i') as [H|H]; [exact H|].
             rewrite Hlow' in Hset' by lia. discriminate. }
           exists i'. split; [exact Hi'|]. split.
           { rewrite Hbit in Hset' by lia. apply andb_true_iff in Hset'. apply Hset'. }
           split; [exact Htest'|]. split.
           ++ intros j Hj Hj1. destruct (Z.eq_dec j i) as [->|Hne]; [exact Htest|].
              apply Hculled; [exact Hj|]. rewrite Hbit by lia. rewrite Hj1.
              apply Z.eqb_neq in Hne. rewrite Hne. reflexivity.
           ++ intros j Hj. rewrite Hm' by exact Hj. rewrite Hbit by exact Hj.
              destruct (Z.eqb_spec j i) as [->|Hne].
              ** destruct (Z.leb_spec i' i); [lia|]. rewrite !andb_false_r. reflexivity.
              ** rewrite andb_true_r. reflexivity.
        -- intros j Hj Hj1. destruct (Z.eq_dec j i) as [->|Hne]; [exact Htest|].
           apply IH; [exact Hj|]. rewrite Hbit by lia. rewrite Hj1.
           apply Z.eqb_neq in Hne. rewrite Hne. reflexivity.
Qed.
End Culling.

(** The culling loop of the incoherent [intersect], entered with a non-zero
    64-bit mask, ends within 64 passes.  It goes on to [trav] exactly when
    some active ray [i] has [dist <= tfar(i)]; [m_trav_active] is then the
    mask with the rays below the first such ray removed and nothing else:
    all removed rays fail the test, and the rays above the first survivor
    stay active whether they pass the test or not.  Otherwise every active
    ray fails the test and the next stack entry is popped. *)
Theorem culling_strips_leading_rays (dist : flt) (tfar : Z -> flt) (mask : Z) :
  0 < mask < 2 ^ 64 ->
  match Masks.culling dist tfar mask with
  | Some (Masks.Trav m') =>
      exists i, 0 <= i < 64 /\ Z.testbit mask i = true /\ flt_leb dist (tfar i) = true
                /\ (forall j, 0 <= j < i -> Z.testbit mask j = true ->
                              flt_leb dist (tfar j) = false)
                /\ (forall j, 0 <= j -> Z.testbit m' j = Z.testbit mask j && (i <=? j))
  | Some Masks.PopNext =>
      forall j, 0 <= j -> Z.testbit mask j = true -> flt_leb dist (tfar j) = false
  | None => False
  end.
Proof.
  intros Hm. unfold Masks.culling.
  apply (cull_steps dist tfar 64 mask 0); try lia.
  apply mask_high_bits. lia.
Qed.

Lemma culling_strips_leading_rays_witness :
  match Masks.culling (fin 10) near_hit_on_ray1 6 with
  | Some (Masks.Trav m') =>
      exists i, 0 <= i < 64 /\ Z.testbit 6 i = true
                /\ flt_leb (fin 10) (near_hit_on_ray1 i) = true
                /\ (forall j, 0 <= j < i -> Z.testbit 6 j = true ->
                              flt_leb (fin 10) (near_hit_on_ray1 j) = false)
                /\ (forall j, 0 <= j -> Z.testbit m' j = Z.testbit 6 j && (i <=? j))
  | Some Masks.PopNext =>
      forall j, 0 <= j -> Z.testbit 6 j = true ->
                flt_leb (fin 10) (near_hit_on_ray1 j) = false
  | None => False
  end.
Proof. apply (culling_strips_leading_rays (fin 10) near_hit_on_ray1 6). lia. Defined.

(** ** The leaf loops of the coherent path *)

Section PacketMasks.
Import Masks.
Variable K : Z.
Hypothesis HK : 0 < K < 64.
Hypothesis Hdiv : 64 mod K = 0.

Lemma wrap_bits (x j : Z) :
  0 <= j -> Z.testbit (Octant.wrap x) j = (j <? 64) && Z.testbit x j.
Proof.
  intros Hj. unfold Octant.wrap. destruct (Z.ltb_spec j 64).
  - rewrite Z.mod_pow2_bits_low by lia. reflexivity.
  - rewrite Z.mod_pow2_bits_high by lia. reflexivity.
Qed.

Lemma packet_bounds (i j : Z) : 0 <= j -> (j / K = i <-> i * K <= j < i * K + K).
Proof.
  intros Hj. split.
  - intros <-. pose proof (Z.div_mod j K ltac:(lia)).
    pose proof (Z.mod_pos_bound j K ltac:(lia)). lia.
  - intros H. symmetry. apply (Z.div_unique j K i (j - i * K)); lia.
Qed.

Lemma packet_in_mask (b : Z) : 0 <= b < 64 -> 0 <= b / K /\ b / K * K + K <= 64.
Proof.
  intros Hb. split; [apply Z.div_pos; lia|].
  assert (H64 : 64 = K * (64 / K)) by (apply Z.div_exact; lia).
  assert (Hlt : b / K < 64 / K).
  { apply Z.div_lt_upper_bound; [lia|]. rewrite <- H64. lia. }
  nia.
Qed.

Lemma m_isec_bits (i j : Z) :
  0 <= i -> i * K + K <= 64 -> 0 <= j ->
  Z.testbit (m_isec K i) j = (i * K <=? j) && (j <? i * K + K).
Proof.
  intros Hi Hfit Hj. unfold m_isec.
  assert (Hpow : 2 ^ K < 2 ^ 64) by (apply Z.pow_lt_mono_r; lia).
  assert (Hpos : 0 < 2 ^ K) by (apply Z.pow_pos_nonneg; lia).
  rewrite Z.shiftl_1_l, (wrap_small (2 ^ K)) by lia.
  rewrite (wrap_small (2 ^ K - 1)) by lia.
  replace (2 ^ K - 1) with (Z.ones K) by (rewrite Z.ones_equiv; lia).
  rewrite wrap_bits by exact Hj. rewrite Z.shiftl_spec by exact Hj.
  destruct (Z.leb_spec (i * K) j) as [Hle|Hgt].
  - rewrite Z.testbit_ones_nonneg by lia.
    destruct (Z.ltb_spec (j - i * K) K), (Z.ltb_spec j (i * K + K)), (Z.ltb_spec j 64);
      try reflexivity; lia.
  - rewrite Z.testbit_neg_r by lia. apply andb_false_r.
Qed.

Lemma clear_bits (bits m j : Z) :
  (forall k, 64 <= k -> Z.testbit bits k = false) -> 0 <= j ->
  Z.testbit (clear bits m) j = Z.testbit bits j && negb (Z.testbit m j).
Proof.
  intros Hhigh Hj. unfold clear. rewrite Z.land_spec, wrap_bits, Z.lnot_spec by exact Hj.
  destruct (Z.ltb_spec j 64); [reflexivity|]. rewrite Hhigh by lia. reflexivity.
Qed.

Lemma clear_packet (bits i j : Z) :
  (forall k, 64 <= k -> Z.testbit bits k = false) ->
  0 <= i -> i * K + K <= 64 -> 0 <= j ->
  Z.testbit (clear bits (m_isec K i)) j
  = Z.testbit bits j && negb ((i * K <=? j) && (j <? i * K + K)).
Proof.
  intros Hhigh Hi Hfit Hj. rewrite clear_bits, m_isec_bits by assumption. reflexivity.
Qed.

Lemma first_packet (bits : Z) :
  0 < bits -> (forall k, 64 <= k -> Z.testbit bits k = false) ->
  let i := bsf bits / K in
  0 <= i /\ i * K + K <= 64
  /\ i * K <= bsf bits < i * K + K
  /\ Z.land (m_isec K i) bits <> 0
  /\ forall j, 0 <= j < i * K -> Z.testbit bits j = false.
Proof.
  intros Hb Hhigh i. destruct (bsf_spec bits Hb) as (H0 & Hset & Hbelow).
  pose proof (bsf_below_64 bits Hb Hhigh) as Hb64.
  destruct (packet_in_mask (bsf bits) Hb64) as [Hi Hfit]. fold i in Hi, Hfit.
  assert (Hin : i * K <= bsf bits < i * K + K) by (apply packet_bounds; [lia|reflexivity]).
  split; [exact Hi|]. split; [exact Hfit|]. split; [exact Hin|]. split.
  - intros E.
    assert (Hbit : Z.testbit (Z.land (m_isec K i) bits) (bsf bits) = true).
    { rewrite Z.land_spec, m_isec_bits, Hset by lia.
      destruct (Z.leb_spec (i * K) (bsf bits)), (Z.ltb_spec (bsf bits) (i * K + K));
        try reflexivity; lia. }
    rewrite E, Z.testbit_0_l in Hbit. discriminate.
  - intros j Hj. apply Hbelow. lia.
Qed.
End PacketMasks.

Section CoherentLeaf.
Import Masks.
Variable K : Z.
Hypothesis HK : 0 < K < 64.
Hypothesis Hdiv : 64 mod K = 0.

Lemma clear_positive (bits m : Z) : 0 < bits -> clear bits m <> 0 -> 0 < clear bits m.
Proof.
  intros Hb Hne. assert (0 <= clear bits m); [|lia].
  unfold clear. apply Z.land_nonneg. left. lia.
Qed.

Lemma leaf_packets_steps (fuel : nat) (bits p : Z) :
  0 < bits ->
  (forall k, 64 <= k -> Z.testbit bits k = false) ->
  (forall j, 0 <= j < p * K -> Z.testbit bits j = false) ->
  0 <= p -> 64 <= Z.of_nat fuel + p ->
  exists ps, leaf_packets fuel K bits = Some ps
             /\ ascending_from p ps
             /\ forall q, In q ps <-> packet_active K bits q.
Proof.
  revert bits p. induction fuel as [|fuel IH]; intros bits p Hb Hhigh Hlow Hp Hfuel.
  - exfalso. destruct (bsf_spec bits Hb) as (_ & Hset & _).
    pose proof (bsf_below_64 bits Hb Hhigh) as Hb64.
    rewrite Hlow in Hset by nia. discriminate.
  - cbn [leaf_packets].
    destruct (first_packet K HK Hdiv bits Hb Hhigh) as (Hi & Hfit & Hin & Hassert & Hbelow).
    destruct (bsf_spec bits Hb) as (_ & Hset & _).
    set (i := bsf bits / K) in *.
    assert (Hpi : p <= i).
    { destruct (Z.le_gt_cases p i) as [H|H]; [exact H|].
      rewrite Hlow in Hset by nia. discriminate. }
    apply Z.eqb_neq in Hassert. rewrite Hassert.
    assert (Hbits' : forall j, 0 <= j ->
               Z.testbit (clear bits (m_isec K i)) j
               = Z.testbit bits j && negb ((i * K <=? j) && (j <? i * K + K))).
    { intros j Hj. apply clear_packet; assumption. }
    assert (Hhere : packet_active K bits i).
    { exists (bsf bits). split; [lia|]. split; [exact Hset|]. apply packet_bounds; lia. }
    assert (Hsplit : forall q, packet_active K bits q
                               <-> q = i \/ packet_active K (clear bits (m_isec K i)) q).
    { intros q. split.
      - intros (j & Hj & Hbit & Hq). destruct (Z.eq_dec q i) as [->|Hne]; [left; reflexivity|].
        right. exists j. split; [exact Hj|]. split; [|exact Hq].
        rewrite Hbits', Hbit by exact Hj.
        destruct (Z.leb_spec (i * K) j), (Z.ltb_spec j (i * K + K)); try reflexivity.
        exfalso. apply Hne. rewrite <- Hq. apply packet_bounds; lia.
      - intros [->|(j & Hj & Hbit & Hq)]; [exact Hhere|].
        exists j. split; [exact Hj|]. split; [|exact Hq].
        rewrite Hbits' in Hbit by exact Hj. apply andb_true_iff in Hbit. apply Hbit. }
    destruct (Z.eqb_spec (clear bits (m_isec K i)) 0) as [Hz|Hnz].
    + exists [i]. split; [reflexivity|]. split; [cbn; lia|].
      intros q. rewrite Hsplit. cbn [In]. split.
      * intros [<-|[]]. left. reflexivity.
      * intros [->|(j & Hj & Hbit & _)]; [left; reflexivity|].
        rewrite Hz, Z.testbit_0_l in Hbit. discriminate.
    + destruct (IH (clear bits (m_isec K i)) (i + 1)) as (ps & Hps & Hasc & Hmem).
      * apply clear_positive; assumption.
      * intros k Hk. rewrite Hbits' by lia. rewrite Hhigh by exact Hk. reflexivity.
      * intros j Hj. rewrite Hbits' by lia.
        destruct (Z.leb_spec (i * K) j), (Z.ltb_spec j (i * K + K)); cbn [andb negb];
          try apply andb_false_r; try lia.
        rewrite Hbelow by lia. reflexivity.
      * lia.
      * lia.
      * rewrite Hps. exists (i :: ps). split; [reflexivity|]. split; [cbn; split; [lia|exact Hasc]|].
        intros q. rewrite Hsplit, <- Hmem. cbn [In]. split; intros [H|H]; auto.
Qed.
End CoherentLeaf.

(** The leaf loop of [intersectCoherentSOA], entered with a non-zero mask of
    at most 64 rays and a packet width [K] that divides 64, never fails its
    assertion [m_isec & bits] and ends; it hands a packet to [intersectK]
    exactly when the packet holds a ray of the mask, each such packet once,
    in increasing order of the packet index. *)
Theorem coherent_leaf_visits_active_packets (K bits : Z) :
  0 < K < 64 -> 64 mod K = 0 ->
  0 < bits < 2 ^ 64 ->
  exists ps, Masks.leaf_packets 64 K bits = Some ps
             /\ Masks.ascending_from 0 ps
             /\ forall q, In q ps <-> Masks.packet_active K bits q.
Proof.
  intros HK Hdiv Hb.
  apply (leaf_packets_steps K HK Hdiv 64 bits 0); try lia.
  apply mask_high_bits. lia.
Qed.

Lemma coherent_leaf_visits_active_packets_witness :
  exists ps, Masks.leaf_packets 64 4 4128 = Some ps
             /\ Masks.ascending_from 0 ps
             /\ forall q, In q ps <-> Masks.packet_active 4 4128 q.
Proof.
  apply (coherent_leaf_visits_active_packets 4 4128); [lia|reflexivity|lia].
Defined.

Section OccludedLeaf.
Import Masks.
Variable K : Z.
Hypothesis HK : 0 < K < 64.
Hypothesis Hdiv : 64 mod K = 0.
Variable hit : Z -> Z.
Hypothesis Hhit : forall i, 0 <= hit i < 2 ^ K.

Lemma packet_split (bits : Z) :
  0 < bits -> (forall k, 64 <= k -> Z.testbit bits k = false) ->
  forall q, packet_active K bits q
            <-> q = bsf bits / K
                \/ packet_active K (clear bits (m_isec K (bsf bits / K))) q.
Proof.
  intros Hb Hhigh q.
  destruct (first_packet K HK Hdiv bits Hb Hhigh) as (Hi & Hfit & Hin & _ & _).
  destruct (bsf_spec bits Hb) as (_ & Hset & _).
  set (i := bsf bits / K) in *. split.
  - intros (j & Hj & Hbit & Hq). destruct (Z.eq_dec q i) as [->|Hne]; [left; reflexivity|].
    right. exists j. split; [exact Hj|]. split; [|exact Hq].
    rewrite (clear_packet K HK) by assumption. rewrite Hbit.
    destruct (Z.leb_spec (i * K) j), (Z.ltb_spec j (i * K + K)); try reflexivity.
    exfalso. apply Hne. rewrite <- Hq. apply (packet_bounds K HK); lia.
  - intros [->|(j & Hj & Hbit & Hq)].
    + exists (bsf bits). split; [lia|]. split; [exact Hset|]. apply (packet_bounds K HK); lia.
    + exists j. split; [exact Hj|]. split; [|exact Hq].
      rewrite (clear_packet K HK) in Hbit by assumption.
      apply andb_true_iff in Hbit. apply Hbit.
Qed.

Lemma hit_bits (i j : Z) :
  0 <= i -> 0 <= j ->
  Z.testbit (Octant.wrap (Z.shiftl (hit i) (i * K))) j = true
  -> j / K = i /\ Z.testbit (hit i) (j mod K) = true.
Proof.
  intros Hi Hj H. rewrite (wrap_bits _ _ Hj) in H. apply andb_true_iff in H.
  destruct H as [_ H]. rewrite Z.shiftl_spec in H by exact Hj.
  destruct (Z.lt_ge_cases j (i * K)) as [Hlt|Hge];
    [rewrite Z.testbit_neg_r in H by lia; discriminate|].
  assert (Hk : j - i * K < K).
  { destruct (Z.lt_ge_cases (j - i * K) K) as [Hl|Hg]; [exact Hl|].
    destruct (Z.eq_dec (hit i) 0) as [E|E]; [rewrite E, Z.testbit_0_l in H; discriminate|].
    rewrite Z.bits_above_log2 in H; [discriminate|pose proof (Hhit i); lia|].
    apply Z.lt_le_trans with K; [|exact Hg].
    apply Z.log2_lt_pow2; pose proof (Hhit i); lia. }
  assert (Hq : j / K = i) by (apply (packet_bounds K HK); lia).
  split; [exact Hq|].
  replace (j mod K) with (j - i * K); [exact H|].
  pose proof (Z.div_mod j K ltac:(lia)). rewrite Hq in *. lia.
Qed.

Lemma hit_bits_set (i j : Z) :
  0 <= i -> i * K + K <= 64 -> 0 <= j -> j / K = i ->
  Z.testbit (hit i) (j mod K) = true ->
  Z.testbit (Octant.wrap (Z.shiftl (hit i) (i * K))) j = true.
Proof.
  intros Hi Hfit Hj Hq H. apply (packet_bounds K HK) in Hq; [|exact Hj].
  rewrite (wrap_bits _ _ Hj). rewrite Z.shiftl_spec by exact Hj.
  replace (j - i * K) with (j mod K).
  - rewrite H. destruct (Z.ltb_spec j 64); [reflexivity|lia].
  - symmetry. apply (Z.mod_unique j K i); lia.
Qed.

Lemma occluded_leaf_steps (fuel : nat) (bits m_active p : Z) :
  0 <= bits ->
  (forall k, 64 <= k -> Z.testbit bits k = false) ->
  (forall k, 64 <= k -> Z.testbit m_active k = false) ->
  (forall j, 0 <= j < p * K -> Z.testbit bits j = false) ->
  0 <= p <= 64 -> 65 <= Z.of_nat fuel + p ->
  exists m', occluded_leaf fuel K hit bits m_active = Some m'
             /\ forall j, 0 <= j ->
                  (Z.testbit m' j = true
                   <-> Z.testbit m_active j = true
                       /\ ~ (packet_active K bits (j / K)
                             /\ Z.testbit (hit (j / K)) (j mod K) = true)).
Proof.
  revert bits m_active p.
  induction fuel as [|fuel IH]; intros bits m_active p Hb Hhigh Hmhigh Hlow Hp Hfuel.
  - exfalso. cbn in Hfuel. lia.
  - cbn [occluded_leaf]. destruct (Z.eqb_spec bits 0) as [->|Hnz].
    + exists m_active. split; [reflexivity|]. intros j Hj. split.
      * intros H. split; [exact H|]. intros [(k & _ & Hbit & _) _].
        rewrite Z.testbit_0_l in Hbit. discriminate.
      * intros [H _]. exact H.
    + assert (Hpos : 0 < bits) by lia.
      destruct (first_packet K HK Hdiv bits Hpos Hhigh)
        as (Hi & Hfit & Hin & Hassert & Hbelow).
      destruct (bsf_spec bits Hpos) as (_ & Hset & _).
      pose proof (packet_split bits Hpos Hhigh) as Hsplit.
      set (i := bsf bits / K) in *.
      assert (Hpi : p <= i).
      { destruct (Z.le_gt_cases p i) as [H|H]; [exact H|].
        rewrite Hlow in Hset by nia. discriminate. }
      apply Z.eqb_neq in Hassert. rewrite Hassert.
      destruct (IH (clear bits (m_isec K i))
                   (clear m_active (Octant.wrap (Z.shiftl (hit i) (i * K)))) (i + 1))
        as (m' & Hm' & Hspec).
      * unfold clear. apply Z.land_nonneg. left. exact Hb.
      * intros k Hk. rewrite (clear_packet K HK) by (try assumption; lia).
        rewrite Hhigh by exact Hk. reflexivity.
      * intros k Hk. rewrite clear_bits by (try assumption; lia).
        rewrite Hmhigh by exact Hk. reflexivity.
      * intros j Hj. rewrite (clear_packet K HK) by (try assumption; lia).
        destruct (Z.leb_spec (i * K) j), (Z.ltb_spec j (i * K + K)); cbn [andb negb];
          try apply andb_false_r; try lia.
        rewrite Hbelow by lia. reflexivity.
      * nia.
      * lia.
      * exists m'. split; [exact Hm'|]. intros j Hj. rewrite (Hspec j Hj).
        rewrite clear_bits by assumption. rewrite andb_true_iff, negb_true_iff.
        split.
        -- intros [[Hact Hnh] Hrest]. split; [exact Hact|].
           intros [Hpa Hbit]. apply Hsplit in Hpa. destruct Hpa as [Hq|Hpa].
           ++ rewrite Hq in Hbit. fold i in Hbit.
              rewrite (hit_bits_set i j Hi Hfit Hj Hq Hbit) in Hnh. discriminate.
           ++ apply Hrest. split; assumption.
        -- intros [Hact Hno]. split; [split; [exact Hact|]|].
           ++ destruct (Z.testbit (Octant.wrap (Z.shiftl (hit i) (i * K))) j) eqn:E;
                [|reflexivity].
              exfalso. destruct (hit_bits i j Hi Hj E) as [Hq Hbit]. apply Hno.
              split; [apply Hsplit; left; exact Hq|rewrite Hq; exact Hbit].
           ++ intros [Hpa Hbit]. apply Hno. split; [|exact Hbit].
              apply Hsplit. right. exact Hpa.
Qed.
End OccludedLeaf.

(** The leaf loop of [occludedCoherentSOA], for a packet width [K] that
    divides 64, never fails its assertion and ends; afterwards [m_active]
    has lost exactly the rays that lie in a packet holding a ray of [bits]
    and that [occludedK] reported for that packet, and has gained none. *)
Theorem occluded_leaf_clears_hit_rays (K : Z) (hit : Z -> Z) (bits m_active : Z) :
  0 < K < 64 -> 64 mod K = 0 ->
  (forall i, 0 <= hit i < 2 ^ K) ->
  0 <= bits < 2 ^ 64 -> 0 <= m_active < 2 ^ 64 ->
  exists m', Masks.occluded_leaf 65 K hit bits m_active = Some m'
             /\ forall j, 0 <= j ->
                  (Z.testbit m' j = true
                   <-> Z.testbit m_active j = true
                       /\ ~ (Masks.packet_active K bits (j / K)
                             /\ Z.testbit (hit (j / K)) (j mod K) = true)).
Proof.
  intros HK Hdiv Hhit Hb Hm.
  apply (occluded_leaf_steps K HK Hdiv hit Hhit 65 bits m_active 0); try lia.
  - apply mask_high_bits. exact Hb.
  - apply mask_high_bits. exact Hm.
Qed.

Lemma occluded_leaf_clears_hit_rays_witness :
  exists m', Masks.occluded_leaf 65 4 (fun _ => 1) 48 255 = Some m'
             /\ forall j, 0 <= j ->
                  (Z.testbit m' j = true
                   <-> Z.testbit 255 j = true
                       /\ ~ (Masks.packet_active 4 48 (j / 4)
                             /\ Z.testbit 1 (j mod 4) = true)).
Proof.
  apply (occluded_leaf_clears_hit_rays 4 (fun _ => 1) 48 255);
    [lia|reflexivity|intros _; cbn; lia|lia|lia].
Defined.

(** ** The slab tests and the cull bound *)

Lemma fmin_mono_l (a a' b : flt) :
  flt_leb a a' = true -> flt_leb (fmin a b) (fmin a' b) = true.
Proof. intros H. flt_cases. Qed.

Lemma spec_t_far_mono (tf tf' : flt) (s : LaneSlab) :
  flt_leb tf' tf = true -> flt_leb (spec_t_far tf' s) (spec_t_far tf s) = true.
Proof.
  intros H. unfold spec_t_far. repeat apply fmin_mono_l. exact H.
Qed.

Lemma spec_hit_mono (tn tf tf' : flt) (s : LaneSlab) :
  flt_leb tf' tf = true -> spec_hit tn tf' s = true -> spec_hit tn tf s = true.
Proof.
  unfold spec_hit. intros H H'. eapply flt_leb_trans; [exact H'|].
  apply spec_t_far_mono, H.
Qed.

(** Both slab tests are monotone in the cull bound: for a lane whose
    [ray_tfar] is lowered, a child that was missed stays missed (a hit under
    the lower bound is a hit under the higher one), and the distance
    returned for the child does not depend on [ray_tfar] at all. *)
Theorem slab_tests_monotone_in_tfar (tr : TravRay) (r : Ray4) (rd : sse3f) (tf tf' : ssef)
        (b db : Boxes) (i l : lane) :
  flt_leb (get tf' l) (get tf l) = true ->
  (get (fst (box_node tr tf' b i)) l = true -> get (fst (box_node tr tf b i)) l = true)
  /\ get (snd (box_node tr tf' b i)) l = get (snd (box_node tr tf b i)) l
  /\ (get (fst (intersectBox r tf' rd b db i)) l = true ->
      get (fst (intersectBox r tf rd b db i)) l = true)
  /\ get (snd (intersectBox r tf' rd b db i)) l = get (snd (intersectBox r tf rd b db i)) l.
Proof.
  intros H.
  destruct (box_node_lane tr tf b i l) as [A1 A2].
  destruct (box_node_lane tr tf' b i l) as [A1' A2'].
  destruct (intersectBox_lane r tf rd b db i l) as [B1 B2].
  destruct (intersectBox_lane r tf' rd b db i l) as [B1' B2'].
  rewrite A1, A1', A2, A2', B1, B1', B2, B2'.
  split; [apply spec_hit_mono, H|]. split; [reflexivity|].
  split; [apply spec_hit_mono, H|reflexivity].
Qed.

Lemma slab_tests_monotone_in_tfar_witness :
  get (fst (box_node (load_ray (sample_config 1) lanes01 facing_rays)
                     (splat (fin 100)) overlapping L0)) L0 = true.
Proof.
  apply (proj1 (slab_tests_monotone_in_tfar
                  (load_ray (sample_config 1) lanes01 facing_rays) facing_rays
                  (rcp_axis (dir facing_rays)) (splat (fin 100)) (splat (fin 3))
                  overlapping overlapping L0 L0 eq_refl)).
  reflexivity.
Defined.

(** ** A packet without a valid lane *)

Lemma none_valid_splat (valid : sseb) : none valid = true -> valid = splat false.
Proof.
  intros H. apply vec4_ext. intros l. rewrite get_splat.
  unfold none in H. apply negb_true_iff in H. apply (proj1 (any_false_iff valid) H).
Qed.

(** With no lane valid both entry points pop the root, find no lane whose
    distance is below its cull bound, pop the sentinel and return the packet
    as it was: two passes, no box test, no call of the primitive intersector
    or of the single-ray walker, whatever the tree below a root that is not
    the sentinel. *)
Theorem no_valid_lane_returns_packet {Primitive : Type} (cfg : Config)
        (K : Kernels Primitive) (valid : sseb) (root : NodeRef Primitive) (r : Ray4) :
  none valid = true ->
  is_invalidNode root = false ->
  intersect cfg K 2 valid root r = Some (inr r)
  /\ occluded cfg K 2 valid root r = Some (inr r).
Proof.
  intros Hv Hroot. rewrite (none_valid_splat valid Hv). split.
  - unfold intersect, intersect_run, init_state.
    cbn [run intersect_step stack ray ray_tfar terminated]. rewrite Hroot.
    reflexivity.
  - unfold occluded, occluded_run, init_state.
    cbn [run occluded_step stack ray ray_tfar terminated]. rewrite Hroot.
    assert (Hn : none (vlt (ray_tnear (load_ray cfg (splat false) r))
                           (select (splat false) (tfar r) (splat neg_inf))) = true)
      by reflexivity.
    rewrite Hn. cbn [run occluded_step stack is_invalidNode finish_at_sentinel].
    unfold commit_occluded. cbn [ray terminated]. rewrite set_geomID_none. reflexivity.
Qed.

Lemma no_valid_lane_returns_packet_witness :
  intersect config_static facet_kernels 2 (splat false) tied_tree facing_rays
  = Some (inr facing_rays)
  /\ occluded config_static facet_kernels 2 (splat false) tied_tree facing_rays
     = Some (inr facing_rays).
Proof.
  apply (no_valid_lane_returns_packet config_static facet_kernels (splat false) tied_tree
                                      facing_rays); reflexivity.
Defined.

(** ** Any hit agrees with closest hit; neither depends on the switches *)

Lemma load_ray_rcp (cfg1 cfg2 : Config) (valid : sseb) (r : Ray4) :
  rcp_safe cfg1 = rcp_safe cfg2 -> load_ray cfg1 valid r = load_ray cfg2 valid r.
Proof. intros H. unfold load_ray. rewrite H. reflexivity. Qed.

Lemma occluded_result_lane (valid : sseb) (s : State Facet) (r0 : Ray4) (l : lane) :
  ray s = r0 -> get valid l = true ->
  ray_lane (commit_occluded valid s) l
  = if get (terminated s) l
    then mkRay1 (get3 (org r0) l) (get3 (dir r0) l) (get (tnear r0) l) (get (tfar r0) l)
                (get (time r0) l) (get (mask r0) l) (get3 (Ng r0) l) (get (u r0) l)
                (get (v r0) l) 0 (get (primID r0) l) (get (instID r0) l)
    else ray_lane r0 l.
Proof.
  intros Hray Hv. unfold commit_occluded, store4i, ray_lane. rewrite Hray.
  cbn [set_geomID org dir tnear tfar time mask Ng u v geomID primID instID].
  rewrite get_select. unfold vand. rewrite get_vmap2, Hv. cbn [andb].
  destruct (get (terminated s) l); [rewrite get_splat|]; reflexivity.
Qed.

Lemma occluded_final_state (cfg : Config) (valid : sseb) (root : NodeRef Facet) (r0 : Ray4)
      (l : lane) (fuel : nat) (ro : Ray4) :
  get valid l = true ->
  bounded (load_ray cfg valid r0) r0 l root ->
  occluded cfg facet_kernels fuel valid root r0 = Some (inr ro) ->
  exists s : State Facet,
    ro = commit_occluded valid s /\ ray s = r0
    /\ (get (terminated s) l = true <-> blocked r0 l (facets_under root)).
Proof.
  intros Hvalid Hb. unfold occluded.
  pose proof (occluded_run_lane cfg valid root r0 l fuel Hvalid Hb) as H.
  destruct (occluded_run cfg facet_kernels fuel valid root r0) as [s c|s|f];
    intros E; try discriminate.
  injection E as <-. exists s. cbn [outcome_sat] in H. destruct H as [H1 H2].
  split; [reflexivity|]. split; assumption.
Qed.

Lemma intersect_final_lane (cfg : Config) (valid : sseb) (root : NodeRef Facet) (r0 : Ray4)
      (l : lane) (fuel : nat) (ri : Ray4) :
  get valid l = true ->
  bounded (load_ray cfg valid r0) r0 l root ->
  intersect cfg facet_kernels fuel valid root r0 = Some (inr ri) ->
  sound_lane r0 l (facets_under root) (ray_lane ri l)
  /\ complete_lane r0 l (facets_under root) (get (tfar ri) l).
Proof.
  intros Hvalid Hb. unfold intersect.
  pose proof (hybrid_run_lane cfg valid root r0 l fuel Hvalid Hb) as H.
  destruct (intersect_run cfg facet_kernels fuel valid root r0) as [s c|s|f];
    intros E; try discriminate.
  injection E as <-. exact H.
Qed.

(** [occluded] and [intersect] agree on every valid lane whose primitives
    the tree bounds: either [occluded] marks the lane ([geomID = 0]) and
    [intersect] returns a [tfar] strictly below the one at entry, or both
    leave the lane exactly as it was. *)
Theorem occluded_agrees_with_intersect (cfg : Config) (valid : sseb) (root : NodeRef Facet)
        (r0 : Ray4) (l : lane) (fi fo : nat) (ri ro : Ray4) :
  get valid l = true ->
  bounded (load_ray cfg valid r0) r0 l root ->
  intersect cfg facet_kernels fi valid root r0 = Some (inr ri) ->
  occluded cfg facet_kernels fo valid root r0 = Some (inr ro) ->
  (get (geomID ro) l = 0 /\ flt_ltb (get (tfar ri) l) (get (tfar r0) l) = true)
  \/ (ray_lane ro l = ray_lane r0 l /\ ray_lane ri l = ray_lane r0 l).
Proof.
  intros Hvalid Hb Hi Ho.
  destruct (intersect_final_lane cfg valid root r0 l fi ri Hvalid Hb Hi) as [Hsound Hcomp].
  destruct (occluded_final_state cfg valid root r0 l fo ro Hvalid Hb Ho)
    as (s & -> & Hray & Hiff).
  pose proof (occluded_result_lane valid s r0 l Hray Hvalid) as Hlane.
  destruct (get (terminated s) l) eqn:Et.
  - left. split.
    + change (r_geomID (ray_lane (commit_occluded valid s) l) = 0).
      rewrite Hlane. reflexivity.
    + destruct (proj1 Hiff eq_refl) as (f & Hf & H1 & H2).
      eapply flt_leb_ltb_trans; [apply (Hcomp f Hf H1)|exact H2].
  - right. split; [exact Hlane|].
    destruct Hsound as [E|(f & Hf & _)]; [exact E|].
    exfalso. assert (Hb' : blocked r0 l (facets_under root)) by (exists f; exact Hf).
    apply Hiff in Hb'. discriminate.
Qed.

Lemma occluded_agrees_with_intersect_witness :
  match intersect (sample_config 1) facet_kernels 8 (splat true) untied_tree facing_rays,
        occluded (sample_config 1) facet_kernels 8 (splat true) untied_tree facing_rays with
  | Some (inr ri), Some (inr ro) =>
      (get (geomID ro) L1 = 0
       /\ flt_ltb (get (tfar ri) L1) (get (tfar facing_rays) L1) = true)
      \/ (ray_lane ro L1 = ray_lane facing_rays L1 /\ ray_lane ri L1 = ray_lane facing_rays L1)
  | _, _ => False
  end.
Proof.
  destruct (intersect (sample_config 1) facet_kernels 8 (splat true) untied_tree facing_rays)
    as [[f|ri]|] eqn:Ei; [vm_compute in Ei; discriminate Ei| |vm_compute in Ei; discriminate Ei].
  destruct (occluded (sample_config 1) facet_kernels 8 (splat true) untied_tree facing_rays)
    as [[f|ro]|] eqn:Eo; [vm_compute in Eo; discriminate Eo| |vm_compute in Eo; discriminate Eo].
  exact (occluded_agrees_with_intersect (sample_config 1) (splat true) untied_tree facing_rays
                                        L1 8%nat 8%nat ri ro eq_refl
                                        (untied_tree_bounded_all L1) Ei Eo).
Defined.

(** Neither result depends on the traversal heuristics: two configurations
    that agree on [rcp_safe] - whatever their switch threshold, their
    [SWITCH_DURING_DOWN_TRAVERSAL], their [types] mask and their stack
    capacity - and that both return a packet, return the same [tfar] from
    [intersect] for every valid lane whose primitives the tree bounds, the
    same lane in all fields when no two primitives met at the same distance
    differ in their identifier, and the same lane in all fields from
    [occluded]. *)
Theorem results_independent_of_switching (cfg1 cfg2 : Config) (valid : sseb)
        (root : NodeRef Facet) (r0 : Ray4) (l : lane) :
  rcp_safe cfg1 = rcp_safe cfg2 ->
  get valid l = true ->
  bounded (load_ray cfg1 valid r0) r0 l root ->
  (forall f1 f2 ra rb,
      intersect cfg1 facet_kernels f1 valid root r0 = Some (inr ra) ->
      intersect cfg2 facet_kernels f2 valid root r0 = Some (inr rb) ->
      get (tfar ra) l = get (tfar rb) l
      /\ (no_tie r0 l (facets_under root) -> ray_lane ra l = ray_lane rb l))
  /\ (forall f1 f2 oa ob,
         occluded cfg1 facet_kernels f1 valid root r0 = Some (inr oa) ->
         occluded cfg2 facet_kernels f2 valid root r0 = Some (inr ob) ->
         ray_lane oa l = ray_lane ob l).
Proof.
  intros Hrcp Hvalid Hb1.
  assert (Hb2 : bounded (load_ray cfg2 valid r0) r0 l root)
    by (rewrite <- (load_ray_rcp cfg1 cfg2 valid r0 Hrcp); exact Hb1).
  split.
  - intros f1 f2 ra rb Ha Hrb.
    destruct (intersect_final_lane cfg1 valid root r0 l f1 ra Hvalid Hb1 Ha) as [Hsa Hca].
    destruct (intersect_final_lane cfg2 valid root r0 l f2 rb Hvalid Hb2 Hrb) as [Hsb Hcb].
    apply (lane_result_unique r0 l (facets_under root) (ray_lane ra l) (ray_lane rb l));
      assumption.
  - intros f1 f2 oa ob Ha Hob.
    destruct (occluded_final_state cfg1 valid root r0 l f1 oa Hvalid Hb1 Ha)
      as (sa & -> & Hra & Hia).
    destruct (occluded_final_state cfg2 valid root r0 l f2 ob Hvalid Hb2 Hob)
      as (sb & -> & Hrb & Hib).
    rewrite (occluded_result_lane valid sa r0 l Hra Hvalid).
    rewrite (occluded_result_lane valid sb r0 l Hrb Hvalid).
    assert (E : get (terminated sa) l = get (terminated sb) l).
    { destruct (get (terminated sa) l) eqn:Ea, (get (terminated sb) l) eqn:Eb;
        try reflexivity.
      - exfalso. assert (X : false = true) by (apply Hib, Hia; reflexivity). discriminate X.
      - exfalso. assert (X : false = true) by (apply Hia, Hib; reflexivity). discriminate X. }
    rewrite E. reflexivity.
Qed.

Lemma results_independent_of_switching_witness :
  match intersect (sample_config 1) facet_kernels 8 (splat true) untied_tree facing_rays,
        intersect config_depth4 facet_kernels 8 (splat true) untied_tree facing_rays with
  | Some (inr ra), Some (inr rb) => get (tfar ra) L0 = get (tfar rb) L0
  | _, _ => False
  end.
Proof.
  destruct (intersect (sample_config 1) facet_kernels 8 (splat true) untied_tree facing_rays)
    as [[f|ra]|] eqn:Ea; [vm_compute in Ea; discriminate Ea| |vm_compute in Ea; discriminate Ea].
  destruct (intersect config_depth4 facet_kernels 8 (splat true) untied_tree facing_rays)
    as [[f|rb]|] eqn:Eb; [vm_compute in Eb; discriminate Eb| |vm_compute in Eb; discriminate Eb].
  exact (proj1 (proj1 (results_independent_of_switching
                         (sample_config 1) config_depth4 (splat true) untied_tree
                         facing_rays L0 eq_refl eq_refl (untied_tree_bounded_all L0))
                      8%nat 8%nat ra rb Ea Eb)).
Defined.

(** ** Repacking stays inside its packets *)

Section PacketsTouched.
Import Stream.
Variable K : nat.
Hypothesis HK : (0 < K)%nat.

Lemma construct_packets_beyond (np q : nat) (rayK : list RayK) :
  (np <= q)%nat -> nth_error (construct_packets K np rayK) q = nth_error rayK q.
Proof.
  revert q rayK. induction np as [|np IH]; intros q rayK Hq; [reflexivity|].
  destruct rayK as [|p rest]; [reflexivity|]. cbn [construct_packets].
  destruct q as [|q]; [lia|]. cbn [nth_error]. apply IH. lia.
Qed.

Lemma copy_ray_beyond (i q : nat) (r : Ray) (rayK : list RayK) :
  (i / K)%nat <> q -> nth_error (copy_ray K i r rayK) q = nth_error rayK q.
Proof.
  intros Hne. unfold copy_ray. destruct (nth_error rayK (i / K)); [|reflexivity].
  apply nth_error_upd_other. exact Hne.
Qed.

Lemma copy_loop_beyond (np q : nat) (rays : list Ray) (i0 : nat) (rayK : list RayK)
      (mn mx : flt * flt * flt) :
  (forall i, (i0 <= i < i0 + length rays)%nat -> (i / K < np)%nat) ->
  (np <= q)%nat ->
  nth_error (fst (fst (copy_loop K i0 rays (rayK, mn, mx)))) q = nth_error rayK q.
Proof.
  revert i0 rayK mn mx. induction rays as [|r rays IH]; intros i0 rayK mn mx Hin Hq;
    [reflexivity|].
  cbn [copy_loop]. cbn [length] in Hin. rewrite IH; [|intros i Hi; apply Hin; lia|exact Hq].
  apply copy_ray_beyond. pose proof (Hin i0 ltac:(lia)). lia.
Qed.

Lemma copy_loop_length (rays : list Ray) (i0 : nat) (rayK : list RayK)
      (mn mx : flt * flt * flt) :
  length (fst (fst (copy_loop K i0 rays (rayK, mn, mx)))) = length rayK.
Proof.
  revert i0 rayK mn mx. induction rays as [|r rays IH]; intros i0 rayK mn mx; [reflexivity|].
  cbn [copy_loop]. rewrite IH. unfold copy_ray.
  destruct (nth_error rayK (i0 / K)); [apply length_upd|reflexivity].
Qed.

Lemma packet_index_bound (n i : nat) : (i < n)%nat -> (i / K < (n + K - 1) / K)%nat.
Proof.
  intros Hi. apply Nat.Div0.div_lt_upper_bound.
  pose proof (Nat.div_mod_eq (n + K - 1) K) as Hdm.
  pose proof (Nat.mod_upper_bound (n + K - 1) K). nia.
Qed.
End PacketsTouched.

(** [AOStoSOA] stays inside the first [ceil(numTotalRays/K)] packets: ray [i]
    goes to packet [i/K] below that count and to a slot below [K], every
    packet from that count on is left as it was, and no packet is added or
    removed.  When [K] divides [MAX_RAYS] that count is within the
    [MAX_RAYS/K] packets of the local array of [intersectCoherent] and
    [occludedCoherent] exactly when [numTotalRays <= MAX_RAYS]. *)
Theorem AOStoSOA_stays_in_its_packets (K : nat) (rayK : list Stream.RayK)
        (rays : list Stream.Ray) (n : nat) :
  (0 < K)%nat ->
  (forall i, (i < n)%nat -> (i / K < (n + K - 1) / K)%nat /\ (i mod K < K)%nat)
  /\ (forall q, ((n + K - 1) / K <= q)%nat ->
                nth_error (fst (Stream.AOStoSOA K rayK rays n)) q = nth_error rayK q)
  /\ length (fst (Stream.AOStoSOA K rayK rays n)) = length rayK
  /\ ((MAX_RAYS mod K = 0)%nat ->
      (((n + K - 1) / K <= MAX_RAYS / K)%nat <-> (n <= MAX_RAYS)%nat)).
Proof.
  intros HK. split; [|split; [|split]].
  - intros i Hi. split; [apply packet_index_bound; assumption|].
    apply Nat.mod_upper_bound. lia.
  - intros q Hq. unfold Stream.AOStoSOA.
    pose proof (copy_loop_beyond K HK ((n + K - 1) / K)%nat q (firstn n rays) 0
                                 (Stream.construct_packets K ((n + K - 1) / K)%nat rayK)
                                 (pos_inf, pos_inf, pos_inf) (neg_inf, neg_inf, neg_inf)) as H.
    destruct (Stream.copy_loop K 0 (firstn n rays) _) as [[rayK' mn] mx]. cbn [fst] in *.
    rewrite H; [apply construct_packets_beyond; assumption| |exact Hq].
    intros i Hi. cbn [Nat.add] in Hi. rewrite length_firstn in Hi.
    apply packet_index_bound; [exact HK|lia].
  - unfold Stream.AOStoSOA.
    pose proof (copy_loop_length K (firstn n rays) 0
                                 (Stream.construct_packets K ((n + K - 1) / K)%nat rayK)
                                 (pos_inf, pos_inf, pos_inf) (neg_inf, neg_inf, neg_inf)) as H.
    destruct (Stream.copy_loop K 0 (firstn n rays) _) as [[rayK' mn] mx]. cbn [fst] in *.
    rewrite H. apply construct_packets_length.
  - intros Hdiv.
    pose proof (Nat.div_mod_eq MAX_RAYS K) as H1. rewrite Hdiv in H1.
    pose proof (Nat.div_mod_eq (n + K - 1) K) as H2.
    pose proof (Nat.mod_upper_bound (n + K - 1) K ltac:(lia)) as H3.
    split; intros H; nia.
Qed.

Lemma AOStoSOA_stays_in_its_packets_witness :
  (((70 + 4 - 1) / 4 <= MAX_RAYS / 4)%nat <-> (70 <= MAX_RAYS)%nat)
  /\ nth_error (fst (Stream.AOStoSOA 4 [Stream.blank; Stream.blank]
                                     [Stream.ray_behind; Stream.ray_ahead] 2)) 1
     = Some Stream.blank.
Proof.
  assert (HK : (0 < 4)%nat) by (repeat constructor).
  split.
  - apply (proj2 (proj2 (proj2 (AOStoSOA_stays_in_its_packets 4 [] [] 70 HK)))).
    reflexivity.
  - apply (proj1 (proj2 (AOStoSOA_stays_in_its_packets
                           4 [Stream.blank; Stream.blank]
                           [Stream.ray_behind; Stream.ray_ahead] 2 HK)) 1%nat).
    vm_compute. repeat constructor.
Defined.

(** ** Mode independence of the closest hit *)

Lemma well_formed_types {Primitive : Type} (cfg1 cfg2 : Config) (n : NodeRef Primitive) :
  types cfg1 = types cfg2 -> well_formed cfg1 n -> well_formed cfg2 n.
Proof.
  intros Ht. induction n as [| |c0 IH0 c1 IH1 c2 IH2 c3 IH3 b
                               |c0 IH0 c1 IH1 c2 IH2 c3 IH3 b db|ps];
    cbn [well_formed]; try (intros H; exact H).
  - intros [Hb HF]. split; [rewrite <- Ht; exact Hb|].
    eapply Forall_impl; [|exact HF]. intros k; destruct k; assumption.
  - intros [Hb HF]. split; [rewrite <- Ht; exact Hb|].
    eapply Forall_impl; [|exact HF]. intros k; destruct k; assumption.
Qed.

(** On a well-formed tree that fits the stack [intersect] returns a packet. *)
Lemma intersect_returns_packet {Primitive : Type} (cfg : Config) (K : Kernels Primitive)
      (valid : sseb) (root : NodeRef Primitive) (r : Ray4) :
  well_formed cfg root ->
  (stack_bound (depth root) <= stackSizeChunk cfg)%nat ->
  exists r', intersect cfg K (2 * weight root + 4) valid root r = Some (inr r').
Proof.
  intros Hwf Hcap.
  destruct (intersect_returns cfg K valid root r) as [[f|r'] Hres].
  - exfalso. unfold intersect in Hres.
    pose proof (intersect_run_guarded cfg K valid root r Hwf Hcap (2 * weight root + 4)) as H.
    destruct (intersect_run cfg K (2 * weight root + 4) valid root r) as [s c|s|f'];
      try discriminate.
    exact H.
  - exists r'. exact Hres.
Qed.

(** A lane that is sound and complete is determined up to the primitives
    met at its nearest hit distance. *)
Lemma lane_result_nearest (r0 : Ray4) (l : lane) (F : list Facet) (x y : Ray1) :
  sound_lane r0 l F x -> complete_lane r0 l F (r_tfar x) ->
  sound_lane r0 l F y -> complete_lane r0 l F (r_tfar y) ->
  r_tfar x = r_tfar y /\ (no_nearest_tie r0 l F -> x = y).
Proof.
  intros Hsx Hcx Hsy Hcy.
  split; [apply (lane_result_unique r0 l F x y Hsx Hcx Hsy Hcy)|].
  destruct Hsx as [->|(f & Hf & ->)]; destruct Hsy as [->|(g & Hg & ->)].
  - intros _. reflexivity.
  - exfalso. destruct Hg as (Hg1 & Hg2 & Hg3).
    specialize (Hcx g Hg1 Hg2). cbn in Hcx.
    rewrite flt_ltb_negb_leb, Hcx in Hg3. discriminate.
  - exfalso. destruct Hf as (Hf1 & Hf2 & Hf3).
    specialize (Hcy f Hf1 Hf2). cbn in Hcy.
    rewrite flt_ltb_negb_leb, Hcy in Hf3. discriminate.
  - pose proof Hf as (Hf1 & Hf2 & Hf3). pose proof Hg as (Hg1 & Hg2 & Hg3).
    pose proof (Hcx g Hg1 Hg2) as H1. pose proof (Hcy f Hf1 Hf2) as H2.
    cbn in H1, H2. pose proof (flt_leb_antisym _ _ H1 H2) as Heq.
    intros Hnt.
    assert (Hmin : forall h, relevant r0 l F h ->
                             flt_leb (get (facet_t f) l) (get (facet_t h) l) = true).
    { intros h (Hh1 & Hh2 & _). exact (Hcx h Hh1 Hh2). }
    unfold facet_hit, take_hit. rewrite Heq, (Hnt f g Hf Hg Hmin Heq). reflexivity.
Qed.

(** C1 (as amended): mode independence of closest-hit [intersect], in exact
    arithmetic (so without the rounding differences the claim sets aside),
    over primitives given by their per-lane hit distance, with the
    single-ray walker of section 4.3.  Let the tree bound its primitives
    for every valid lane.  Whenever the driver returns a packet both with
    switch threshold 0 (packet traversal only) and with switch threshold 4
    (single-ray traversal after the first pop), the two packets carry the
    same [tfar] in every lane; an invalid lane is the same in all its
    fields; a valid lane is the same in all its fields (hit attributes
    included) provided the primitives the lane meets at its nearest hit
    distance carry the same identifier.  Both modes do return a packet when
    the tree holds no sentinel reference, has only node variants that the
    [types] mask enables, and its depth [d] satisfies
    [3*d*(d+1)/2 + 2 <= stackSizeChunk]. *)
Theorem mode_independence (cfg : Config) (valid : sseb) (root : NodeRef Facet) (r0 : Ray4) :
  (forall l, get valid l = true -> bounded (load_ray cfg valid r0) r0 l root) ->
  (well_formed cfg root ->
   (stack_bound (depth root) <= stackSizeChunk cfg)%nat ->
   exists ra rb,
     intersect (with_threshold cfg 0) facet_kernels (2 * weight root + 4) valid root r0
     = Some (inr ra)
     /\ intersect (with_threshold cfg 4) facet_kernels (2 * weight root + 4) valid root r0
        = Some (inr rb))
  /\ forall fa fb ra rb,
      intersect (with_threshold cfg 0) facet_kernels fa valid root r0 = Some (inr ra) ->
      intersect (with_threshold cfg 4) facet_kernels fb valid root r0 = Some (inr rb) ->
      forall l,
        get (tfar ra) l = get (tfar rb) l
        /\ (get valid l = false ->
            ray_lane ra l = ray_lane r0 l /\ ray_lane rb l = ray_lane r0 l)
        /\ (no_nearest_tie r0 l (facets_under root) -> ray_lane ra l = ray_lane rb l).
Proof.
  intros Hb. split.
  - intros Hwf Hcap.
    destruct (intersect_returns_packet (with_threshold cfg 0) facet_kernels valid root r0
                (well_formed_types cfg (with_threshold cfg 0) root eq_refl Hwf) Hcap)
      as [ra Ha].
    destruct (intersect_returns_packet (with_threshold cfg 4) facet_kernels valid root r0
                (well_formed_types cfg (with_threshold cfg 4) root eq_refl Hwf) Hcap)
      as [rb Hrb].
    exists ra, rb. split; assumption.
  - intros fa fb ra rb Ha Hrb l.
    destruct (get valid l) eqn:Hv.
    + destruct (intersect_final_lane (with_threshold cfg 0) valid root r0 l fa ra
                                     Hv (Hb l Hv) Ha) as [Hsa Hca].
      destruct (intersect_final_lane (with_threshold cfg 4) valid root r0 l fb rb
                                     Hv (Hb l Hv) Hrb) as [Hsb Hcb].
      destruct (lane_result_nearest r0 l (facets_under root)
                                    (ray_lane ra l) (ray_lane rb l) Hsa Hca Hsb Hcb)
        as [Ht Hall].
      split; [exact Ht|]. split; [discriminate|exact Hall].
    + pose proof (finished_inactive_lane _ _ facet_kernels_contract valid root r0 ra fa l
                                         Hv Ha) as Ea.
      pose proof (finished_inactive_lane _ _ facet_kernels_contract valid root r0 rb fb l
                                         Hv Hrb) as Eb.
      assert (E : ray_lane ra l = ray_lane rb l) by (rewrite Ea, Eb; reflexivity).
      split; [apply ray_lane_tfar, E|]. split; [intros _; split; assumption|intros _; exact E].
Qed.

Lemma far_tie_tree_bounded (l : lane) :
  bounded (load_ray config_static lanes01 facing_rays) facing_rays l far_tie_tree.
Proof.
  unfold far_tie_tree. cbn [bounded]. change (live_of _ _) with [L0; L1].
  apply Forall_cons; [split; [|exact I]|apply Forall_cons; [split; [|exact I]|apply Forall_nil]].
  all: intros f Hf _; cbn in Hf.
  all: repeat (destruct Hf as [<-|Hf]); try contradiction.
  all: destruct l; vm_compute; split; reflexivity.
Qed.

Lemma far_tie_tree_lane0 : no_nearest_tie facing_rays L0 (facets_under far_tie_tree).
Proof.
  intros f g (Hf & Hf1 & Hf2) (Hg & _) Hmin E. cbn in Hf, Hg.
  assert (H1 : relevant facing_rays L0 (facets_under far_tie_tree)
                        (mkFacet (mk4 (fin 5) (fin 5) (fin 5) (fin 5)) 1)).
  { split; [left; reflexivity|split; reflexivity]. }
  specialize (Hmin _ H1).
  repeat (destruct Hf as [<-|Hf]); try contradiction;
    repeat (destruct Hg as [<-|Hg]); try contradiction;
    try reflexivity; cbn in E, Hmin; discriminate.
Qed.

Lemma mode_independence_witness :
  ~ no_tie facing_rays L0 (facets_under far_tie_tree)
  /\ exists ra rb,
      intersect (with_threshold config_static 0) facet_kernels
                (2 * weight far_tie_tree + 4) lanes01 far_tie_tree facing_rays = Some (inr ra)
      /\ intersect (with_threshold config_static 4) facet_kernels
                   (2 * weight far_tie_tree + 4) lanes01 far_tie_tree facing_rays
         = Some (inr rb)
      /\ (forall l, get (tfar ra) l = get (tfar rb) l)
      /\ ray_lane ra L0 = ray_lane rb L0.
Proof.
  split.
  - intros H.
    assert (E : (2 : Z) = 3); [|discriminate E].
    apply (H (mkFacet (mk4 (fin 6) (fin 4) (fin 6) (fin 6)) 2)
             (mkFacet (mk4 (fin 6) (fin 4) (fin 6) (fin 6)) 3)).
    + split; [right; left; reflexivity|split; reflexivity].
    + split; [right; right; left; reflexivity|split; reflexivity].
    + reflexivity.
  - destruct (mode_independence config_static lanes01 far_tie_tree facing_rays
                                (fun l _ => far_tie_tree_bounded l))
      as [Hret Heq].
    destruct Hret as (ra & rb & Ha & Hb).
    + cbn. split; [reflexivity|]. repeat constructor.
    + vm_compute. lia.
    + exists ra, rb. split; [exact Ha|]. split; [exact Hb|]. split.
      * intros l. apply (Heq _ _ ra rb Ha Hb l).
      * apply (Heq _ _ ra rb Ha Hb L0), far_tie_tree_lane0.
Defined.

(** C1, as worded, fails on a tie at the nearest distance: [tied_tree], a
    static node over two leaves as the source instantiates the driver
    ([types = 0x1]), bounds its primitives for both valid lanes and fits
    the stack; lane 0 meets the primitives 1 and 2 at the same distance 5,
    and the packet walker (which descends into child 1 first, nearer for
    lane 1) reports primitive 2 for lane 0 where the single-ray walker
    reports primitive 1. *)
Lemma mode_independence_tie_counterexample :
  well_formed config_static tied_tree
  /\ (stack_bound (depth tied_tree) <= stackSizeChunk config_static)%nat
  /\ (forall l, get lanes01 l = true ->
                bounded (load_ray config_static lanes01 facing_rays) facing_rays l tied_tree)
  /\ exists ra rb,
      intersect (with_threshold config_static 0) facet_kernels
                (2 * weight tied_tree + 4) lanes01 tied_tree facing_rays = Some (inr ra)
      /\ intersect (with_threshold config_static 4) facet_kernels
                   (2 * weight tied_tree + 4) lanes01 tied_tree facing_rays = Some (inr rb)
      /\ get (tfar ra) L0 = fin 5 /\ get (tfar rb) L0 = fin 5
      /\ get (primID ra) L0 = 2 /\ get (primID rb) L0 = 1
      /\ ray_lane ra L0 <> ray_lane rb L0.
Proof.
  split; [cbn; split; [reflexivity|repeat constructor]|].
  split; [vm_compute; lia|]. split; [intros l _; exact (tied_tree_bounded l)|].
  eexists. eexists. split; [vm_compute; reflexivity|]. split; [vm_compute; reflexivity|].
  repeat split; try reflexivity. vm_compute. discriminate.
Qed.
